(** * CppInject: the service collection, the service provider and its scopes

    A shallow embedding of [ServiceCollection.h] and [IServiceProvider.h]:
    the registrations, the provider/scope runtime that materialises
    instances lazily, and the teardown of a provider or a scope.  The
    promise/future based provider is embedded in [Module Current] and
    [Module Threads], the earlier provider without synchronisation in
    [Module Legacy].

    Conventions of the embedding.
    - [std::type_index] is the name of the type (a string);
      [typeid(T).name()] is that string.
    - An object lives in a heap that only grows; its address is its
      position in the heap.  [std::make_shared] / [std::make_unique] take
      the next free address.
    - [std::any] holds nothing, a [std::shared_ptr] (to an object of the
      heap, or an empty one) or a [std::reference_wrapper].
    - [Module Current] is the code as one thread runs it, from the call to
      the return, with no other thread in between; [Module Threads] is the
      same code cut at the places where another thread can run, and its
      programs are the interleavings of the steps of any number of
      threads.  The two agree on the programs of one thread.
    - [shared_future::get] on a promise that was never fulfilled does not
      return ([Blocked]; in [Threads], a thread that cannot move).
    - A factory closure talks to the provider it is given through
      [getService] and [getServices] only; it is a finite tree of such
      calls ending in a construction, in an empty pointer or in an
      exception.
    - Applying [*] to an empty [shared_ptr] is undefined behaviour:
      [Undefined], an outcome about which nothing is stated.
    - Recursion through the registry is bounded by fuel; [OutOfFuel] stands
      for a recursion that was cut, it is not a result of the program. *)

From stdpp Require Import gmap strings list fin_maps.
From Stdlib Require Import ZArith NArith Lia.

Set Default Proof Using "Type".

(** ** Values shared by both providers *)

Definition type_index := string.
Definition ptr := nat.

Inductive any :=
| AnyEmpty
| AnyShared (p : ptr)
| AnyRef (p : ptr)
| AnyNull.   (* holds a [std::shared_ptr] that is empty *)

#[global] Instance any_eq_dec : EqDecision any.
Proof. solve_decision. Defined.

Definition has_value (a : any) : bool :=
  match a with AnyEmpty => false | _ => true end.

Inductive ServiceType := Singleton | Scoped | Transient.

#[global] Instance ServiceType_eq_dec : EqDecision ServiceType.
Proof. solve_decision. Defined.

Inductive exn :=
| bad_any_cast
| out_of_range
| logic_error (what : string)
| user_exception (what : string).

#[global] Instance exn_eq_dec : EqDecision exn.
Proof. solve_decision. Defined.

(** A constructor argument is one handle or a vector of handles. *)
Inductive ctor_arg :=
| ArgOne (a : any)
| ArgMany (l : list any).

Record Obj := mkObj { impl : string; args : list ctor_arg }.

(** The body of a factory closure [(IServiceProvider&) -> std::unique_ptr<T>]:
    it returns a new object, or an empty pointer, or it throws. *)
Inductive Closure :=
| MakeUnique (impl : string) (args : list ctor_arg)
| CallGetService (t : type_index) (k : any -> Closure)
| CallGetServices (t : type_index) (k : list any -> Closure)
| Throw (e : exn)
| ReturnNull.

(** [FactoryFunction]: either a closure whose result is wrapped into a
    [shared_ptr], or the closure of [addSingleton(existingService)] that
    hands out the captured [shared_ptr], which points to an object. *)
Inductive FactoryFunction :=
| Build (c : Closure)
| Share (p : ptr).

Record ServiceDescription := mkDesc {
  create : FactoryFunction;
  convert : any -> option any;   (* [None]: the [any_cast] inside throws *)
  type : ServiceType
}.

Abbreviation FactoryFunctionCollection := (list ServiceDescription).

(** The two conversion closures the collection installs.  [convert_ref]
    is [std::ref] of the object the [any_cast] pointer refers to; it is
    not applied to an empty [shared_ptr] here, see [convert_deref].
    [convert_shared] is [std::static_pointer_cast] of the [any_cast]
    pointer, which maps an empty pointer to an empty pointer. *)
Definition convert_ref (managedData : any) : option any :=
  match managedData with AnyShared p => Some (AnyRef p) | _ => None end.

Definition convert_shared (managedData : any) : option any :=
  match managedData with
  | AnyShared p => Some (AnyShared p)
  | AnyNull => Some AnyNull
  | _ => None
  end.

(** ** [size_t] arithmetic and checked vector access *)

Definition size_t_max : N := (2 ^ 64 - 1)%N.

(** [v.size() - 1] on [size_t]. *)
Definition size_minus_1 {A} (v : list A) : N :=
  Z.to_N ((Z.of_nat (length v) - 1) mod 2 ^ 64).

(** [v.at(index)]; [None] stands for [std::out_of_range]. *)
Definition vec_at {A} (v : list A) (index : N) : option A :=
  if (index <? N.of_nat (length v))%N then v !! N.to_nat index else None.

(** ** [ConstructorFinder.h] and [ServiceFactory]

    The argument types of the constructor, as [ConstructorArgsAsTuple]
    lists them, decide how each argument is fetched. *)
Inductive ArgType :=
| ByRef (t : string)          (* T&                                  *)
| BySharedPtr (t : string)    (* std::shared_ptr<T>                  *)
| VecOfRef (t : string)       (* std::vector<reference_wrapper<T>>   *)
| VecOfSharedPtr (t : string) (* std::vector<std::shared_ptr<T>>     *).

Definition shared_ptr_of (t : string) : type_index :=
  ("std::shared_ptr<" ++ t ++ ">")%string.

Definition is_ref (a : any) : bool := match a with AnyRef _ => true | _ => false end.
(** [std::any_cast<std::shared_ptr<T>>] succeeds, also on an empty pointer. *)
Definition is_shared (a : any) : bool :=
  match a with AnyShared _ | AnyNull => true | _ => false end.

(** [ServiceFactory<TService>::createInternal<Tuple, I>]. *)
Fixpoint createInternal (TService : string) (tuple : list ArgType)
    (sofar : list ctor_arg) : Closure :=
  match tuple with
  | [] => MakeUnique TService sofar
  | ByRef t :: rest =>
      CallGetService t (fun a =>
        if is_ref a then createInternal TService rest (sofar ++ [ArgOne a])
        else Throw bad_any_cast)
  | BySharedPtr t :: rest =>
      CallGetService (shared_ptr_of t) (fun a =>
        if is_shared a then createInternal TService rest (sofar ++ [ArgOne a])
        else Throw bad_any_cast)
  | VecOfRef t :: rest =>
      CallGetServices t (fun l =>
        if forallb is_ref l then createInternal TService rest (sofar ++ [ArgMany l])
        else Throw bad_any_cast)
  | VecOfSharedPtr t :: rest =>
      CallGetServices (shared_ptr_of t) (fun l =>
        if forallb is_shared l then createInternal TService rest (sofar ++ [ArgMany l])
        else Throw bad_any_cast)
  end.

(** [ServiceFactory<TService>::create]. *)
Definition ServiceFactory_create (TService : string) (ctor : list ArgType) : Closure :=
  createInternal TService ctor [].

(** A closure that never returns an empty pointer, whatever the provider
    answers: every path ends in a construction or in an exception. *)
Fixpoint constructs (c : Closure) : Prop :=
  match c with
  | MakeUnique _ _ => True
  | CallGetService _ k => forall a, constructs (k a)
  | CallGetServices _ k => forall l, constructs (k l)
  | Throw _ => True
  | ReturnNull => False
  end.

(** ** [ConstructorFinder.h]: counting constructor arguments *)

Module ConstructorFinder.

(** [detail::numberOfConstructorArgsIntern<T, ArgIndices...>], called with
    [0].  Overload resolution takes the [int] overload when
    [T(ToConstructorArgTypeConvertible<T, ArgIndices>{}...)] is well
    formed, and otherwise the [char] overload, which calls the function
    again with one more index.  [constructible n] tells whether [T] can be
    constructed from [n] such placeholders (a placeholder converts to any
    type but [T], so copy and move construction do not count),
    [nArgIndices] is [sizeof...(ArgIndices)], and [depth] bounds the
    instantiations the compiler goes through; [None] is a compilation
    that gives up. *)
Fixpoint numberOfConstructorArgsIntern (constructible : nat -> bool) (depth : nat)
    (nArgIndices : nat) : option nat :=
  match depth with
  | 0 => None
  | S depth' =>
      if constructible nArgIndices then Some nArgIndices
      else numberOfConstructorArgsIntern constructible depth' (S nArgIndices)
  end.

(** [numberOfConstructorArgs<T>()]. *)
Definition numberOfConstructorArgs (constructible : nat -> bool) (depth : nat)
    : option nat :=
  numberOfConstructorArgsIntern constructible depth 0.

End ConstructorFinder.

(** ** [ServiceCollection]: the registrations *)

Module ServiceCollection.

Abbreviation t := (gmap type_index FactoryFunctionCollection).

(** A default-constructed collection. *)
Definition fresh : t := ∅.

(** [_factories.emplace(typeIndex, {}).first->second.emplace_back(d)]. *)
Definition emplace_back (typeIndex : type_index) (d : ServiceDescription)
    (_factories : t) : t :=
  match _factories !! typeIndex with
  | Some serviceFactories => <[typeIndex := serviceFactories ++ [d]]> _factories
  | None => <[typeIndex := [] ++ [d]]> _factories
  end.

(** [addService<TService, TImplementation, serviceType>()]. *)
Definition addService (TService TImplementation : string) (ctor : list ArgType)
    (serviceType : ServiceType) : t -> t :=
  emplace_back TService
    (mkDesc (Build (ServiceFactory_create TImplementation ctor)) convert_ref serviceType).

(** [addService<TService, serviceType>(F&& factory)]. *)
Definition addServiceF (TService : string) (factory : FactoryFunction)
    (serviceType : ServiceType) : t -> t :=
  emplace_back TService (mkDesc factory convert_ref serviceType).

Definition addSingleton (TService TImplementation : string) (ctor : list ArgType) :=
  addService TService TImplementation ctor Singleton.

Definition addScoped (TService TImplementation : string) (ctor : list ArgType) :=
  addService TService TImplementation ctor Scoped.

Definition addSingletonF (TService : string) (factory : Closure) :=
  addServiceF TService (Build factory) Singleton.

Definition addScopedF (TService : string) (factory : Closure) :=
  addServiceF TService (Build factory) Scoped.

(** [addSingleton(std::shared_ptr<TImplementation> existingService)],
    [existingService] pointing to an object.  With an empty
    [existingService] the registration is that of a factory returning an
    empty pointer, [addSingletonF TService ReturnNull]. *)
Definition addSingletonExisting (TService : string) (existingService : ptr) :=
  addServiceF TService (Share existingService) Singleton.

(** [addTransient<TService, TImplementation>()]: the key is
    [typeid(std::shared_ptr<TService>)]. *)
Definition addTransient (TService TImplementation : string) (ctor : list ArgType) : t -> t :=
  emplace_back (shared_ptr_of TService)
    (mkDesc (Build (ServiceFactory_create TImplementation ctor)) convert_shared Transient).

Definition addTransientF (TService : string) (factory : Closure) : t -> t :=
  emplace_back (shared_ptr_of TService)
    (mkDesc (Build factory) convert_shared Transient).

(** One call of the registration interface. *)
Inductive Registration :=
  | AddSingleton (TService TImplementation : string) (ctor : list ArgType)
  | AddScoped (TService TImplementation : string) (ctor : list ArgType)
  | AddTransient (TService TImplementation : string) (ctor : list ArgType)
  | AddSingletonF (TService : string) (factory : Closure)
  | AddScopedF (TService : string) (factory : Closure)
  | AddTransientF (TService : string) (factory : Closure)
  | AddSingletonExisting (TService : string) (existingService : ptr).

Definition register (r : Registration) : t -> t :=
  match r with
  | AddSingleton s i c => addSingleton s i c
  | AddScoped s i c => addScoped s i c
  | AddTransient s i c => addTransient s i c
  | AddSingletonF s f => addSingletonF s f
  | AddScopedF s f => addScopedF s f
  | AddTransientF s f => addTransientF s f
  | AddSingletonExisting s p => addSingletonExisting s p
  end.

(** The collection after a sequence of registrations, first to last. *)
Definition registerAll (rs : list Registration) (c : t) : t :=
  foldl (fun acc r => register r acc) c rs.

(** [build()] copies [_factories] into the new provider. *)
Definition build (c : t) : t := c.

End ServiceCollection.

Abbreviation Registry := (gmap type_index FactoryFunctionCollection).

(** ** What a sequence of registrations builds *)

Module Registrations.
Import ServiceCollection.

(** The type key and the descriptor one registration call produces. *)
Definition key_of (r : Registration) : type_index :=
  match r with
  | AddSingleton s _ _ | AddScoped s _ _ | AddSingletonF s _ | AddScopedF s _
  | AddSingletonExisting s _ => s
  | AddTransient s _ _ | AddTransientF s _ => shared_ptr_of s
  end.

Definition desc_of (r : Registration) : ServiceDescription :=
  match r with
  | AddSingleton _ i c => mkDesc (Build (ServiceFactory_create i c)) convert_ref Singleton
  | AddScoped _ i c => mkDesc (Build (ServiceFactory_create i c)) convert_ref Scoped
  | AddTransient _ i c => mkDesc (Build (ServiceFactory_create i c)) convert_shared Transient
  | AddSingletonF _ f => mkDesc (Build f) convert_ref Singleton
  | AddScopedF _ f => mkDesc (Build f) convert_ref Scoped
  | AddTransientF _ f => mkDesc (Build f) convert_shared Transient
  | AddSingletonExisting _ p => mkDesc (Share p) convert_ref Singleton
  end.

(** The descriptors the calls [rs] register under [k], in call order. *)
Definition registered_under (k : type_index) (rs : list Registration)
    : FactoryFunctionCollection :=
  desc_of <$> filter (fun r => key_of r = k) rs.

End Registrations.

(** Which provider object: the root [ServiceProvider] or one of its
    [ScopedServiceProvider]s. *)
Inductive Provider :=
| Root
| Scope (id : nat).

#[global] Instance Provider_eq_dec : EqDecision Provider.
Proof. solve_decision. Defined.

(** One call of [desc.create]: a history variable of the embedding, read by
    no operation. [inv_owner] is [serviceProviderForThisService],
    [inv_ctx] is [serviceProviderForDependentServices]. *)
Record Invocation := mkInv {
  inv_owner : Provider;
  inv_key : type_index;
  inv_index : nat;
  inv_ctx : Provider
}.

#[global] Instance Invocation_eq_dec : EqDecision Invocation.
Proof. solve_decision. Defined.

(** ** The promise/future based provider *)

Module Current.

(** [ConcurrentService]: [serviceFuture] is [None] until
    [servicePromise.set_value] ran. *)
Record ConcurrentService := mkCS {
  initialized : bool;
  serviceFuture : option any
}.

Definition ConcurrentService_new : ConcurrentService := mkCS false None.

(** The members every provider object has. *)
Record Members := mkMembers {
  _initializationOrder : list any;
  _instances : gmap type_index (list ConcurrentService)
}.

Definition Members_new : Members := mkMembers [] ∅.

Record World := mkWorld {
  root : Members;
  scopes : gmap nat Members;
  next_scope : nat;
  heap : list Obj;
  invocations : list Invocation
}.

(** The world right after [build()]: [heap0] holds the objects that
    existed before. *)
Definition World_new (heap0 : list Obj) : World :=
  mkWorld Members_new ∅ 0 heap0 [].

Definition members (p : Provider) (w : World) : Members :=
  match p with
  | Root => root w
  | Scope id => default Members_new (scopes w !! id)
  end.

Definition set_members (p : Provider) (m : Members) (w : World) : World :=
  match p with
  | Root => mkWorld m (scopes w) (next_scope w) (heap w) (invocations w)
  | Scope id => mkWorld (root w) (<[id := m]> (scopes w)) (next_scope w) (heap w) (invocations w)
  end.

(** [instances[index]] of the array stored under [key]. *)
Definition slot (p : Provider) (key : type_index) (index : nat) (w : World)
    : ConcurrentService :=
  match _instances (members p w) !! key with
  | Some arr => default ConcurrentService_new (arr !! index)
  | None => ConcurrentService_new
  end.

Definition set_slot (p : Provider) (key : type_index) (index : nat)
    (cs : ConcurrentService) (w : World) : World :=
  let m := members p w in
  match _instances m !! key with
  | Some arr =>
      set_members p (mkMembers (_initializationOrder m)
                       (<[key := <[index := cs]> arr]> (_instances m))) w
  | None => w
  end.

(** [_instances.emplace(key, nullptr)] and, when that inserted,
    [make_unique<ConcurrentService[]>(size)]. *)
Definition emplace_instances (p : Provider) (key : type_index) (size : nat)
    (w : World) : World :=
  let m := members p w in
  match _instances m !! key with
  | Some _ => w
  | None =>
      set_members p (mkMembers (_initializationOrder m)
                       (<[key := replicate size ConcurrentService_new]> (_instances m))) w
  end.

(** [_initializationOrder.emplace_back(v)]. *)
Definition push_order (p : Provider) (v : any) (w : World) : World :=
  let m := members p w in
  set_members p (mkMembers (_initializationOrder m ++ [v]) (_instances m)) w.

Definition alloc (o : Obj) (w : World) : World :=
  mkWorld (root w) (scopes w) (next_scope w) (heap w ++ [o]) (invocations w).

Definition record_invocation (e : Invocation) (w : World) : World :=
  mkWorld (root w) (scopes w) (next_scope w) (heap w) (invocations w ++ [e]).

(** *** Outcomes and the monad of provider code *)

Inductive outcome (A : Type) :=
  | Done (a : A) (w : World)
  | Raised (e : exn) (w : World)
  | Blocked
  | OutOfFuel
  | Undefined.
Arguments Done {A} a w.
Arguments Raised {A} e w.
Arguments Blocked {A}.
Arguments OutOfFuel {A}.
Arguments Undefined {A}.

Definition M (A : Type) := World -> outcome A.

Definition ret {A} (a : A) : M A := fun w => Done a w.
Definition raise {A} (e : exn) : M A := fun w => Raised e w.
Definition bind {A B} (f : A -> M B) (m : M A) : M B :=
  fun w => match m w with
           | Done a w' => f a w'
           | Raised e w' => Raised e w'
           | Blocked => Blocked
           | OutOfFuel => OutOfFuel
           | Undefined => Undefined
           end.

#[global] Instance M_ret : MRet M := @ret.
#[global] Instance M_bind : MBind M := @bind.

(** [desc.convert(v)]. *)
Definition apply_convert (desc : ServiceDescription) (v : any) : M any :=
  match convert desc v with
  | Some h => ret h
  | None => raise bad_any_cast
  end.

(** [desc.convert(v)] for a Singleton or Scoped descriptor.  Such a
    descriptor is installed by [addService], and the conversion closure of
    both overloads evaluates [*std::any_cast<SharedPtrType&>(managedData)]:
    on an empty [shared_ptr] the behaviour is undefined. *)
Definition convert_deref (desc : ServiceDescription) (v : any) : M any :=
  match v with
  | AnyNull => fun _ => Undefined
  | _ => apply_convert desc v
  end.

(** Running a closure against the provider [sp] it was handed;
    [gs] and [gss] are [sp.getService] and [sp.getServices]. *)
Fixpoint runClosure (gs : type_index -> M any) (gss : type_index -> M (list any))
    (c : Closure) : M any :=
  match c with
  | MakeUnique impl args =>
      fun w => Done (AnyShared (length (heap w))) (alloc (mkObj impl args) w)
  | CallGetService t k => fun w =>
      match gs t w with
      | Done a w' => runClosure gs gss (k a) w'
      | Raised e w' => Raised e w'
      | Blocked => Blocked
      | OutOfFuel => OutOfFuel
      | Undefined => Undefined
      end
  | CallGetServices t k => fun w =>
      match gss t w with
      | Done l w' => runClosure gs gss (k l) w'
      | Raised e w' => Raised e w'
      | Blocked => Blocked
      | OutOfFuel => OutOfFuel
      | Undefined => Undefined
      end
  | Throw e => raise e
  | ReturnNull => ret AnyNull
  end.

Definition runFactory (gs : type_index -> M any) (gss : type_index -> M (list any))
    (f : FactoryFunction) : M any :=
  match f with
  | Build c => runClosure gs gss c
  | Share p => ret (AnyShared p)
  end.

Definition is_Scoped (ty : ServiceType) : bool :=
  match ty with Scoped => true | _ => false end.

(** The static [ScopedServiceProvider::getService(factories, this, deps, index)],
    as the provider and the scope call it. *)
Definition Resolver :=
  type_index -> FactoryFunctionCollection -> Provider -> Provider -> N -> M any.

Section Lookup.
Variable _factories : Registry.
Variable resolve : Resolver.

(** [ServiceProvider::getService(type)] and
    [ScopedServiceProvider::getService(type)], by the receiver. *)
Definition getService_with (self : Provider) (ty : type_index) : M any :=
  match _factories !! ty with
  | None => ret AnyEmpty
  | Some factories =>
      match self with
      | Root => resolve ty factories Root Root (size_minus_1 factories)
      | Scope id =>
          (* [front()] of an empty vector is undefined; both branches
             then fail in [at] the same way *)
          let frontScoped :=
            match head factories with
            | Some desc => is_Scoped (type desc)
            | None => false
            end in
          if frontScoped
          then resolve ty factories (Scope id) (Scope id) (size_minus_1 factories)
          else resolve ty factories Root (Scope id) (size_minus_1 factories)
      end
  end.

(** The loop [for (size_t i = 0; i < size; ++i) res.emplace_back(...)]. *)
Fixpoint getServices_loop (self : Provider) (ty : type_index)
    (factories : FactoryFunctionCollection) (idxs : list nat) (res : list any)
    : M (list any) :=
  match idxs with
  | [] => ret res
  | i :: rest =>
      let call :=
        match self with
        | Root => resolve ty factories Root Root (N.of_nat i)
        | Scope id =>
            match factories !! i with
            | Some desc =>
                if is_Scoped (type desc)
                then resolve ty factories (Scope id) (Scope id) (N.of_nat i)
                else resolve ty factories Root (Scope id) (N.of_nat i)
            | None => resolve ty factories Root (Scope id) (N.of_nat i)
            end
        end in
      fun w => match call w with
               | Done a w' =>
                   getServices_loop self ty factories rest (res ++ [a]) w'
               | Raised e w' => Raised e w'
               | Blocked => Blocked
               | OutOfFuel => OutOfFuel
               | Undefined => Undefined
               end
  end.

Definition getServices_with (self : Provider) (ty : type_index) : M (list any) :=
  match _factories !! ty with
  | None => ret []
  | Some factories =>
      getServices_loop self ty factories (seq 0 (length factories)) []
  end.
End Lookup.

(** The static member template
    [ScopedServiceProvider::getService<TServiceProvider>(factories,
    serviceProviderForThisService, serviceProviderForDependentServices,
    index)]; [key] is [factories.first], [factories] is
    [factories.second].  This is the call as one thread runs it from the
    entry to the return; [Threads.step_thread] has the same statements one
    step at a time. *)
Fixpoint resolve (_factories : Registry) (fuel : nat) (key : type_index)
    (factories : FactoryFunctionCollection)
    (serviceProviderForThisService serviceProviderForDependentServices : Provider)
    (index : N) : M any :=
  match fuel with
  | 0 => fun _ => OutOfFuel
  | S fuel' =>
      match vec_at factories index with
      | None => raise out_of_range
      | Some desc =>
          let i := N.to_nat index in
          let this := serviceProviderForThisService in
          let sp := serviceProviderForDependentServices in
          let run :=
            runFactory
              (getService_with _factories (resolve _factories fuel') sp)
              (getServices_with _factories (resolve _factories fuel') sp)
              (create desc) in
          match type desc with
          | Transient => fun w =>
              match run (record_invocation (mkInv this key i sp) w) with
              | Done v w' => apply_convert desc v w'
              | Raised e w' => Raised e w'
              | Blocked => Blocked
              | OutOfFuel => OutOfFuel
              | Undefined => Undefined
              end
          | _ => fun w =>
              let w1 := emplace_instances this key (length factories) w in
              if initialized (slot this key i w1) then
                (* the exchange failed: [serviceFuture.get()] *)
                match serviceFuture (slot this key i w1) with
                | Some v => convert_deref desc v w1
                | None => Blocked
                end
              else
                let w2 :=
                  record_invocation (mkInv this key i sp)
                    (set_slot this key i (mkCS true None) w1) in
                match run w2 with
                | Done v w3 =>
                    (* [servicePromise.set_value(v)] *)
                    let w4 :=
                      set_slot this key i
                        (mkCS (initialized (slot this key i w3)) (Some v)) w3 in
                    (* both [serviceFuture.get()] *)
                    match serviceFuture (slot this key i w4) with
                    | Some v' => convert_deref desc v' (push_order this v' w4)
                    | None => Blocked
                    end
                | Raised e w3 => Raised e w3
                | Blocked => Blocked
                | OutOfFuel => OutOfFuel
                | Undefined => Undefined
                end
          end
      end
  end.

(** The virtual [getService(std::type_index)] and
    [getServices(std::type_index)] of the provider object [self]. *)
Definition getService (_factories : Registry) (fuel : nat) (self : Provider)
    (ty : type_index) : M any :=
  getService_with _factories (resolve _factories fuel) self ty.

Definition getServices (_factories : Registry) (fuel : nat) (self : Provider)
    (ty : type_index) : M (list any) :=
  getServices_with _factories (resolve _factories fuel) self ty.

(** *** The typed members of [IServiceProvider] *)

Definition not_registered_as_service : string :=
  " has not been registered as a singleton or scoped service.".

(** [getService<TService>()]: [None] is [nullptr]. *)
Definition getService_T (_factories : Registry) (fuel : nat) (self : Provider)
    (TService : string) : M (option ptr) :=
  res ← getService _factories fuel self TService;
  if has_value res then
    match res with
    | AnyRef p => mret (Some p)
    | _ => raise bad_any_cast
    end
  else mret None.

(** [getRequiredService<TService>()]. *)
Definition getRequiredService (_factories : Registry) (fuel : nat) (self : Provider)
    (TService : string) : M ptr :=
  res ← getService_T _factories fuel self TService;
  match res with
  | Some p => mret p
  | None => raise (logic_error (TService ++ not_registered_as_service))
  end.

(** [getTransientService<TService>()]. *)
Definition getTransientService (_factories : Registry) (fuel : nat) (self : Provider)
    (TService : string) : M (option ptr) :=
  res ← getService _factories fuel self (shared_ptr_of TService);
  if has_value res then
    match res with
    | AnyShared p => mret (Some p)
    | AnyNull => mret None
    | _ => raise bad_any_cast
    end
  else mret None.

Definition not_registered_as_transient : string :=
  " has not been registered as a transient service.".

(** [getRequiredTransientService<TService>()]. *)
Definition getRequiredTransientService (_factories : Registry) (fuel : nat)
    (self : Provider) (TService : string) : M ptr :=
  res ← getTransientService _factories fuel self TService;
  match res with
  | Some p => mret p
  | None => raise (logic_error (TService ++ not_registered_as_transient))
  end.

(** The loop of [getServices<TService>()]: one [any_cast] per element. *)
Fixpoint cast_refs (servicesAny : list any) (res : list ptr) : M (list ptr) :=
  match servicesAny with
  | [] => mret res
  | AnyRef p :: rest => cast_refs rest (res ++ [p])
  | _ :: _ => raise bad_any_cast
  end.

(** [getServices<TService>()]. *)
Definition getServices_T (_factories : Registry) (fuel : nat) (self : Provider)
    (TService : string) : M (list ptr) :=
  servicesAny ← getServices _factories fuel self TService;
  cast_refs servicesAny [].

(** The loop of [getTransientServices<TService>()]: one [any_cast] per
    element; [None] is an element that is [nullptr]. *)
Fixpoint cast_shared (servicesAny : list any) (res : list (option ptr))
    : M (list (option ptr)) :=
  match servicesAny with
  | [] => mret res
  | AnyShared p :: rest => cast_shared rest (res ++ [Some p])
  | AnyNull :: rest => cast_shared rest (res ++ [None])
  | _ :: _ => raise bad_any_cast
  end.

(** [getTransientServices<TService>()]. *)
Definition getTransientServices (_factories : Registry) (fuel : nat) (self : Provider)
    (TService : string) : M (list (option ptr)) :=
  servicesAny ← getServices _factories fuel self (shared_ptr_of TService);
  cast_shared servicesAny [].

(** *** Scopes and destructors *)

(** [createScope()]. *)
Definition createScope (w : World) : Provider * World :=
  (Scope (next_scope w),
   mkWorld (root w) (<[next_scope w := Members_new]> (scopes w))
     (S (next_scope w)) (heap w) (invocations w)).

(** [while (!v.empty()) v.pop_back();], [n] bounding the iterations;
    [released] collects the handles in the order they are destroyed. *)
Fixpoint pop_all (n : nat) (v released : list any) : list any * list any :=
  match n with
  | 0 => (v, released)
  | S n' =>
      match last v with
      | None => (v, released)
      | Some x => pop_all n' (removelast v) (released ++ [x])
      end
  end.

(** [~ServiceProvider()] and [~ScopedServiceProvider()]:
    [_instances.clear()], then the loop.  The result is the order in
    which the logged handles are released. *)
Definition destructor (m : Members) : list any * Members :=
  let cleared := mkMembers (_initializationOrder m) ∅ in
  let '(v, released) :=
    pop_all (length (_initializationOrder cleared)) (_initializationOrder cleared) [] in
  (released, mkMembers v (_instances cleared)).

(** Destroying the provider object [p] of a world. *)
Definition destroy (p : Provider) (w : World) : list any * World :=
  let '(released, m) := destructor (members p w) in
  (released,
   match p with
   | Root => set_members Root m w
   | Scope id =>
       mkWorld (root w) (delete id (scopes w)) (next_scope w) (heap w) (invocations w)
   end).

(** The arrays of a provider object, by their lengths. *)
Definition array_size (p : Provider) (k : type_index) (w : World) : option nat :=
  length <$> (_instances (members p w) !! k).

(** *** A proof rule for resolutions

    Every world a resolution passes through is reached by five kinds of
    steps: an allocation, the record of a transient call, the creation
    of a slot array, the claim of a slot, and the publication of an
    instance.  An invariant [I] and a preorder [R] kept by these steps
    are kept by every resolution made with the resolution context
    [ctx]. *)

Definition claimed (ctx this : Provider) (key : type_index) (i : nat) (w1 : World) : World :=
  record_invocation (mkInv this key i ctx) (set_slot this key i (mkCS true None) w1).

Definition fulfilled (this : Provider) (key : type_index) (i : nat) (v : any)
    (w3 : World) : World :=
  set_slot this key i (mkCS (initialized (slot this key i w3)) (Some v)) w3.

Definition post {A} (I : World -> Prop) (R : World -> World -> Prop)
    (w : World) (o : outcome A) : Prop :=
  match o with
  | Done _ w' => I w' /\ R w w'
  | Raised _ w' => I w' /\ R w w'
  | Blocked => True
  | OutOfFuel => True
  | Undefined => True
  end.

(** What a factory returns is an empty pointer or satisfies [V]. *)
Definition postV (I : World -> Prop) (R : World -> World -> Prop)
    (V : any -> World -> Prop) (w : World) (o : outcome any) : Prop :=
  match o with
  | Done v w' => I w' /\ R w w' /\ (v = AnyNull \/ V v w')
  | Raised _ w' => I w' /\ R w w'
  | Blocked => True
  | OutOfFuel => True
  | Undefined => True
  end.

Definition resolver_ok (_factories : Registry) (ctx : Provider)
    (I : World -> Prop) (R : World -> World -> Prop) (resolve : Resolver) : Prop :=
  forall key factories this index w,
    _factories !! key = Some factories -> this = Root \/ this = ctx -> I w ->
    post I R w (resolve key factories this ctx index w).

(** A provider object that [createScope] has handed out, or the root. *)
Definition created (p : Provider) (w : World) : Prop :=
  match p with
  | Root => True
  | Scope id => id < next_scope w
  end.

(** No scope object exists beyond the ones handed out. *)
Definition scopes_bounded (w : World) : Prop :=
  forall id, next_scope w <= id -> scopes w !! id = None.

(** *** The invariant of a world and the order between worlds *)

(** How often the factory of descriptor [i] of [k] ran for owner [p]. *)
Definition calls (p : Provider) (k : type_index) (i : nat) (w : World) : nat :=
  length (filter (fun e => inv_owner e = p /\ inv_key e = k /\ inv_index e = i)
            (invocations w)).

(** Descriptor [i] of the vector registered under [k]. *)
Definition descriptor (_factories : Registry) (k : type_index) (i : nat)
    : option ServiceDescription :=
  match _factories !! k with
  | Some factories => factories !! i
  | None => None
  end.

(** Descriptor [i] of [k] exists and is a Singleton or a Scoped one. *)
Definition cached_at (_factories : Registry) (k : type_index) (i : nat) : Prop :=
  exists desc, descriptor _factories k i = Some desc /\ type desc <> Transient.

Record WF (_factories : Registry) (w : World) : Prop := mkWF {
  wf_arrays : forall p k n, array_size p k w = Some n ->
    exists factories, _factories !! k = Some factories /\ n = length factories;
  wf_future : forall p k i v, serviceFuture (slot p k i w) = Some v ->
    initialized (slot p k i w) = true;
  wf_calls : forall p k i, cached_at _factories k i ->
    calls p k i w = if initialized (slot p k i w) then 1 else 0;
  wf_scopes : scopes_bounded w
}.

(** [ext ctx w w']: [w'] comes after [w] in a resolution whose
    resolution context is [ctx]. *)
Record ext (ctx : Provider) (w w' : World) : Prop := mkExt {
  ext_frozen : forall p k i, initialized (slot p k i w) = true ->
    slot p k i w' = slot p k i w;
  ext_arrays : forall p k n, array_size p k w = Some n -> array_size p k w' = Some n;
  ext_invocations : exists new, invocations w' = invocations w ++ new /\
    Forall (fun e => inv_ctx e = ctx /\ (inv_owner e = Root \/ inv_owner e = ctx)) new;
  ext_heap : exists objs, heap w' = heap w ++ objs;
  ext_order : forall p, exists l,
    _initializationOrder (members p w') = _initializationOrder (members p w) ++ l;
  ext_others : forall p, p <> Root -> p <> ctx -> members p w' = members p w;
  ext_next_scope : next_scope w' = next_scope w
}.

Definition Inv (_factories : Registry) (ctx : Provider) (w : World) : Prop :=
  WF _factories w /\ created ctx w.

(** One request served by a provider object or one new scope.  A
    request is a call of the static [getService]; the virtual
    [getService] makes at most one, [getServices] one per descriptor. *)
Inductive step (_factories : Registry) (w : World) : World -> Prop :=
| step_resolved fuel key factories this ctx index r w' :
  _factories !! key = Some factories -> this = Root \/ this = ctx ->
  created ctx w ->
  resolve _factories fuel key factories this ctx index w = Done r w' ->
  step _factories w w'
| step_raised fuel key factories this ctx index e w' :
  _factories !! key = Some factories -> this = Root \/ this = ctx ->
  created ctx w ->
  resolve _factories fuel key factories this ctx index w = Raised e w' ->
  step _factories w w'
| step_createScope : step _factories w (createScope w).2.

(** The worlds a provider built over the heap [heap0] can be in when its
    requests are served one after another. *)
Definition reachable (_factories : Registry) (heap0 : list Obj) (w : World) : Prop :=
  rtc (step _factories) (World_new heap0) w.

(** What every step keeps. *)
Record later (w w' : World) : Prop := mkLater {
  later_frozen : forall p k i, initialized (slot p k i w) = true ->
    slot p k i w' = slot p k i w;
  later_created : forall p, created p w -> created p w';
  later_heap : exists objs, heap w' = heap w ++ objs;
  later_invocations : exists new, invocations w' = invocations w ++ new
}.

(** A registry with one Singleton, asked twice. *)
Definition registry_one_singleton : Registry :=
  ServiceCollection.build
    (ServiceCollection.registerAll
       [ServiceCollection.AddSingleton "A" "AImpl" []] ServiceCollection.fresh).

Definition world_of {A} (o : outcome A) : World :=
  match o with
  | Done _ w => w
  | Raised _ w => w
  | _ => World_new []
  end.

(** *** Which descriptor a lookup resolves *)

(** The owner a provider object routes a descriptor of lifetime [ty] to. *)
Definition owner_for (self : Provider) (ty : ServiceType) : Provider :=
  match self with
  | Root => Root
  | Scope id => if is_Scoped ty then Scope id else Root
  end.

(** The specification of the multi-value lookup, in the words of the
    documentation: descriptor after descriptor, first registered first,
    each resolved in the world the one before it left, the handles in the
    same order. *)
Inductive resolved_in_order (_factories : Registry) (fuel : nat) (self : Provider)
  (ty : type_index) (factories : FactoryFunctionCollection)
  : nat -> World -> list any -> World -> Prop :=
| rio_done w : resolved_in_order _factories fuel self ty factories (length factories) w [] w
| rio_next i desc w a w1 rest w' :
  factories !! i = Some desc ->
  resolve _factories fuel ty factories (owner_for self (type desc)) self (N.of_nat i) w
    = Done a w1 ->
  resolved_in_order _factories fuel self ty factories (S i) w1 rest w' ->
  resolved_in_order _factories fuel self ty factories i w (a :: rest) w'.

(** Three implementations [X], [Y], [Z] of one interface [I], registered
    in this order on a fresh collection. *)
Definition registry_XYZ : Registry :=
  ServiceCollection.build
    (ServiceCollection.registerAll
       [ServiceCollection.AddSingleton "I" "X" [];
        ServiceCollection.AddSingleton "I" "Y" [];
        ServiceCollection.AddSingleton "I" "Z" []]
       ServiceCollection.fresh).

(** The implementation type of the object a handle refers to. *)
Definition impl_of (w : World) (a : any) : option string :=
  match a with
  | AnyEmpty => None
  | AnyShared p => impl <$> heap w !! p
  | AnyRef p => impl <$> heap w !! p
  | AnyNull => None
  end.

(** The chain of the destructor test: [D] needs [C], [C] needs [B], [B]
    needs [A]. *)
Definition chain_registrations : list ServiceCollection.Registration :=
  [ServiceCollection.AddSingleton "A" "A" [];
   ServiceCollection.AddSingleton "B" "B" [ByRef "A"];
   ServiceCollection.AddSingleton "C" "C" [ByRef "B"];
   ServiceCollection.AddSingleton "D" "D" [ByRef "C"]].

(** Register in the order [regs], build, ask the provider for [D], destroy
    the provider: are the instances released in the order D, C, B, A? *)
Definition chain_teardown_ok (regs : list ServiceCollection.Registration) : bool :=
  let reg := ServiceCollection.build
               (ServiceCollection.registerAll regs ServiceCollection.fresh) in
  match getRequiredService reg 4 Root "D" (World_new []) with
  | Done _ w =>
      bool_decide (impl_of w <$> (destroy Root w).1 =
                   [Some "D"; Some "C"; Some "B"; Some "A"])
  | _ => false
  end.

(** *** The resolution context *)

(** What holds of the world a call leaves, when it leaves one. *)
Definition after {A} (o : outcome A) (P : World -> Prop) : Prop :=
  match o with
  | Done _ w' => P w'
  | Raised _ w' => P w'
  | Blocked => True
  | OutOfFuel => True
  | Undefined => True
  end.

(** Every factory call made between [w] and [w'] was handed [ctx] and
    built for the root or for [ctx]. *)
Definition invoked_with (ctx : Provider) (w w' : World) : Prop :=
  exists new, invocations w' = invocations w ++ new /\
    Forall (fun e => inv_ctx e = ctx /\ (inv_owner e = Root \/ inv_owner e = ctx)) new.

(** A Singleton, a Scoped service that needs it, and a Transient service
    that needs both. *)
Definition registry_P7 : Registry :=
  ServiceCollection.build
    (ServiceCollection.registerAll
       [ServiceCollection.AddSingleton "Sg" "Sg" [];
        ServiceCollection.AddScoped "Sc" "Sc" [ByRef "Sg"];
        ServiceCollection.AddTransient "T" "T" [ByRef "Sc"; ByRef "Sg"]]
       ServiceCollection.fresh).

(** The Transient service asked from two scopes of one provider. *)
Definition scenario_P7 : Prop :=
  let w2 := (createScope (createScope (World_new [])).2).2 in
  let S1 := Scope 0 in
  let S2 := Scope 1 in
  let w3 := world_of (getTransientService registry_P7 3 S1 "T" w2) in
  let w4 := world_of (getTransientService registry_P7 3 S2 "T" w3) in
  getTransientService registry_P7 3 S1 "T" w2 = Done (Some 2) w3 /\
  getTransientService registry_P7 3 S2 "T" w3 = Done (Some 4) w4 /\
  heap w4 !! 2 = Some (mkObj "T" [ArgOne (AnyRef 1); ArgOne (AnyRef 0)]) /\
  heap w4 !! 4 = Some (mkObj "T" [ArgOne (AnyRef 3); ArgOne (AnyRef 0)]) /\
  slot S1 "Sc" 0 w4 = mkCS true (Some (AnyShared 1)) /\
  slot S2 "Sc" 0 w4 = mkCS true (Some (AnyShared 3)) /\
  slot Root "Sg" 0 w4 = mkCS true (Some (AnyShared 0)) /\
  invocations w4 =
    [mkInv Root (shared_ptr_of "T") 0 S1; mkInv S1 "Sc" 0 S1; mkInv Root "Sg" 0 S1;
     mkInv Root (shared_ptr_of "T") 0 S2; mkInv S2 "Sc" 0 S2].

(** The services added with [addSingleton(existingService)] exist. *)
Definition shares_below (_factories : Registry) (n : nat) : Prop :=
  forall k factories i desc p,
    _factories !! k = Some factories -> factories !! i = Some desc ->
    create desc = Share p -> p < n.

Definition points_below (n : nat) (v : any) : Prop :=
  exists q, v = AnyShared q /\ q < n.

(** Every instance in a slot or in a log is an object of the heap. *)
Record Stored (_factories : Registry) (w : World) : Prop := mkStored {
  stored_slots : forall p k i v, serviceFuture (slot p k i w) = Some v ->
    points_below (length (heap w)) v;
  stored_order : forall p v, v ∈ _initializationOrder (members p w) ->
    points_below (length (heap w)) v;
  stored_shares : shares_below _factories (length (heap w))
}.

Definition Inv2 (_factories : Registry) (ctx : Provider) (w : World) : Prop :=
  Inv _factories ctx w /\ Stored _factories w.

Definition in_heap (v : any) (w : World) : Prop := points_below (length (heap w)) v.

(** A Singleton and a Transient service that needs it. *)
Definition registry_transient_needs_singleton : Registry :=
  ServiceCollection.build
    (ServiceCollection.registerAll
       [ServiceCollection.AddSingleton "S" "S" [];
        ServiceCollection.AddTransient "T" "T" [ByRef "S"]]
       ServiceCollection.fresh).

(** [addTransient<T>([](IServiceProvider&) { return std::unique_ptr<T>{}; })]. *)
Definition registry_transient_returns_null : Registry :=
  ServiceCollection.build
    (ServiceCollection.registerAll
       [ServiceCollection.AddTransientF "T" ReturnNull]
       ServiceCollection.fresh).

(** [addSingleton<I>([](IServiceProvider&) { return std::unique_ptr<I>{}; })]. *)
Definition registry_singleton_returns_null : Registry :=
  ServiceCollection.build
    (ServiceCollection.registerAll
       [ServiceCollection.AddSingletonF "I" ReturnNull]
       ServiceCollection.fresh).

(** *** What the further theorems speak of *)

(** The handle a descriptor of the lifetime [ty] hands out for the
    object at [q]. *)
Definition handle_of (ty : ServiceType) (q : ptr) : any :=
  match ty with
  | Transient => AnyShared q
  | _ => AnyRef q
  end.

(** The [any] that holds the [shared_ptr] [x]; [None] is the empty
    pointer. *)
Definition any_of_shared (x : option ptr) : any :=
  match x with
  | Some p => AnyShared p
  | None => AnyNull
  end.

(** What a request through [self] leaves untouched. *)
Definition untouched (self : Provider) (w w' : World) : Prop :=
  (forall p, p <> Root -> p <> self -> members p w' = members p w) /\
  next_scope w' = next_scope w /\
  (forall q o, heap w !! q = Some o -> heap w' !! q = Some o).

(** The type key a parameter taken by reference or as a [shared_ptr]
    is looked up under. *)
Definition single_key (a : ArgType) : option type_index :=
  match a with
  | ByRef t => Some t
  | BySharedPtr t => Some (shared_ptr_of t)
  | _ => None
  end.

(** **** Circular dependencies *)

(** The last descriptor of [t] is a Singleton or Scoped one whose
    factory starts by asking the provider it was handed for [t']. *)
Definition asks_first (_factories : Registry) (t t' : type_index) : Prop :=
  exists factories front desc k,
    _factories !! t = Some factories /\ head factories = Some front /\
    last factories = Some desc /\ (Z.of_nat (length factories) < 2 ^ 64)%Z /\
    type desc <> Transient /\ create desc = Build (CallGetService t' k).

(** Each type of [ts] asks first for the next one, the last for [target]. *)
Fixpoint chain (_factories : Registry) (ts : list type_index) (target : type_index)
    : Prop :=
  match ts with
  | [] => True
  | t :: rest => asks_first _factories t (hd target rest) /\ chain _factories rest target
  end.

(** The slot [getService] on [self] reads for the type key [t]. *)
Definition last_slot (_factories : Registry) (self : Provider) (t : type_index)
    (w : World) : ConcurrentService :=
  match _factories !! t with
  | Some factories =>
      match head factories with
      | Some front => slot (owner_for self (type front)) t (length factories - 1) w
      | None => ConcurrentService_new
      end
  | None => ConcurrentService_new
  end.

(** **** Which instances the slots hold *)

(** An instance the registry holds since [addSingleton(existingService)]. *)
Definition shared_instance (_factories : Registry) (v : any) : Prop :=
  exists k factories i desc p,
    _factories !! k = Some factories /\ factories !! i = Some desc /\
    create desc = Share p /\ v = AnyShared p.

(** The slots of a provider object and its log hold the same instances,
    and two slots hold the same instance only if the registry shares it. *)
Record Owned (_factories : Registry) (w : World) : Prop := mkOwned {
  owned_logged : forall p k i v, serviceFuture (slot p k i w) = Some v ->
    v ∈ _initializationOrder (members p w);
  owned_held : forall p v, v ∈ _initializationOrder (members p w) ->
    exists k i, serviceFuture (slot p k i w) = Some v;
  owned_distinct : forall p k i p' k' i' v, (p, k, i) <> (p', k', i') ->
    serviceFuture (slot p k i w) = Some v ->
    serviceFuture (slot p' k' i' w) = Some v ->
    shared_instance _factories v
}.

(** What a factory returns: an object of the heap that the registry
    shares or that no slot holds. *)
Definition unheld (_factories : Registry) (v : any) (w : World) : Prop :=
  in_heap v w /\
  (shared_instance _factories v \/
   forall p k i, serviceFuture (slot p k i w) <> Some v).

Definition Inv3 (_factories : Registry) (ctx : Provider) (w : World) : Prop :=
  Inv2 _factories ctx w /\ Owned _factories w.

(** **** Constructor injection *)

(** The specification of constructor injection, in the order of the
    constructor's parameters: each argument is what the provider returns
    for the parameter's type, asked in the world the argument before it
    left, and it has the kind the parameter declares. *)
Inductive fetched (gs : type_index -> M any) (gss : type_index -> M (list any))
  : list ArgType -> World -> list ctor_arg -> World -> Prop :=
| fetched_nil w : fetched gs gss [] w [] w
| fetched_ref t rest w a w1 args w' :
  gs t w = Done a w1 -> is_ref a = true -> fetched gs gss rest w1 args w' ->
  fetched gs gss (ByRef t :: rest) w (ArgOne a :: args) w'
| fetched_shared t rest w a w1 args w' :
  gs (shared_ptr_of t) w = Done a w1 -> is_shared a = true ->
  fetched gs gss rest w1 args w' ->
  fetched gs gss (BySharedPtr t :: rest) w (ArgOne a :: args) w'
| fetched_refs t rest w l w1 args w' :
  gss t w = Done l w1 -> forallb is_ref l = true -> fetched gs gss rest w1 args w' ->
  fetched gs gss (VecOfRef t :: rest) w (ArgMany l :: args) w'
| fetched_shareds t rest w l w1 args w' :
  gss (shared_ptr_of t) w = Done l w1 -> forallb is_shared l = true ->
  fetched gs gss rest w1 args w' ->
  fetched gs gss (VecOfSharedPtr t :: rest) w (ArgMany l :: args) w'.

(** **** Providers without cycles *)

(** A slot that was claimed and whose promise is not fulfilled. *)
Definition busy (cs : ConcurrentService) : Prop := cs = mkCS true None.

(** No slot is busy. *)
Definition quiet (w : World) : Prop := forall p k i, ~ busy (slot p k i w).

(** No slot of a type key of rank below [n] is busy. *)
Definition quiet_below (rank : type_index -> nat) (n : nat) (w : World) : Prop :=
  forall p k i, rank k < n -> ~ busy (slot p k i w).

(** Every slot that is busy in [w'] was busy in [w]. *)
Definition calm (w w' : World) : Prop :=
  forall p k i, busy (slot p k i w') -> busy (slot p k i w).

(** The provider can supply the parameter [a] of a constructor of a
    service registered under [k]: what the parameter asks for has a
    smaller rank, and it is registered with the lifetime that goes with
    the parameter's kind (an element type that is not registered gives an
    empty vector). *)
Definition param_ok (_factories : Registry) (rank : type_index -> nat)
    (k : type_index) (a : ArgType) : Prop :=
  match a with
  | ByRef t =>
      rank t < rank k /\
      exists factories desc, _factories !! (t : type_index) = Some factories /\
        last factories = Some desc /\ type desc <> Transient
  | BySharedPtr t =>
      rank (shared_ptr_of t) < rank k /\
      exists factories desc, _factories !! shared_ptr_of t = Some factories /\
        last factories = Some desc /\ type desc = Transient
  | VecOfRef t =>
      rank t < rank k /\
      forall factories, _factories !! (t : type_index) = Some factories ->
        Forall (fun d => type d <> Transient) factories
  | VecOfSharedPtr t =>
      rank (shared_ptr_of t) < rank k /\
      forall factories, _factories !! shared_ptr_of t = Some factories ->
        Forall (fun d => type d = Transient) factories
  end.

(** A descriptor as [addSingleton], [addScoped] and [addTransient]
    install it without a factory, or [addSingleton(existingService)]. *)
Definition desc_ok (_factories : Registry) (rank : type_index -> nat)
    (k : type_index) (desc : ServiceDescription) : Prop :=
  convert desc = (if decide (type desc = Transient) then convert_shared else convert_ref) /\
  match create desc with
  | Share _ => True
  | Build c =>
      exists TImplementation ctor,
        c = ServiceFactory_create TImplementation ctor /\
        Forall (param_ok _factories rank k) ctor
  end.

(** Every service is constructed by injection from services of smaller
    rank: the dependencies are registered and form no cycle. *)
Definition injectable (_factories : Registry) (rank : type_index -> nat) : Prop :=
  forall k factories, _factories !! k = Some factories ->
    factories <> [] /\ (Z.of_nat (length factories) < 2 ^ 64)%Z /\
    Forall (desc_ok _factories rank k) factories.

(** Resolutions with the fuel [f] return a handle of the descriptor's
    kind, whatever slot they are for, when the slots of the key's rank
    and below are quiet. *)
Definition resolve_returns_at (_factories : Registry) (rank : type_index -> nat)
    (f : nat) : Prop :=
  forall ctx key factories this index desc w,
    _factories !! key = Some factories -> this = Root \/ this = ctx ->
    vec_at factories index = Some desc -> rank key < f ->
    Inv2 _factories ctx w -> quiet_below rank (S (rank key)) w ->
    exists q w',
      resolve _factories f key factories this ctx index w
        = Done (handle_of (type desc) q) w' /\ calm w w'.

End Current.

(** ** The promise/future based provider run by several threads

    [Current.resolve] is the static [getService] run by one thread from
    the call to the return.  Here the same code is cut at the places where
    another thread can run in between.  A thread is at a place of the
    code ([Control]) with the callers that wait for it ([Frame]); a step
    takes it to the next place and is one of: a read of the registry, the
    critical section under [_instancesMutex], the
    [compare_exchange_strong], a step of the factory closure,
    [servicePromise.set_value], the critical section under
    [_initializationOrderMutex], the last [serviceFuture.get()] with the
    conversion, the return of a value to the caller, and the unwinding of
    an exception through one caller (nothing in this code catches). *)

Module Threads.
Import Current.

(** What a caller does with the value a call returns. *)
Inductive Frame :=
| InClosure (sp : Provider) (k : any -> Closure)
    (* a closure called [sp.getService] *)
| InClosureMany (sp : Provider) (k : list any -> Closure)
    (* a closure called [sp.getServices] *)
| InLoop (self : Provider) (ty : type_index) (factories : FactoryFunctionCollection)
    (rest : list nat) (res : list any)
    (* [res.emplace_back(...)] in the loop of [getServices] *)
| InSetValue (this : Provider) (key : type_index) (i : nat) (desc : ServiceDescription)
    (* [servicePromise.set_value(desc.create(...))] *)
| InConvert (desc : ServiceDescription).
    (* [desc.convert(desc.create(...))] *)

(** Where a thread is. *)
Inductive Control :=
| AtGetService (self : Provider) (ty : type_index)
| AtGetServices (self : Provider) (ty : type_index)
| AtLoop (self : Provider) (ty : type_index) (factories : FactoryFunctionCollection)
    (idxs : list nat) (res : list any)
| AtResolve (key : type_index) (factories : FactoryFunctionCollection)
    (this sp : Provider) (index : N)
| AtExchange (key : type_index) (this sp : Provider) (i : nat) (desc : ServiceDescription)
| AtClosure (c : Closure) (sp : Provider)
| AtLog (this : Provider) (key : type_index) (i : nat) (desc : ServiceDescription)
| AtGet (this : Provider) (key : type_index) (i : nat) (desc : ServiceDescription)
| Returning (a : any)
| ReturningMany (l : list any)
| Throwing (e : exn)
| UndefinedBehaviour.

Definition Thread : Type := Control * list Frame.

(** A request that returned a handle of a Singleton or Scoped service:
    the owner, the type key, the index and the handle.  A history
    variable, read by no step. *)
Definition Answer : Type := Provider * type_index * nat * any.

(** [desc.create(sp)] is entered. *)
Definition start (f : FactoryFunction) (sp : Provider) : Control :=
  match f with
  | Build c => AtClosure c sp
  | Share p => Returning (AnyShared p)
  end.

(** One step of a thread; [None]: the thread cannot move (it waits in
    [serviceFuture.get()], or it is done). *)
Definition step_thread (_factories : Registry) (th : Thread) (w : World)
    : option (Thread * World * option Answer) :=
  match th with
  | (AtGetService self ty, stk) =>
      match _factories !! ty with
      | None => Some ((Returning AnyEmpty, stk), w, None)
      | Some factories =>
          let this :=
            match head factories with
            | Some front => owner_for self (type front)
            | None => Root
            end in
          Some ((AtResolve ty factories this self (size_minus_1 factories), stk), w, None)
      end
  | (AtGetServices self ty, stk) =>
      match _factories !! ty with
      | None => Some ((ReturningMany [], stk), w, None)
      | Some factories =>
          Some ((AtLoop self ty factories (seq 0 (length factories)) [], stk), w, None)
      end
  | (AtLoop self ty factories [] res, stk) => Some ((ReturningMany res, stk), w, None)
  | (AtLoop self ty factories (i :: rest) res, stk) =>
      let this :=
        match factories !! i with
        | Some desc => owner_for self (type desc)
        | None => Root
        end in
      Some ((AtResolve ty factories this self (N.of_nat i),
             InLoop self ty factories rest res :: stk), w, None)
  | (AtResolve key factories this sp index, stk) =>
      match vec_at factories index with
      | None => Some ((Throwing out_of_range, stk), w, None)
      | Some desc =>
          let i := N.to_nat index in
          match type desc with
          | Transient =>
              Some ((start (create desc) sp, InConvert desc :: stk),
                    record_invocation (mkInv this key i sp) w, None)
          | _ =>
              (* lock, [emplace], [make_unique], unlock *)
              Some ((AtExchange key this sp i desc, stk),
                    emplace_instances this key (length factories) w, None)
          end
      end
  | (AtExchange key this sp i desc, stk) =>
      if initialized (slot this key i w)
      then Some ((AtGet this key i desc, stk), w, None)
      else Some ((start (create desc) sp, InSetValue this key i desc :: stk),
                 claimed sp this key i w, None)
  | (AtClosure c sp, stk) =>
      match c with
      | MakeUnique impl args =>
          Some ((Returning (AnyShared (length (heap w))), stk),
                alloc (mkObj impl args) w, None)
      | CallGetService t k => Some ((AtGetService sp t, InClosure sp k :: stk), w, None)
      | CallGetServices t k =>
          Some ((AtGetServices sp t, InClosureMany sp k :: stk), w, None)
      | Throw e => Some ((Throwing e, stk), w, None)
      | ReturnNull => Some ((Returning AnyNull, stk), w, None)
      end
  | (Returning a, InClosure sp k :: stk) => Some ((AtClosure (k a) sp, stk), w, None)
  | (Returning a, InLoop self ty factories rest res :: stk) =>
      Some ((AtLoop self ty factories rest (res ++ [a]), stk), w, None)
  | (Returning a, InSetValue this key i desc :: stk) =>
      Some ((AtLog this key i desc, stk), fulfilled this key i a w, None)
  | (Returning a, InConvert desc :: stk) =>
      match convert desc a with
      | Some h => Some ((Returning h, stk), w, None)
      | None => Some ((Throwing bad_any_cast, stk), w, None)
      end
  | (ReturningMany l, InClosureMany sp k :: stk) =>
      Some ((AtClosure (k l) sp, stk), w, None)
  | (AtLog this key i desc, stk) =>
      (* lock, [emplace_back(serviceFuture.get())], unlock *)
      match serviceFuture (slot this key i w) with
      | Some v => Some ((AtGet this key i desc, stk), push_order this v w, None)
      | None => None
      end
  | (AtGet this key i desc, stk) =>
      match serviceFuture (slot this key i w) with
      | None => None
      | Some AnyNull => Some ((UndefinedBehaviour, stk), w, None)
      | Some v =>
          match convert desc v with
          | Some h => Some ((Returning h, stk), w, Some (this, key, i, h))
          | None => Some ((Throwing bad_any_cast, stk), w, None)
          end
      end
  | (Throwing e, _ :: stk) => Some ((Throwing e, stk), w, None)
  | _ => None
  end.

(** The threads of a program, the world they share, and the answers
    given so far. *)
Record Config := mkConfig {
  world : World;
  threads : list Thread;
  answers : list Answer
}.

Definition is_undefined (th : Thread) : bool :=
  match th.1 with UndefinedBehaviour => true | _ => false end.

(** A call of the untyped [getService] or [getServices] on a provider
    object. *)
Inductive Request :=
| GetService (self : Provider) (ty : type_index)
| GetServices (self : Provider) (ty : type_index).

Definition receiver (r : Request) : Provider :=
  match r with GetService self _ | GetServices self _ => self end.

Definition enter (r : Request) : Thread :=
  match r with
  | GetService self ty => (AtGetService self ty, [])
  | GetServices self ty => (AtGetServices self ty, [])
  end.

(** The provider object [p] has been handed out. *)
Definition exists_in (p : Provider) (w : World) : bool :=
  match p with
  | Root => true
  | Scope id => bool_decide (id < next_scope w)
  end.

(** What happens next in a program: thread [t] takes a step, a new
    thread calls into a provider object, or a scope is created. *)
Inductive Action :=
| Step (t : nat)
| Call (r : Request)
| NewScope.

(** One action.  [None]: the thread named cannot move (it waits, is done
    or does not exist), or the receiver of the call does not exist.  Once
    a thread has run into undefined behaviour nothing is said about the
    program: nothing moves. *)
Definition act (_factories : Registry) (a : Action) (cfg : Config) : option Config :=
  if existsb is_undefined (threads cfg) then None
  else
    match a with
    | Step t =>
        match threads cfg !! t with
        | None => None
        | Some th =>
            match step_thread _factories th (world cfg) with
            | None => None
            | Some (th', w', ev) =>
                Some (mkConfig w' (<[t := th']> (threads cfg))
                        (answers cfg ++ match ev with Some a => [a] | None => [] end))
            end
        end
    | Call r =>
        if exists_in (receiver r) (world cfg)
        then Some (mkConfig (world cfg) (threads cfg ++ [enter r]) (answers cfg))
        else None
    | NewScope =>
        Some (mkConfig (createScope (world cfg)).2 (threads cfg) (answers cfg))
    end.

(** A schedule is a list of actions; one that cannot happen is skipped. *)
Definition run (_factories : Registry) (schedule : list Action) (cfg : Config) : Config :=
  foldl (fun c a => default c (act _factories a c)) cfg schedule.

(** The program right after [build()]: no thread yet. *)
Definition init (heap0 : list Obj) : Config := mkConfig (World_new heap0) [] [].

(** Thread [t] alone, [n] steps. *)
Definition alone (t n : nat) : list Action := replicate n (Step t).

(** The handles the requests for [(p, k, i)] returned, oldest first. *)
Definition handles (p : Provider) (k : type_index) (i : nat) (cfg : Config) : list any :=
  omap (fun a : Answer => if decide (a.1 = (p, k, i)) then Some a.2 else None)
    (answers cfg).

(** What a thread has returned to the program, if it is done. *)
Definition result (cfg : Config) (t : nat) : option any :=
  match threads cfg !! t with
  | Some (Returning a, []) => Some a
  | _ => None
  end.

(** One move of a thread that runs alone. *)
Definition moves (_factories : Registry) (x y : Thread * World) : Prop :=
  exists ev, step_thread _factories x.1 x.2 = Some (y, ev).

(** A thread that waits in [serviceFuture.get()] for a value that is not
    there. *)
Definition waiting (x : Thread * World) : Prop :=
  match x.1.1 with
  | AtLog this key i _ | AtGet this key i _ =>
      serviceFuture (slot this key i x.2) = None
  | _ => False
  end.

(** Where a thread that runs alone from [x] arrives, by the outcome [o]
    of the call it is in: at the return of the value to the callers [stk],
    at the exception in front of them, in a wait that never ends, or in
    undefined behaviour.  Of a call that ran out of fuel nothing is
    said. *)
Definition arrives {A} (_factories : Registry) (ret : A -> Control) (stk : list Frame)
    (x : Thread * World) (o : outcome A) : Prop :=
  match o with
  | Done a w' => rtc (moves _factories) x ((ret a, stk), w')
  | Raised e w' => rtc (moves _factories) x ((Throwing e, stk), w')
  | Blocked => exists y, rtc (moves _factories) x y /\ waiting y
  | Undefined => exists stk' w', rtc (moves _factories) x ((UndefinedBehaviour, stk'), w')
  | OutOfFuel => True
  end.

(** *** What every configuration keeps *)

(** A world that comes later: no scope goes away, no array goes away,
    no claim is taken back and no instance is replaced. *)
Record forward (w w' : World) : Prop := mkForward {
  fw_next_scope : next_scope w <= next_scope w';
  fw_arrays : forall p k n, array_size p k w = Some n -> array_size p k w' = Some n;
  fw_initialized : forall p k i,
    initialized (slot p k i w) = true -> initialized (slot p k i w') = true;
  fw_future : forall p k i v,
    serviceFuture (slot p k i w) = Some v -> serviceFuture (slot p k i w') = Some v
}.

(** The slot a thread works on: a Singleton or Scoped descriptor, and an
    element of an array that exists. *)
Definition slot_ok (_factories : Registry) (w : World) (this : Provider)
    (key : type_index) (i : nat) (desc : ServiceDescription) : Prop :=
  descriptor _factories key i = Some desc /\ type desc <> Transient /\
  (exists n, array_size this key w = Some n /\ i < n) /\ created this w.

Definition control_ok (_factories : Registry) (w : World) (c : Control) : Prop :=
  match c with
  | AtGetService self _ | AtGetServices self _ => created self w
  | AtLoop self ty factories _ _ => _factories !! ty = Some factories /\ created self w
  | AtResolve key factories this sp _ =>
      _factories !! key = Some factories /\ (this = Root \/ this = sp) /\ created sp w
  | AtExchange key this sp i desc =>
      slot_ok _factories w this key i desc /\ (this = Root \/ this = sp) /\ created sp w
  | AtClosure _ sp => created sp w
  | AtLog this key i desc =>
      slot_ok _factories w this key i desc /\
      is_Some (serviceFuture (slot this key i w))
  | AtGet this key i desc => slot_ok _factories w this key i desc
  | _ => True
  end.

Definition frame_ok (_factories : Registry) (w : World) (f : Frame) : Prop :=
  match f with
  | InClosure sp _ | InClosureMany sp _ => created sp w
  | InLoop self ty factories _ _ => _factories !! ty = Some factories /\ created self w
  | InSetValue this key i desc => slot_ok _factories w this key i desc
  | InConvert _ => True
  end.

Definition thread_ok (_factories : Registry) (w : World) (th : Thread) : Prop :=
  control_ok _factories w th.1 /\ Forall (frame_ok _factories w) th.2.

(** The slots a thread has claimed and not yet filled: its calls of
    [set_value] that wait for their argument, innermost first. *)
Definition setters (stk : list Frame) : list (Provider * type_index * nat) :=
  omap (fun f => match f with
                 | InSetValue this key i _ => Some (this, key, i)
                 | _ => None
                 end) stk.

Definition pending (ths : list Thread) : list (Provider * type_index * nat) :=
  ths ≫= (fun th => setters th.2).

(** An answer is the conversion of the instance in the slot. *)
Definition answered (_factories : Registry) (w : World) (a : Answer) : Prop :=
  let '(p, k, i, h) := a in
  exists desc v, descriptor _factories k i = Some desc /\ type desc <> Transient /\
    serviceFuture (slot p k i w) = Some v /\ v <> AnyNull /\ convert desc v = Some h.

Record Safe (_factories : Registry) (cfg : Config) : Prop := mkSafe {
  safe_wf : WF _factories (world cfg);
  safe_threads : Forall (thread_ok _factories (world cfg)) (threads cfg);
  (* a slot waits for one [set_value], of one thread ... *)
  safe_pending : NoDup (pending (threads cfg));
  (* ... and is claimed and empty till then *)
  safe_claimed : forall p k i, (p, k, i) ∈ pending (threads cfg) ->
    slot p k i (world cfg) = mkCS true None;
  safe_answers : Forall (answered _factories (world cfg)) (answers cfg)
}.

(** The program in which one thread makes the request [r] in the world
    [w] and takes [n] steps. *)
Definition served (_factories : Registry) (r : Request) (w : World) (n : nat) : Config :=
  run _factories (Call r :: alone 0 n) (mkConfig w [] []).

(** Where the one thread of a program has arrived, by the outcome of
    the call. *)
Definition ends_as {A} (ret : A -> Control) (cfg : Config) (o : outcome A) : Prop :=
  match o with
  | Done a w' => world cfg = w' /\ threads cfg = [(ret a, [])]
  | Raised e w' => world cfg = w' /\ threads cfg = [(Throwing e, [])]
  | Blocked => exists th, threads cfg = [th] /\ waiting (th, world cfg)
  | Undefined => existsb is_undefined (threads cfg) = true
  | OutOfFuel => True
  end.

(** *** Two programs over the chain [A <- B <- C <- D]

    In the first, two threads ask the root for [C] at the same time: the
    first wins the exchange and is in the factory when the second arrives,
    finds the slot claimed and waits for the value.  Later a scope is
    created and asked for [C] again. *)
Definition registry_chain : Registry :=
  ServiceCollection.build
    (ServiceCollection.registerAll chain_registrations ServiceCollection.fresh).

Definition two_threads_ask_for_C : list Action :=
  [Call (GetService Root "C"); Call (GetService Root "C")]
  ++ alone 0 3 ++ alone 1 4 ++ alone 0 20 ++ alone 1 1 ++ alone 0 2.

Definition a_scope_asks_for_C : list Action :=
  [NewScope; Call (GetService (Scope 0) "C")] ++ alone 2 4.

(** In the second, one thread asks for [D] and one for [C].  The thread
    of [C] is stopped between [set_value] and the lock of
    [_initializationOrderMutex]; the thread of [D] finds [C] ready,
    constructs [D] and logs it; then the thread of [C] logs [C]. *)
Definition D_is_logged_before_C : list Action :=
  [Call (GetService Root "D"); Call (GetService Root "C")]
  ++ alone 1 23 ++ alone 0 13 ++ alone 1 2.

End Threads.

(** ** The earlier provider, without synchronisation *)

Module Legacy.

(** The members every provider object has: the instances of a type key are
    a [std::vector<std::any>], an empty [any] standing for "not built". *)
Record Members := mkMembers {
  _initializationOrder : list any;
  _instances : gmap type_index (list any)
}.

Definition Members_new : Members := mkMembers [] ∅.

(** A scope object is known by its number; it has empty members until it
    is used. *)
Record World := mkWorld {
  root : Members;
  scopes : gmap nat Members;
  heap : list Obj
}.

Definition World_new (heap0 : list Obj) : World := mkWorld Members_new ∅ heap0.

Definition members (p : Provider) (w : World) : Members :=
  match p with
  | Root => root w
  | Scope id => default Members_new (scopes w !! id)
  end.

Definition set_members (p : Provider) (m : Members) (w : World) : World :=
  match p with
  | Root => mkWorld m (scopes w) (heap w)
  | Scope id => mkWorld (root w) (<[id := m]> (scopes w)) (heap w)
  end.

(** [providerInstances.emplace(key, {})] and, when that inserted,
    [resize(size)]. *)
Definition emplace_instances (p : Provider) (key : type_index) (size : nat)
    (w : World) : World :=
  let m := members p w in
  match _instances m !! key with
  | Some _ => w
  | None =>
      set_members p (mkMembers (_initializationOrder m)
                       (<[key := replicate size AnyEmpty]> (_instances m))) w
  end.

(** The vector stored under [key]; the key is present when this is read. *)
Definition instances_of (p : Provider) (key : type_index) (w : World) : list any :=
  default [] (_instances (members p w) !! key).

(** [v.emplace(std::next(v.begin(), index), x)]: an insertion before
    position [index]. *)
Definition vector_emplace (index : nat) (x : any) (v : list any) : list any :=
  take index v ++ [x] ++ drop index v.

Definition emplace_at (p : Provider) (key : type_index) (index : nat) (x : any)
    (w : World) : World :=
  let m := members p w in
  match _instances m !! key with
  | Some v =>
      set_members p (mkMembers (_initializationOrder m)
                       (<[key := vector_emplace index x v]> (_instances m))) w
  | None => w
  end.

Definition push_order (p : Provider) (v : any) (w : World) : World :=
  let m := members p w in
  set_members p (mkMembers (_initializationOrder m ++ [v]) (_instances m)) w.

Definition alloc (o : Obj) (w : World) : World :=
  mkWorld (root w) (scopes w) (heap w ++ [o]).

Inductive outcome (A : Type) :=
| Done (a : A) (w : World)
| Raised (e : exn) (w : World)
| OutOfFuel
| Undefined.
Arguments Done {A} a w.
Arguments Raised {A} e w.
Arguments OutOfFuel {A}.
Arguments Undefined {A}.

Definition M (A : Type) := World -> outcome A.

Definition apply_convert (desc : ServiceDescription) (v : any) : M any :=
  fun w => match convert desc v with
           | Some h => Done h w
           | None => Raised bad_any_cast w
           end.

(** [desc.convert(v)] for a Singleton or Scoped descriptor: the closure
    applies [*] to the [shared_ptr]. *)
Definition convert_deref (desc : ServiceDescription) (v : any) : M any :=
  match v with
  | AnyNull => fun _ => Undefined
  | _ => apply_convert desc v
  end.

Fixpoint runClosure (gs : type_index -> M any) (gss : type_index -> M (list any))
    (c : Closure) : M any :=
  match c with
  | MakeUnique impl args =>
      fun w => Done (AnyShared (length (heap w))) (alloc (mkObj impl args) w)
  | CallGetService t k => fun w =>
      match gs t w with
      | Done a w' => runClosure gs gss (k a) w'
      | Raised e w' => Raised e w'
      | OutOfFuel => OutOfFuel
      | Undefined => Undefined
      end
  | CallGetServices t k => fun w =>
      match gss t w with
      | Done l w' => runClosure gs gss (k l) w'
      | Raised e w' => Raised e w'
      | OutOfFuel => OutOfFuel
      | Undefined => Undefined
      end
  | Throw e => fun w => Raised e w
  | ReturnNull => fun w => Done AnyNull w
  end.

Definition runFactory (gs : type_index -> M any) (gss : type_index -> M (list any))
    (f : FactoryFunction) : M any :=
  match f with
  | Build c => runClosure gs gss c
  | Share p => fun w => Done (AnyShared p) w
  end.

(** The static [ServiceProvider::getService(factories, providerInstances,
    initializationOrder, serviceProvider, index)].  Every caller passes the
    [_instances] and the [_initializationOrder] of one and the same
    provider object, [owner].  The iterator the first [emplace] returns is
    read as the entry of [key], whatever the map did in between. *)
Definition Resolver :=
  type_index -> FactoryFunctionCollection -> Provider -> Provider -> N -> M any.

Section Lookup.
Variable _factories : Registry.
Variable resolve : Resolver.

(** [ServiceProvider::getService(type)] and
    [ScopedServiceProvider::getService(type)]: always index [0]. *)
Definition getService_with (self : Provider) (ty : type_index) : M any :=
  match _factories !! ty with
  | None => fun w => Done AnyEmpty w
  | Some factories =>
      match self with
      | Root => resolve ty factories Root Root 0%N
      | Scope id =>
          let frontScoped :=
            match head factories with
            | Some desc => Current.is_Scoped (type desc)
            | None => false
            end in
          if frontScoped
          then resolve ty factories (Scope id) (Scope id) 0%N
          else resolve ty factories Root (Scope id) 0%N
      end
  end.

(** The loops of the two [getServices]: the provider passes [i], the scope
    passes [0] whatever [i] is. *)
Fixpoint getServices_loop (self : Provider) (ty : type_index)
    (factories : FactoryFunctionCollection) (idxs : list nat) (res : list any)
    : M (list any) :=
  match idxs with
  | [] => fun w => Done res w
  | i :: rest =>
      let call :=
        match self with
        | Root => resolve ty factories Root Root (N.of_nat i)
        | Scope id =>
            match factories !! i with
            | Some desc =>
                if Current.is_Scoped (type desc)
                then resolve ty factories (Scope id) (Scope id) 0%N
                else resolve ty factories Root (Scope id) 0%N
            | None => resolve ty factories Root (Scope id) 0%N
            end
        end in
      fun w => match call w with
               | Done a w' => getServices_loop self ty factories rest (res ++ [a]) w'
               | Raised e w' => Raised e w'
               | OutOfFuel => OutOfFuel
               | Undefined => Undefined
               end
  end.

Definition getServices_with (self : Provider) (ty : type_index) : M (list any) :=
  match _factories !! ty with
  | None => fun w => Done [] w
  | Some factories =>
      getServices_loop self ty factories (seq 0 (length factories)) []
  end.
End Lookup.

Fixpoint resolve (_factories : Registry) (fuel : nat) (key : type_index)
    (factories : FactoryFunctionCollection) (owner serviceProvider : Provider)
    (index : N) : M any :=
  match fuel with
  | 0 => fun _ => OutOfFuel
  | S fuel' =>
      match vec_at factories index with
      | None => fun w => Raised out_of_range w
      | Some desc =>
          let run :=
            runFactory
              (getService_with _factories (resolve _factories fuel') serviceProvider)
              (getServices_with _factories (resolve _factories fuel') serviceProvider)
              (create desc) in
          match type desc with
          | Transient => fun w =>
              match run w with
              | Done v w' => apply_convert desc v w'
              | Raised e w' => Raised e w'
              | OutOfFuel => OutOfFuel
              | Undefined => Undefined
              end
          | _ => fun w =>
              let w1 := emplace_instances owner key (length factories) w in
              match vec_at (instances_of owner key w1) index with
              | None => Raised out_of_range w1
              | Some a =>
                  if has_value a then convert_deref desc a w1
                  else
                    match run w1 with
                    | Done v w2 =>
                        (* the position is read after [create] returned *)
                        let w3 := emplace_at owner key (N.to_nat index) v w2 in
                        let w4 := push_order owner v w3 in
                        match vec_at (instances_of owner key w4) index with
                        | Some a' => convert_deref desc a' w4
                        | None => Raised out_of_range w4
                        end
                    | Raised e w2 => Raised e w2
                    | OutOfFuel => OutOfFuel
                    | Undefined => Undefined
                    end
              end
          end
      end
  end.

Definition getService (_factories : Registry) (fuel : nat) (self : Provider)
    (ty : type_index) : M any :=
  getService_with _factories (resolve _factories fuel) self ty.

Definition getServices (_factories : Registry) (fuel : nat) (self : Provider)
    (ty : type_index) : M (list any) :=
  getServices_with _factories (resolve _factories fuel) self ty.

End Legacy.

(** ** The two providers side by side *)

Module Refinement.

(** The first slot of the vector a legacy provider object keeps under [k]. *)
Definition legacy_first (p : Provider) (k : type_index) (lw : Legacy.World) : any :=
  default AnyEmpty (Legacy.instances_of p k lw !! 0).

(** A slot of the current provider against an element of the legacy
    vector: a ready slot holds the element, an unclaimed slot stands
    against an empty element. *)
Definition slot_sim (cs : Current.ConcurrentService) (a : any) : Prop :=
  (forall v, Current.serviceFuture cs = Some v -> a = v /\ has_value v = true) /\
  (Current.initialized cs = false -> a = AnyEmpty).

Record sim (cw : Current.World) (lw : Legacy.World) : Prop := mkSim {
  sim_heap : Current.heap cw = Legacy.heap lw;
  sim_order : forall p,
    Current._initializationOrder (Current.members p cw) =
    Legacy._initializationOrder (Legacy.members p lw);
  sim_present : forall p k,
    is_Some (Current._instances (Current.members p cw) !! k) <->
    is_Some (Legacy._instances (Legacy.members p lw) !! k);
  sim_nonempty : forall p k vec,
    Legacy._instances (Legacy.members p lw) !! k = Some vec -> 0 < length vec;
  sim_slots : forall p k, slot_sim (Current.slot p k 0 cw) (legacy_first p k lw)
}.

(** The legacy call returns what the current call returns, when that one
    returns, and the worlds still correspond. *)
Definition agrees {A} (co : Current.outcome A) (lo : Legacy.outcome A) : Prop :=
  match co with
  | Current.Done a cw' => exists lw', lo = Legacy.Done a lw' /\ sim cw' lw'
  | Current.Raised e cw' => exists lw', lo = Legacy.Raised e lw' /\ sim cw' lw'
  | Current.Blocked => True
  | Current.OutOfFuel => True
  | Current.Undefined => True
  end.

(** Every registered type key holds exactly one descriptor. *)
Definition single_descriptors (_factories : Registry) : Prop :=
  forall k factories, _factories !! k = Some factories -> length factories = 1.

Definition resolvers_agree (_factories : Registry) (ctx : Provider)
    (cres : Current.Resolver) (lres : Legacy.Resolver) : Prop :=
  forall key factories this cw lw,
    _factories !! key = Some factories -> this = Root \/ this = ctx ->
    Current.Inv _factories ctx cw -> sim cw lw ->
    agrees (cres key factories this ctx 0%N cw) (lres key factories this ctx 0%N lw).

(** A Singleton and a Scoped service that needs it: one descriptor per
    type key. *)
Definition registry_singles : Registry :=
  ServiceCollection.build
    (ServiceCollection.registerAll
       [ServiceCollection.AddSingleton "A" "A" [];
        ServiceCollection.AddScoped "B" "B" [ByRef "A"]]
       ServiceCollection.fresh).

End Refinement.

(** ** Type keys that hold descriptors of different lifetimes

    [ScopedServiceProvider::getService(type)] resolves the last descriptor
    of the key and picks the owner from the lifetime of the first one
    ([front()]); [getServices] picks the owner of each descriptor from that
    descriptor.  The two runs below show where the single-value lookup
    puts the instance when the first and the last lifetime differ. *)

Module MixedLifetimes.
Import Current.

(** Two scopes of one provider. *)
Definition two_scopes : World := (createScope (createScope (World_new [])).2).2.

Definition ready (p : ptr) : ConcurrentService := mkCS true (Some (AnyShared p)).

(** [addScoped<I, X>(); addSingleton<I, Y>();] *)
Definition registry_scoped_then_singleton : Registry :=
  ServiceCollection.build
    (ServiceCollection.registerAll
       [ServiceCollection.AddScoped "I" "X" [];
        ServiceCollection.AddSingleton "I" "Y" []]
       ServiceCollection.fresh).

(** [addSingleton<I, X>(); addScoped<I, Y>();] *)
Definition registry_singleton_then_scoped : Registry :=
  ServiceCollection.build
    (ServiceCollection.registerAll
       [ServiceCollection.AddSingleton "I" "X" [];
        ServiceCollection.AddScoped "I" "Y" []]
       ServiceCollection.fresh).

End MixedLifetimes.

(** * The theorems *)

Module RegistrationFacts.
Import ServiceCollection.

Import Registrations.

Lemma register_emplace_back r c : register r c = emplace_back (key_of r) (desc_of r) c.
Proof. by destruct r. Qed.

Lemma lookup_emplace_back k d (c : Registry) k' :
  emplace_back k d c !! k' =
  if decide (k = k') then Some (default [] (c !! k) ++ [d]) else c !! k'.
Proof.
  unfold emplace_back. case_decide as Hk.
  - subst. destruct (c !! k') eqn:Hc; by rewrite lookup_insert_eq.
  - destruct (c !! k) eqn:Hc; by rewrite lookup_insert_ne.
Qed.

Lemma registered_under_cons k r rs :
  registered_under k (r :: rs) =
  (if decide (key_of r = k) then [desc_of r] else []) ++ registered_under k rs.
Proof. unfold registered_under. rewrite filter_cons. by case_decide. Qed.

(** Nothing is removed or replaced: a key holds what it held, followed by
    what was registered under it. *)
Lemma lookup_registerAll rs : forall (c : Registry) k,
  registerAll rs c !! k =
  match c !! k, registered_under k rs with
  | None, [] => None
  | o, new => Some (default [] o ++ new)
  end.
Proof.
  induction rs as [|r rs IH]; intros c k.
  - simpl. unfold registered_under. simpl. destruct (c !! k); simpl; [|done].
    by rewrite app_nil_r.
  - simpl. rewrite IH, register_emplace_back, lookup_emplace_back.
    rewrite registered_under_cons. case_decide as Hk.
    + subst. destruct (c !! key_of r) eqn:Hc; simpl.
      * destruct (registered_under (key_of r) rs); simpl; by rewrite <- ?app_assoc.
      * by destruct (registered_under (key_of r) rs).
    + simpl. done.
Qed.

Lemma lookup_build rs k :
  build (registerAll rs fresh) !! k =
  match registered_under k rs with
  | [] => None
  | new => Some new
  end.
Proof.
  unfold build, fresh. rewrite lookup_registerAll, lookup_empty.
  by destruct (registered_under k rs).
Qed.

Lemma size_minus_1_in_range {A} (v : list A) :
  v <> [] -> (size_minus_1 v < N.of_nat (length v))%N.
Proof.
  intros Hne. assert (0 < length v) by (destruct v; simpl; [done | lia]).
  unfold size_minus_1.
  assert (0 <= (Z.of_nat (length v) - 1) mod 2 ^ 64 <= Z.of_nat (length v) - 1)%Z.
  { split; [apply Z.mod_pos_bound; lia | apply Z.mod_le; lia]. }
  lia.
Qed.

(** C9.  In the provider built from any sequence of registrations, the
    vector found under a type key is exactly what was registered under
    that key, in call order, and it is not empty; so [front()] is defined,
    [size() - 1] computed on [size_t] stays below [size()], the checked
    access [at(size() - 1)] succeeds, and (a vector holding fewer than
    [2^64] descriptors) it yields the last descriptor. *)
Theorem C9_registered_keys_hold_descriptors
    (rs : list Registration) (ty : type_index) (factories : FactoryFunctionCollection) :
  build (registerAll rs fresh) !! ty = Some factories ->
  factories = registered_under ty rs /\
  factories <> [] /\
  is_Some (head factories) /\
  (size_minus_1 factories < N.of_nat (length factories))%N /\
  is_Some (vec_at factories (size_minus_1 factories)) /\
  ((Z.of_nat (length factories) < 2 ^ 64)%Z ->
   size_minus_1 factories = N.of_nat (length factories - 1) /\
   vec_at factories (size_minus_1 factories) = last factories).
Proof.
  rewrite lookup_build. intros Hb.
  assert (Heq : factories = registered_under ty rs /\ factories <> []).
  { destruct (registered_under ty rs); [done|]. by injection Hb as <-. }
  destruct Heq as [Heq Hne]. clear Hb.
  pose proof (size_minus_1_in_range factories Hne) as Hlt.
  assert (Hpos : 0 < length factories) by (destruct factories; simpl; [done | lia]).
  split; [done|]. split; [done|]. split; [by destruct factories|]. split; [done|].
  split.
  - unfold vec_at.
    destruct (N.ltb_spec (size_minus_1 factories) (N.of_nat (length factories))); [|lia].
    apply lookup_lt_is_Some_2. lia.
  - intros Hmax.
    assert (Hs : size_minus_1 factories = N.of_nat (length factories - 1)).
    { unfold size_minus_1. rewrite Z.mod_small by lia. lia. }
    split; [done|]. rewrite Hs, last_lookup.
    replace (Init.Nat.pred (length factories)) with (length factories - 1) by lia.
    unfold vec_at.
    destruct (N.ltb_spec (N.of_nat (length factories - 1)) (N.of_nat (length factories)));
      [|lia].
    by rewrite Nat2N.id.
Qed.

Lemma C9_witness :
  let rs := [AddSingleton "I" "X" []; AddTransient "T" "T" []; AddScoped "I" "Y" []] in
  let factories := registered_under "I" rs in
  factories = registered_under "I" rs /\
  factories <> [] /\
  is_Some (head factories) /\
  (size_minus_1 factories < N.of_nat (length factories))%N /\
  is_Some (vec_at factories (size_minus_1 factories)) /\
  ((Z.of_nat (length factories) < 2 ^ 64)%Z ->
   size_minus_1 factories = N.of_nat (length factories - 1) /\
   vec_at factories (size_minus_1 factories) = last factories).
Proof.
  intros rs factories.
  apply (C9_registered_keys_hold_descriptors rs "I" factories).
  vm_compute. reflexivity.
Defined.

(** Every descriptor of a built provider comes from a registration. *)
Lemma build_descriptor_from rs k factories i desc :
  build (registerAll rs fresh) !! k = Some factories ->
  factories !! i = Some desc ->
  exists r, r ∈ rs /\ key_of r = k /\ desc = desc_of r.
Proof.
  rewrite lookup_build. intros Hb Hd.
  assert (factories = registered_under k rs) as ->.
  { destruct (registered_under k rs); [done|]. by injection Hb as <-. }
  unfold registered_under in Hd. apply list_lookup_fmap_Some in Hd as (r & -> & Hr).
  apply list_elem_of_lookup_2 in Hr. apply list_elem_of_filter in Hr as [Hk Hin]. eauto.
Qed.

End RegistrationFacts.

Module CurrentFacts.
Import Current.

(** *** Reading and writing the members of a provider object *)

Lemma members_set_members_eq p m w : members p (set_members p m w) = m.
  Proof. destruct p; simpl; [done|]. by rewrite lookup_insert_eq. Qed.

Lemma members_set_members_ne p q m w :
    p ≠ q -> members q (set_members p m w) = members q w.
  Proof.
    intros Hne. destruct p as [|a], q as [|b]; simpl; try done.
    rewrite lookup_insert_ne; [done | congruence].
  Qed.

Lemma heap_set_members p m w : heap (set_members p m w) = heap w.
  Proof. by destruct p. Qed.

Lemma invocations_set_members p m w :
    invocations (set_members p m w) = invocations w.
  Proof. by destruct p. Qed.

Lemma next_scope_set_members p m w :
    next_scope (set_members p m w) = next_scope w.
  Proof. by destruct p. Qed.

Lemma members_alloc p o w : members p (alloc o w) = members p w.
  Proof. by destruct p. Qed.

Lemma members_record_invocation p e w :
    members p (record_invocation e w) = members p w.
  Proof. by destruct p. Qed.

Lemma slot_alloc p k i o w : slot p k i (alloc o w) = slot p k i w.
  Proof. unfold slot. by rewrite members_alloc. Qed.

Lemma slot_record_invocation p k i e w :
    slot p k i (record_invocation e w) = slot p k i w.
  Proof. unfold slot. by rewrite members_record_invocation. Qed.

Lemma slot_push_order p k i q v w : slot p k i (push_order q v w) = slot p k i w.
  Proof.
    unfold slot, push_order. destruct (decide (q = p)) as [->|Hne].
    - by rewrite members_set_members_eq.
    - by rewrite members_set_members_ne.
  Qed.

(** A fresh array reads like no array at all. *)
Lemma slot_emplace_instances p k i q key n w :
    slot p k i (emplace_instances q key n w) = slot p k i w.
  Proof.
    unfold slot, emplace_instances.
    destruct (_instances (members q w) !! key) eqn:Hq; [done|].
    destruct (decide (q = p)) as [->|Hne].
    - rewrite members_set_members_eq. simpl.
      destruct (decide (key = k)) as [->|Hk].
      + rewrite lookup_insert_eq, Hq.
        destruct (replicate n ConcurrentService_new !! i) eqn:Hr; [|done].
        apply lookup_replicate in Hr as [-> _]. done.
      + by rewrite lookup_insert_ne.
    - by rewrite members_set_members_ne.
  Qed.

Lemma slot_set_slot_eq p k i cs w arr :
    _instances (members p w) !! k = Some arr -> i < length arr ->
    slot p k i (set_slot p k i cs w) = cs.
  Proof.
    intros Harr Hi. unfold slot, set_slot. rewrite Harr.
    rewrite members_set_members_eq. simpl. rewrite lookup_insert_eq.
    by rewrite list_lookup_insert_eq.
  Qed.

Lemma slot_set_slot_ne p k i cs w q k' i' :
    (q, k', i') ≠ (p, k, i) ->
    slot q k' i' (set_slot p k i cs w) = slot q k' i' w.
  Proof.
    intros Hne. unfold slot, set_slot.
    destruct (_instances (members p w) !! k) as [arr|] eqn:Harr; [|done].
    destruct (decide (p = q)) as [->|Hp].
    - rewrite members_set_members_eq. simpl.
      destruct (decide (k = k')) as [->|Hk].
      + rewrite lookup_insert_eq, Harr.
        rewrite list_lookup_insert_ne; [done | congruence].
      + by rewrite lookup_insert_ne.
    - by rewrite members_set_members_ne.
  Qed.

Lemma array_size_alloc p k o w : array_size p k (alloc o w) = array_size p k w.
  Proof. unfold array_size. by rewrite members_alloc. Qed.

Lemma array_size_record_invocation p k e w :
    array_size p k (record_invocation e w) = array_size p k w.
  Proof. unfold array_size. by rewrite members_record_invocation. Qed.

Lemma array_size_push_order p k q v w :
    array_size p k (push_order q v w) = array_size p k w.
  Proof.
    unfold array_size, push_order. destruct (decide (q = p)) as [->|Hne].
    - by rewrite members_set_members_eq.
    - by rewrite members_set_members_ne.
  Qed.

Lemma array_size_set_slot p k q k' i cs w :
    array_size p k (set_slot q k' i cs w) = array_size p k w.
  Proof.
    unfold array_size, set_slot.
    destruct (_instances (members q w) !! k') as [arr|] eqn:Harr; [|done].
    destruct (decide (q = p)) as [->|Hne].
    - rewrite members_set_members_eq. simpl.
      destruct (decide (k' = k)) as [->|Hk].
      + rewrite lookup_insert_eq, Harr. simpl. by rewrite length_insert.
      + by rewrite lookup_insert_ne.
    - by rewrite members_set_members_ne.
  Qed.

Lemma array_size_emplace_instances p k q k' n w :
    array_size p k (emplace_instances q k' n w) =
    if decide ((q, k') = (p, k)) then
      match array_size p k w with Some m => Some m | None => Some n end
    else array_size p k w.
  Proof.
    unfold array_size, emplace_instances.
    case_decide as Heq.
    - injection Heq as -> ->.
      destruct (_instances (members p w) !! k) eqn:Hq; simpl.
      + by rewrite Hq.
      + rewrite members_set_members_eq. simpl. rewrite lookup_insert_eq. simpl.
        by rewrite length_replicate.
    - destruct (_instances (members q w) !! k') eqn:Hq; [done|].
      destruct (decide (q = p)) as [->|Hne].
      + rewrite members_set_members_eq. simpl.
        rewrite lookup_insert_ne; [done | congruence].
      + by rewrite members_set_members_ne.
  Qed.

Lemma slot_initialized_in_range p k i w :
    initialized (slot p k i w) = true ->
    exists n, array_size p k w = Some n /\ i < n.
  Proof.
    unfold slot, array_size.
    destruct (_instances (members p w) !! k) as [arr|]; [|done].
    destruct (arr !! i) eqn:Hi; [|done].
    intros _. exists (length arr). split; [done|]. by eapply lookup_lt_Some.
  Qed.

Lemma slot_set_slot_same p k i cs w n :
    array_size p k w = Some n -> i < n ->
    slot p k i (set_slot p k i cs w) = cs.
  Proof.
    unfold array_size. intros Hn Hi.
    destruct (_instances (members p w) !! k) as [arr|] eqn:Harr; [|done].
    simpl in Hn. injection Hn as <-. by eapply slot_set_slot_eq.
  Qed.

Lemma vec_at_Some {A} (v : list A) index x :
    vec_at v index = Some x -> v !! N.to_nat index = Some x.
  Proof. unfold vec_at. by case_match. Qed.

(** What [serviceFuture.get()] reads right after [set_value(v)]. *)
Lemma future_fulfilled this key i v w v' :
    serviceFuture (slot this key i (fulfilled this key i v w)) = Some v' -> v' = v.
  Proof.
    unfold fulfilled, set_slot.
    destruct (_instances (members this w) !! key) as [arr|] eqn:Harr.
    - unfold slot at 1. rewrite members_set_members_eq. simpl. rewrite lookup_insert_eq.
      destruct (decide (i < length arr)) as [Hi|Hi].
      + rewrite list_lookup_insert_eq by done. simpl. congruence.
      + rewrite lookup_ge_None_2 by (rewrite length_insert; lia). done.
    - unfold slot. by rewrite Harr.
  Qed.

Section Rule.
Variable _factories : Registry.
Variable ctx : Provider.
Variable I : World -> Prop.
Variable R : World -> World -> Prop.
Variable V : any -> World -> Prop.
Local Abbreviation postV := (Current.postV I R V).
Local Abbreviation resolver_ok := (Current.resolver_ok _factories ctx I R).

Hypothesis R_refl : forall w, R w w.
Hypothesis R_trans : forall a b c, R a b -> R b c -> R a c.

Hypothesis step_alloc : forall o w, I w ->
  I (alloc o w) /\ R w (alloc o w) /\ V (AnyShared (length (heap w))) (alloc o w).

Hypothesis step_share : forall key factories desc i p w,
  _factories !! key = Some factories -> factories !! i = Some desc ->
  create desc = Share p -> I w -> V (AnyShared p) w.

Hypothesis step_transient : forall this key factories desc i w,
  _factories !! key = Some factories -> factories !! i = Some desc ->
  type desc = Transient -> this = Root \/ this = ctx -> I w ->
  I (record_invocation (mkInv this key i ctx) w) /\
  R w (record_invocation (mkInv this key i ctx) w).

Hypothesis step_emplace : forall this key factories w,
  _factories !! key = Some factories -> this = Root \/ this = ctx -> I w ->
  I (emplace_instances this key (length factories) w) /\
  R w (emplace_instances this key (length factories) w).

Hypothesis step_claim : forall this key factories desc i w,
  _factories !! key = Some factories -> factories !! i = Some desc ->
  type desc <> Transient -> this = Root \/ this = ctx -> I w ->
  initialized (slot this key i w) = false ->
  I (claimed ctx this key i (emplace_instances this key (length factories) w)) /\
  R w (claimed ctx this key i (emplace_instances this key (length factories) w)).

Hypothesis step_publish : forall this key factories desc i w w3 v v',
  _factories !! key = Some factories -> factories !! i = Some desc ->
  type desc <> Transient -> this = Root \/ this = ctx -> I w ->
  initialized (slot this key i w) = false ->
  I w3 -> V v w3 ->
  R (claimed ctx this key i (emplace_instances this key (length factories) w)) w3 ->
  serviceFuture (slot this key i (fulfilled this key i v w3)) = Some v' ->
  I (push_order this v' (fulfilled this key i v w3)) /\
  R w (push_order this v' (fulfilled this key i v w3)).

Lemma postV_weaken w w0 (o : outcome any) :
    R w0 w -> postV w o -> postV w0 o.
  Proof using All.
    intros H0. destruct o; simpl; try done.
    - intros (Hi & Hr & Hv). eauto.
    - intros (Hi & Hr). eauto.
  Qed.

Lemma postV_bind {A} (m : outcome A) (f : A -> M any) w :
    post I R w m ->
    (forall a w', m = Done a w' -> I w' -> R w w' -> postV w (f a w')) ->
    postV w
      (match m with
       | Done a w' => f a w'
       | Raised e w' => Raised e w'
       | Blocked => Blocked
       | OutOfFuel => OutOfFuel
       | Undefined => Undefined
       end).
  Proof using All. destruct m; simpl; intros H Hf; try done. destruct H. by apply Hf. Qed.

Lemma post_bind {A B} (m : outcome A) (f : A -> M B) w :
    post I R w m ->
    (forall a w', m = Done a w' -> I w' -> R w w' -> post I R w (f a w')) ->
    post I R w
      (match m with
       | Done a w' => f a w'
       | Raised e w' => Raised e w'
       | Blocked => Blocked
       | OutOfFuel => OutOfFuel
       | Undefined => Undefined
       end).
  Proof using All. destruct m; simpl; intros H Hf; try done. destruct H. by apply Hf. Qed.

Lemma post_weaken {A} w w0 (o : outcome A) :
    R w0 w -> post I R w o -> post I R w0 o.
  Proof using All.
    intros H0. destruct o; simpl; try done; intros [Hi Hr]; split; eauto.
  Qed.

Lemma apply_convert_rule desc v w : I w -> post I R w (apply_convert desc v w).
  Proof using All.
    intros Hi. unfold apply_convert. destruct (convert desc v); simpl; auto.
  Qed.

Lemma convert_deref_rule desc v w : I w -> post I R w (convert_deref desc v w).
  Proof using All.
    intros Hi. destruct v; simpl; try done; by apply apply_convert_rule.
  Qed.

Lemma runClosure_rule gs gss :
    (forall t w, I w -> post I R w (gs t w)) ->
    (forall t w, I w -> post I R w (gss t w)) ->
    forall c w, I w -> postV w (runClosure gs gss c w).
  Proof using All.
    intros Hgs Hgss. induction c as [impl args|t k IH|t k IH|e|]; intros w Hi; simpl.
    - destruct (step_alloc (mkObj impl args) w Hi) as (Hi' & Hr & Hv). auto.
    - apply postV_bind; [by apply Hgs|]. intros a w' _ Hi' Hr.
      eapply postV_weaken; [exact Hr|]. by apply IH.
    - apply postV_bind; [by apply Hgss|]. intros a w' _ Hi' Hr.
      eapply postV_weaken; [exact Hr|]. by apply IH.
    - split; auto.
    - auto.
  Qed.

Lemma runFactory_rule gs gss key factories desc i :
    _factories !! key = Some factories -> factories !! i = Some desc ->
    (forall t w, I w -> post I R w (gs t w)) ->
    (forall t w, I w -> post I R w (gss t w)) ->
    forall w, I w -> postV w (runFactory gs gss (create desc) w).
  Proof using All.
    intros Hf Hd Hgs Hgss w Hi. destruct (create desc) as [c|p] eqn:Hc; simpl.
    - by apply runClosure_rule.
    - repeat split; auto. right. by eapply step_share.
  Qed.

Lemma getService_with_rule resolve :
    resolver_ok resolve ->
    forall t w, I w -> post I R w (getService_with _factories resolve ctx t w).
  Proof using All.
    intros Hres t w Hi. unfold getService_with.
    destruct (_factories !! t) as [factories|] eqn:Hf; [|simpl; auto].
    assert (H : forall this index, this = Root \/ this = ctx ->
              post I R w (resolve t factories this ctx index w))
      by (intros; by apply Hres).
    destruct ctx as [|id]; [by apply H; left|].
    case_match; apply H; auto.
  Qed.

Lemma getServices_loop_rule resolve t factories :
    resolver_ok resolve -> _factories !! t = Some factories ->
    forall idxs res w, I w ->
      post I R w (getServices_loop resolve ctx t factories idxs res w).
  Proof using All.
    intros Hres Hf. induction idxs as [|i rest IH]; intros res w Hi; simpl.
    - auto.
    - apply post_bind.
      + assert (H : forall this index, this = Root \/ this = ctx ->
                  post I R w (resolve t factories this ctx index w))
          by (intros; by apply Hres).
        destruct ctx as [|id]; [by apply H; left|].
        repeat case_match; apply H; auto.
      + intros a w' _ Hi' Hr. eapply post_weaken; [exact Hr|]. by apply IH.
  Qed.

Lemma getServices_with_rule resolve :
    resolver_ok resolve ->
    forall t w, I w -> post I R w (getServices_with _factories resolve ctx t w).
  Proof using All.
    intros Hres t w Hi. unfold getServices_with.
    destruct (_factories !! t) as [factories|] eqn:Hf; [|simpl; auto].
    by apply getServices_loop_rule.
  Qed.

Theorem resolve_rule fuel : resolver_ok (resolve _factories fuel).
  Proof using All.
    induction fuel as [|fuel IH]; intros key factories this index w Hf Hthis Hi;
      [done|].
    simpl. destruct (vec_at factories index) as [desc|] eqn:Hat; [|simpl; auto].
    apply vec_at_Some in Hat.
    set (i := N.to_nat index) in *.
    assert (Hrun : forall w0, I w0 ->
      postV w0
        (runFactory (getService_with _factories (resolve _factories fuel) ctx)
           (getServices_with _factories (resolve _factories fuel) ctx)
           (create desc) w0)).
    { intros w0 Hi0. eapply runFactory_rule; eauto.
      - by apply getService_with_rule.
      - by apply getServices_with_rule. }
    destruct (decide (type desc = Transient)) as [Hty|Hty].
    { rewrite Hty.
      destruct (step_transient this key factories desc i w) as [Hi1 Hr1]; auto.
      eapply post_weaken; [exact Hr1|].
      specialize (Hrun _ Hi1).
      destruct (runFactory _ _ _ _) as [v w'|e w'| | |]; simpl in Hrun; try done.
      destruct Hrun as (Hi' & Hr' & _).
      eapply post_weaken; [exact Hr'|]. by apply apply_convert_rule. }
    destruct (step_emplace this key factories w) as [Hi1 Hr1]; auto.
    assert (Hgoal : post I R w
      (let w1 := emplace_instances this key (length factories) w in
       if initialized (slot this key i w1)
       then match serviceFuture (slot this key i w1) with
            | Some v => convert_deref desc v w1
            | None => Blocked
            end
       else match runFactory (getService_with _factories (resolve _factories fuel) ctx)
                    (getServices_with _factories (resolve _factories fuel) ctx)
                    (create desc) (claimed ctx this key i w1) with
            | Done v w3 =>
                match serviceFuture (slot this key i (fulfilled this key i v w3)) with
                | Some v' =>
                    convert_deref desc v' (push_order this v' (fulfilled this key i v w3))
                | None => Blocked
                end
            | Raised e w3 => Raised e w3
            | Blocked => Blocked
            | OutOfFuel => OutOfFuel
            | Undefined => Undefined
            end)); [|by destruct (type desc)].
    simpl. rewrite slot_emplace_instances.
    destruct (initialized (slot this key i w)) eqn:Hinit.
    { destruct (serviceFuture (slot this key i w)); [|done].
      eapply post_weaken; [exact Hr1|]. by apply convert_deref_rule. }
    destruct (step_claim this key factories desc i w) as [Hi2 Hr2]; auto.
    specialize (Hrun _ Hi2).
    destruct (runFactory _ _ _ _) as [v w3|e w3| | |]; simpl in Hrun; try done.
    - destruct Hrun as (Hi3 & Hr3 & Hv3).
      destruct (serviceFuture (slot this key i (fulfilled this key i v w3)))
        as [v'|] eqn:Hv'; [|done].
      destruct Hv3 as [->|Hv3]; [by rewrite (future_fulfilled _ _ _ _ _ _ Hv')|].
      destruct (step_publish this key factories desc i w w3 v v') as [Hi5 Hr5]; auto.
      eapply post_weaken; [exact Hr5|]. by apply convert_deref_rule.
    - destruct Hrun as [Hi3 Hr3]. split; eauto.
  Qed.

Corollary getService_rule fuel t w :
    I w -> post I R w (getService _factories fuel ctx t w).
  Proof using All. apply getService_with_rule, resolve_rule. Qed.

Corollary getServices_rule fuel t w :
    I w -> post I R w (getServices _factories fuel ctx t w).
  Proof using All. apply getServices_with_rule, resolve_rule. Qed.
End Rule.

(** *** Unfolding one resolution *)

Lemma resolve_transient_eq _factories fuel key factories this sp index desc w :
    vec_at factories index = Some desc -> type desc = Transient ->
    resolve _factories (S fuel) key factories this sp index w =
    match runFactory (getService _factories fuel sp) (getServices _factories fuel sp)
            (create desc) (record_invocation (mkInv this key (N.to_nat index) sp) w) with
    | Done v w' => apply_convert desc v w'
    | Raised e w' => Raised e w'
    | Blocked => Blocked
    | OutOfFuel => OutOfFuel
    | Undefined => Undefined
    end.
  Proof. intros Hat Hty. simpl. by rewrite Hat, Hty. Qed.

Lemma resolve_cached_eq _factories fuel key factories this sp index desc w :
    vec_at factories index = Some desc -> type desc <> Transient ->
    resolve _factories (S fuel) key factories this sp index w =
    let i := N.to_nat index in
    let w1 := emplace_instances this key (length factories) w in
    if initialized (slot this key i w1)
    then match serviceFuture (slot this key i w1) with
         | Some v => convert_deref desc v w1
         | None => Blocked
         end
    else match runFactory (getService _factories fuel sp) (getServices _factories fuel sp)
                 (create desc) (claimed sp this key i w1) with
         | Done v w3 =>
             match serviceFuture (slot this key i (fulfilled this key i v w3)) with
             | Some v' =>
                 convert_deref desc v' (push_order this v' (fulfilled this key i v w3))
             | None => Blocked
             end
         | Raised e w3 => Raised e w3
         | Blocked => Blocked
         | OutOfFuel => OutOfFuel
         | Undefined => Undefined
         end.
  Proof. intros Hat Hty. simpl. rewrite Hat. by destruct (type desc). Qed.

(** *** How the steps act on the parts of a world *)

Lemma invocations_set_slot p k i cs w :
    invocations (set_slot p k i cs w) = invocations w.
  Proof. unfold set_slot. case_match; [apply invocations_set_members | done]. Qed.

Lemma invocations_emplace_instances p k n w :
    invocations (emplace_instances p k n w) = invocations w.
  Proof. unfold emplace_instances. case_match; [done | apply invocations_set_members]. Qed.

Lemma invocations_push_order p v w : invocations (push_order p v w) = invocations w.
  Proof. apply invocations_set_members. Qed.

Lemma heap_set_slot p k i cs w : heap (set_slot p k i cs w) = heap w.
  Proof. unfold set_slot. case_match; [apply heap_set_members | done]. Qed.

Lemma heap_emplace_instances p k n w : heap (emplace_instances p k n w) = heap w.
  Proof. unfold emplace_instances. case_match; [done | apply heap_set_members]. Qed.

Lemma heap_push_order p v w : heap (push_order p v w) = heap w.
  Proof. apply heap_set_members. Qed.

Lemma next_scope_set_slot p k i cs w : next_scope (set_slot p k i cs w) = next_scope w.
  Proof. unfold set_slot. case_match; [apply next_scope_set_members | done]. Qed.

Lemma next_scope_emplace_instances p k n w :
    next_scope (emplace_instances p k n w) = next_scope w.
  Proof. unfold emplace_instances. case_match; [done | apply next_scope_set_members]. Qed.

Lemma next_scope_push_order p v w : next_scope (push_order p v w) = next_scope w.
  Proof. apply next_scope_set_members. Qed.

Lemma order_set_slot q p k i cs w :
    _initializationOrder (members q (set_slot p k i cs w)) =
    _initializationOrder (members q w).
  Proof.
    unfold set_slot. case_match; [|done].
    destruct (decide (p = q)) as [->|Hne].
    - by rewrite members_set_members_eq.
    - by rewrite members_set_members_ne.
  Qed.

Lemma order_emplace_instances q p k n w :
    _initializationOrder (members q (emplace_instances p k n w)) =
    _initializationOrder (members q w).
  Proof.
    unfold emplace_instances. case_match; [done|].
    destruct (decide (p = q)) as [->|Hne].
    - by rewrite members_set_members_eq.
    - by rewrite members_set_members_ne.
  Qed.

Lemma order_push_order q p v w :
    _initializationOrder (members q (push_order p v w)) =
    _initializationOrder (members q w) ++ (if decide (p = q) then [v] else []).
  Proof.
    unfold push_order. case_decide as Hd.
    - subst. by rewrite members_set_members_eq.
    - rewrite members_set_members_ne by done. by rewrite app_nil_r.
  Qed.

Lemma members_set_slot_ne q p k i cs w :
    p <> q -> members q (set_slot p k i cs w) = members q w.
  Proof. intros. unfold set_slot. case_match; [by apply members_set_members_ne | done]. Qed.

Lemma members_emplace_instances_ne q p k n w :
    p <> q -> members q (emplace_instances p k n w) = members q w.
  Proof.
    intros. unfold emplace_instances. case_match; [done | by apply members_set_members_ne].
  Qed.

Lemma members_push_order_ne q p v w :
    p <> q -> members q (push_order p v w) = members q w.
  Proof. intros. by apply members_set_members_ne. Qed.

Lemma scopes_bounded_set_members p m w :
    created p w -> scopes_bounded w -> scopes_bounded (set_members p m w).
  Proof.
    intros Hc Hb id Hid. destruct p as [|a]; simpl in *; [by apply Hb|].
    rewrite lookup_insert_ne by lia. by apply Hb.
  Qed.

Lemma scopes_bounded_set_slot p k i cs w :
    created p w -> scopes_bounded w -> scopes_bounded (set_slot p k i cs w).
  Proof. intros. unfold set_slot. case_match; [by apply scopes_bounded_set_members | done]. Qed.

Lemma scopes_bounded_emplace_instances p k n w :
    created p w -> scopes_bounded w -> scopes_bounded (emplace_instances p k n w).
  Proof.
    intros. unfold emplace_instances.
    case_match; [done | by apply scopes_bounded_set_members].
  Qed.

Lemma scopes_bounded_push_order p v w :
    created p w -> scopes_bounded w -> scopes_bounded (push_order p v w).
  Proof. intros. by apply scopes_bounded_set_members. Qed.

Lemma calls_eq p k i w w' :
    invocations w' = invocations w -> calls p k i w' = calls p k i w.
  Proof. unfold calls. by intros ->. Qed.

Lemma calls_record_invocation p k i e w :
    calls p k i (record_invocation e w) =
    calls p k i w +
    (if decide (inv_owner e = p /\ inv_key e = k /\ inv_index e = i) then 1 else 0).
  Proof.
    unfold calls, record_invocation. simpl. rewrite filter_app, length_app.
    f_equal. rewrite filter_cons, filter_nil. by case_decide.
  Qed.

Section Invariant.
Variable _factories : Registry.

Local Abbreviation descriptor := (Current.descriptor _factories).
Local Abbreviation cached_at := (Current.cached_at _factories).
Local Abbreviation WF := (Current.WF _factories).
Local Abbreviation Inv := (Current.Inv _factories).

Lemma ext_refl ctx w : ext ctx w w.
  Proof.
    constructor; intros *; try done.
    - exists []. by rewrite app_nil_r.
    - exists []. by rewrite app_nil_r.
    - exists []. by rewrite app_nil_r.
  Qed.

Lemma ext_trans ctx a b c : ext ctx a b -> ext ctx b c -> ext ctx a c.
  Proof.
    intros Hab Hbc. constructor.
    - intros p k i Hi. rewrite <- (ext_frozen _ _ _ Hab p k i Hi).
      apply (ext_frozen _ _ _ Hbc). by rewrite (ext_frozen _ _ _ Hab p k i Hi).
    - intros p k n Hn. apply (ext_arrays _ _ _ Hbc), (ext_arrays _ _ _ Hab), Hn.
    - destruct (ext_invocations _ _ _ Hab) as (n1 & E1 & F1).
      destruct (ext_invocations _ _ _ Hbc) as (n2 & E2 & F2).
      exists (n1 ++ n2). split; [by rewrite E2, E1, app_assoc|].
      by apply Forall_app.
    - destruct (ext_heap _ _ _ Hab) as (o1 & E1).
      destruct (ext_heap _ _ _ Hbc) as (o2 & E2).
      exists (o1 ++ o2). by rewrite E2, E1, app_assoc.
    - intros p. destruct (ext_order _ _ _ Hab p) as (l1 & E1).
      destruct (ext_order _ _ _ Hbc p) as (l2 & E2).
      exists (l1 ++ l2). by rewrite E2, E1, app_assoc.
    - intros p H1 H2. rewrite (ext_others _ _ _ Hbc p H1 H2).
      apply (ext_others _ _ _ Hab p H1 H2).
    - rewrite (ext_next_scope _ _ _ Hbc). apply (ext_next_scope _ _ _ Hab).
  Qed.

Lemma created_ext ctx p w w' : ext ctx w w' -> created p w -> created p w'.
  Proof. intros He. destruct p; simpl; [done|]. by rewrite (ext_next_scope _ _ _ He). Qed.

Lemma created_this ctx this w :
    this = Root \/ this = ctx -> created ctx w -> created this w.
  Proof. by intros [->| ->]. Qed.

(** **** The five steps *)

Lemma Inv_alloc ctx o w :
    Inv ctx w -> Inv ctx (alloc o w) /\ ext ctx w (alloc o w) /\ True.
  Proof.
    intros [Hwf Hc]. split; [split; [|done]|split; [|done]].
    - destruct Hwf. constructor; intros *.
      + rewrite array_size_alloc. eauto.
      + rewrite slot_alloc. eauto.
      + rewrite slot_alloc. intros. rewrite <- wf_calls0 by done. by apply calls_eq.
      + done.
    - constructor; intros *.
      + by rewrite slot_alloc.
      + by rewrite array_size_alloc.
      + exists []. by rewrite app_nil_r.
      + by exists [o].
      + exists []. by rewrite members_alloc, app_nil_r.
      + by rewrite members_alloc.
      + done.
  Qed.

Lemma Inv_transient ctx this key factories desc i w :
    _factories !! key = Some factories -> factories !! i = Some desc ->
    type desc = Transient -> this = Root \/ this = ctx -> Inv ctx w ->
    Inv ctx (record_invocation (mkInv this key i ctx) w) /\
    ext ctx w (record_invocation (mkInv this key i ctx) w).
  Proof.
    intros Hf Hd Hty Hthis [Hwf Hc]. split; [split; [|done]|].
    - destruct Hwf. constructor; intros *.
      + rewrite array_size_record_invocation. eauto.
      + rewrite slot_record_invocation. eauto.
      + rewrite slot_record_invocation, calls_record_invocation.
        intros Hcached. rewrite <- wf_calls0 by done.
        case_decide as Hd'; [|lia]. simpl in Hd'. destruct Hd' as (_ & <- & <-).
        destruct Hcached as (d & Hdesc & Hnt). unfold Current.descriptor in Hdesc.
        rewrite Hf, Hd in Hdesc. congruence.
      + done.
    - constructor; intros *.
      + by rewrite slot_record_invocation.
      + by rewrite array_size_record_invocation.
      + eexists [_]. split; [done|]. constructor; [|done]. by simpl.
      + exists []. by rewrite app_nil_r.
      + exists []. by rewrite members_record_invocation, app_nil_r.
      + by rewrite members_record_invocation.
      + done.
  Qed.

Lemma Inv_emplace ctx this key factories w :
    _factories !! key = Some factories -> this = Root \/ this = ctx -> Inv ctx w ->
    Inv ctx (emplace_instances this key (length factories) w) /\
    ext ctx w (emplace_instances this key (length factories) w).
  Proof.
    intros Hf Hthis [Hwf Hc]. split; [split|].
    - destruct Hwf. constructor; intros *.
      + rewrite array_size_emplace_instances. case_decide as Hd; [|by eauto].
        injection Hd as <- <-. destruct (array_size this key w) eqn:Ha.
        * intros [= <-]. eauto.
        * intros [= <-]. eauto.
      + rewrite slot_emplace_instances. eauto.
      + rewrite slot_emplace_instances. intros. rewrite <- wf_calls0 by done.
        apply calls_eq, invocations_emplace_instances.
      + apply scopes_bounded_emplace_instances; [|done]. by eapply created_this.
    - destruct ctx; simpl in *; [done|]. by rewrite next_scope_emplace_instances.
    - constructor; intros *.
      + by rewrite slot_emplace_instances.
      + rewrite array_size_emplace_instances. intros Hn. rewrite Hn. by case_decide.
      + exists []. by rewrite invocations_emplace_instances, app_nil_r.
      + exists []. by rewrite heap_emplace_instances, app_nil_r.
      + exists []. by rewrite order_emplace_instances, app_nil_r.
      + intros H1 H2. apply members_emplace_instances_ne. by destruct Hthis as [->| ->].
      + apply next_scope_emplace_instances.
  Qed.

Lemma slot_claimed ctx this key i w n p k j :
    array_size this key w = Some n -> i < n ->
    slot p k j (claimed ctx this key i w) =
    if decide ((p, k, j) = (this, key, i)) then mkCS true None else slot p k j w.
  Proof.
    intros Hn Hi. unfold claimed. rewrite slot_record_invocation.
    case_decide as Hd.
    - injection Hd as -> -> ->. by eapply slot_set_slot_same.
    - by apply slot_set_slot_ne.
  Qed.

Lemma slot_fulfilled this key i v w n p k j :
    array_size this key w = Some n -> i < n ->
    slot p k j (fulfilled this key i v w) =
    if decide ((p, k, j) = (this, key, i))
    then mkCS (initialized (slot this key i w)) (Some v) else slot p k j w.
  Proof.
    intros Hn Hi. unfold fulfilled. case_decide as Hd.
    - injection Hd as -> -> ->. by eapply slot_set_slot_same.
    - by apply slot_set_slot_ne.
  Qed.

Lemma array_ready ctx this key factories desc i w :
    _factories !! key = Some factories -> factories !! i = Some desc ->
    Inv ctx w ->
    exists n, array_size this key (emplace_instances this key (length factories) w) = Some n
              /\ i < n.
  Proof.
    intros Hf Hd [Hwf _]. exists (length factories).
    split; [|by eapply lookup_lt_Some].
    rewrite array_size_emplace_instances. rewrite decide_True by done.
    destruct (array_size this key w) as [m|] eqn:Hm; [|done].
    destruct (wf_arrays _ _ Hwf _ _ _ Hm) as (fs & Hfs & ->). congruence.
  Qed.

Lemma Inv_claim ctx this key factories desc i w :
    _factories !! key = Some factories -> factories !! i = Some desc ->
    type desc <> Transient -> this = Root \/ this = ctx -> Inv ctx w ->
    initialized (slot this key i w) = false ->
    Inv ctx (claimed ctx this key i (emplace_instances this key (length factories) w)) /\
    ext ctx w (claimed ctx this key i (emplace_instances this key (length factories) w)).
  Proof.
    intros Hf Hd Hty Hthis Hinv Hinit.
    destruct (array_ready ctx this key factories desc i w) as (n & Hn & Hi); auto.
    destruct (Inv_emplace ctx this key factories w) as [[Hwf1 Hc1] He1]; auto.
    set (w1 := emplace_instances this key (length factories) w) in *.
    assert (Hinit1 : initialized (slot this key i w1) = false)
      by (unfold w1; by rewrite slot_emplace_instances).
    assert (Hthis1 : created this w1) by by eapply created_this.
    enough (Inv ctx (claimed ctx this key i w1) /\ ext ctx w1 (claimed ctx this key i w1))
      as [? ?] by (split; [done | by eapply ext_trans]).
    split; [split|].
    - destruct Hwf1. constructor; intros *.
      + unfold claimed. rewrite array_size_record_invocation, array_size_set_slot. eauto.
      + rewrite (slot_claimed _ _ _ _ _ n) by done. case_decide; [done | eauto].
      + intros Hcached. rewrite (slot_claimed _ _ _ _ _ n) by done.
        unfold claimed. rewrite calls_record_invocation. simpl.
        rewrite (calls_eq _ _ _ w1) by apply invocations_set_slot.
        rewrite wf_calls0 by done.
        destruct (decide ((p, k, i0) = (this, key, i))) as [Heq|Hne].
        * injection Heq as -> -> ->. rewrite decide_True by done.
          by rewrite Hinit1.
        * rewrite decide_False by (intros (-> & -> & ->); done). lia.
      + unfold claimed. by apply scopes_bounded_set_slot.
    - destruct ctx; simpl in *; [done|]. unfold claimed. simpl.
      by rewrite next_scope_set_slot.
    - constructor; intros *.
      + intros Hp. rewrite (slot_claimed _ _ _ _ _ n) by done.
        case_decide as Hd1; [|done]. injection Hd1 as -> -> ->. congruence.
      + unfold claimed. by rewrite array_size_record_invocation, array_size_set_slot.
      + exists [mkInv this key i ctx]. unfold claimed. simpl.
        rewrite invocations_set_slot. split; [reflexivity|].
        constructor; [|constructor]. simpl. split; [reflexivity|].
        destruct Hthis; auto.
      + exists []. unfold claimed. simpl. by rewrite heap_set_slot, app_nil_r.
      + exists []. unfold claimed.
        by rewrite members_record_invocation, order_set_slot, app_nil_r.
      + intros H1 H2. unfold claimed. rewrite members_record_invocation.
        apply members_set_slot_ne. by destruct Hthis as [->| ->].
      + unfold claimed. simpl. apply next_scope_set_slot.
  Qed.

(** What a winner finds when its factory returns: its slot is still
    claimed and empty, so [set_value] fills it and [get] reads it. *)
Lemma fulfilled_reads ctx this key factories desc i w w3 v :
    _factories !! key = Some factories -> factories !! i = Some desc ->
    Inv ctx w ->
    ext ctx (claimed ctx this key i (emplace_instances this key (length factories) w)) w3 ->
    forall p k j,
      slot p k j (fulfilled this key i v w3) =
      if decide ((p, k, j) = (this, key, i)) then mkCS true (Some v) else slot p k j w3.
  Proof.
    intros Hf Hd Hinv He3 p k j.
    destruct (array_ready ctx this key factories desc i w) as (n & Hn & Hi); auto.
    set (w1 := emplace_instances this key (length factories) w) in *.
    assert (Hn2 : array_size this key (claimed ctx this key i w1) = Some n).
    { unfold claimed. by rewrite array_size_record_invocation, array_size_set_slot. }
    pose proof (ext_arrays _ _ _ He3 _ _ _ Hn2) as Hn3.
    rewrite (slot_fulfilled _ _ _ _ _ n) by done.
    case_decide; [|done].
    rewrite (ext_frozen _ _ _ He3 this key i).
    - rewrite (slot_claimed _ _ _ _ _ n) by done. by rewrite decide_True.
    - rewrite (slot_claimed _ _ _ _ _ n) by done. by rewrite decide_True.
  Qed.

Lemma Inv_publish ctx this key factories desc i w w3 v v' :
    _factories !! key = Some factories -> factories !! i = Some desc ->
    type desc <> Transient -> this = Root \/ this = ctx -> Inv ctx w ->
    initialized (slot this key i w) = false ->
    Inv ctx w3 -> True ->
    ext ctx (claimed ctx this key i (emplace_instances this key (length factories) w)) w3 ->
    serviceFuture (slot this key i (fulfilled this key i v w3)) = Some v' ->
    Inv ctx (push_order this v' (fulfilled this key i v w3)) /\
    ext ctx w (push_order this v' (fulfilled this key i v w3)).
  Proof.
    intros Hf Hd Hty Hthis Hinv Hinit [Hwf3 Hc3] _ He3 Hv'.
    pose proof (fulfilled_reads ctx this key factories desc i w w3 v Hf Hd Hinv He3)
      as Hslot.
    rewrite Hslot, decide_True in Hv' by done. simpl in Hv'. injection Hv' as <-.
    destruct (Inv_claim ctx this key factories desc i w) as [_ He2]; auto.
    pose proof (ext_trans _ _ _ _ He2 He3) as He.
    assert (Hinit3 : initialized (slot this key i w3) = true).
    { destruct (array_ready ctx this key factories desc i w) as (n & Hn & Hi); auto.
      rewrite (ext_frozen _ _ _ He3 this key i);
        rewrite (slot_claimed _ _ _ _ _ n) by done; by rewrite decide_True. }
    assert (Hthis3 : created this w3) by by eapply created_this.
    split; [split|].
    - destruct Hwf3. constructor; intros *.
      + unfold fulfilled. rewrite array_size_push_order, array_size_set_slot. eauto.
      + rewrite slot_push_order, Hslot. case_decide; [done | eauto].
      + intros Hcached. rewrite slot_push_order, Hslot.
        rewrite (calls_eq _ _ _ w3)
          by (unfold fulfilled; by rewrite invocations_push_order, invocations_set_slot).
        rewrite wf_calls0 by done.
        case_decide as Hd1; [|done]. injection Hd1 as -> -> ->. by rewrite Hinit3.
      + apply scopes_bounded_push_order.
        * destruct this; simpl in *; [done|]. unfold fulfilled.
          by rewrite next_scope_set_slot.
        * unfold fulfilled. by apply scopes_bounded_set_slot.
    - destruct ctx; simpl in *; [done|]. unfold fulfilled.
      by rewrite next_scope_push_order, next_scope_set_slot.
    - constructor; intros *.
      + intros Hp. rewrite slot_push_order, Hslot.
        case_decide as Hd1; [injection Hd1 as -> -> ->; congruence|].
        by apply (ext_frozen _ _ _ He).
      + intros Hn. unfold fulfilled.
        rewrite array_size_push_order, array_size_set_slot.
        by apply (ext_arrays _ _ _ He).
      + unfold fulfilled. rewrite invocations_push_order, invocations_set_slot.
        apply (ext_invocations _ _ _ He).
      + unfold fulfilled. rewrite heap_push_order, heap_set_slot.
        apply (ext_heap _ _ _ He).
      + destruct (ext_order _ _ _ He p) as (l & El).
        eexists. unfold fulfilled. rewrite order_push_order, order_set_slot, El.
        by rewrite <- app_assoc.
      + intros H1 H2. unfold fulfilled.
        rewrite members_push_order_ne, members_set_slot_ne
          by (by destruct Hthis as [->| ->]).
        by apply (ext_others _ _ _ He).
      + unfold fulfilled. rewrite next_scope_push_order, next_scope_set_slot.
        apply (ext_next_scope _ _ _ He).
  Qed.

(** **** Every resolution keeps the invariant and moves forward *)

Local Ltac by_the_steps :=
  first [ apply ext_refl | apply ext_trans | apply Inv_alloc | apply Inv_transient
        | apply Inv_emplace | apply Inv_claim | apply Inv_publish | done ].

Theorem resolve_Inv ctx fuel key factories this index w :
    _factories !! key = Some factories -> this = Root \/ this = ctx -> Inv ctx w ->
    post (Inv ctx) (ext ctx) w (resolve _factories fuel key factories this ctx index w).
  Proof.
    apply (resolve_rule _factories ctx (Inv ctx) (ext ctx) (fun _ _ => True));
      by_the_steps.
  Qed.

Corollary getService_Inv ctx fuel ty w :
    Inv ctx w -> post (Inv ctx) (ext ctx) w (getService _factories fuel ctx ty w).
  Proof.
    apply (getService_rule _factories ctx (Inv ctx) (ext ctx) (fun _ _ => True));
      by_the_steps.
  Qed.

Corollary getServices_Inv ctx fuel ty w :
    Inv ctx w -> post (Inv ctx) (ext ctx) w (getServices _factories fuel ctx ty w).
  Proof.
    apply (getServices_rule _factories ctx (Inv ctx) (ext ctx) (fun _ _ => True));
      by_the_steps.
  Qed.

Corollary runClosure_Inv ctx fuel c w :
    Inv ctx w ->
    post (Inv ctx) (ext ctx) w
      (runClosure (getService _factories fuel ctx) (getServices _factories fuel ctx) c w).
  Proof.
    intros Hi.
    pose proof (runClosure_rule _factories ctx (Inv ctx) (ext ctx) (fun _ _ => True)
                  (ext_refl ctx) (ext_trans ctx)) as H.
    specialize (H (Inv_alloc ctx) ltac:(done) (Inv_transient ctx)
                  (Inv_emplace ctx) (Inv_claim ctx) (Inv_publish ctx)
                  (getService _factories fuel ctx) (getServices _factories fuel ctx)
                  (fun t w => getService_Inv ctx fuel t w)
                  (fun t w => getServices_Inv ctx fuel t w) c w Hi).
    destruct (runClosure _ _ _ _); simpl in *; tauto.
  Qed.

Corollary runFactory_Inv ctx fuel f w :
    Inv ctx w ->
    post (Inv ctx) (ext ctx) w
      (runFactory (getService _factories fuel ctx) (getServices _factories fuel ctx) f w).
  Proof.
    intros Hi. destruct f as [c|p]; simpl.
    - by apply runClosure_Inv.
    - split; [done | apply ext_refl].
  Qed.
End Invariant.

(** *** Sequences of requests *)

Lemma vec_at_lookup {A} (v : list A) i x :
    v !! i = Some x -> vec_at v (N.of_nat i) = Some x.
  Proof.
    intros Hx. unfold vec_at. pose proof (lookup_lt_Some _ _ _ Hx) as Hlt.
    destruct (N.ltb_spec (N.of_nat i) (N.of_nat (length v))) as [_|Hge]; [|lia].
    by rewrite Nat2N.id.
  Qed.

Lemma members_createScope p w :
    scopes_bounded w -> members p (createScope w).2 = members p w.
  Proof.
    intros Hb. destruct p as [|id]; simpl; [done|].
    destruct (decide (next_scope w = id)) as [<-|Hne].
    - rewrite lookup_insert_eq. by rewrite Hb.
    - by rewrite lookup_insert_ne.
  Qed.

Lemma slot_createScope p k i w :
    scopes_bounded w -> slot p k i (createScope w).2 = slot p k i w.
  Proof. intros. unfold slot. by rewrite members_createScope. Qed.

Section Sessions.
Variable _factories : Registry.

Local Abbreviation step := (Current.step _factories).
Local Abbreviation reachable := (Current.reachable _factories).

Lemma members_World_new p heap0 : members p (World_new heap0) = Members_new.
  Proof. by destruct p. Qed.

Lemma WF_World_new heap0 : WF _factories (World_new heap0).
  Proof.
    constructor.
    - intros p k n. unfold array_size. by rewrite members_World_new.
    - intros p k i v. unfold slot. by rewrite members_World_new.
    - intros p k i _. unfold slot. by rewrite members_World_new.
    - by intros id _.
  Qed.

Lemma WF_createScope w : WF _factories w -> WF _factories (createScope w).2.
  Proof.
    intros [Ha Hf Hc Hs]. constructor.
    - intros p k n. unfold array_size. rewrite members_createScope by done. apply Ha.
    - intros p k i v. rewrite slot_createScope by done. apply Hf.
    - intros p k i Hk. rewrite slot_createScope by done. by apply Hc.
    - intros id Hid. simpl in *. rewrite lookup_insert_ne by lia. apply Hs. lia.
  Qed.

Lemma later_refl w : later w w.
  Proof.
    constructor; try done.
    - exists []. by rewrite app_nil_r.
    - exists []. by rewrite app_nil_r.
  Qed.

Lemma later_trans a b c : later a b -> later b c -> later a c.
  Proof.
    intros [F1 C1 (o1 & H1) (n1 & I1)] [F2 C2 (o2 & H2) (n2 & I2)]. constructor.
    - intros p k i Hi. rewrite <- (F1 p k i Hi). apply F2. by rewrite (F1 p k i Hi).
    - auto.
    - exists (o1 ++ o2). by rewrite H2, H1, app_assoc.
    - exists (n1 ++ n2). by rewrite I2, I1, app_assoc.
  Qed.

Lemma ext_later ctx w w' : ext ctx w w' -> later w w'.
  Proof.
    intros He. constructor.
    - apply (ext_frozen _ _ _ He).
    - intros p. by apply created_ext with ctx.
    - apply (ext_heap _ _ _ He).
    - destruct (ext_invocations _ _ _ He) as (new & Hn & _). eauto.
  Qed.

Lemma step_sound w w' :
    WF _factories w -> step w w' -> WF _factories w' /\ later w w'.
  Proof.
    intros Hwf Hstep.
    destruct Hstep as [fuel key factories this ctx index r w' Hf Hthis Hc Hres
                      |fuel key factories this ctx index e w' Hf Hthis Hc Hres|].
    - pose proof (resolve_Inv _factories ctx fuel key factories this index w Hf Hthis
                    (conj Hwf Hc)) as Hpost.
      rewrite Hres in Hpost. destruct Hpost as [[Hwf' _] He].
      split; [done | by eapply ext_later].
    - pose proof (resolve_Inv _factories ctx fuel key factories this index w Hf Hthis
                    (conj Hwf Hc)) as Hpost.
      rewrite Hres in Hpost. destruct Hpost as [[Hwf' _] He].
      split; [done | by eapply ext_later].
    - split; [by apply WF_createScope|]. constructor.
      + intros p k i _. apply slot_createScope, Hwf.
      + intros [|id]; simpl; [done | lia].
      + exists []. by rewrite app_nil_r.
      + exists []. by rewrite app_nil_r.
  Qed.

Lemma steps_sound w w' :
    WF _factories w -> rtc step w w' -> WF _factories w' /\ later w w'.
  Proof.
    intros Hwf Hsteps. induction Hsteps as [w|w w1 w2 H1 _ IH].
    - split; [done | apply later_refl].
    - destruct (step_sound _ _ Hwf H1) as [Hwf1 Hl1].
      destruct (IH Hwf1) as [Hwf2 Hl2]. split; [done | by eapply later_trans].
  Qed.

Lemma reachable_WF heap0 w : reachable heap0 w -> WF _factories w.
  Proof. intros H. eapply steps_sound; [apply WF_World_new | exact H]. Qed.

Lemma resolve_next_scope ctx fuel key factories this index w :
    _factories !! key = Some factories -> this = Root \/ this = ctx ->
    post (fun _ => True) (fun w w' => next_scope w' = next_scope w) w
      (resolve _factories fuel key factories this ctx index w).
  Proof.
    intros Hf Hthis.
    apply (resolve_rule _factories ctx (fun _ => True)
             (fun w w' => next_scope w' = next_scope w) (fun _ _ => True));
      try done.
    - intros; congruence.
    - intros. split; [done|]. apply next_scope_emplace_instances.
    - intros. split; [done|]. unfold claimed. simpl.
      by rewrite next_scope_set_slot, next_scope_emplace_instances.
    - intros * _ _ _ _ _ _ _ _ Hn _. split; [done|]. unfold fulfilled.
      rewrite next_scope_push_order, next_scope_set_slot, Hn. unfold claimed. simpl.
      by rewrite next_scope_set_slot, next_scope_emplace_instances.
  Qed.

(** The virtual members are made of steps. *)
Lemma getService_steps fuel self ty w :
    created self w ->
    match getService _factories fuel self ty w with
    | Done _ w' => rtc step w w'
    | Raised _ w' => rtc step w w'
    | _ => True
    end.
  Proof.
    intros Hc. unfold getService, getService_with.
    destruct (_factories !! ty) as [factories|] eqn:Hf; [|simpl; apply rtc_refl].
    assert (H : forall this index, this = Root \/ this = self ->
      match resolve _factories fuel ty factories this self index w with
      | Done _ w' => rtc step w w'
      | Raised _ w' => rtc step w w'
      | _ => True
      end).
    { intros this index Hthis.
      destruct (resolve _ _ _ _ _ _ _ _) eqn:Hres; try done.
      - apply rtc_once. by eapply step_resolved.
      - apply rtc_once. by eapply step_raised. }
    destruct self as [|id]; [by apply H; left|].
    destruct (head factories) as [d|]; [destruct (is_Scoped (type d))|];
      apply H; auto.
  Qed.

Lemma getServices_loop_steps fuel self ty factories :
    _factories !! ty = Some factories ->
    forall idxs res w, created self w ->
    match getServices_loop (resolve _factories fuel) self ty factories idxs res w with
    | Done _ w' => rtc step w w'
    | Raised _ w' => rtc step w w'
    | _ => True
    end.
  Proof.
    intros Hf. induction idxs as [|i rest IH]; intros res w Hc; simpl.
    - apply rtc_refl.
    - assert (H : forall this, this = Root \/ this = self ->
        match
          match resolve _factories fuel ty factories this self (N.of_nat i) w with
          | Done a w' =>
              getServices_loop (resolve _factories fuel) self ty factories rest
                (res ++ [a]) w'
          | Raised e w' => Raised e w'
          | Blocked => Blocked
          | OutOfFuel => OutOfFuel
          | Undefined => Undefined
          end
        with
        | Done _ w' => rtc step w w'
        | Raised _ w' => rtc step w w'
        | _ => True
        end).
      { intros this Hthis.
        destruct (resolve _ _ _ _ _ _ _ _) as [a w1|e w1| | |] eqn:Hres; try done.
        - assert (Hs : step w w1) by by eapply step_resolved.
          assert (Hc1 : created self w1).
          { pose proof (resolve_next_scope self fuel ty factories this
                          (N.of_nat i) w Hf Hthis) as Hp.
            rewrite Hres in Hp. destruct Hp as [_ Hn].
            destruct self; simpl in *; [done | by rewrite Hn]. }
          specialize (IH (res ++ [a]) w1 Hc1).
          destruct (getServices_loop _ _ _ _ _ _ _); try done.
          + by eapply rtc_l.
          + by eapply rtc_l.
        - apply rtc_once. by eapply step_raised. }
      destruct self as [|id]; [by apply H; left|].
      destruct (factories !! i) as [d|]; [destruct (is_Scoped (type d))|];
        apply H; auto.
  Qed.

Lemma getServices_steps fuel self ty w :
    created self w ->
    match getServices _factories fuel self ty w with
    | Done _ w' => rtc step w w'
    | Raised _ w' => rtc step w w'
    | _ => True
    end.
  Proof.
    intros Hc. unfold getServices, getServices_with.
    destruct (_factories !! ty) as [factories|] eqn:Hf; [|simpl; apply rtc_refl].
    by apply getServices_loop_steps.
  Qed.
End Sessions.

(** *** What a resolution of a cached descriptor returns *)

Section Results.
Variable _factories : Registry.

Lemma apply_convert_Done desc v w r w' :
    apply_convert desc v w = Done r w' -> convert desc v = Some r /\ w' = w.
  Proof.
    unfold apply_convert. destruct (convert desc v); simpl; [|done].
    by intros [= -> ->].
  Qed.

Lemma convert_deref_Done desc v w r w' :
    convert_deref desc v w = Done r w' ->
    v <> AnyNull /\ convert desc v = Some r /\ w' = w.
  Proof.
    destruct v; simpl; try done; intros H; by apply apply_convert_Done in H as [? ?].
  Qed.

(** A resolution of a Singleton or Scoped descriptor that returns:
    the slot is ready, the handle is the conversion of its instance,
    and when the factory ran the instance was logged last. *)
Lemma resolve_cached_Done_not_null ctx fuel key factories this index desc w r w' :
    _factories !! key = Some factories -> this = Root \/ this = ctx ->
    Inv _factories ctx w ->
    vec_at factories index = Some desc -> type desc <> Transient ->
    resolve _factories fuel key factories this ctx index w = Done r w' ->
    exists v,
      v <> AnyNull /\
      slot this key (N.to_nat index) w' = mkCS true (Some v) /\
      convert desc v = Some r /\
      (if initialized (slot this key (N.to_nat index) w)
       then slot this key (N.to_nat index) w = mkCS true (Some v) /\
            invocations w' = invocations w /\ heap w' = heap w /\
            forall p, _initializationOrder (members p w') =
                      _initializationOrder (members p w)
       else calls this key (N.to_nat index) w' = 1 /\
            exists l, _initializationOrder (members this w') =
                      _initializationOrder (members this w) ++ l ++ [v]).
  Proof.
    intros Hf Hthis Hinv Hat Hty Hres. destruct fuel as [|fuel]; [done|].
    rewrite (resolve_cached_eq _ _ _ _ _ _ _ desc) in Hres by done.
    simpl in Hres. rewrite !slot_emplace_instances in Hres.
    pose proof (vec_at_Some _ _ _ Hat) as Hd.
    set (i := N.to_nat index) in *.
    destruct (initialized (slot this key i w)) eqn:Hinit.
    - destruct (serviceFuture (slot this key i w)) as [v|] eqn:Hfut; [|done].
      apply convert_deref_Done in Hres as (Hnn & Hconv & ->). exists v.
      split; [done|]. rewrite slot_emplace_instances.
      assert (Hs : slot this key i w = mkCS true (Some v)).
      { destruct (slot this key i w); simpl in *; congruence. }
      repeat split; try done.
      + apply invocations_emplace_instances.
      + apply heap_emplace_instances.
      + intros p. apply order_emplace_instances.
    - destruct (Inv_claim _factories ctx this key factories desc i w) as [Hi2 He2]; auto.
      pose proof (runFactory_Inv _factories ctx fuel (create desc) _ Hi2) as Hrun.
      unfold getService, getServices in *.
      destruct (runFactory _ _ _ _) as [v w3|e w3| | |]; simpl in Hrun; try done.
      destruct Hrun as [Hi3 He3].
      pose proof (fulfilled_reads _factories ctx this key factories desc i w w3 v
                    Hf Hd Hinv He3) as Hslot.
      rewrite Hslot, decide_True in Hres by done. simpl in Hres.
      apply convert_deref_Done in Hres as (Hnn & Hconv & ->). exists v.
      split; [done|]. rewrite slot_push_order, Hslot, decide_True by done.
      repeat split; try done.
      + destruct (Inv_publish _factories ctx this key factories desc i w w3 v v)
          as [[Hwf5 _] _]; auto.
        { by rewrite Hslot, decide_True. }
        rewrite (wf_calls _ _ Hwf5).
        * by rewrite slot_push_order, Hslot, decide_True.
        * exists desc. unfold descriptor. by rewrite Hf.
      + destruct (ext_order _ _ _ (ext_trans _ _ _ _ He2 He3) this) as (l & Hl).
        exists l. unfold fulfilled.
        rewrite order_push_order, order_set_slot, Hl, decide_True by done.
        by rewrite <- app_assoc.
  Qed.

Lemma resolve_cached_Done ctx fuel key factories this index desc w r w' :
    _factories !! key = Some factories -> this = Root \/ this = ctx ->
    Inv _factories ctx w ->
    vec_at factories index = Some desc -> type desc <> Transient ->
    resolve _factories fuel key factories this ctx index w = Done r w' ->
    exists v,
      slot this key (N.to_nat index) w' = mkCS true (Some v) /\
      convert desc v = Some r /\
      (if initialized (slot this key (N.to_nat index) w)
       then slot this key (N.to_nat index) w = mkCS true (Some v) /\
            invocations w' = invocations w /\ heap w' = heap w /\
            forall p, _initializationOrder (members p w') =
                      _initializationOrder (members p w)
       else calls this key (N.to_nat index) w' = 1 /\
            exists l, _initializationOrder (members this w') =
                      _initializationOrder (members this w) ++ l ++ [v]).
  Proof.
    intros Hf Hthis Hinv Hat Hty Hres.
    destruct (resolve_cached_Done_not_null ctx fuel key factories this index desc w r w'
                Hf Hthis Hinv Hat Hty Hres) as (v & _ & H). by exists v.
  Qed.
End Results.

(** ** The claims about the promise/future based provider *)

(** C5.  For a type key without registration, on the root and on every
    scope, with any fuel and in any world: [getService] returns an empty
    [any] and [getService<T>] a null pointer, [getServices] and
    [getServices<T>] return an empty vector, none of them raises or changes
    the world, and [getRequiredService<T>] raises a [logic_error] whose
    message starts with the name of the type. *)
Theorem C5_unregistered_type_key
    (_factories : Registry) (fuel : nat) (self : Provider) (ty : type_index)
    (w : World) :
  _factories !! ty = None ->
  getService _factories fuel self ty w = Done AnyEmpty w /\
  getService_T _factories fuel self ty w = Done None w /\
  getServices _factories fuel self ty w = Done [] w /\
  getServices_T _factories fuel self ty w = Done [] w /\
  getRequiredService _factories fuel self ty w =
    Raised (logic_error
              (ty ++ " has not been registered as a singleton or scoped service.")) w.
Proof.
  intros Hnone.
  assert (H1 : getService _factories fuel self ty w = Done AnyEmpty w).
  { unfold getService, getService_with. by rewrite Hnone. }
  assert (H2 : getServices _factories fuel self ty w = Done [] w).
  { unfold getServices, getServices_with. by rewrite Hnone. }
  assert (H3 : getService_T _factories fuel self ty w = Done None w).
  { unfold getService_T, mbind, M_bind, bind. by rewrite H1. }
  repeat split; try done.
  - unfold getServices_T, mbind, M_bind, bind. by rewrite H2.
  - unfold getRequiredService, mbind, M_bind, bind. by rewrite H3.
Qed.

Lemma C5_witness :
  let reg := ServiceCollection.build ServiceCollection.fresh in
  getService reg 0 (Scope 3) "Missing" (World_new []) = Done AnyEmpty (World_new []) /\
  getService_T reg 0 (Scope 3) "Missing" (World_new []) = Done None (World_new []) /\
  getServices reg 0 (Scope 3) "Missing" (World_new []) = Done [] (World_new []) /\
  getServices_T reg 0 (Scope 3) "Missing" (World_new []) = Done [] (World_new []) /\
  getRequiredService reg 0 (Scope 3) "Missing" (World_new []) =
    Raised (logic_error
              "Missing has not been registered as a singleton or scoped service.")
      (World_new []).
Proof.
  intros reg.
  apply (C5_unregistered_type_key reg 0 (Scope 3) "Missing" (World_new [])).
  reflexivity.
Defined.

(** The transient variants behave alike under the key of
    [std::shared_ptr<T>]. *)
Lemma unregistered_transient _factories fuel self T w :
  _factories !! shared_ptr_of T = None ->
  getTransientService _factories fuel self T w = Done None w /\
  getRequiredTransientService _factories fuel self T w =
    Raised (logic_error (T ++ " has not been registered as a transient service.")) w.
Proof.
  intros Hnone.
  assert (H1 : getTransientService _factories fuel self T w = Done None w).
  { unfold getTransientService, getService, getService_with, mbind, M_bind, bind.
    by rewrite Hnone. }
  split; [done|].
  unfold getRequiredTransientService, mbind, M_bind, bind. by rewrite H1.
Qed.

Lemma owner_for_this self ty : owner_for self ty = Root \/ owner_for self ty = self.
Proof. destruct self; simpl; [auto|]. destruct (is_Scoped ty); auto. Qed.

Lemma resolved_in_order_length _factories fuel self ty factories i w res w' :
  resolved_in_order _factories fuel self ty factories i w res w' ->
  i + length res = length factories.
Proof.
  induction 1 as [|i desc w a w1 rest w' Hd _ _ IH]; simpl; lia.
Qed.

Lemma size_minus_1_last {A} (v : list A) :
  0 < length v -> (Z.of_nat (length v) < 2 ^ 64)%Z ->
  size_minus_1 v = N.of_nat (length v - 1).
Proof.
  intros Hpos Hmax. unfold size_minus_1. rewrite Z.mod_small by lia. lia.
Qed.

Lemma getServices_loop_call _factories fuel self ty factories i desc rest res w :
  factories !! i = Some desc ->
  getServices_loop (resolve _factories fuel) self ty factories (i :: rest) res w =
  match resolve _factories fuel ty factories (owner_for self (type desc)) self
          (N.of_nat i) w with
  | Done a w' =>
      getServices_loop (resolve _factories fuel) self ty factories rest (res ++ [a]) w'
  | Raised e w' => Raised e w'
  | Blocked => Blocked
  | OutOfFuel => OutOfFuel
  | Undefined => Undefined
  end.
Proof.
  intros Hd. simpl. rewrite Hd. destruct self as [|id]; simpl; [done|].
  by destruct (is_Scoped (type desc)).
Qed.

Lemma getServices_loop_spec _factories fuel self ty factories k :
  forall i res0 w res w',
    i + k = length factories ->
    getServices_loop (resolve _factories fuel) self ty factories (seq i k) res0 w
      = Done res w' <->
    exists rest, res = res0 ++ rest /\
                 resolved_in_order _factories fuel self ty factories i w rest w'.
Proof.
  induction k as [|k IH]; intros i res0 w res w' Hik; simpl seq.
  - simpl. replace i with (length factories) by lia. split.
    + intros [= <- <-]. exists []. split; [by rewrite app_nil_r | constructor].
    + intros (rest & -> & Hrio). inversion Hrio as [|? ? ? ? ? ? ? Hd]; subst.
      * by rewrite app_nil_r.
      * apply lookup_lt_Some in Hd. lia.
  - destruct (lookup_lt_is_Some_2 factories i) as [desc Hd]; [lia|].
    rewrite (getServices_loop_call _ _ _ _ _ _ desc) by done. split.
    + destruct (resolve _ _ _ _ _ _ _ _) as [a w1|e w1| | |] eqn:Hres; try done.
      intros Hloop. apply IH in Hloop as (rest & -> & Hrio); [|lia].
      exists (a :: rest). split; [by rewrite <- app_assoc|].
      by eapply rio_next.
    + intros (rest & -> & Hrio). inversion Hrio as [|? d ? a w1 rest' ? Hd' Hres Hrest]; subst.
      * lia.
      * assert (d = desc) as -> by congruence. rewrite Hres.
        apply IH; [lia|]. exists rest'. split; [by rewrite <- app_assoc | done].
Qed.

(** The single-value lookup is a resolution of the last index. *)
Lemma getService_is_last _factories fuel self ty factories front w :
  _factories !! ty = Some factories -> head factories = Some front ->
  (Z.of_nat (length factories) < 2 ^ 64)%Z ->
  vec_at factories (N.of_nat (length factories - 1)) = last factories /\
  is_Some (last factories) /\
  getService _factories fuel self ty w =
    resolve _factories fuel ty factories (owner_for self (type front)) self
      (N.of_nat (length factories - 1)) w.
Proof.
  intros Hf Hfront Hmax.
  assert (Hpos : 0 < length factories) by (destruct factories; simpl in *; [done | lia]).
  split; [|split].
  - rewrite last_lookup.
    replace (Init.Nat.pred (length factories)) with (length factories - 1) by lia.
    destruct (lookup_lt_is_Some_2 factories (length factories - 1)) as [d Hd]; [lia|].
    rewrite Hd. by apply vec_at_lookup.
  - rewrite last_lookup. apply lookup_lt_is_Some_2. lia.
  - unfold getService, getService_with. rewrite Hf, Hfront.
    rewrite size_minus_1_last by done.
    destruct self as [|id]; simpl; [done|]. by destruct (is_Scoped (type front)).
Qed.

(** C2.  For a type key with [n >= 1] descriptors (a vector holds fewer
    than [2^64]): the single-value lookup is the resolution of the
    descriptor at index [n - 1], the last one registered, for the owner its
    first descriptor routes to; and the multi-value lookup returns [res]
    exactly when the [n] descriptors, resolved one after the other from
    index [0] on, return the handles [res] in that order. *)
Theorem C2_last_wins_and_all_in_order
    (_factories : Registry) (fuel : nat) (self : Provider) (ty : type_index)
    (factories : FactoryFunctionCollection) (front : ServiceDescription) (w : World) :
  _factories !! ty = Some factories ->
  head factories = Some front ->
  (Z.of_nat (length factories) < 2 ^ 64)%Z ->
  (vec_at factories (N.of_nat (length factories - 1)) = last factories /\
   is_Some (last factories) /\
   getService _factories fuel self ty w =
     resolve _factories fuel ty factories (owner_for self (type front)) self
       (N.of_nat (length factories - 1)) w) /\
  (forall res w',
     getServices _factories fuel self ty w = Done res w' <->
     resolved_in_order _factories fuel self ty factories 0 w res w') /\
  (forall res w',
     getServices _factories fuel self ty w = Done res w' ->
     length res = length factories).
Proof.
  intros Hf Hfront Hmax.
  assert (Hpos : 0 < length factories) by (destruct factories; simpl in *; [done | lia]).
  assert (Hspec : forall res w',
     getServices _factories fuel self ty w = Done res w' <->
     resolved_in_order _factories fuel self ty factories 0 w res w').
  { intros res w'. unfold getServices, getServices_with. rewrite Hf.
    rewrite (getServices_loop_spec _ _ _ _ _ (length factories) 0 [] w res w') by done.
    split; [by intros (rest & -> & H) | intros H; by exists res]. }
  split; [|split; [done|]].
  - by apply getService_is_last.
  - intros res w' Hres. apply Hspec in Hres.
    apply resolved_in_order_length in Hres. lia.
Qed.

Lemma C2_witness :
  let w0 := World_new [] in
  let w1 := world_of (getServices registry_XYZ 1 Root "I" w0) in
  let factories := default [] (registry_XYZ !! "I") in
  let front := mkDesc (Build (ServiceFactory_create "X" [])) convert_ref Singleton in
  (getServices registry_XYZ 1 Root "I" w0 = Done [AnyRef 0; AnyRef 1; AnyRef 2] w1 /\
   impl_of w1 <$> [AnyRef 0; AnyRef 1; AnyRef 2] = [Some "X"; Some "Y"; Some "Z"] /\
   getService registry_XYZ 1 Root "I" w1 = Done (AnyRef 2) w1) /\
  (vec_at factories (N.of_nat (length factories - 1)) = last factories /\
   is_Some (last factories) /\
   getService registry_XYZ 1 Root "I" w0 =
     resolve registry_XYZ 1 "I" factories (owner_for Root (type front)) Root
       (N.of_nat (length factories - 1)) w0) /\
  (forall res w',
     getServices registry_XYZ 1 Root "I" w0 = Done res w' <->
     resolved_in_order registry_XYZ 1 Root "I" factories 0 w0 res w') /\
  (forall res w',
     getServices registry_XYZ 1 Root "I" w0 = Done res w' ->
     length res = length factories).
Proof.
  intros w0 w1 factories front. split.
  - vm_compute. repeat split.
  - apply (C2_last_wins_and_all_in_order registry_XYZ 1 Root "I" factories front w0).
    + vm_compute. reflexivity.
    + vm_compute. reflexivity.
    + vm_compute. reflexivity.
Defined.

(** *** Teardown *)

Lemma pop_all_spec n : forall v released,
  length v <= n -> pop_all n v released = ([], released ++ rev v).
Proof.
  induction n as [|n IH]; intros v released Hlen.
  - destruct v; simpl in *; [|lia]. by rewrite app_nil_r.
  - destruct v as [|x v0 _] using rev_ind; simpl.
    + by rewrite app_nil_r.
    + rewrite last_snoc, removelast_last, IH.
      * by rewrite rev_app_distr, <- app_assoc.
      * rewrite length_app in Hlen. simpl in Hlen. lia.
Qed.

Lemma destructor_spec m : destructor m = (rev (_initializationOrder m), Members_new).
Proof.
  unfold destructor. simpl. by rewrite pop_all_spec.
Qed.

Lemma destroy_spec p w :
  (destroy p w).1 = rev (_initializationOrder (members p w)) /\
  members p (destroy p w).2 = Members_new /\
  (forall q, q <> p -> members q (destroy p w).2 = members q w).
Proof.
  unfold destroy. rewrite destructor_spec. destruct p as [|id]; simpl.
  - repeat split; try done. by intros [|q].
  - repeat split; try done.
    + by rewrite lookup_delete_eq.
    + intros [|q] Hq; simpl; [done|]. rewrite lookup_delete_ne; [done | congruence].
Qed.

(** X24.  Destroying a provider object releases the handles of its
    completion-order log back to front, empties the object and touches no
    other provider object.  When one thread serves the requests one after
    another the log is in completion order: a request that constructs an
    instance [v] puts it behind everything logged while it was being
    constructed, so [v] is released before all of those.  For the chain
    A<-B<-C<-D asked for [D] by one thread, in each of the 24 registration
    orders, the release order is D, C, B, A. *)
Theorem one_thread_teardown_reverses_completion_order
    (_factories : Registry) (heap0 : list Obj) (ctx : Provider) (fuel : nat)
    (key : type_index) (factories : FactoryFunctionCollection) (this : Provider)
    (index : N) (desc : ServiceDescription) (w : World) (r : any) (w' : World) :
  reachable _factories heap0 w -> created ctx w ->
  _factories !! key = Some factories -> this = Root \/ this = ctx ->
  vec_at factories index = Some desc -> type desc <> Transient ->
  initialized (slot this key (N.to_nat index) w) = false ->
  resolve _factories fuel key factories this ctx index w = Done r w' ->
  (forall p w0,
     (destroy p w0).1 = rev (_initializationOrder (members p w0)) /\
     members p (destroy p w0).2 = Members_new /\
     (forall q, q <> p -> members q (destroy p w0).2 = members q w0)) /\
  (exists v l,
     serviceFuture (slot this key (N.to_nat index) w') = Some v /\
     _initializationOrder (members this w') =
       _initializationOrder (members this w) ++ l ++ [v] /\
     (destroy this w').1 = v :: rev l ++ (destroy this w).1) /\
  forallb chain_teardown_ok (permutations chain_registrations) = true.
Proof.
  intros Hreach Hc Hf Hthis Hat Hty Hinit Hres. split; [|split].
  - intros p w0. apply destroy_spec.
  - destruct (resolve_cached_Done _factories ctx fuel key factories this index desc
                w r w' Hf Hthis (conj (reachable_WF _ _ _ Hreach) Hc) Hat Hty Hres)
      as (v & Hs & _ & Hwin).
    rewrite Hinit in Hwin. destruct Hwin as (_ & l & Hl).
    exists v, l. rewrite Hs. split; [done|]. split; [done|].
    destruct (destroy_spec this w') as (-> & _). destruct (destroy_spec this w) as (-> & _).
    rewrite Hl, !rev_app_distr. by simpl.
  - vm_compute. reflexivity.
Qed.

Lemma one_thread_teardown_reverses_completion_order_witness :
  let reg := ServiceCollection.build
               (ServiceCollection.registerAll chain_registrations
                  ServiceCollection.fresh) in
  let w := World_new [] in
  let factories := default [] (reg !! "D") in
  let w' := world_of (resolve reg 4 "D" factories Root Root 0 w) in
  (forall p w0,
     (destroy p w0).1 = rev (_initializationOrder (members p w0)) /\
     members p (destroy p w0).2 = Members_new /\
     (forall q, q <> p -> members q (destroy p w0).2 = members q w0)) /\
  (exists v l,
     serviceFuture (slot Root "D" (N.to_nat 0) w') = Some v /\
     _initializationOrder (members Root w') =
       _initializationOrder (members Root w) ++ l ++ [v] /\
     (destroy Root w').1 = v :: rev l ++ (destroy Root w).1) /\
  forallb chain_teardown_ok (permutations chain_registrations) = true.
Proof.
  intros reg w factories w'.
  apply (one_thread_teardown_reverses_completion_order reg [] Root 4 "D" factories Root 0%N
           (mkDesc (Build (ServiceFactory_create "D" [ByRef "C"])) convert_ref Singleton)
           w (AnyRef 3) w').
  - apply rtc_refl.
  - exact I.
  - vm_compute. reflexivity.
  - left. reflexivity.
  - vm_compute. reflexivity.
  - simpl. discriminate.
  - vm_compute. reflexivity.
  - vm_compute. reflexivity.
Defined.

(** C7.  Whatever a provider object [ctx] is asked, every factory that
    runs before the call returns, at any depth, is handed [ctx] itself,
    also when the instance is built for another owner (the root).  In the
    scenario, the Transient object made for scope [S1] refers to the
    Scoped instance of [S1], the one made for [S2] to the different Scoped
    instance of [S2], both to the one Singleton, and the Singleton's
    factory, owner the root, was handed [S1]. *)
Theorem C7_factories_receive_outermost_context
    (_factories : Registry) (heap0 : list Obj) (fuel : nat) (ctx : Provider)
    (ty : type_index) (w : World) :
  reachable _factories heap0 w -> created ctx w ->
  after (getService _factories fuel ctx ty w) (invoked_with ctx w) /\
  after (getServices _factories fuel ctx ty w) (invoked_with ctx w) /\
  scenario_P7.
Proof.
  intros Hreach Hc. pose proof (reachable_WF _ _ _ Hreach) as Hwf.
  split; [|split].
  - pose proof (getService_Inv _factories ctx fuel ty w (conj Hwf Hc)) as H.
    destruct (getService _ _ _ _ _); simpl in *; try done;
      destruct H as [_ He]; apply (ext_invocations _ _ _ He).
  - pose proof (getServices_Inv _factories ctx fuel ty w (conj Hwf Hc)) as H.
    destruct (getServices _ _ _ _ _); simpl in *; try done;
      destruct H as [_ He]; apply (ext_invocations _ _ _ He).
  - unfold scenario_P7. vm_compute. repeat split.
Qed.

Lemma C7_witness :
  let w2 := (createScope (createScope (World_new [])).2).2 in
  after (getService registry_P7 3 (Scope 0) (shared_ptr_of "T") w2)
    (invoked_with (Scope 0) w2) /\
  after (getServices registry_P7 3 (Scope 0) (shared_ptr_of "T") w2)
    (invoked_with (Scope 0) w2) /\
  scenario_P7.
Proof.
  intros w2.
  apply (C7_factories_receive_outermost_context registry_P7 [] 3 (Scope 0)
           (shared_ptr_of "T") w2).
  - eapply rtc_l; [apply step_createScope|].
    eapply rtc_l; [apply step_createScope|]. apply rtc_refl.
  - vm_compute. lia.
Defined.

(** *** Transient services *)

Lemma slot_set_slot_cases p k j q k' i cs w :
  slot p k j (set_slot q k' i cs w) = cs \/
  slot p k j (set_slot q k' i cs w) = slot p k j w.
Proof.
  destruct (decide ((p, k, j) = (q, k', i))) as [Heq|Hne];
    [|right; by apply slot_set_slot_ne].
  injection Heq as -> -> ->.
  destruct (_instances (members q w) !! k') as [arr|] eqn:Harr.
  - destruct (decide (i < length arr)) as [Hlt|Hge].
    + left. by eapply slot_set_slot_eq.
    + right. unfold slot, set_slot. rewrite Harr, members_set_members_eq. simpl.
      rewrite lookup_insert_eq. by rewrite list_insert_ge by lia.
  - right. unfold set_slot. by rewrite Harr.
Qed.

Lemma calls_app p k i w w' new :
  invocations w' = invocations w ++ new ->
  calls p k i w' =
  calls p k i w +
  length (filter (fun e => inv_owner e = p /\ inv_key e = k /\ inv_index e = i) new).
Proof. unfold calls. intros ->. by rewrite filter_app, length_app. Qed.

Section Transients.
Variable _factories : Registry.

Local Abbreviation shares_below := (Current.shares_below _factories).
Local Abbreviation Stored := (Current.Stored _factories).
Local Abbreviation Inv2 := (Current.Inv2 _factories).

Lemma Stored_alloc o w : Stored w -> Stored (alloc o w).
Proof.
  intros [Hs Ho Hsh].
  assert (Hmono : forall v, points_below (length (heap w)) v ->
                            points_below (length (heap (alloc o w))) v).
  { intros v (q & -> & Hq). exists q. split; [done|]. simpl. rewrite length_app. lia. }
  constructor.
  - intros p k i v. rewrite slot_alloc. eauto.
  - intros p v. rewrite members_alloc. eauto.
  - intros k factories i desc p Hf Hd Hc. simpl. rewrite length_app.
    specialize (Hsh k factories i desc p Hf Hd Hc). lia.
Qed.

Lemma Stored_record_invocation e w : Stored w -> Stored (record_invocation e w).
Proof.
  intros [Hs Ho Hsh]. constructor.
  - intros p k i v. rewrite slot_record_invocation. apply Hs.
  - intros p v. rewrite members_record_invocation. apply Ho.
  - exact Hsh.
Qed.

Lemma Stored_emplace_instances q key n w :
  Stored w -> Stored (emplace_instances q key n w).
Proof.
  intros [Hs Ho Hsh]. constructor.
  - intros p k i v. rewrite slot_emplace_instances, heap_emplace_instances. apply Hs.
  - intros p v. rewrite order_emplace_instances, heap_emplace_instances. apply Ho.
  - by rewrite heap_emplace_instances.
Qed.

Lemma Stored_set_slot q key i cs w :
  (forall v, serviceFuture cs = Some v -> in_heap v w) ->
  Stored w -> Stored (set_slot q key i cs w).
Proof.
  intros Hcs [Hs Ho Hsh]. constructor.
  - intros p k j v. rewrite heap_set_slot.
    destruct (slot_set_slot_cases p k j q key i cs w) as [-> | ->]; [apply Hcs | apply Hs].
  - intros p v. rewrite order_set_slot, heap_set_slot. apply Ho.
  - by rewrite heap_set_slot.
Qed.

Lemma Stored_push_order q v w : in_heap v w -> Stored w -> Stored (push_order q v w).
Proof.
  intros Hv [Hs Ho Hsh]. constructor.
  - intros p k j v'. rewrite slot_push_order, heap_push_order. apply Hs.
  - intros p v'. rewrite order_push_order, heap_push_order.
    rewrite elem_of_app. intros [Hin|Hin]; [by eapply Ho|].
    case_decide; [|by apply elem_of_nil in Hin].
    apply list_elem_of_singleton in Hin as ->. exact Hv.
  - by rewrite heap_push_order.
Qed.

Lemma in_heap_ext ctx v w w' : ext ctx w w' -> in_heap v w -> in_heap v w'.
Proof.
  intros He (q & -> & Hq). exists q. split; [done|].
  destruct (ext_heap _ _ _ He) as (objs & ->). rewrite length_app. lia.
Qed.

Lemma Inv2_alloc ctx o w :
  Inv2 ctx w ->
  Inv2 ctx (alloc o w) /\ ext ctx w (alloc o w) /\
  in_heap (AnyShared (length (heap w))) (alloc o w).
Proof.
  intros [Hi Hst]. destruct (Inv_alloc _factories ctx o w Hi) as (Hi' & He & _).
  split; [split; [done | by apply Stored_alloc]|]. split; [done|].
  exists (length (heap w)). split; [done|]. simpl. rewrite length_app. simpl. lia.
Qed.

Lemma Inv2_share ctx key factories desc i p w :
  _factories !! key = Some factories -> factories !! i = Some desc ->
  create desc = Share p -> Inv2 ctx w -> in_heap (AnyShared p) w.
Proof.
  intros Hf Hd Hc [_ Hst]. exists p. split; [done|].
  by eapply (stored_shares _ _ Hst).
Qed.

Lemma Inv2_transient ctx this key factories desc i w :
  _factories !! key = Some factories -> factories !! i = Some desc ->
  type desc = Transient -> this = Root \/ this = ctx -> Inv2 ctx w ->
  Inv2 ctx (record_invocation (mkInv this key i ctx) w) /\
  ext ctx w (record_invocation (mkInv this key i ctx) w).
Proof.
  intros Hf Hd Hty Hthis [Hi Hst].
  destruct (Inv_transient _factories ctx this key factories desc i w) as [Hi' He]; auto.
  split; [split; [done | by apply Stored_record_invocation] | done].
Qed.

Lemma Inv2_emplace ctx this key factories w :
  _factories !! key = Some factories -> this = Root \/ this = ctx -> Inv2 ctx w ->
  Inv2 ctx (emplace_instances this key (length factories) w) /\
  ext ctx w (emplace_instances this key (length factories) w).
Proof.
  intros Hf Hthis [Hi Hst].
  destruct (Inv_emplace _factories ctx this key factories w) as [Hi' He]; auto.
  split; [split; [done | by apply Stored_emplace_instances] | done].
Qed.

Lemma Inv2_claim ctx this key factories desc i w :
  _factories !! key = Some factories -> factories !! i = Some desc ->
  type desc <> Transient -> this = Root \/ this = ctx -> Inv2 ctx w ->
  initialized (slot this key i w) = false ->
  Inv2 ctx (claimed ctx this key i (emplace_instances this key (length factories) w)) /\
  ext ctx w (claimed ctx this key i (emplace_instances this key (length factories) w)).
Proof.
  intros Hf Hd Hty Hthis [Hi Hst] Hinit.
  destruct (Inv_claim _factories ctx this key factories desc i w) as [Hi' He]; auto.
  split; [split; [done|] | done].
  unfold claimed. apply Stored_record_invocation, Stored_set_slot; [done|].
  by apply Stored_emplace_instances.
Qed.

Lemma Inv2_publish ctx this key factories desc i w w3 v v' :
  _factories !! key = Some factories -> factories !! i = Some desc ->
  type desc <> Transient -> this = Root \/ this = ctx -> Inv2 ctx w ->
  initialized (slot this key i w) = false ->
  Inv2 ctx w3 -> in_heap v w3 ->
  ext ctx (claimed ctx this key i (emplace_instances this key (length factories) w)) w3 ->
  serviceFuture (slot this key i (fulfilled this key i v w3)) = Some v' ->
  Inv2 ctx (push_order this v' (fulfilled this key i v w3)) /\
  ext ctx w (push_order this v' (fulfilled this key i v w3)).
Proof.
  intros Hf Hd Hty Hthis [Hi Hst] Hinit [Hi3 Hst3] Hv He3 Hv'.
  destruct (Inv_publish _factories ctx this key factories desc i w w3 v v')
    as [Hi' He]; auto.
  split; [split; [done|] | done].
  rewrite (fulfilled_reads _factories ctx this key factories desc i w w3 v Hf Hd Hi He3)
    in Hv'.
  rewrite decide_True in Hv' by done. injection Hv' as <-.
  apply Stored_push_order.
  - unfold fulfilled, in_heap. by rewrite heap_set_slot.
  - unfold fulfilled. apply Stored_set_slot; [|done]. simpl. by intros ? [= <-].
Qed.

Local Ltac by_the_steps2 :=
  first [ apply ext_refl | apply ext_trans | apply Inv2_alloc | apply Inv2_share
        | apply Inv2_transient | apply Inv2_emplace | apply Inv2_claim
        | apply Inv2_publish ].

Lemma getService_Inv2 ctx fuel ty w :
  Inv2 ctx w -> post (Inv2 ctx) (ext ctx) w (getService _factories fuel ctx ty w).
Proof.
  apply (getService_rule _factories ctx (Inv2 ctx) (ext ctx) in_heap); by_the_steps2.
Qed.

Lemma getServices_Inv2 ctx fuel ty w :
  Inv2 ctx w -> post (Inv2 ctx) (ext ctx) w (getServices _factories fuel ctx ty w).
Proof.
  apply (getServices_rule _factories ctx (Inv2 ctx) (ext ctx) in_heap); by_the_steps2.
Qed.

Lemma resolve_Inv2 ctx fuel key factories this index w :
  _factories !! key = Some factories -> this = Root \/ this = ctx -> Inv2 ctx w ->
  post (Inv2 ctx) (ext ctx) w (resolve _factories fuel key factories this ctx index w).
Proof.
  apply (resolve_rule _factories ctx (Inv2 ctx) (ext ctx) in_heap); by_the_steps2.
Qed.

(** A closure that returns has just allocated what it returns, or it
    returns an empty pointer. *)
Lemma runClosure_fresh ctx fuel c : forall w a w',
  Inv2 ctx w ->
  runClosure (getService _factories fuel ctx) (getServices _factories fuel ctx) c w
    = Done a w' ->
  exists w0, Inv2 ctx w0 /\ ext ctx w w0 /\
    ((exists o, w' = alloc o w0 /\ a = AnyShared (length (heap w0))) \/
     (w' = w0 /\ a = AnyNull)).
Proof.
  induction c as [impl args|t k IH|t k IH|e|]; intros w a w' Hi; simpl.
  - intros [= <- <-]. exists w.
    split; [exact Hi|]. split; [apply ext_refl|]. left. by exists (mkObj impl args).
  - pose proof (getService_Inv2 ctx fuel t w Hi) as Hp.
    destruct (getService _ _ _ _ _) as [b w1|e w1| | |]; try done.
    destruct Hp as [Hi1 He1]. intros Hrun.
    destruct (IH b w1 a w' Hi1 Hrun) as (w0 & Hi0 & He0 & Hcases).
    exists w0. split; [exact Hi0|]. split; [by eapply ext_trans|]. done.
  - pose proof (getServices_Inv2 ctx fuel t w Hi) as Hp.
    destruct (getServices _ _ _ _ _) as [b w1|e w1| | |]; try done.
    destruct Hp as [Hi1 He1]. intros Hrun.
    destruct (IH b w1 a w' Hi1 Hrun) as (w0 & Hi0 & He0 & Hcases).
    exists w0. split; [exact Hi0|]. split; [by eapply ext_trans|]. done.
  - done.
  - intros [= <- <-]. exists w. split; [exact Hi|]. split; [apply ext_refl|]. by right.
Qed.

(** A closure that constructs does not return an empty pointer. *)
Lemma runClosure_constructs gs gss c : forall w a w',
  constructs c -> runClosure gs gss c w = Done a w' -> a <> AnyNull.
Proof.
  induction c as [impl args|t k IH|t k IH|e|]; intros w a w' Hc; simpl.
  - by intros [= <- _].
  - destruct (gs t w); try done. apply IH, Hc.
  - destruct (gss t w); try done. apply IH, Hc.
  - done.
  - done.
Qed.

Lemma createInternal_constructs TService tuple : forall sofar,
  constructs (createInternal TService tuple sofar).
Proof.
  induction tuple as [|[t|t|t|t] rest IH]; intros sofar; simpl; [done|..];
    intros x; case_match; done.
Qed.

Lemma Stored_World_new heap0 : shares_below (length heap0) -> Stored (World_new heap0).
Proof.
  intros Hsh. constructor.
  - intros p k i v. unfold slot. by rewrite members_World_new.
  - intros p v. rewrite members_World_new. simpl. by intros ?%elem_of_nil.
  - exact Hsh.
Qed.

Lemma Stored_createScope w : scopes_bounded w -> Stored w -> Stored (createScope w).2.
Proof.
  intros Hb [Hs Ho Hsh]. constructor.
  - intros p k i v. rewrite slot_createScope by done. apply Hs.
  - intros p v. rewrite members_createScope by done. apply Ho.
  - exact Hsh.
Qed.

Lemma steps_Stored w w' :
  WF _factories w -> Stored w -> rtc (step _factories) w w' -> Stored w'.
Proof.
  intros Hwf Hst Hsteps. induction Hsteps as [w|w w1 w2 H1 _ IH]; [done|].
  destruct (step_sound _factories w w1 Hwf H1) as [Hwf1 _].
  apply IH; [done|].
  destruct H1 as [fuel key factories this ctx index r w1 Hf Hthis Hc Hres
                 |fuel key factories this ctx index e w1 Hf Hthis Hc Hres|].
  - pose proof (resolve_Inv2 ctx fuel key factories this index w Hf Hthis
                  (conj (conj Hwf Hc) Hst)) as Hp.
    rewrite Hres in Hp. apply Hp.
  - pose proof (resolve_Inv2 ctx fuel key factories this index w Hf Hthis
                  (conj (conj Hwf Hc) Hst)) as Hp.
    rewrite Hres in Hp. apply Hp.
  - apply Stored_createScope; [apply Hwf | done].
Qed.

Lemma reachable_Stored heap0 w :
  shares_below (length heap0) -> reachable _factories heap0 w -> Stored w.
Proof.
  intros Hsh Hreach. eapply steps_Stored; [apply WF_World_new | | exact Hreach].
  by apply Stored_World_new.
Qed.
End Transients.

Lemma built_shares_below rs n :
  (forall s p, ServiceCollection.AddSingletonExisting s p ∈ rs -> p < n) ->
  shares_below
    (ServiceCollection.build (ServiceCollection.registerAll rs ServiceCollection.fresh)) n.
Proof.
  intros H k factories i desc p Hf Hd Hc.
  destruct (RegistrationFacts.build_descriptor_from rs k factories i desc Hf Hd)
    as (r & Hin & _ & ->).
  destruct r; simpl in Hc; try discriminate. injection Hc as ->. by eapply H.
Qed.

(** A resolution of a Transient descriptor that returns: the world is the
    one the closure's own look-ups left, plus the object just made when
    the closure made one. *)
Lemma resolve_transient_Done _factories ctx fuel key factories this index desc c w r w' :
  _factories !! key = Some factories -> this = Root \/ this = ctx ->
  Inv2 _factories ctx w ->
  vec_at factories index = Some desc -> type desc = Transient -> create desc = Build c ->
  resolve _factories fuel key factories this ctx index w = Done r w' ->
  exists w0,
    Inv2 _factories ctx w0 /\
    ext ctx (record_invocation (mkInv this key (N.to_nat index) ctx) w) w0 /\
    ((exists o, w' = alloc o w0 /\
                convert desc (AnyShared (length (heap w0))) = Some r) \/
     (w' = w0 /\ convert desc AnyNull = Some r /\ ~ constructs c)).
Proof.
  intros Hf Hthis Hi Hat Hty Hc Hres. destruct fuel as [|fuel]; [done|].
  rewrite (resolve_transient_eq _ _ _ _ _ _ _ desc) in Hres by done.
  rewrite Hc in Hres. simpl in Hres.
  destruct (Inv2_transient _factories ctx this key factories desc (N.to_nat index) w)
    as [Hi1 He1]; auto using vec_at_Some.
  destruct (runClosure _ _ _ _) as [v w1|e w1| | |] eqn:Hrun; try done.
  destruct (runClosure_fresh _factories ctx fuel c _ v w1 Hi1 Hrun)
    as (w0 & Hi0 & He0 & [(o & -> & ->)|[-> ->]]);
    apply apply_convert_Done in Hres as [Hconv ->]; exists w0;
    (split; [done|]); (split; [done|]).
  - left. by exists o.
  - right. split; [done|]. split; [done|]. intros Hcons.
    by apply (runClosure_constructs _ _ _ _ _ _ Hcons Hrun).
Qed.

(** The same for a closure that constructs. *)
Lemma resolve_transient_built _factories ctx fuel key factories this index desc c w r w' :
  _factories !! key = Some factories -> this = Root \/ this = ctx ->
  Inv2 _factories ctx w ->
  vec_at factories index = Some desc -> type desc = Transient -> create desc = Build c ->
  constructs c ->
  resolve _factories fuel key factories this ctx index w = Done r w' ->
  exists w0 o,
    Inv2 _factories ctx w0 /\
    ext ctx (record_invocation (mkInv this key (N.to_nat index) ctx) w) w0 /\
    w' = alloc o w0 /\
    convert desc (AnyShared (length (heap w0))) = Some r.
Proof.
  intros Hf Hthis Hi Hat Hty Hc Hcons Hres.
  destruct (resolve_transient_Done _factories ctx fuel key factories this index desc c
              w r w' Hf Hthis Hi Hat Hty Hc Hres)
    as (w0 & Hi0 & He0 & [(o & -> & Hconv)|(_ & _ & Hn)]); [|done].
  by exists w0, o.
Qed.

(** C6, as the code has it.  A request for a Transient descriptor whose
    factory is a closure, when it returns [r]: the factory ran for this
    request; the request wrote no table and no log itself, every provider
    object is as the closure's own look-ups left it, and unchanged when
    the closure makes none.  Then either [r] converts an object [q] that
    no heap held before the request, that is in no slot and in no log,
    and the same request made again returns a later object or an empty
    pointer; or the closure returned an empty pointer, [r] converts that,
    and nothing was constructed.  An empty pointer comes only from a
    closure that does not always construct: with constructor injection
    every request returns a new object. *)
Theorem C6_transient_is_fresh_and_never_cached
    (_factories : Registry) (heap0 : list Obj) (ctx : Provider) (fuel : nat)
    (key : type_index) (factories : FactoryFunctionCollection) (this : Provider)
    (index : N) (desc : ServiceDescription) (c : Closure)
    (w : World) (r : any) (w' : World) :
  reachable _factories heap0 w -> shares_below _factories (length heap0) ->
  created ctx w ->
  _factories !! key = Some factories -> this = Root \/ this = ctx ->
  vec_at factories index = Some desc -> type desc = Transient -> create desc = Build c ->
  resolve _factories fuel key factories this ctx index w = Done r w' ->
  calls this key (N.to_nat index) w < calls this key (N.to_nat index) w' /\
  exists w0,
    ext ctx (record_invocation (mkInv this key (N.to_nat index) ctx) w) w0 /\
    (forall p, members p w' = members p w0) /\
    (forall impl args, c = MakeUnique impl args -> forall p, members p w' = members p w) /\
    (c = ReturnNull -> forall p, members p w' = members p w) /\
    ((exists q o,
        convert desc (AnyShared q) = Some r /\
        length (heap w) <= q /\ q = length (heap w0) /\ heap w' = heap w0 ++ [o] /\
        (forall p k j, serviceFuture (slot p k j w') <> Some (AnyShared q)) /\
        (forall p, AnyShared q ∉ _initializationOrder (members p w')) /\
        (forall fuel2 r2 w2,
           resolve _factories fuel2 key factories this ctx index w' = Done r2 w2 ->
           (exists q2, convert desc (AnyShared q2) = Some r2 /\ q < q2) \/
           (convert desc AnyNull = Some r2 /\ ~ constructs c))) \/
     (convert desc AnyNull = Some r /\ heap w' = heap w0 /\ ~ constructs c)).
Proof.
  intros Hreach Hsh Hc Hf Hthis Hat Hty Hcreate Hres.
  pose proof (reachable_WF _ _ _ Hreach) as Hwf.
  pose proof (reachable_Stored _ _ _ Hsh Hreach) as Hst.
  assert (Hsame : forall impl args, c = MakeUnique impl args \/ c = ReturnNull ->
            forall p, members p w' = members p w).
  { intros impl args Hcase p. destruct fuel as [|fuel1]; [done|].
    rewrite (resolve_transient_eq _ _ _ _ _ _ _ desc) in Hres by done.
    rewrite Hcreate in Hres. destruct Hcase as [-> | ->]; simpl in Hres;
      apply apply_convert_Done in Hres as [_ Hw]; rewrite Hw.
    - by rewrite members_alloc, members_record_invocation.
    - by rewrite members_record_invocation. }
  destruct (resolve_transient_Done _factories ctx fuel key factories this index desc c
              w r w' Hf Hthis (conj (conj Hwf Hc) Hst) Hat Hty Hcreate Hres)
    as (w0 & [Hi0 Hst0] & He0 & Hcases).
  destruct (ext_heap _ _ _ He0) as (objs & Hheap). simpl in Hheap.
  destruct (ext_invocations _ _ _ He0) as (new & Hinv & _). simpl in Hinv.
  assert (Hmem : forall p, members p w' = members p w0).
  { intros p. destruct Hcases as [(o & -> & _)|(-> & _)]; [apply members_alloc | done]. }
  assert (Hinv' : invocations w' = invocations w0).
  { destruct Hcases as [(o & -> & _)|(-> & _)]; done. }
  split.
  { rewrite (calls_app this key (N.to_nat index) w w'
               ([mkInv this key (N.to_nat index) ctx] ++ new))
      by (by rewrite Hinv', Hinv, <- app_assoc).
    rewrite filter_app, length_app, filter_cons, decide_True by done. simpl. lia. }
  exists w0. split; [done|]. split; [done|].
  split; [intros impl args Hm; apply (Hsame impl args); by left|].
  split; [intros Hm; apply (Hsame "" []); by right|].
  destruct Hcases as [(o & -> & Hconv)|(-> & Hconv & Hn)]; [left | by right].
  exists (length (heap w0)), o.
  split; [done|]. split; [rewrite Hheap, length_app; lia|]. split; [done|].
  split; [done|]. split.
  { intros p k j Hfut. rewrite slot_alloc in Hfut.
    destruct (stored_slots _ _ Hst0 p k j _ Hfut) as (q & [= <-] & Hq). lia. }
  split.
  { intros p Hin. rewrite members_alloc in Hin.
    destruct (stored_order _ _ Hst0 p _ Hin) as (q & [= <-] & Hq). lia. }
  intros fuel2 r2 w2 Hres2.
  assert (Hstep : step _factories w (alloc o w0)) by by eapply step_resolved.
  destruct (step_sound _factories _ _ Hwf Hstep) as [Hwf1 Hl1].
  assert (Hst1 : Stored _factories (alloc o w0)).
  { eapply steps_Stored; [exact Hwf | exact Hst | by apply rtc_once]. }
  destruct (resolve_transient_Done _factories ctx fuel2 key factories this index desc c
              (alloc o w0) r2 w2 Hf Hthis
              (conj (conj Hwf1 (later_created _ _ Hl1 ctx Hc)) Hst1) Hat Hty Hcreate Hres2)
    as (w3 & _ & He3 & [(o3 & _ & Hconv3)|(_ & Hconv3 & Hn3)]); [left | by right].
  exists (length (heap w3)). split; [done|].
  destruct (ext_heap _ _ _ He3) as (objs3 & ->). simpl. rewrite !length_app. simpl. lia.
Qed.

(** Two ways in which the claim as it was stated fails.  The first
    request for a Transient service constructs the Singleton it needs:
    the table and the log of the root change.  And a factory given to
    [addTransient(F&&)] that returns an empty [unique_ptr]: every request
    returns the same null [shared_ptr], nothing is constructed, and
    [getRequiredTransientService] reports the type as not registered. *)
Lemma C6_counterexample :
  let reg := registry_transient_needs_singleton in
  let w0 := World_new [] in
  let w1 := world_of (getService reg 2 Root (shared_ptr_of "T") w0) in
  ((type <$> (reg !! shared_ptr_of "T" ≫= head)) = Some Transient /\
   getService reg 2 Root (shared_ptr_of "T") w0 = Done (AnyShared 1) w1 /\
   ~ (forall p, _initializationOrder (members p w1) = _initializationOrder (members p w0)
                /\ array_size p "S" w1 = array_size p "S" w0)) /\
  let reg := registry_transient_returns_null in
  let w1 := world_of (getService reg 1 Root (shared_ptr_of "T") w0) in
  let w2 := world_of (getService reg 1 Root (shared_ptr_of "T") w1) in
  (type <$> (reg !! shared_ptr_of "T" ≫= head)) = Some Transient /\
  getService reg 1 Root (shared_ptr_of "T") w0 = Done AnyNull w1 /\
  getService reg 1 Root (shared_ptr_of "T") w1 = Done AnyNull w2 /\
  calls Root (shared_ptr_of "T") 0 w2 = 2 /\ heap w2 = [] /\
  getTransientService reg 1 Root "T" w2 = Done None (world_of (getService reg 1 Root (shared_ptr_of "T") w2)) /\
  exists w3, getRequiredTransientService reg 1 Root "T" w2 =
    Raised (logic_error "T has not been registered as a transient service.") w3.
Proof.
  intros reg w0 w1. split.
  { split; [vm_compute; reflexivity|]. split; [vm_compute; reflexivity|].
    intros H. destruct (H Root) as [Hlog _]. vm_compute in Hlog. discriminate. }
  intros reg' w1' w2. split; [vm_compute; reflexivity|].
  split; [vm_compute; reflexivity|]. split; [vm_compute; reflexivity|].
  split; [vm_compute; reflexivity|]. split; [vm_compute; reflexivity|].
  split; [vm_compute; reflexivity|]. eexists. vm_compute. reflexivity.
Qed.

Lemma C6_witness :
  let reg := registry_transient_needs_singleton in
  let w := World_new [] in
  let w' := world_of (getService reg 2 Root (shared_ptr_of "T") w) in
  let factories := default [] (reg !! shared_ptr_of "T") in
  let c := ServiceFactory_create "T" [ByRef "S"] in
  let desc := mkDesc (Build c) convert_shared Transient in
  let '(key, index) := (shared_ptr_of "T", 0%N) in
  (resolve reg 2 key factories Root Root index w = Done (AnyShared 1) w' /\
   (exists w2, resolve reg 2 key factories Root Root index w' = Done (AnyShared 2) w2 /\
               calls Root key 0 w2 = 2 /\
               forall p, members p w2 = members p w')) /\
  calls Root key (N.to_nat index) w < calls Root key (N.to_nat index) w' /\
  exists w0,
    ext Root (record_invocation (mkInv Root key (N.to_nat index) Root) w) w0 /\
    (forall p, members p w' = members p w0) /\
    (forall impl args, c = MakeUnique impl args -> forall p, members p w' = members p w) /\
    (c = ReturnNull -> forall p, members p w' = members p w) /\
    ((exists q o,
        convert desc (AnyShared q) = Some (AnyShared 1) /\
        length (heap w) <= q /\ q = length (heap w0) /\ heap w' = heap w0 ++ [o] /\
        (forall p k j, serviceFuture (slot p k j w') <> Some (AnyShared q)) /\
        (forall p, AnyShared q ∉ _initializationOrder (members p w')) /\
        (forall fuel2 r2 w2,
           resolve reg fuel2 key factories Root Root index w' = Done r2 w2 ->
           (exists q2, convert desc (AnyShared q2) = Some r2 /\ q < q2) \/
           (convert desc AnyNull = Some r2 /\ ~ constructs c))) \/
     (convert desc AnyNull = Some (AnyShared 1) /\ heap w' = heap w0 /\ ~ constructs c)).
Proof.
  simpl. split.
  { split; [vm_compute; reflexivity|]. eexists. split; [vm_compute; reflexivity|].
    split; [vm_compute; reflexivity|]. by intros [|id]. }
  apply (C6_transient_is_fresh_and_never_cached registry_transient_needs_singleton []
           Root 2 (shared_ptr_of "T")
           (default [] (registry_transient_needs_singleton !! shared_ptr_of "T"))
           Root 0%N
           (mkDesc (Build (ServiceFactory_create "T" [ByRef "S"])) convert_shared Transient)
           (ServiceFactory_create "T" [ByRef "S"])
           (World_new []) (AnyShared 1)).
  - apply rtc_refl.
  - apply built_shares_below. intros s p Hin.
    repeat (apply elem_of_cons in Hin as [Hin|Hin]; [discriminate|]).
    by apply elem_of_nil in Hin.
  - exact I.
  - vm_compute. reflexivity.
  - left. reflexivity.
  - vm_compute. reflexivity.
  - reflexivity.
  - reflexivity.
  - vm_compute. reflexivity.
Defined.

(** Every Transient descriptor of a built provider has a closure for a
    factory. *)
Lemma built_transient_is_closure rs k factories i desc :
  ServiceCollection.build (ServiceCollection.registerAll rs ServiceCollection.fresh) !! k
    = Some factories ->
  factories !! i = Some desc -> type desc = Transient ->
  exists c, create desc = Build c.
Proof.
  intros Hf Hd Hty.
  destruct (RegistrationFacts.build_descriptor_from rs k factories i desc Hf Hd)
    as (r & _ & _ & ->).
  destruct r; simpl in *; try discriminate; eauto.
Qed.

(** Where the single-value lookup materializes: in the table of the owner
    the first descriptor of the key routes to.  On the provider that is
    the provider; through a scope it is the scope when the first
    descriptor is Scoped, and the provider otherwise. *)
Lemma getService_materializes _factories heap0 fuel self ty factories front desc w r w' :
  reachable _factories heap0 w -> created self w ->
  _factories !! ty = Some factories ->
  head factories = Some front -> last factories = Some desc ->
  (Z.of_nat (length factories) < 2 ^ 64)%Z ->
  type desc <> Transient ->
  getService _factories fuel self ty w = Done r w' ->
  exists v,
    slot (owner_for self (type front)) ty (length factories - 1) w' = mkCS true (Some v) /\
    convert desc v = Some r /\ v <> AnyNull.
Proof.
  intros Hreach Hc Hf Hfront Hlast Hmax Hty Hres.
  destruct (getService_is_last _factories fuel self ty factories front w
              Hf Hfront Hmax) as (Hat & _ & Heq).
  rewrite Heq in Hres. rewrite Hlast in Hat.
  destruct (resolve_cached_Done_not_null _factories self fuel ty factories
              (owner_for self (type front)) _ desc w r w' Hf (owner_for_this _ _)
              (conj (reachable_WF _ _ _ Hreach) Hc) Hat Hty Hres)
    as (v & Hnn & Hs & Hconv & _).
  rewrite Nat2N.id in *. by exists v.
Qed.

End CurrentFacts.

Module RefinementFacts.
Import Refinement.

(** *** The legacy steps *)

Lemma legacy_members_set_members_eq p m w : Legacy.members p (Legacy.set_members p m w) = m.
Proof. destruct p; simpl; [done|]. by rewrite lookup_insert_eq. Qed.

Lemma legacy_members_set_members_ne p q m w :
  p <> q -> Legacy.members q (Legacy.set_members p m w) = Legacy.members q w.
Proof.
  intros Hne. destruct p as [|a], q as [|b]; simpl; try done.
  rewrite lookup_insert_ne; [done | congruence].
Qed.

Lemma legacy_heap_set_members p m w : Legacy.heap (Legacy.set_members p m w) = Legacy.heap w.
Proof. by destruct p. Qed.

Lemma legacy_members_alloc p o w : Legacy.members p (Legacy.alloc o w) = Legacy.members p w.
Proof. by destruct p. Qed.

Lemma legacy_instances_emplace_instances p k q key n w :
  Legacy._instances (Legacy.members p (Legacy.emplace_instances q key n w)) !! k =
  if decide ((q, key) = (p, k)) then
    match Legacy._instances (Legacy.members p w) !! k with
    | Some v => Some v
    | None => Some (replicate n AnyEmpty)
    end
  else Legacy._instances (Legacy.members p w) !! k.
Proof.
  unfold Legacy.emplace_instances. case_decide as Heq.
  - injection Heq as -> ->.
    destruct (Legacy._instances (Legacy.members p w) !! k) eqn:Hq; [done|].
    rewrite legacy_members_set_members_eq. simpl. by rewrite lookup_insert_eq.
  - destruct (Legacy._instances (Legacy.members q w) !! key) eqn:Hq; [done|].
    destruct (decide (q = p)) as [->|Hne].
    + rewrite legacy_members_set_members_eq. simpl. rewrite lookup_insert_ne; [done | congruence].
    + by rewrite legacy_members_set_members_ne.
Qed.

Lemma legacy_instances_emplace_at p k q key i x w :
  Legacy._instances (Legacy.members p (Legacy.emplace_at q key i x w)) !! k =
  if decide ((q, key) = (p, k)) then
    Legacy.vector_emplace i x <$> Legacy._instances (Legacy.members p w) !! k
  else Legacy._instances (Legacy.members p w) !! k.
Proof.
  unfold Legacy.emplace_at. case_decide as Heq.
  - injection Heq as -> ->.
    destruct (Legacy._instances (Legacy.members p w) !! k) eqn:Hq; simpl.
    + rewrite legacy_members_set_members_eq. simpl. by rewrite lookup_insert_eq.
    + by rewrite Hq.
  - destruct (Legacy._instances (Legacy.members q w) !! key) eqn:Hq; [|done].
    destruct (decide (q = p)) as [->|Hne].
    + rewrite legacy_members_set_members_eq. simpl. rewrite lookup_insert_ne; [done | congruence].
    + by rewrite legacy_members_set_members_ne.
Qed.

Lemma legacy_instances_push_order p k q v w :
  Legacy._instances (Legacy.members p (Legacy.push_order q v w)) !! k =
  Legacy._instances (Legacy.members p w) !! k.
Proof.
  unfold Legacy.push_order. destruct (decide (q = p)) as [->|Hne].
  - by rewrite legacy_members_set_members_eq.
  - by rewrite legacy_members_set_members_ne.
Qed.

Lemma legacy_order_emplace_instances p q key n w :
  Legacy._initializationOrder (Legacy.members p (Legacy.emplace_instances q key n w)) =
  Legacy._initializationOrder (Legacy.members p w).
Proof.
  unfold Legacy.emplace_instances. case_match; [done|].
  destruct (decide (q = p)) as [->|Hne].
  - by rewrite legacy_members_set_members_eq.
  - by rewrite legacy_members_set_members_ne.
Qed.

Lemma legacy_order_emplace_at p q key i x w :
  Legacy._initializationOrder (Legacy.members p (Legacy.emplace_at q key i x w)) =
  Legacy._initializationOrder (Legacy.members p w).
Proof.
  unfold Legacy.emplace_at. case_match; [|done].
  destruct (decide (q = p)) as [->|Hne].
  - by rewrite legacy_members_set_members_eq.
  - by rewrite legacy_members_set_members_ne.
Qed.

Lemma legacy_order_push_order p q v w :
  Legacy._initializationOrder (Legacy.members p (Legacy.push_order q v w)) =
  Legacy._initializationOrder (Legacy.members p w) ++ (if decide (q = p) then [v] else []).
Proof.
  unfold Legacy.push_order. case_decide as Hd.
  - subst. by rewrite legacy_members_set_members_eq.
  - rewrite legacy_members_set_members_ne by done. by rewrite app_nil_r.
Qed.

Lemma legacy_heap_emplace_instances q key n w :
  Legacy.heap (Legacy.emplace_instances q key n w) = Legacy.heap w.
Proof. unfold Legacy.emplace_instances. case_match; [done | apply legacy_heap_set_members]. Qed.

Lemma legacy_heap_emplace_at q key i x w :
  Legacy.heap (Legacy.emplace_at q key i x w) = Legacy.heap w.
Proof. unfold Legacy.emplace_at. case_match; [apply legacy_heap_set_members | done]. Qed.

Lemma legacy_heap_push_order q v w : Legacy.heap (Legacy.push_order q v w) = Legacy.heap w.
Proof. apply legacy_heap_set_members. Qed.

Lemma legacy_first_alloc p k o lw :
  legacy_first p k (Legacy.alloc o lw) = legacy_first p k lw.
Proof. unfold legacy_first, Legacy.instances_of. by rewrite legacy_members_alloc. Qed.

Lemma legacy_first_emplace_instances p k q key n lw :
  legacy_first p k (Legacy.emplace_instances q key n lw) = legacy_first p k lw.
Proof.
  unfold legacy_first, Legacy.instances_of. rewrite legacy_instances_emplace_instances.
  case_decide; [|done].
  destruct (Legacy._instances (Legacy.members p lw) !! k); simpl; [done|].
  by destruct n.
Qed.

Lemma legacy_first_push_order p k q v lw :
  legacy_first p k (Legacy.push_order q v lw) = legacy_first p k lw.
Proof. unfold legacy_first, Legacy.instances_of. by rewrite legacy_instances_push_order. Qed.

Lemma legacy_first_emplace_at p k q key x lw :
  is_Some (Legacy._instances (Legacy.members q lw) !! key) ->
  legacy_first p k (Legacy.emplace_at q key 0 x lw) =
  if decide ((q, key) = (p, k)) then x else legacy_first p k lw.
Proof.
  intros [vec Hvec]. unfold legacy_first, Legacy.instances_of.
  rewrite legacy_instances_emplace_at. case_decide as Heq; [|done].
  injection Heq as <- <-. by rewrite Hvec.
Qed.

Lemma array_present p k w :
  is_Some (Current._instances (Current.members p w) !! k) <->
  is_Some (Current.array_size p k w).
Proof. unfold Current.array_size. by rewrite fmap_is_Some. Qed.

Lemma legacy_members_World_new p heap0 :
  Legacy.members p (Legacy.World_new heap0) = Legacy.Members_new.
Proof. by destruct p. Qed.

Lemma sim_World_new heap0 : sim (Current.World_new heap0) (Legacy.World_new heap0).
Proof.
  constructor.
  - done.
  - intros p. by rewrite CurrentFacts.members_World_new, legacy_members_World_new.
  - intros p k. rewrite CurrentFacts.members_World_new, legacy_members_World_new. simpl.
    by rewrite !lookup_empty.
  - intros p k vec. rewrite legacy_members_World_new. simpl. by rewrite lookup_empty.
  - intros p k. unfold Current.slot, legacy_first, Legacy.instances_of.
    rewrite CurrentFacts.members_World_new, legacy_members_World_new. simpl.
    rewrite !lookup_empty. simpl. split; [by intros v [=] | done].
Qed.

Lemma sim_alloc o cw lw : sim cw lw -> sim (Current.alloc o cw) (Legacy.alloc o lw).
Proof.
  intros [Hh Ho Hp Hn Hs]. constructor.
  - simpl. by rewrite Hh.
  - intros p. by rewrite CurrentFacts.members_alloc, legacy_members_alloc.
  - intros p k. by rewrite CurrentFacts.members_alloc, legacy_members_alloc.
  - intros p k vec. rewrite legacy_members_alloc. apply Hn.
  - intros p k. rewrite CurrentFacts.slot_alloc, legacy_first_alloc. apply Hs.
Qed.

Lemma sim_record_invocation e cw lw :
  sim cw lw -> sim (Current.record_invocation e cw) lw.
Proof.
  intros [Hh Ho Hp Hn Hs]. constructor.
  - done.
  - intros p. by rewrite CurrentFacts.members_record_invocation.
  - intros p k. by rewrite CurrentFacts.members_record_invocation.
  - done.
  - intros p k. rewrite CurrentFacts.slot_record_invocation. apply Hs.
Qed.

Lemma sim_emplace_instances q key n cw lw :
  0 < n -> sim cw lw ->
  sim (Current.emplace_instances q key n cw) (Legacy.emplace_instances q key n lw).
Proof.
  intros Hpos [Hh Ho Hp Hn Hs]. constructor.
  - by rewrite CurrentFacts.heap_emplace_instances, legacy_heap_emplace_instances.
  - intros p. by rewrite CurrentFacts.order_emplace_instances, legacy_order_emplace_instances.
  - intros p k. rewrite array_present, CurrentFacts.array_size_emplace_instances.
    rewrite legacy_instances_emplace_instances.
    specialize (Hp p k). rewrite array_present in Hp.
    case_decide.
    + split; intros _.
      * by destruct (Legacy._instances (Legacy.members p lw) !! k).
      * by destruct (Current.array_size p k cw).
    + done.
  - intros p k vec. rewrite legacy_instances_emplace_instances. case_decide; [|apply Hn].
    destruct (Legacy._instances (Legacy.members p lw) !! k) eqn:Hl.
    + intros [= <-]. by eapply Hn.
    + intros [= <-]. by rewrite length_replicate.
  - intros p k. rewrite CurrentFacts.slot_emplace_instances, legacy_first_emplace_instances.
    apply Hs.
Qed.

Lemma sim_claimed ctx this key cw lw :
  sim cw lw -> sim (Current.claimed ctx this key 0 cw) lw.
Proof.
  intros [Hh Ho Hp Hn Hs]. unfold Current.claimed. apply sim_record_invocation.
  constructor.
  - by rewrite CurrentFacts.heap_set_slot.
  - intros p. by rewrite CurrentFacts.order_set_slot.
  - intros p k. rewrite array_present, CurrentFacts.array_size_set_slot, <- array_present.
    apply Hp.
  - done.
  - intros p k.
    destruct (CurrentFacts.slot_set_slot_cases p k 0 this key 0 (Current.mkCS true None) cw)
      as [-> | ->]; [|apply Hs].
    split; simpl; [by intros v [=] | by intros [=]].
Qed.

Lemma sim_published this key v cw3 lw3 :
  sim cw3 lw3 -> has_value v = true ->
  is_Some (Legacy._instances (Legacy.members this lw3) !! key) ->
  (forall p k,
     Current.slot p k 0 (Current.fulfilled this key 0 v cw3) =
     if decide ((p, k, 0) = (this, key, 0)) then Current.mkCS true (Some v)
     else Current.slot p k 0 cw3) ->
  sim (Current.push_order this v (Current.fulfilled this key 0 v cw3))
      (Legacy.push_order this v (Legacy.emplace_at this key 0 v lw3)).
Proof.
  intros [Hh Ho Hp Hn Hs] Hv Hpres Hslot. constructor.
  - unfold Current.fulfilled.
    by rewrite CurrentFacts.heap_push_order, CurrentFacts.heap_set_slot, legacy_heap_push_order,
      legacy_heap_emplace_at.
  - intros p. unfold Current.fulfilled.
    by rewrite CurrentFacts.order_push_order, CurrentFacts.order_set_slot, legacy_order_push_order,
      legacy_order_emplace_at, Ho.
  - intros p k. unfold Current.fulfilled.
    rewrite array_present, CurrentFacts.array_size_push_order, CurrentFacts.array_size_set_slot,
      <- array_present.
    rewrite legacy_instances_push_order, legacy_instances_emplace_at.
    case_decide; [|apply Hp]. rewrite fmap_is_Some. apply Hp.
  - intros p k vec. rewrite legacy_instances_push_order, legacy_instances_emplace_at.
    case_decide; [|apply Hn].
    destruct (Legacy._instances (Legacy.members p lw3) !! k) as [vec0|]; [|done].
    simpl. intros [= <-]. unfold Legacy.vector_emplace. simpl. lia.
  - intros p k. rewrite CurrentFacts.slot_push_order, Hslot, legacy_first_push_order.
    rewrite legacy_first_emplace_at by done.
    destruct (decide ((this, key) = (p, k))) as [Heq|Hne].
    + injection Heq as <- <-. rewrite decide_True by done.
      split; simpl; [by intros v0 [= <-] | by intros [=]].
    + rewrite decide_False by congruence. apply Hs.
Qed.

Lemma runClosure_returns_shared gs gss c : forall w v w',
  Current.runClosure gs gss c w = Current.Done v w' -> has_value v = true.
Proof.
  induction c as [impl args|t k IH|t k IH|e|]; intros w v w'; simpl.
  - by intros [= <- _].
  - destruct (gs t w); try done. apply IH.
  - destruct (gss t w); try done. apply IH.
  - done.
  - by intros [= <- _].
Qed.

Lemma runFactory_returns_shared gs gss f w v w' :
  Current.runFactory gs gss f w = Current.Done v w' -> has_value v = true.
Proof.
  destruct f as [c|p]; simpl; [apply runClosure_returns_shared|]. by intros [= <- _].
Qed.

(** *** Unfolding one legacy resolution *)

Lemma legacy_resolve_transient_eq _factories fuel key factories owner sp index desc lw :
  vec_at factories index = Some desc -> type desc = Transient ->
  Legacy.resolve _factories (S fuel) key factories owner sp index lw =
  match Legacy.runFactory (Legacy.getService _factories fuel sp)
          (Legacy.getServices _factories fuel sp) (create desc) lw with
  | Legacy.Done v w' => Legacy.apply_convert desc v w'
  | Legacy.Raised e w' => Legacy.Raised e w'
  | Legacy.OutOfFuel => Legacy.OutOfFuel
  | Legacy.Undefined => Legacy.Undefined
  end.
Proof. intros Hat Hty. simpl. by rewrite Hat, Hty. Qed.

Lemma legacy_resolve_cached_eq _factories fuel key factories owner sp index desc lw :
  vec_at factories index = Some desc -> type desc <> Transient ->
  Legacy.resolve _factories (S fuel) key factories owner sp index lw =
  let w1 := Legacy.emplace_instances owner key (length factories) lw in
  match vec_at (Legacy.instances_of owner key w1) index with
  | None => Legacy.Raised out_of_range w1
  | Some a =>
      if has_value a then Legacy.convert_deref desc a w1
      else
        match Legacy.runFactory (Legacy.getService _factories fuel sp)
                (Legacy.getServices _factories fuel sp) (create desc) w1 with
        | Legacy.Done v w2 =>
            let w4 := Legacy.push_order owner v
                        (Legacy.emplace_at owner key (N.to_nat index) v w2) in
            match vec_at (Legacy.instances_of owner key w4) index with
            | Some a' => Legacy.convert_deref desc a' w4
            | None => Legacy.Raised out_of_range w4
            end
        | Legacy.Raised e w2 => Legacy.Raised e w2
        | Legacy.OutOfFuel => Legacy.OutOfFuel
        | Legacy.Undefined => Legacy.Undefined
        end
  end.
Proof. intros Hat Hty. simpl. rewrite Hat. by destruct (type desc). Qed.

(** The first element of a present, non-empty vector. *)
Lemma legacy_vec_at_first p k lw :
  is_Some (Legacy._instances (Legacy.members p lw) !! k) ->
  (forall vec, Legacy._instances (Legacy.members p lw) !! k = Some vec -> 0 < length vec) ->
  vec_at (Legacy.instances_of p k lw) 0 = Some (legacy_first p k lw).
Proof.
  intros [vec Hvec] Hlen. specialize (Hlen vec Hvec).
  unfold legacy_first, Legacy.instances_of, vec_at. rewrite Hvec. simpl.
  destruct vec as [|a vec']; simpl in *; [lia|]. done.
Qed.

Section Simulation.
Variable _factories : Registry.
Local Abbreviation resolvers_agree := (Refinement.resolvers_agree _factories).

Hypothesis Hsingle : single_descriptors _factories.

Lemma single_front ty factories :
  _factories !! ty = Some factories -> exists desc, factories = [desc].
Proof using Hsingle.
  intros Hf. specialize (Hsingle ty factories Hf).
  destruct factories as [|d [|d' rest]]; simpl in *; try lia. by exists d.
Qed.

Lemma agree_getService_with ctx cres lres :
  resolvers_agree ctx cres lres ->
  forall ty cw lw, Current.Inv _factories ctx cw -> sim cw lw ->
    agrees (Current.getService_with _factories cres ctx ty cw)
           (Legacy.getService_with _factories lres ctx ty lw).
Proof using Hsingle.
  intros Hres ty cw lw Hi Hs.
  unfold Current.getService_with, Legacy.getService_with.
  destruct (_factories !! ty) as [factories|] eqn:Hf; [|simpl; by exists lw].
  destruct (single_front ty factories Hf) as [desc ->].
  change (size_minus_1 [desc]) with 0%N. change (head [desc]) with (Some desc).
  cbv beta iota.
  assert (H : forall this, this = Root \/ this = ctx ->
            agrees (cres ty [desc] this ctx 0%N cw) (lres ty [desc] this ctx 0%N lw))
    by (intros; by apply Hres).
  destruct ctx as [|id]; [by apply H; left|].
  destruct (Current.is_Scoped (type desc)); cbv beta iota; apply H; auto.
Qed.

Lemma agree_getServices_with ctx cres lres :
  resolvers_agree ctx cres lres ->
  forall ty cw lw, Current.Inv _factories ctx cw -> sim cw lw ->
    agrees (Current.getServices_with _factories cres ctx ty cw)
           (Legacy.getServices_with _factories lres ctx ty lw).
Proof using Hsingle.
  intros Hres ty cw lw Hi Hs.
  unfold Current.getServices_with, Legacy.getServices_with.
  destruct (_factories !! ty) as [factories|] eqn:Hf; [|simpl; by exists lw].
  destruct (single_front ty factories Hf) as [desc ->]. simpl.
  assert (H : forall this, this = Root \/ this = ctx ->
            agrees
              (match cres ty [desc] this ctx 0%N cw with
               | Current.Done a w' => Current.ret [a] w'
               | Current.Raised e w' => Current.Raised e w'
               | Current.Blocked => Current.Blocked
               | Current.OutOfFuel => Current.OutOfFuel
               | Current.Undefined => Current.Undefined
               end)
              (match lres ty [desc] this ctx 0%N lw with
               | Legacy.Done a w' => Legacy.Done [a] w'
               | Legacy.Raised e w' => Legacy.Raised e w'
               | Legacy.OutOfFuel => Legacy.OutOfFuel
               | Legacy.Undefined => Legacy.Undefined
               end)).
  { intros this Hthis. pose proof (Hres ty [desc] this cw lw Hf Hthis Hi Hs) as Hag.
    destruct (cres ty [desc] this ctx 0%N cw); simpl in *; try done.
    - destruct Hag as (lw' & -> & Hs'). by exists lw'.
    - destruct Hag as (lw' & -> & Hs'). by exists lw'. }
  destruct ctx as [|id]; [by apply H; left|].
  destruct (Current.is_Scoped (type desc)); cbv beta iota; apply H; auto.
Qed.

Lemma agree_runClosure ctx cgs cgss lgs lgss :
  (forall t cw lw, Current.Inv _factories ctx cw -> sim cw lw ->
     agrees (cgs t cw) (lgs t lw)) ->
  (forall t cw, Current.Inv _factories ctx cw ->
     Current.post (Current.Inv _factories ctx) (Current.ext ctx) cw (cgs t cw)) ->
  (forall t cw lw, Current.Inv _factories ctx cw -> sim cw lw ->
     agrees (cgss t cw) (lgss t lw)) ->
  (forall t cw, Current.Inv _factories ctx cw ->
     Current.post (Current.Inv _factories ctx) (Current.ext ctx) cw (cgss t cw)) ->
  forall c cw lw, Current.Inv _factories ctx cw -> sim cw lw ->
    agrees (Current.runClosure cgs cgss c cw) (Legacy.runClosure lgs lgss c lw).
Proof.
  intros Hgs Hgsi Hgss Hgssi.
  induction c as [impl args|t k IH|t k IH|e|]; intros cw lw Hi Hs; simpl;
    [| | | |by exists lw].
  - exists (Legacy.alloc (mkObj impl args) lw). rewrite (sim_heap _ _ Hs).
    split; [done | by apply sim_alloc].
  - pose proof (Hgs t cw lw Hi Hs) as Hag. pose proof (Hgsi t cw Hi) as Hp.
    destruct (cgs t cw) as [a cw1|e cw1| | |]; simpl in *; try done.
    + destruct Hag as (lw1 & -> & Hs1). destruct Hp as [Hi1 _]. by apply IH.
    + destruct Hag as (lw1 & -> & Hs1). by exists lw1.
  - pose proof (Hgss t cw lw Hi Hs) as Hag. pose proof (Hgssi t cw Hi) as Hp.
    destruct (cgss t cw) as [a cw1|e cw1| | |]; simpl in *; try done.
    + destruct Hag as (lw1 & -> & Hs1). destruct Hp as [Hi1 _]. by apply IH.
    + destruct Hag as (lw1 & -> & Hs1). by exists lw1.
  - by exists lw.
Qed.

Lemma agree_apply_convert desc v cw lw :
  sim cw lw -> agrees (Current.apply_convert desc v cw) (Legacy.apply_convert desc v lw).
Proof.
  intros Hs. unfold Current.apply_convert, Legacy.apply_convert.
  destruct (convert desc v); simpl; by exists lw.
Qed.

Lemma agree_convert_deref desc v cw lw :
  sim cw lw -> agrees (Current.convert_deref desc v cw) (Legacy.convert_deref desc v lw).
Proof.
  intros Hs. destruct v; simpl; try done; by apply agree_apply_convert.
Qed.

Lemma agree_resolve fuel : forall ctx,
  resolvers_agree ctx (Current.resolve _factories fuel) (Legacy.resolve _factories fuel).
Proof using Hsingle.
  induction fuel as [|fuel IH]; intros ctx key factories this cw lw Hf Hthis Hi Hs;
    [done|].
  destruct (single_front key factories Hf) as [desc ->].
  assert (Hat : vec_at [desc] 0 = Some desc) by done.
  assert (Hrun : forall cw0 lw0, Current.Inv _factories ctx cw0 -> sim cw0 lw0 ->
    agrees
      (Current.runFactory (Current.getService _factories fuel ctx)
         (Current.getServices _factories fuel ctx) (create desc) cw0)
      (Legacy.runFactory (Legacy.getService _factories fuel ctx)
         (Legacy.getServices _factories fuel ctx) (create desc) lw0)).
  { intros cw0 lw0 Hi0 Hs0. destruct (create desc) as [c|p]; simpl.
    - apply (agree_runClosure ctx); auto.
      + intros. by apply agree_getService_with.
      + intros. by apply CurrentFacts.getService_Inv.
      + intros. by apply agree_getServices_with.
      + intros. by apply CurrentFacts.getServices_Inv.
    - by exists lw0. }
  destruct (decide (type desc = Transient)) as [Hty|Hty].
  - rewrite (CurrentFacts.resolve_transient_eq _ _ _ _ _ _ _ desc) by done.
    rewrite (legacy_resolve_transient_eq _ _ _ _ _ _ _ desc) by done.
    destruct (CurrentFacts.Inv_transient _factories ctx this key [desc] desc 0 cw)
      as [Hi1 _]; auto.
    specialize (Hrun _ lw Hi1 (sim_record_invocation _ _ _ Hs)).
    change (N.to_nat 0) with 0.
    destruct (Current.runFactory _ _ _ _) as [v cw1|e cw1| | |]; simpl in *; try done.
    + destruct Hrun as (lw1 & -> & Hs1). by apply agree_apply_convert.
    + destruct Hrun as (lw1 & -> & Hs1). by exists lw1.
  - rewrite (CurrentFacts.resolve_cached_eq _ _ _ _ _ _ _ desc) by done.
    rewrite (legacy_resolve_cached_eq _ _ _ _ _ _ _ desc) by done.
    change (N.to_nat 0) with 0. simpl length. cbv zeta.
    pose proof (sim_emplace_instances this key 1 cw lw ltac:(lia) Hs) as Hs1.
    destruct (CurrentFacts.Inv_emplace _factories ctx this key [desc] cw) as [Hi1 He1]; auto.
    destruct (CurrentFacts.array_ready _factories ctx this key [desc] desc 0 cw)
      as (n & Hn & Hlt); auto.
    simpl length in *.
    set (cw1 := Current.emplace_instances this key 1 cw) in *.
    set (lw1 := Legacy.emplace_instances this key 1 lw) in *.
    assert (Hpres1 : is_Some (Legacy._instances (Legacy.members this lw1) !! key)).
    { apply (sim_present _ _ Hs1), array_present. by rewrite Hn. }
    rewrite (legacy_vec_at_first this key lw1 Hpres1 (sim_nonempty _ _ Hs1 this key)).
    destruct (sim_slots _ _ Hs1 this key) as [Hready Hempty].
    destruct (Current.initialized (Current.slot this key 0 cw1)) eqn:Hinit.
    + destruct (Current.serviceFuture (Current.slot this key 0 cw1)) as [v|] eqn:Hfut;
        [|done].
      destruct (Hready v eq_refl) as [-> Hv]. rewrite Hv.
      by apply agree_convert_deref.
    + rewrite (Hempty eq_refl). simpl has_value. cbv iota.
      assert (Hinit0 : Current.initialized (Current.slot this key 0 cw) = false)
        by (unfold cw1 in Hinit; by rewrite CurrentFacts.slot_emplace_instances in Hinit).
      destruct (CurrentFacts.Inv_claim _factories ctx this key [desc] desc 0 cw)
        as [Hi2 He2]; auto.
      simpl length in *. fold cw1 in Hi2, He2.
      pose proof (Hrun _ lw1 Hi2 (sim_claimed ctx this key cw1 lw1 Hs1)) as Hag.
      pose proof (CurrentFacts.runFactory_Inv _factories ctx fuel (create desc) _ Hi2) as Hp.
      destruct (Current.runFactory _ _ _ _) as [v cw3|e cw3| | |] eqn:Hrun3;
        simpl in Hag, Hp; try done.
      * destruct Hag as (lw3 & -> & Hs3). destruct Hp as [Hi3 He3].
        pose proof (CurrentFacts.fulfilled_reads _factories ctx this key [desc] desc 0 cw cw3 v
                      Hf eq_refl Hi He3) as Hslot.
        rewrite Hslot, decide_True by done. simpl Current.serviceFuture. cbv iota.
        assert (Hv : has_value v = true) by by eapply runFactory_returns_shared.
        assert (Hpres3 : is_Some (Legacy._instances (Legacy.members this lw3) !! key)).
        { apply (sim_present _ _ Hs3), array_present.
          rewrite (Current.ext_arrays _ _ _ He3 this key n); [done|].
          unfold Current.claimed.
          by rewrite CurrentFacts.array_size_record_invocation, CurrentFacts.array_size_set_slot. }
        pose proof (sim_published this key v cw3 lw3 Hs3 Hv Hpres3
                      (fun p k => Hslot p k 0)) as Hs5.
        set (lw5 := Legacy.push_order this v (Legacy.emplace_at this key 0 v lw3)) in *.
        assert (Hpres5 : is_Some (Legacy._instances (Legacy.members this lw5) !! key)).
        { unfold lw5. rewrite legacy_instances_push_order, legacy_instances_emplace_at.
          rewrite decide_True by done. by rewrite fmap_is_Some. }
        rewrite (legacy_vec_at_first this key lw5 Hpres5 (sim_nonempty _ _ Hs5 this key)).
        assert (Hfirst : legacy_first this key lw5 = v).
        { unfold lw5. rewrite legacy_first_push_order, legacy_first_emplace_at by done.
          by rewrite decide_True. }
        rewrite Hfirst. by apply agree_convert_deref.
      * destruct Hag as (lw3 & -> & Hs3). by exists lw3.
Qed.
End Simulation.

Lemma sim_createScope cw lw :
  Current.scopes_bounded cw -> sim cw lw -> sim (Current.createScope cw).2 lw.
Proof.
  intros Hb [Hh Ho Hp Hn Hs]. constructor.
  - done.
  - intros p. by rewrite CurrentFacts.members_createScope.
  - intros p k. by rewrite CurrentFacts.members_createScope.
  - done.
  - intros p k. rewrite CurrentFacts.slot_createScope by done. apply Hs.
Qed.

(** C10, as the code has it.  When every registered type key holds
    exactly one descriptor, and the two providers are in corresponding
    worlds (as they are right after [build()]), a single-value
    [getService] that returns in the promise/future based provider, with
    a handle or with an exception, returns the same in the earlier
    provider, and the worlds correspond again. *)
Theorem C10_agree_on_single_descriptors
    (_factories : Registry) (fuel : nat) (self : Provider) (ty : type_index)
    (cw : Current.World) (lw : Legacy.World) :
  single_descriptors _factories ->
  Current.WF _factories cw -> Current.created self cw -> sim cw lw ->
  match Current.getService _factories fuel self ty cw with
  | Current.Done r cw' =>
      exists lw', Legacy.getService _factories fuel self ty lw = Legacy.Done r lw' /\
                  sim cw' lw' /\ Current.WF _factories cw' /\ Current.created self cw'
  | Current.Raised e cw' =>
      exists lw', Legacy.getService _factories fuel self ty lw = Legacy.Raised e lw' /\
                  sim cw' lw' /\ Current.WF _factories cw' /\ Current.created self cw'
  | Current.Blocked => True
  | Current.OutOfFuel => True
  | Current.Undefined => True
  end.
Proof.
  intros Hsingle Hwf Hc Hs.
  pose proof (agree_getService_with _factories Hsingle self
                (Current.resolve _factories fuel) (Legacy.resolve _factories fuel)
                (agree_resolve _factories Hsingle fuel self) ty cw lw (conj Hwf Hc) Hs)
    as Hag.
  pose proof (CurrentFacts.getService_Inv _factories self fuel ty cw (conj Hwf Hc)) as Hp.
  unfold Current.getService, Legacy.getService in *.
  destruct (Current.getService_with _ _ _ _ _) as [r cw'|e cw'| | |]; simpl in *; try done.
  - destruct Hag as (lw' & Hl & Hs'). destruct Hp as [[Hwf' Hc'] _]. by exists lw'.
  - destruct Hag as (lw' & Hl & Hs'). destruct Hp as [[Hwf' Hc'] _]. by exists lw'.
Qed.

Lemma registry_singles_single : single_descriptors registry_singles.
Proof.
  intros k factories. unfold registry_singles. rewrite RegistrationFacts.lookup_build.
  unfold Registrations.registered_under. rewrite !filter_cons, filter_nil. simpl.
  repeat case_decide; simpl; intros [= <-]; try done.
  exfalso. congruence.
Qed.

Lemma C10_witness :
  let cw := (Current.createScope (Current.World_new [])).2 in
  let lw := Legacy.World_new [] in
  match Current.getService registry_singles 2 (Scope 0) "B" cw with
  | Current.Done r cw' =>
      exists lw', Legacy.getService registry_singles 2 (Scope 0) "B" lw = Legacy.Done r lw' /\
                  sim cw' lw' /\ Current.WF registry_singles cw' /\
                  Current.created (Scope 0) cw'
  | Current.Raised e cw' =>
      exists lw', Legacy.getService registry_singles 2 (Scope 0) "B" lw
                    = Legacy.Raised e lw' /\
                  sim cw' lw' /\ Current.WF registry_singles cw' /\
                  Current.created (Scope 0) cw'
  | Current.Blocked => True
  | Current.OutOfFuel => True
  | Current.Undefined => True
  end.
Proof.
  intros cw lw.
  apply (C10_agree_on_single_descriptors registry_singles 2 (Scope 0) "B" cw lw).
  - apply registry_singles_single.
  - apply CurrentFacts.WF_createScope, CurrentFacts.WF_World_new.
  - vm_compute. lia.
  - apply sim_createScope; [|apply sim_World_new]. by intros id _.
Defined.

(** The call the witness is about does return, in both providers. *)
Lemma registry_singles_returns :
  let cw := (Current.createScope (Current.World_new [])).2 in
  exists cw' lw',
    Current.getService registry_singles 2 (Scope 0) "B" cw = Current.Done (AnyRef 1) cw' /\
    Legacy.getService registry_singles 2 (Scope 0) "B" (Legacy.World_new [])
      = Legacy.Done (AnyRef 1) lw'.
Proof. intros cw. eexists _, _. split; vm_compute; reflexivity. Qed.

(** With three descriptors under one key, the providers disagree: from
    worlds in which both hold the instances of X, Y and Z at the same
    addresses, the promise/future based provider answers with Z (index 2),
    the earlier one with X (index 0); asked first, each constructs a
    different implementation. *)
Lemma C10_counterexample :
  let reg := Current.registry_XYZ in
  let cw1 := Current.world_of (Current.getServices reg 1 Root "I" (Current.World_new [])) in
  let lw1 :=
    match Legacy.getServices reg 1 Root "I" (Legacy.World_new []) with
    | Legacy.Done _ w => w
    | _ => Legacy.World_new []
    end in
  (Current.getServices reg 1 Root "I" (Current.World_new [])
     = Current.Done [AnyRef 0; AnyRef 1; AnyRef 2] cw1 /\
   Legacy.getServices reg 1 Root "I" (Legacy.World_new [])
     = Legacy.Done [AnyRef 0; AnyRef 1; AnyRef 2] lw1 /\
   impl <$> Current.heap cw1 = ["X"; "Y"; "Z"] /\
   Current.heap cw1 = Legacy.heap lw1) /\
  (Current.getService reg 1 Root "I" cw1 = Current.Done (AnyRef 2) cw1 /\
   Legacy.getService reg 1 Root "I" lw1 = Legacy.Done (AnyRef 0) lw1) /\
  (impl <$> Current.heap
              (Current.world_of (Current.getService reg 1 Root "I" (Current.World_new [])))
     = ["Z"] /\
   exists lw2,
     Legacy.getService reg 1 Root "I" (Legacy.World_new []) = Legacy.Done (AnyRef 0) lw2 /\
     impl <$> Legacy.heap lw2 = ["X"]).
Proof.
  intros reg cw1 lw1. split; [|split].
  - vm_compute. repeat split.
  - vm_compute. repeat split.
  - split; [vm_compute; reflexivity|]. eexists. split; vm_compute; reflexivity.
Qed.

End RefinementFacts.

Module MixedLifetimesFacts.
Import Current.

Import MixedLifetimes.

(** C3, at the failing input.  The last descriptor of [I] is a Singleton;
    asked through scope 0, through scope 1 and on the provider,
    [getService<I>] constructs it three times, once in the table of each
    of the three provider objects, and hands out three instances.  Asked
    with [getServices], scope 0 gets the provider's instance. *)
Theorem C3_singleton_behind_scoped_is_built_per_scope :
  let reg := registry_scoped_then_singleton in
  let w3 := world_of (getService_T reg 1 (Scope 0) "I" two_scopes) in
  let w4 := world_of (getService_T reg 1 (Scope 1) "I" w3) in
  let w5 := world_of (getService_T reg 1 Root "I" w4) in
  (type <$> default [] (reg !! "I")) = [Scoped; Singleton] /\
  getService_T reg 1 (Scope 0) "I" two_scopes = Done (Some 0) w3 /\
  getService_T reg 1 (Scope 1) "I" w3 = Done (Some 1) w4 /\
  getService_T reg 1 Root "I" w4 = Done (Some 2) w5 /\
  impl <$> heap w5 = ["Y"; "Y"; "Y"] /\
  slot (Scope 0) "I" 1 w5 = ready 0 /\
  slot (Scope 1) "I" 1 w5 = ready 1 /\
  slot Root "I" 1 w5 = ready 2 /\
  invocations w5 =
    [mkInv (Scope 0) "I" 1 (Scope 0); mkInv (Scope 1) "I" 1 (Scope 1);
     mkInv Root "I" 1 Root] /\
  exists w6, getServices reg 1 (Scope 0) "I" w5 = Done [AnyRef 3; AnyRef 2] w6.
Proof.
  intros reg w3 w4 w5.
  repeat (split; [vm_compute; reflexivity|]).
  eexists. vm_compute. reflexivity.
Qed.

(** C8, at the failing input.  The last descriptor of [I] is Scoped; asked
    through scope 0, [getService<I>] puts its instance into the table and
    the log of the provider and leaves the scope empty; scope 1 is then
    handed the very same instance.  Asked with [getServices], scope 0
    builds an instance of its own. *)
Theorem C8_scoped_behind_singleton_lands_on_the_root :
  let reg := registry_singleton_then_scoped in
  let w3 := world_of (getService_T reg 1 (Scope 0) "I" two_scopes) in
  let w4 := world_of (getService_T reg 1 (Scope 1) "I" w3) in
  (type <$> default [] (reg !! "I")) = [Singleton; Scoped] /\
  getService_T reg 1 (Scope 0) "I" two_scopes = Done (Some 0) w3 /\
  impl <$> heap w3 = ["Y"] /\
  slot Root "I" 1 w3 = ready 0 /\
  _initializationOrder (members Root w3) = [AnyShared 0] /\
  members (Scope 0) w3 = Members_new /\
  getService_T reg 1 (Scope 1) "I" w3 = Done (Some 0) w4 /\
  heap w4 = heap w3 /\
  members (Scope 1) w4 = Members_new /\
  exists w5,
    getServices reg 1 (Scope 0) "I" w4 = Done [AnyRef 1; AnyRef 2] w5 /\
    impl <$> heap w5 = ["Y"; "X"; "Y"] /\
    slot (Scope 0) "I" 1 w5 = ready 2.
Proof.
  intros reg w3 w4.
  repeat (split; [vm_compute; reflexivity|]).
  eexists. repeat split; vm_compute; reflexivity.
Qed.

End MixedLifetimesFacts.

(** * Further properties of the code *)

(** ** [ConstructorFinder.h] *)

Module ConstructorFinderFacts.
Import ConstructorFinder.

Lemma numberOfConstructorArgsIntern_spec constructible depth : forall start n,
  numberOfConstructorArgsIntern constructible depth start = Some n <->
  start <= n < start + depth /\ constructible n = true /\
  forall m, start <= m < n -> constructible m = false.
Proof.
  induction depth as [|depth IH]; intros start n; simpl.
  - split; [done | lia].
  - destruct (constructible start) eqn:Hc.
    + split.
      * intros [= <-]. split; [lia|]. split; [done|]. intros m; lia.
      * intros (Hr & Hn & Hmin). f_equal.
        destruct (decide (start = n)) as [|Hne]; [done|].
        specialize (Hmin start ltac:(lia)). congruence.
    + rewrite IH. split.
      * intros (Hr & Hn & Hmin). split; [lia|]. split; [done|].
        intros m Hm. destruct (decide (m = start)) as [->|]; [done|]. apply Hmin. lia.
      * intros (Hr & Hn & Hmin).
        assert (start <> n) by (intros ->; congruence).
        split; [lia|]. split; [done|]. intros m Hm. apply Hmin. lia.
Qed.

(** X1.  [numberOfConstructorArgs<T>()] is the least number of
    placeholder arguments [T] can be constructed from: it yields [n],
    within the instantiation depth, exactly when [T] is constructible from
    [n] placeholders and from no fewer. *)
Theorem numberOfConstructorArgs_is_least (constructible : nat -> bool) (depth n : nat) :
  numberOfConstructorArgs constructible depth = Some n <->
  n < depth /\ constructible n = true /\ forall m, m < n -> constructible m = false.
Proof.
  unfold numberOfConstructorArgs. rewrite numberOfConstructorArgsIntern_spec.
  split; intros (Hr & Hn & Hmin); (split; [lia|]); (split; [done|]);
    intros m Hm; apply Hmin; lia.
Qed.
End ConstructorFinderFacts.

(** ** The service collection *)

Module CollectionFacts.
Import ServiceCollection Registrations RegistrationFacts.

(** X2.  Two registrations under different type keys can be made in
    either order: the collection is the same. *)
Theorem registrations_under_different_keys_commute
    (r1 r2 : Registration) (c : ServiceCollection.t) :
  key_of r1 <> key_of r2 ->
  register r1 (register r2 c) = register r2 (register r1 c).
Proof.
  intros Hne. apply map_eq. intros k.
  rewrite !register_emplace_back, !lookup_emplace_back.
  repeat case_decide; subst; try done.
Qed.

Lemma registrations_under_different_keys_commute_witness :
  let r1 := AddSingleton "I" "X" [] in
  let r2 := AddTransient "I" "Y" [] in
  register r1 (register r2 fresh) = register r2 (register r1 fresh).
Proof.
  intros r1 r2. apply (registrations_under_different_keys_commute r1 r2 fresh).
  simpl. discriminate.
Defined.
End CollectionFacts.

(** ** Requests to the promise/future based provider *)

Module ProviderFacts.
Import ServiceCollection Current CurrentFacts.

Lemma emplace_instances_present p key n w :
  is_Some (_instances (members p w) !! key) -> emplace_instances p key n w = w.
Proof. intros [arr Harr]. unfold emplace_instances. by rewrite Harr. Qed.

Lemma emplace_instances_initialized p key n i w :
  initialized (slot p key i w) = true -> emplace_instances p key n w = w.
Proof.
  intros Hinit. apply emplace_instances_present.
  destruct (slot_initialized_in_range _ _ _ _ Hinit) as (m & Hm & _).
  unfold array_size in Hm. by destruct (_instances (members p w) !! key).
Qed.

(** A request that finds its slot ready converts the instance and
    leaves the world alone. *)
Lemma resolve_hit _factories fuel key factories this sp index desc v r w :
  vec_at factories index = Some desc -> type desc <> Transient ->
  slot this key (N.to_nat index) w = mkCS true (Some v) ->
  v <> AnyNull -> convert desc v = Some r ->
  resolve _factories (S fuel) key factories this sp index w = Done r w.
Proof.
  intros Hat Hty Hs Hnn Hconv.
  rewrite (resolve_cached_eq _ _ _ _ _ _ _ desc) by done. cbv zeta.
  rewrite slot_emplace_instances, Hs. simpl.
  rewrite (emplace_instances_initialized _ _ _ (N.to_nat index)) by by rewrite Hs.
  destruct v; try done; unfold convert_deref, apply_convert; by rewrite Hconv.
Qed.

(** A request that finds its slot claimed and not fulfilled waits. *)
Lemma resolve_busy _factories fuel key factories this sp index desc w :
  vec_at factories index = Some desc -> type desc <> Transient ->
  slot this key (N.to_nat index) w = mkCS true None ->
  resolve _factories (S fuel) key factories this sp index w = Blocked.
Proof.
  intros Hat Hty Hs.
  rewrite (resolve_cached_eq _ _ _ _ _ _ _ desc) by done. cbv zeta.
  by rewrite slot_emplace_instances, Hs.
Qed.

Lemma runClosure_returns_a_shared_ptr gs gss c : forall w v w',
  runClosure gs gss c w = Done v w' -> is_shared v = true.
Proof.
  induction c as [impl args|t k IH|t k IH|e|]; intros w v w'; simpl.
  - by intros [= <- _].
  - destruct (gs t w); try done. apply IH.
  - destruct (gss t w); try done. apply IH.
  - done.
  - by intros [= <- _].
Qed.

Lemma runFactory_returns_a_shared_ptr gs gss f w v w' :
  runFactory gs gss f w = Done v w' -> is_shared v = true.
Proof.
  destruct f as [c|p]; simpl; [apply runClosure_returns_a_shared_ptr|]. by intros [= <- _].
Qed.

(** X3.  Once a provider object has handed out a Singleton or Scoped
    service, every later request that is routed to the same owner (on the
    same provider object or, for an instance the root owns, on the root or
    on any scope) returns the same handle, with any fuel, whatever
    requests and new scopes lie in between, and leaves the world as it
    is: no factory runs, nothing is constructed or logged. *)
Theorem later_requests_return_the_cached_instance
    (_factories : Registry) (heap0 : list Obj) (ty : type_index)
    (factories : FactoryFunctionCollection) (front desc : ServiceDescription)
    (self1 : Provider) (fuel1 : nat) (w : World) (r : any) (w1 w2 : World)
    (self2 : Provider) (fuel2 : nat) :
  reachable _factories heap0 w -> created self1 w ->
  _factories !! ty = Some factories ->
  head factories = Some front -> last factories = Some desc ->
  (Z.of_nat (length factories) < 2 ^ 64)%Z ->
  type desc <> Transient ->
  getService _factories fuel1 self1 ty w = Done r w1 ->
  rtc (step _factories) w1 w2 ->
  owner_for self2 (type front) = owner_for self1 (type front) ->
  getService _factories (S fuel2) self2 ty w2 = Done r w2.
Proof.
  intros Hreach Hc Hf Hfront Hlast Hmax Hty Hres Hsteps Hown.
  destruct (getService_materializes _factories heap0 fuel1 self1 ty factories front desc
              w r w1 Hreach Hc Hf Hfront Hlast Hmax Hty Hres) as (v & Hs & Hconv & Hnn).
  assert (Hwf1 : WF _factories w1).
  { pose proof (getService_steps _factories fuel1 self1 ty w Hc) as Hst.
    rewrite Hres in Hst.
    by destruct (steps_sound _factories w w1 (reachable_WF _ _ _ Hreach) Hst). }
  destruct (steps_sound _factories w1 w2 Hwf1 Hsteps) as [_ Hl].
  destruct (getService_is_last _factories (S fuel2) self2 ty factories front w2
              Hf Hfront Hmax) as (Hat & _ & ->).
  rewrite Hlast in Hat. rewrite Hown.
  apply (resolve_hit _ _ _ _ _ _ _ desc v); try done.
  rewrite Nat2N.id. rewrite (later_frozen _ _ Hl); by rewrite Hs.
Qed.

Lemma later_requests_return_the_cached_instance_witness :
  let w := World_new [] in
  let w1 := world_of (getService registry_one_singleton 1 Root "A" w) in
  let w2 := (createScope w1).2 in
  getService registry_one_singleton 1 (Scope 0) "A" w2 = Done (AnyRef 0) w2.
Proof.
  intros w w1 w2.
  apply (later_requests_return_the_cached_instance registry_one_singleton [] "A"
           (default [] (registry_one_singleton !! "A"))
           (mkDesc (Build (ServiceFactory_create "AImpl" [])) convert_ref Singleton)
           (mkDesc (Build (ServiceFactory_create "AImpl" [])) convert_ref Singleton)
           Root 1 w (AnyRef 0) w1 w2 (Scope 0) 0).
  - apply rtc_refl.
  - exact I.
  - vm_compute. reflexivity.
  - vm_compute. reflexivity.
  - vm_compute. reflexivity.
  - vm_compute. reflexivity.
  - simpl. discriminate.
  - vm_compute. reflexivity.
  - apply rtc_once, step_createScope.
  - reflexivity.
Defined.

(** The last handle of a multi-value lookup. *)
Lemma resolved_in_order_last _factories fuel self ty factories :
  _factories !! ty = Some factories ->
  forall i w l w',
    resolved_in_order _factories fuel self ty factories i w l w' ->
    WF _factories w -> created self w -> i < length factories ->
    exists w0 a desc,
      WF _factories w0 /\ created self w0 /\
      factories !! (length factories - 1) = Some desc /\
      resolve _factories fuel ty factories (owner_for self (type desc)) self
        (N.of_nat (length factories - 1)) w0 = Done a w' /\
      last l = Some a.
Proof.
  intros Hf. induction 1 as [|i desc w a w1 rest w' Hd Hres Hrest IH];
    intros Hwf Hc Hi; [lia|].
  pose proof (resolve_Inv _factories self fuel ty factories
                (owner_for self (type desc)) (N.of_nat i) w Hf (owner_for_this _ _)
                (conj Hwf Hc)) as Hp.
  rewrite Hres in Hp. destruct Hp as [[Hwf1 Hc1] _].
  destruct (decide (S i = length factories)) as [Hlast|Hmore].
  - inversion Hrest as [|? ? ? ? ? ? ? Hd']; subst.
    + exists w, a, desc. replace (length factories - 1) with i by lia. by split_and!.
    + apply lookup_lt_Some in Hd'. lia.
  - destruct IH as (w0 & b & d & ? & ? & ? & ? & Hl); [done|done|lia|].
    exists w0, b, d. split_and!; try done.
    by destruct rest.
Qed.

(** X4.  When the first and the last descriptor of a type key route to
    the same owner, [getService] right after [getServices] returns the
    last handle of the vector [getServices] returned, and changes
    nothing. *)
Theorem getService_returns_the_last_of_getServices
    (_factories : Registry) (heap0 : list Obj) (ty : type_index)
    (factories : FactoryFunctionCollection) (front desc : ServiceDescription)
    (self : Provider) (fuel fuel2 : nat) (w : World) (l : list any) (w' : World) :
  reachable _factories heap0 w -> created self w ->
  _factories !! ty = Some factories ->
  head factories = Some front -> last factories = Some desc ->
  (Z.of_nat (length factories) < 2 ^ 64)%Z ->
  type desc <> Transient ->
  owner_for self (type front) = owner_for self (type desc) ->
  getServices _factories fuel self ty w = Done l w' ->
  exists r, last l = Some r /\
            getService _factories (S fuel2) self ty w' = Done r w'.
Proof.
  intros Hreach Hc Hf Hfront Hlast Hmax Hty Hown Hres.
  assert (Hpos : 0 < length factories) by (destruct factories; simpl in *; [done | lia]).
  unfold getServices, getServices_with in Hres. rewrite Hf in Hres.
  apply (getServices_loop_spec _ _ _ _ _ (length factories) 0 [] w l w') in Hres
    as (rest & -> & Hrio); [|done]. simpl.
  destruct (resolved_in_order_last _ _ _ _ _ Hf _ _ _ _ Hrio
              (reachable_WF _ _ _ Hreach) Hc Hpos)
    as (w0 & a & d & Hwf0 & Hc0 & Hd & Hres0 & Hl).
  assert (d = desc) as ->.
  { rewrite last_lookup in Hlast.
    replace (Init.Nat.pred (length factories)) with (length factories - 1) in Hlast by lia.
    congruence. }
  exists a. split; [done|].
  destruct (resolve_cached_Done_not_null _factories self fuel ty factories
              (owner_for self (type desc)) _ desc w0 a w' Hf (owner_for_this _ _)
              (conj Hwf0 Hc0) (vec_at_lookup _ _ _ Hd) Hty Hres0)
    as (v & Hnn & Hs & Hconv & _).
  destruct (getService_is_last _factories (S fuel2) self ty factories front w'
              Hf Hfront Hmax) as (Hat & _ & ->).
  rewrite Hlast in Hat. rewrite Hown.
  by apply (resolve_hit _ _ _ _ _ _ _ desc v).
Qed.

Lemma getService_returns_the_last_of_getServices_witness :
  let w := World_new [] in
  let w' := world_of (getServices registry_XYZ 1 Root "I" w) in
  exists r, last [AnyRef 0; AnyRef 1; AnyRef 2] = Some r /\
            getService registry_XYZ 1 Root "I" w' = Done r w'.
Proof.
  intros w w'.
  apply (getService_returns_the_last_of_getServices registry_XYZ [] "I"
           (default [] (registry_XYZ !! "I"))
           (mkDesc (Build (ServiceFactory_create "X" [])) convert_ref Singleton)
           (mkDesc (Build (ServiceFactory_create "Z" [])) convert_ref Singleton)
           Root 1 0 w [AnyRef 0; AnyRef 1; AnyRef 2] w').
  - apply rtc_refl.
  - exact I.
  - vm_compute. reflexivity.
  - vm_compute. reflexivity.
  - vm_compute. reflexivity.
  - vm_compute. reflexivity.
  - simpl. discriminate.
  - reflexivity.
  - vm_compute. reflexivity.
Defined.

(** X5.  A request through the provider object [self] leaves every scope
    other than [self] as it is, creates no scope, and keeps every object
    of the heap where and as it is. *)
Theorem requests_touch_only_the_root_and_the_asked_scope
    (_factories : Registry) (heap0 : list Obj) (fuel : nat) (self : Provider)
    (ty : type_index) (w : World) :
  reachable _factories heap0 w -> created self w ->
  after (getService _factories fuel self ty w) (untouched self w) /\
  after (getServices _factories fuel self ty w) (untouched self w).
Proof.
  intros Hreach Hc. pose proof (reachable_WF _ _ _ Hreach) as Hwf.
  assert (Hext : forall w', ext self w w' -> untouched self w w').
  { intros w' He. split; [|split].
    - apply (ext_others _ _ _ He).
    - apply (ext_next_scope _ _ _ He).
    - intros q o Hq. destruct (ext_heap _ _ _ He) as (objs & ->).
      by apply lookup_app_l_Some. }
  split.
  - pose proof (getService_Inv _factories self fuel ty w (conj Hwf Hc)) as H.
    destruct (getService _ _ _ _ _); simpl in *; try done; apply Hext, H.
  - pose proof (getServices_Inv _factories self fuel ty w (conj Hwf Hc)) as H.
    destruct (getServices _ _ _ _ _); simpl in *; try done; apply Hext, H.
Qed.

Lemma requests_touch_only_the_root_and_the_asked_scope_witness :
  let w := (createScope (createScope (World_new [])).2).2 in
  after (getService registry_P7 3 (Scope 0) (shared_ptr_of "T") w) (untouched (Scope 0) w) /\
  after (getServices registry_P7 3 (Scope 0) (shared_ptr_of "T") w) (untouched (Scope 0) w).
Proof.
  intros w.
  apply (requests_touch_only_the_root_and_the_asked_scope registry_P7 [] 3 (Scope 0)
           (shared_ptr_of "T") w).
  - eapply rtc_l; [apply step_createScope|].
    eapply rtc_l; [apply step_createScope|]. apply rtc_refl.
  - vm_compute. lia.
Defined.

(** X7.  When the factory of a Singleton or Scoped descriptor throws on
    the first request for its slot, the slot stays claimed and its promise
    is never fulfilled: from then on, whatever happens in between, every
    request for this slot waits for ever. *)
Theorem a_factory_that_throws_leaves_the_slot_claimed
    (_factories : Registry) (heap0 : list Obj) (ctx : Provider) (fuel : nat)
    (key : type_index) (factories : FactoryFunctionCollection) (this : Provider)
    (index : N) (desc : ServiceDescription) (w : World) (e : exn) (w' : World) :
  reachable _factories heap0 w -> created ctx w ->
  _factories !! key = Some factories -> this = Root \/ this = ctx ->
  vec_at factories index = Some desc -> type desc <> Transient ->
  (forall q, is_Some (convert desc (AnyShared q))) ->
  initialized (slot this key (N.to_nat index) w) = false ->
  resolve _factories fuel key factories this ctx index w = Raised e w' ->
  slot this key (N.to_nat index) w' = mkCS true None /\
  forall w2 ctx2 fuel2,
    rtc (step _factories) w' w2 ->
    slot this key (N.to_nat index) w2 = mkCS true None /\
    resolve _factories (S fuel2) key factories this ctx2 index w2 = Blocked.
Proof.
  intros Hreach Hc Hf Hthis Hat Hty Hconv Hinit Hres.
  pose proof (reachable_WF _ _ _ Hreach) as Hwf.
  pose proof (vec_at_Some _ _ _ Hat) as Hd.
  assert (Hstep : step _factories w w') by by eapply step_raised.
  destruct (step_sound _factories w w' Hwf Hstep) as [Hwf' _].
  destruct fuel as [|fuel]; [done|].
  rewrite (resolve_cached_eq _ _ _ _ _ _ _ desc) in Hres by done.
  cbv zeta in Hres. rewrite slot_emplace_instances, Hinit in Hres.
  set (i := N.to_nat index) in *.
  destruct (Inv_claim _factories ctx this key factories desc i w) as [Hi2 He2];
    [done..|].
  pose proof (runFactory_Inv _factories ctx fuel (create desc) _ Hi2) as Hrun.
  unfold getService, getServices in *.
  destruct (runFactory _ _ _ _) as [v w3|e3 w3| | |] eqn:Hfac; simpl in Hrun; try done.
  { exfalso. destruct Hrun as [_ He3].
    rewrite (fulfilled_reads _factories ctx this key factories desc i w w3 v
               Hf Hd (conj Hwf Hc) He3), decide_True in Hres by done.
    simpl in Hres. apply runFactory_returns_a_shared_ptr in Hfac.
    destruct v as [|q|q|]; try done.
    unfold convert_deref, apply_convert in Hres.
    destruct (Hconv q) as [h Hh]. by rewrite Hh in Hres. }
  injection Hres as -> ->. destruct Hrun as [_ He3].
  assert (Hs : slot this key i w' = mkCS true None).
  { destruct (array_ready _factories ctx this key factories desc i w) as (n & Hn & Hi);
      [done..|].
    rewrite (ext_frozen _ _ _ He3 this key i);
      rewrite (slot_claimed _ _ _ _ _ n) by done; by rewrite decide_True. }
  split; [done|]. intros w2 ctx2 fuel2 Hsteps.
  destruct (steps_sound _factories w' w2 Hwf' Hsteps) as [_ Hl].
  assert (Hs2 : slot this key i w2 = mkCS true None).
  { rewrite (later_frozen _ _ Hl); by rewrite Hs. }
  split; [done|]. by apply (resolve_busy _ _ _ _ _ _ _ desc).
Qed.

Lemma a_factory_that_throws_leaves_the_slot_claimed_witness :
  let reg := build (registerAll [AddSingletonF "A" (Throw (user_exception "boom"))]
                      fresh) in
  let desc := mkDesc (Build (Throw (user_exception "boom"))) convert_ref Singleton in
  let w := World_new [] in
  let w' := world_of (resolve reg 1 "A" [desc] Root Root 0 w) in
  slot Root "A" (N.to_nat 0) w' = mkCS true None /\
  forall w2 ctx2 fuel2,
    rtc (step reg) w' w2 ->
    slot Root "A" (N.to_nat 0) w2 = mkCS true None /\
    resolve reg (S fuel2) "A" [desc] Root ctx2 0 w2 = Blocked.
Proof.
  intros reg desc w w'.
  apply (a_factory_that_throws_leaves_the_slot_claimed reg [] Root 1 "A" [desc] Root
           0%N desc w (user_exception "boom") w').
  - apply rtc_refl.
  - exact I.
  - vm_compute. reflexivity.
  - left. reflexivity.
  - vm_compute. reflexivity.
  - simpl. discriminate.
  - intros q. simpl. by eexists.
  - vm_compute. reflexivity.
  - vm_compute. reflexivity.
Defined.

(** X11.  The first request for a service registered with
    [addSingleton(existingService)] returns a reference to that very
    object: nothing is constructed, the slot holds the [shared_ptr], and
    the owner's log gets it as its last entry, so that the owner releases
    it first. *)
Theorem an_existing_instance_is_handed_out_as_it_is
    (_factories : Registry) (heap0 : list Obj) (fuel : nat) (self : Provider)
    (ty : type_index) (factories : FactoryFunctionCollection)
    (front : ServiceDescription) (existingService : ptr) (w : World) :
  reachable _factories heap0 w -> created self w ->
  _factories !! ty = Some factories -> head factories = Some front ->
  last factories = Some (mkDesc (Share existingService) convert_ref Singleton) ->
  (Z.of_nat (length factories) < 2 ^ 64)%Z ->
  let owner := owner_for self (type front) in
  initialized (slot owner ty (length factories - 1) w) = false ->
  exists w',
    getService _factories (S fuel) self ty w = Done (AnyRef existingService) w' /\
    heap w' = heap w /\
    slot owner ty (length factories - 1) w' = mkCS true (Some (AnyShared existingService)) /\
    (destroy owner w').1 = AnyShared existingService :: (destroy owner w).1.
Proof.
  intros Hreach Hc Hf Hfront Hlast Hmax owner Hinit.
  pose proof (reachable_WF _ _ _ Hreach) as Hwf.
  set (desc := mkDesc (Share existingService) convert_ref Singleton) in *.
  destruct (getService_is_last _factories (S fuel) self ty factories front w
              Hf Hfront Hmax) as (Hat & _ & ->).
  rewrite Hlast in Hat. fold owner.
  pose proof (vec_at_Some _ _ _ Hat) as Hd. rewrite Nat2N.id in Hd.
  rewrite (resolve_cached_eq _ _ _ _ _ _ _ desc) by done.
  cbv zeta. rewrite Nat2N.id, slot_emplace_instances, Hinit. simpl runFactory.
  unfold ret.
  set (w3 := claimed self owner ty (length factories - 1)
               (emplace_instances owner ty (length factories) w)).
  pose proof (fulfilled_reads _factories self owner ty factories desc
                (length factories - 1) w w3 (AnyShared existingService) Hf Hd
                (conj Hwf Hc) (ext_refl _ _)) as Hslot.
  rewrite Hslot, decide_True by done. simpl.
  eexists. split; [reflexivity|]. split_and!.
  - unfold fulfilled, w3, claimed.
    rewrite heap_push_order, heap_set_slot. simpl.
    by rewrite heap_set_slot, heap_emplace_instances.
  - by rewrite slot_push_order, Hslot, decide_True.
  - destruct (destroy_spec owner w) as (-> & _).
    match goal with |- (destroy owner ?x).1 = _ => destruct (destroy_spec owner x) as (-> & _) end.
    unfold fulfilled, w3, claimed.
    rewrite order_push_order, order_set_slot, members_record_invocation, order_set_slot,
      order_emplace_instances, decide_True by done.
    by rewrite rev_app_distr.
Qed.

Lemma an_existing_instance_is_handed_out_as_it_is_witness :
  let reg := build (registerAll [AddSingletonExisting "I" 0] fresh) in
  let w := World_new [mkObj "Service1" []] in
  exists w',
    getService reg 1 Root "I" w = Done (AnyRef 0) w' /\
    heap w' = heap w /\
    slot Root "I" 0 w' = mkCS true (Some (AnyShared 0)) /\
    (destroy Root w').1 = AnyShared 0 :: (destroy Root w).1.
Proof.
  intros reg w.
  apply (an_existing_instance_is_handed_out_as_it_is reg [mkObj "Service1" []] 0 Root "I"
           [mkDesc (Share 0) convert_ref Singleton]
           (mkDesc (Share 0) convert_ref Singleton) 0 w).
  - apply rtc_refl.
  - exact I.
  - vm_compute. reflexivity.
  - reflexivity.
  - reflexivity.
  - vm_compute. reflexivity.
  - vm_compute. reflexivity.
Defined.

(** *** Circular dependencies *)

Lemma last_slot_claimed _factories self t ctx this key i n w :
  t <> key ->
  last_slot _factories self t (claimed ctx this key i (emplace_instances this key n w)) =
  last_slot _factories self t w.
Proof.
  intros Hne. unfold last_slot.
  destruct (_factories !! t) as [factories|]; [|done].
  destruct (head factories) as [front|]; [|done].
  unfold claimed. rewrite slot_record_invocation, slot_set_slot_ne by congruence.
  apply slot_emplace_instances.
Qed.

Lemma chain_blocks _factories self target :
  (exists t', asks_first _factories target t') ->
  forall rest fuel w,
    Inv _factories self w -> NoDup rest -> target ∉ rest ->
    chain _factories rest target ->
    (forall t, t ∈ rest -> initialized (last_slot _factories self t w) = false) ->
    last_slot _factories self target w = mkCS true None ->
    getService _factories (S (length rest) + fuel) self (hd target rest) w = Blocked.
Proof.
  intros (t' & factories0 & front0 & desc0 & k0 & Hf0 & Hfront0 & Hlast0 & Hmax0 & Hty0 & _).
  induction rest as [|t rest IH]; intros fuel w Hinv Hnd Hnotin Hchain Hfree Hbusy; simpl.
  - destruct (getService_is_last _factories (S fuel) self target factories0 front0 w
                Hf0 Hfront0 Hmax0) as (Hat & _ & ->).
    rewrite Hlast0 in Hat. apply (resolve_busy _ _ _ _ _ _ _ desc0); try done.
    unfold last_slot in Hbusy. rewrite Hf0, Hfront0 in Hbusy. by rewrite Nat2N.id.
  - destruct Hchain as [(factories & front & desc & k & Hf & Hfront & Hlast & Hmax & Hty & Hk)
                          Hchain].
    apply NoDup_cons in Hnd as [Ht Hnd].
    apply not_elem_of_cons in Hnotin as [Hne Hnotin].
    destruct (getService_is_last _factories (S (S (length rest + fuel))) self t
                factories front w Hf Hfront Hmax) as (Hat & _ & ->).
    rewrite Hlast in Hat. pose proof (vec_at_Some _ _ _ Hat) as Hd.
    rewrite Nat2N.id in Hd.
    assert (Hinit : initialized
              (slot (owner_for self (type front)) t (length factories - 1) w) = false).
    { specialize (Hfree t ltac:(left)). unfold last_slot in Hfree.
      by rewrite Hf, Hfront in Hfree. }
    rewrite (resolve_cached_eq _ _ _ _ _ _ _ desc) by done.
    cbv zeta. rewrite Nat2N.id, slot_emplace_instances, Hinit, Hk. simpl runFactory.
    simpl runClosure.
    destruct (Inv_claim _factories self (owner_for self (type front)) t factories desc
                (length factories - 1) w Hf Hd Hty (owner_for_this _ _) Hinv Hinit)
      as [Hinv2 _].
    change (S (length rest + fuel)) with (S (length rest) + fuel).
    rewrite IH; try done.
    + intros t2 Ht2. rewrite last_slot_claimed; [|intros ->; done].
      apply Hfree. by right.
    + by rewrite last_slot_claimed.
Qed.

(** X9.  A cycle of Singleton or Scoped services, each of which starts
    its construction by asking for the next one: the request for the first
    of them waits for ever, with any fuel that lets the recursion go once
    round the cycle. *)
Theorem a_cycle_of_first_dependencies_blocks
    (_factories : Registry) (heap0 : list Obj) (self : Provider)
    (t0 : type_index) (rest : list type_index) (fuel : nat) (w : World) :
  reachable _factories heap0 w -> created self w ->
  NoDup (t0 :: rest) -> chain _factories (t0 :: rest) t0 ->
  (forall t, t ∈ t0 :: rest -> initialized (last_slot _factories self t w) = false) ->
  getService _factories (S (S (length rest)) + fuel) self t0 w = Blocked.
Proof.
  intros Hreach Hc Hnd Hchain Hfree.
  pose proof (reachable_WF _ _ _ Hreach) as Hwf.
  pose proof Hchain as [Hasks Hrest].
  destruct Hasks as (factories & front & desc & k & Hf & Hfront & Hlast & Hmax & Hty & Hk).
  apply NoDup_cons in Hnd as [Ht Hnd].
  change (S (S (length rest)) + fuel) with (S (S (length rest + fuel))).
  destruct (getService_is_last _factories (S (S (length rest + fuel))) self t0
              factories front w Hf Hfront Hmax) as (Hat & _ & ->).
  rewrite Hlast in Hat. pose proof (vec_at_Some _ _ _ Hat) as Hd.
  rewrite Nat2N.id in Hd.
  assert (Hinit : initialized
            (slot (owner_for self (type front)) t0 (length factories - 1) w) = false).
  { specialize (Hfree t0 ltac:(left)). unfold last_slot in Hfree.
    by rewrite Hf, Hfront in Hfree. }
  rewrite (resolve_cached_eq _ _ _ _ _ _ _ desc) by done.
  cbv zeta. rewrite Nat2N.id, slot_emplace_instances, Hinit, Hk. simpl runFactory.
  simpl runClosure.
  destruct (Inv_claim _factories self (owner_for self (type front)) t0 factories desc
              (length factories - 1) w Hf Hd Hty (owner_for_this _ _) (conj Hwf Hc) Hinit)
    as [Hinv2 _].
  change (S (length rest + fuel)) with (S (length rest) + fuel).
  rewrite (chain_blocks _factories self t0); try done.
  - exists (hd t0 rest). by exists factories, front, desc, k.
  - intros t2 Ht2. rewrite last_slot_claimed; [|intros ->; done].
    apply Hfree. by right.
  - unfold last_slot. rewrite Hf, Hfront.
    destruct (array_ready _factories self (owner_for self (type front)) t0 factories desc
                (length factories - 1) w Hf Hd (conj Hwf Hc)) as (n & Hn & Hi).
    rewrite (slot_claimed _ _ _ _ _ n) by done. by rewrite decide_True.
Qed.

Lemma a_cycle_of_first_dependencies_blocks_witness :
  let reg := build (registerAll [AddSingleton "A" "A" [ByRef "B"];
                                 AddSingleton "B" "B" [ByRef "A"]] fresh) in
  getService reg (3 + 0) Root "A" (World_new []) = Blocked.
Proof.
  intros reg.
  apply (a_cycle_of_first_dependencies_blocks reg [] Root "A" ["B"] 0 (World_new [])).
  - apply rtc_refl.
  - exact I.
  - apply (bool_decide_unpack (NoDup ["A"; "B"])). vm_compute. exact I.
  - split; [|split; [|exact I]].
    + eexists _, _, _, _. split_and!; try (vm_compute; reflexivity). simpl. discriminate.
    + eexists _, _, _, _. split_and!; try (vm_compute; reflexivity). simpl. discriminate.
  - intros t _. unfold last_slot. repeat case_match; reflexivity.
Defined.

(** *** A dependency that was not registered *)

(** X8.  A Singleton or Scoped service whose constructor takes as its
    first parameter, by reference or as a [shared_ptr], a type that was
    not registered: the first request throws [bad_any_cast], constructs
    nothing and leaves the slot claimed, and the next request for the
    service waits for ever. *)
Theorem a_missing_dependency_throws_and_blocks_the_service
    (_factories : Registry) (heap0 : list Obj) (fuel : nat) (self : Provider)
    (ty : type_index) (factories : FactoryFunctionCollection)
    (front desc : ServiceDescription) (TImplementation : string)
    (a : ArgType) (key : type_index) (rest : list ArgType) (w : World) :
  reachable _factories heap0 w -> created self w ->
  _factories !! ty = Some factories ->
  head factories = Some front -> last factories = Some desc ->
  (Z.of_nat (length factories) < 2 ^ 64)%Z ->
  type desc <> Transient ->
  create desc = Build (ServiceFactory_create TImplementation (a :: rest)) ->
  single_key a = Some key -> _factories !! key = None ->
  let owner := owner_for self (type front) in
  initialized (slot owner ty (length factories - 1) w) = false ->
  exists w',
    getService _factories (S fuel) self ty w = Raised bad_any_cast w' /\
    heap w' = heap w /\
    slot owner ty (length factories - 1) w' = mkCS true None /\
    getService _factories (S fuel) self ty w' = Blocked.
Proof.
  intros Hreach Hc Hf Hfront Hlast Hmax Hty Hk Ha Hnone owner Hinit.
  pose proof (reachable_WF _ _ _ Hreach) as Hwf.
  destruct (getService_is_last _factories (S fuel) self ty factories front w
              Hf Hfront Hmax) as (Hat & _ & Heq).
  rewrite Hlast in Hat. fold owner in Heq.
  pose proof (vec_at_Some _ _ _ Hat) as Hd. rewrite Nat2N.id in Hd.
  set (w2 := claimed self owner ty (length factories - 1)
               (emplace_instances owner ty (length factories) w)).
  assert (Hs2 : slot owner ty (length factories - 1) w2 = mkCS true None).
  { destruct (array_ready _factories self owner ty factories desc
                (length factories - 1) w Hf Hd (conj Hwf Hc)) as (n & Hn & Hi).
    unfold w2. rewrite (slot_claimed _ _ _ _ _ n) by done. by rewrite decide_True. }
  exists w2. split_and!.
  - rewrite Heq, (resolve_cached_eq _ _ _ _ _ _ _ desc) by done.
    cbv zeta. rewrite Nat2N.id, slot_emplace_instances, Hinit, Hk.
    fold w2. unfold ServiceFactory_create.
    destruct a as [t|t|t|t]; try done; injection Ha as <-;
      cbn [runFactory runClosure createInternal];
      unfold getService, getService_with; by rewrite Hnone.
  - unfold w2, claimed. simpl. by rewrite heap_set_slot, heap_emplace_instances.
  - done.
  - destruct (getService_is_last _factories (S fuel) self ty factories front w2
                Hf Hfront Hmax) as (_ & _ & ->).
    fold owner. apply (resolve_busy _ _ _ _ _ _ _ desc); try done.
    by rewrite Nat2N.id.
Qed.

Lemma a_missing_dependency_throws_and_blocks_the_service_witness :
  let reg := build (registerAll [AddSingleton "B" "B" [ByRef "A"]] fresh) in
  let w := World_new [] in
  exists w',
    getService reg 1 Root "B" w = Raised bad_any_cast w' /\
    heap w' = heap w /\
    slot Root "B" 0 w' = mkCS true None /\
    getService reg 1 Root "B" w' = Blocked.
Proof.
  intros reg w.
  apply (a_missing_dependency_throws_and_blocks_the_service reg [] 0 Root "B"
           [mkDesc (Build (ServiceFactory_create "B" [ByRef "A"])) convert_ref Singleton]
           (mkDesc (Build (ServiceFactory_create "B" [ByRef "A"])) convert_ref Singleton)
           (mkDesc (Build (ServiceFactory_create "B" [ByRef "A"])) convert_ref Singleton)
           "B" (ByRef "A") "A" [] w).
  - apply rtc_refl.
  - exact I.
  - vm_compute. reflexivity.
  - reflexivity.
  - reflexivity.
  - vm_compute. reflexivity.
  - simpl. discriminate.
  - reflexivity.
  - reflexivity.
  - vm_compute. reflexivity.
  - vm_compute. reflexivity.
Defined.

End ProviderFacts.

(** ** The instances a provider holds *)

Module InstanceFacts.
Import ServiceCollection Current CurrentFacts ProviderFacts.

Section Owned.
Variable _factories : Registry.

Local Abbreviation Owned := (Current.Owned _factories).
Local Abbreviation Inv3 := (Current.Inv3 _factories).
Local Abbreviation unheld := (Current.unheld _factories).

Lemma Owned_same w w' :
  (forall p k i, slot p k i w' = slot p k i w) ->
  (forall p, _initializationOrder (members p w') = _initializationOrder (members p w)) ->
  Owned w -> Owned w'.
Proof.
  intros Hs Ho [Hl Hh Hd]. constructor.
  - intros p k i v. rewrite Hs, Ho. apply Hl.
  - intros p v. rewrite Ho. intros Hin. destruct (Hh p v Hin) as (k & i & H).
    exists k, i. by rewrite Hs.
  - intros p k i p' k' i' v. rewrite !Hs. apply Hd.
Qed.

(** While the factory of a claimed slot runs, the slot stays claimed. *)
Lemma claimed_stays ctx this key factories desc i w w3 :
  _factories !! key = Some factories -> factories !! i = Some desc ->
  Inv _factories ctx w ->
  ext ctx (claimed ctx this key i (emplace_instances this key (length factories) w)) w3 ->
  slot this key i w3 = mkCS true None.
Proof.
  intros Hf Hd Hinv He3.
  destruct (array_ready _factories ctx this key factories desc i w) as (n & Hn & Hi);
    [done..|].
  rewrite (ext_frozen _ _ _ He3 this key i);
    rewrite (slot_claimed _ _ _ _ _ n) by done; by rewrite decide_True.
Qed.

Lemma Inv3_alloc ctx o w :
  Inv3 ctx w ->
  Inv3 ctx (alloc o w) /\ ext ctx w (alloc o w) /\
  unheld (AnyShared (length (heap w))) (alloc o w).
Proof.
  intros [Hi Ho]. destruct (Inv2_alloc _factories ctx o w Hi) as (Hi' & He & Hv).
  split; [split; [done|]|split; [done|split; [done|]]].
  - apply (Owned_same w); [intros; apply slot_alloc | by intros; rewrite members_alloc | done].
  - right. intros p k i Hs. rewrite slot_alloc in Hs.
    destruct Hi as [_ Hst].
    destruct (stored_slots _ _ Hst p k i _ Hs) as (q & [= <-] & Hq). lia.
Qed.

Lemma Inv3_share ctx key factories desc i p w :
  _factories !! key = Some factories -> factories !! i = Some desc ->
  create desc = Share p -> Inv3 ctx w -> unheld (AnyShared p) w.
Proof.
  intros Hf Hd Hc [Hi _]. split; [by eapply Inv2_share|].
  left. by exists key, factories, i, desc, p.
Qed.

Lemma Inv3_transient ctx this key factories desc i w :
  _factories !! key = Some factories -> factories !! i = Some desc ->
  type desc = Transient -> this = Root \/ this = ctx -> Inv3 ctx w ->
  Inv3 ctx (record_invocation (mkInv this key i ctx) w) /\
  ext ctx w (record_invocation (mkInv this key i ctx) w).
Proof.
  intros Hf Hd Hty Hthis [Hi Ho].
  destruct (Inv2_transient _factories ctx this key factories desc i w) as [Hi' He]; auto.
  split; [split; [done|] | done].
  apply (Owned_same w); [intros; apply slot_record_invocation | | done].
  intros. by rewrite members_record_invocation.
Qed.

Lemma Inv3_emplace ctx this key factories w :
  _factories !! key = Some factories -> this = Root \/ this = ctx -> Inv3 ctx w ->
  Inv3 ctx (emplace_instances this key (length factories) w) /\
  ext ctx w (emplace_instances this key (length factories) w).
Proof.
  intros Hf Hthis [Hi Ho].
  destruct (Inv2_emplace _factories ctx this key factories w) as [Hi' He]; auto.
  split; [split; [done|] | done].
  apply (Owned_same w);
    [intros; apply slot_emplace_instances | intros; apply order_emplace_instances | done].
Qed.

Lemma Inv3_claim ctx this key factories desc i w :
  _factories !! key = Some factories -> factories !! i = Some desc ->
  type desc <> Transient -> this = Root \/ this = ctx -> Inv3 ctx w ->
  initialized (slot this key i w) = false ->
  Inv3 ctx (claimed ctx this key i (emplace_instances this key (length factories) w)) /\
  ext ctx w (claimed ctx this key i (emplace_instances this key (length factories) w)).
Proof.
  intros Hf Hd Hty Hthis [Hi Ho] Hinit.
  destruct (Inv2_claim _factories ctx this key factories desc i w) as [Hi' He]; auto.
  split; [split; [done|] | done].
  destruct (array_ready _factories ctx this key factories desc i w) as (n & Hn & Hlt);
    [done | done | apply Hi |].
  set (w1 := emplace_instances this key (length factories) w) in *.
  assert (Ho1 : Owned w1).
  { apply (Owned_same w);
      [intros; apply slot_emplace_instances | intros; apply order_emplace_instances | done]. }
  assert (Hnone : serviceFuture (slot this key i w1) = None).
  { unfold w1. rewrite slot_emplace_instances.
    destruct (serviceFuture (slot this key i w)) as [v|] eqn:Hv; [|done].
    destruct Hi as [[Hwf _] _]. rewrite (wf_future _ _ Hwf _ _ _ _ Hv) in Hinit. done. }
  assert (Hs : forall p k j,
    slot p k j (claimed ctx this key i w1) =
    if decide ((p, k, j) = (this, key, i)) then mkCS true None else slot p k j w1).
  { intros. by apply (slot_claimed _ _ _ _ _ n). }
  assert (Hlog : forall p, _initializationOrder (members p (claimed ctx this key i w1)) =
                           _initializationOrder (members p w1)).
  { intros p. unfold claimed. by rewrite members_record_invocation, order_set_slot. }
  destruct Ho1 as [Hl Hh Hdis]. constructor.
  - intros p k j v. rewrite Hs, Hlog. case_decide; [done | apply Hl].
  - intros p v. rewrite Hlog. intros Hin. destruct (Hh p v Hin) as (k & j & Hv).
    exists k, j. rewrite Hs. case_decide as Heq; [|done].
    injection Heq as -> -> ->. congruence.
  - intros p k j p' k' j' v Hne. rewrite !Hs. repeat case_decide; try done. by apply Hdis.
Qed.

Lemma Inv3_publish ctx this key factories desc i w w3 v v' :
  _factories !! key = Some factories -> factories !! i = Some desc ->
  type desc <> Transient -> this = Root \/ this = ctx -> Inv3 ctx w ->
  initialized (slot this key i w) = false ->
  Inv3 ctx w3 -> unheld v w3 ->
  ext ctx (claimed ctx this key i (emplace_instances this key (length factories) w)) w3 ->
  serviceFuture (slot this key i (fulfilled this key i v w3)) = Some v' ->
  Inv3 ctx (push_order this v' (fulfilled this key i v w3)) /\
  ext ctx w (push_order this v' (fulfilled this key i v w3)).
Proof.
  intros Hf Hd Hty Hthis [Hi Ho] Hinit [Hi3 Ho3] [Hv Hfresh] He3 Hv'.
  destruct (Inv2_publish _factories ctx this key factories desc i w w3 v v')
    as [Hi' He]; auto.
  split; [split; [done|] | done].
  pose proof (fulfilled_reads _factories ctx this key factories desc i w w3 v Hf Hd
                (proj1 Hi) He3) as Hslot.
  rewrite Hslot, decide_True in Hv' by done. injection Hv' as <-.
  pose proof (claimed_stays ctx this key factories desc i w w3 Hf Hd (proj1 Hi) He3)
    as Hbusy.
  assert (Hs : forall p k j,
    slot p k j (push_order this v (fulfilled this key i v w3)) =
    if decide ((p, k, j) = (this, key, i)) then mkCS true (Some v) else slot p k j w3).
  { intros. by rewrite slot_push_order, Hslot. }
  assert (Hlog : forall p,
    _initializationOrder (members p (push_order this v (fulfilled this key i v w3))) =
    _initializationOrder (members p w3) ++ (if decide (this = p) then [v] else [])).
  { intros p. unfold fulfilled. by rewrite order_push_order, order_set_slot. }
  destruct Ho3 as [Hl Hh Hdis]. constructor.
  - intros p k j v0. rewrite Hs, Hlog, elem_of_app. case_decide as Heq.
    + injection Heq as -> -> ->. intros [= <-]. right.
      rewrite decide_True by done. by apply list_elem_of_singleton.
    + intros Hv0. left. by eapply Hl.
  - intros p v0. rewrite Hlog, elem_of_app. intros [Hin|Hin].
    + destruct (Hh p v0 Hin) as (k & j & Hv0). exists k, j.
      rewrite Hs. case_decide as Heq; [|done].
      injection Heq as -> -> ->. rewrite Hbusy in Hv0. done.
    + case_decide as Hp; [|by apply elem_of_nil in Hin].
      apply list_elem_of_singleton in Hin as ->. subst p. exists key, i.
      by rewrite Hs, decide_True.
  - intros p k j p' k' j' v0 Hne. rewrite !Hs.
    destruct (decide ((p, k, j) = (this, key, i))) as [Heq|Hn1];
      destruct (decide ((p', k', j') = (this, key, i))) as [Heq'|Hn2].
    + congruence.
    + intros [= <-] Hv0. destruct Hfresh as [Hsh|Hfresh]; [done|]. by destruct (Hfresh p' k' j').
    + intros Hv0 [= <-]. destruct Hfresh as [Hsh|Hfresh]; [done|]. by destruct (Hfresh p k j).
    + by apply Hdis.
Qed.

Local Ltac by_the_steps3 :=
  first [ apply ext_refl | apply ext_trans | apply Inv3_alloc | apply Inv3_share
        | apply Inv3_transient | apply Inv3_emplace | apply Inv3_claim
        | apply Inv3_publish ].

Lemma resolve_Inv3 ctx fuel key factories this index w :
  _factories !! key = Some factories -> this = Root \/ this = ctx -> Inv3 ctx w ->
  post (Inv3 ctx) (ext ctx) w (resolve _factories fuel key factories this ctx index w).
Proof.
  apply (resolve_rule _factories ctx (Inv3 ctx) (ext ctx) unheld); by_the_steps3.
Qed.

Lemma Owned_World_new heap0 : Owned (World_new heap0).
Proof.
  constructor.
  - intros p k i v. unfold slot. by rewrite members_World_new.
  - intros p v. rewrite members_World_new. simpl. by intros ?%elem_of_nil.
  - intros p k i p' k' i' v _. unfold slot. by rewrite members_World_new.
Qed.

Lemma steps_Owned w w' :
  WF _factories w -> Stored _factories w -> Owned w ->
  rtc (step _factories) w w' -> Owned w'.
Proof.
  intros Hwf Hst Ho Hsteps. induction Hsteps as [w|w w1 w2 H1 _ IH]; [done|].
  destruct (step_sound _factories w w1 Hwf H1) as [Hwf1 _].
  assert (Hst1 : Stored _factories w1).
  { eapply steps_Stored; [exact Hwf | exact Hst | by apply rtc_once]. }
  apply IH; [done | done |].
  destruct H1 as [fuel key factories this ctx index r w1 Hf Hthis Hc Hres
                 |fuel key factories this ctx index e w1 Hf Hthis Hc Hres|].
  - pose proof (resolve_Inv3 ctx fuel key factories this index w Hf Hthis
                  (conj (conj (conj Hwf Hc) Hst) Ho)) as Hp.
    rewrite Hres in Hp. apply Hp.
  - pose proof (resolve_Inv3 ctx fuel key factories this index w Hf Hthis
                  (conj (conj (conj Hwf Hc) Hst) Ho)) as Hp.
    rewrite Hres in Hp. apply Hp.
  - apply (Owned_same w); [| |done].
    + intros. apply slot_createScope, Hwf.
    + intros. rewrite members_createScope; [done | apply Hwf].
Qed.

Lemma reachable_Owned heap0 w :
  shares_below _factories (length heap0) -> reachable _factories heap0 w -> Owned w.
Proof.
  intros Hsh Hreach.
  eapply steps_Owned; [apply WF_World_new | by apply Stored_World_new
                      | apply Owned_World_new | exact Hreach].
Qed.
End Owned.

Lemma steps_trans (_factories : Registry) a b c :
  rtc (step _factories) a b -> rtc (step _factories) b c -> rtc (step _factories) a c.
Proof. intros. by etrans. Qed.

Lemma getService_reachable _factories heap0 fuel self ty w r w' :
  reachable _factories heap0 w -> created self w ->
  getService _factories fuel self ty w = Done r w' ->
  reachable _factories heap0 w' /\ rtc (step _factories) w w'.
Proof.
  intros Hreach Hc Hres.
  pose proof (getService_steps _factories fuel self ty w Hc) as Hst.
  rewrite Hres in Hst. split; [by eapply steps_trans | done].
Qed.

(** X12.  Destroying a provider object releases exactly the instances
    its slots hold: every handle of the release order sits in a slot of
    the object, and every instance in one of its slots is released. *)
Theorem destroying_a_provider_releases_what_its_slots_hold
    (_factories : Registry) (heap0 : list Obj) (w : World) (p : Provider) (v : any) :
  reachable _factories heap0 w -> shares_below _factories (length heap0) ->
  v ∈ (destroy p w).1 <-> exists k i, serviceFuture (slot p k i w) = Some v.
Proof.
  intros Hreach Hsh. destruct (reachable_Owned _factories heap0 w Hsh Hreach) as [Hl Hh _].
  destruct (destroy_spec p w) as (-> & _).
  rewrite list_elem_of_In, <- in_rev, <- list_elem_of_In. split.
  - apply Hh.
  - intros (k & i & Hv). by eapply Hl.
Qed.

Lemma destroying_a_provider_releases_what_its_slots_hold_witness :
  let w := world_of (getService registry_one_singleton 1 Root "A" (World_new [])) in
  AnyShared 0 ∈ (destroy Root w).1 <->
  exists k i, serviceFuture (slot Root k i w) = Some (AnyShared 0).
Proof.
  intros w.
  apply (destroying_a_provider_releases_what_its_slots_hold registry_one_singleton [] w
           Root (AnyShared 0)).
  - eapply rtc_l; [|apply rtc_refl].
    apply (step_resolved registry_one_singleton (World_new []) 1 "A"
             (default [] (registry_one_singleton !! "A")) Root Root 0%N (AnyRef 0) w).
    + vm_compute. reflexivity.
    + left. reflexivity.
    + exact I.
    + vm_compute. reflexivity.
  - apply built_shares_below. intros s p Hin.
    repeat (apply elem_of_cons in Hin as [Hin|Hin]; [discriminate|]).
    by apply elem_of_nil in Hin.
Defined.

(** X13.  Two different slots, of whatever provider objects, type keys or
    indices, hold the same object only if that object was registered with
    [addSingleton(existingService)]: what a factory closure constructed
    sits in one slot. *)
Theorem two_slots_hold_one_object_only_if_the_registry_shares_it
    (_factories : Registry) (heap0 : list Obj) (w : World)
    (p : Provider) (k : type_index) (i : nat)
    (p' : Provider) (k' : type_index) (i' : nat) (v : any) :
  reachable _factories heap0 w -> shares_below _factories (length heap0) ->
  (p, k, i) <> (p', k', i') ->
  serviceFuture (slot p k i w) = Some v ->
  serviceFuture (slot p' k' i' w) = Some v ->
  shared_instance _factories v.
Proof.
  intros Hreach Hsh. apply (reachable_Owned _factories heap0 w Hsh Hreach).
Qed.

Lemma two_slots_hold_one_object_only_if_the_registry_shares_it_witness :
  let reg := build (registerAll [AddSingletonExisting "I" 0;
                                 AddSingletonExisting "J" 0] fresh) in
  shared_instance reg (AnyShared 0).
Proof.
  intros reg.
  set (w0 := World_new [mkObj "Service1" []]).
  set (w1 := world_of (getService reg 1 Root "I" w0)).
  set (w2 := world_of (getService reg 1 Root "J" w1)).
  apply (two_slots_hold_one_object_only_if_the_registry_shares_it reg
           [mkObj "Service1" []] w2 Root "I" 0 Root "J" 0 (AnyShared 0)).
  - eapply rtc_l; [|eapply rtc_l; [|apply rtc_refl]].
    + apply (step_resolved reg w0 1 "I" (default [] (reg !! "I")) Root Root 0%N
               (AnyRef 0) w1).
      * vm_compute. reflexivity.
      * left. reflexivity.
      * exact I.
      * vm_compute. reflexivity.
    + apply (step_resolved reg w1 1 "J" (default [] (reg !! "J")) Root Root 0%N
               (AnyRef 0) w2).
      * vm_compute. reflexivity.
      * left. reflexivity.
      * exact I.
      * vm_compute. reflexivity.
  - apply built_shares_below. intros s p Hin. simpl.
    repeat (apply elem_of_cons in Hin as [Hin|Hin]; [injection Hin as _ <-; lia|]).
    by apply elem_of_nil in Hin.
  - discriminate.
  - vm_compute. reflexivity.
  - vm_compute. reflexivity.
Defined.

(** X14.  Two provider objects that each own their instance of a type
    key (two scopes, or the root and a scope, when the first descriptor is
    Scoped) return references to different objects, unless the object is
    one the registry shares. *)
Theorem provider_objects_hold_their_own_instances
    (_factories : Registry) (heap0 : list Obj) (ty : type_index)
    (factories : FactoryFunctionCollection) (front desc : ServiceDescription)
    (self1 : Provider) (fuel1 : nat) (w : World) (r1 : any) (w1 w2 : World)
    (self2 : Provider) (fuel2 : nat) (r2 : any) (w3 : World) :
  reachable _factories heap0 w -> shares_below _factories (length heap0) ->
  created self1 w ->
  _factories !! ty = Some factories ->
  head factories = Some front -> last factories = Some desc ->
  (Z.of_nat (length factories) < 2 ^ 64)%Z ->
  type desc <> Transient -> convert desc = convert_ref ->
  getService _factories fuel1 self1 ty w = Done r1 w1 ->
  rtc (step _factories) w1 w2 -> created self2 w2 ->
  owner_for self1 (type front) <> owner_for self2 (type front) ->
  getService _factories fuel2 self2 ty w2 = Done r2 w3 ->
  r1 <> r2 \/ exists q, r1 = AnyRef q /\ shared_instance _factories (AnyShared q).
Proof.
  intros Hreach Hsh Hc Hf Hfront Hlast Hmax Hty Hconv Hres1 Hsteps Hc2 Hown Hres2.
  destruct (decide (r1 = r2)) as [Heq|Hne]; [right | by left].
  destruct (getService_materializes _factories heap0 fuel1 self1 ty factories front
              desc w r1 w1 Hreach Hc Hf Hfront Hlast Hmax Hty Hres1)
    as (v1 & Hs1 & Hconv1 & _).
  destruct (getService_reachable _ _ _ _ _ _ _ _ Hreach Hc Hres1) as [Hreach1 _].
  assert (Hreach2 : reachable _factories heap0 w2) by by eapply steps_trans.
  destruct (getService_materializes _factories heap0 fuel2 self2 ty factories front
              desc w2 r2 w3 Hreach2 Hc2 Hf Hfront Hlast Hmax Hty Hres2)
    as (v2 & Hs2 & Hconv2 & _).
  destruct (getService_reachable _ _ _ _ _ _ _ _ Hreach2 Hc2 Hres2) as [Hreach3 Hsteps3].
  destruct (steps_sound _factories w1 w3 (reachable_WF _ _ _ Hreach1)
              (steps_trans _ _ _ _ Hsteps Hsteps3)) as [_ Hl].
  assert (Hs1' : slot (owner_for self1 (type front)) ty (length factories - 1) w3
                 = mkCS true (Some v1)).
  { rewrite (later_frozen _ _ Hl); by rewrite Hs1. }
  rewrite Hconv in Hconv1, Hconv2.
  destruct v1 as [|q1|q1|]; try done. destruct v2 as [|q2|q2|]; try done.
  simpl in *. injection Hconv1 as <-. injection Hconv2 as <-. injection Heq as <-.
  exists q1. split; [done|].
  apply (owned_distinct _ _ (reachable_Owned _factories heap0 w3 Hsh Hreach3)
           (owner_for self1 (type front)) ty (length factories - 1)
           (owner_for self2 (type front)) ty (length factories - 1)).
  - congruence.
  - by rewrite Hs1'.
  - by rewrite Hs2.
Qed.

Lemma provider_objects_hold_their_own_instances_witness :
  let reg := build (registerAll [AddScoped "S" "S" []] fresh) in
  AnyRef 0 <> AnyRef 1 \/
  exists q, AnyRef 0 = AnyRef q /\ shared_instance reg (AnyShared q).
Proof.
  intros reg.
  set (w := (createScope (createScope (World_new [])).2).2).
  set (w1 := world_of (getService reg 1 (Scope 0) "S" w)).
  set (w3 := world_of (getService reg 1 (Scope 1) "S" w1)).
  apply (provider_objects_hold_their_own_instances reg [] "S"
           [mkDesc (Build (ServiceFactory_create "S" [])) convert_ref Scoped]
           (mkDesc (Build (ServiceFactory_create "S" [])) convert_ref Scoped)
           (mkDesc (Build (ServiceFactory_create "S" [])) convert_ref Scoped)
           (Scope 0) 1 w (AnyRef 0) w1 w1 (Scope 1) 1 (AnyRef 1) w3).
  - eapply rtc_l; [apply step_createScope|].
    eapply rtc_l; [apply step_createScope|]. apply rtc_refl.
  - apply built_shares_below. intros s p Hin.
    repeat (apply elem_of_cons in Hin as [Hin|Hin]; [discriminate|]).
    by apply elem_of_nil in Hin.
  - vm_compute. lia.
  - vm_compute. reflexivity.
  - reflexivity.
  - reflexivity.
  - vm_compute. reflexivity.
  - simpl. discriminate.
  - reflexivity.
  - vm_compute. reflexivity.
  - apply rtc_refl.
  - vm_compute. lia.
  - simpl. discriminate.
  - vm_compute. reflexivity.
Defined.

(** X21.  Two provider objects release different instances when they are
    destroyed: an instance that both release is one the registry
    shares. *)
Theorem provider_objects_release_different_instances
    (_factories : Registry) (heap0 : list Obj) (w : World) (p p' : Provider) (v : any) :
  reachable _factories heap0 w -> shares_below _factories (length heap0) ->
  p <> p' -> v ∈ (destroy p w).1 -> v ∈ (destroy p' w).1 ->
  shared_instance _factories v.
Proof.
  intros Hreach Hsh Hne Hin Hin'.
  destruct (reachable_Owned _factories heap0 w Hsh Hreach) as [Hl Hh Hd].
  destruct (destroy_spec p w) as (Hp & _). destruct (destroy_spec p' w) as (Hp' & _).
  rewrite Hp, list_elem_of_In, <- in_rev, <- list_elem_of_In in Hin.
  rewrite Hp', list_elem_of_In, <- in_rev, <- list_elem_of_In in Hin'.
  destruct (Hh p v Hin) as (k & i & Hs). destruct (Hh p' v Hin') as (k' & i' & Hs').
  eapply (Hd p k i p' k' i'); [congruence | done | done].
Qed.

Lemma provider_objects_release_different_instances_witness :
  let reg := build (registerAll [AddScoped "I" "X" []; AddSingletonExisting "I" 0]
                      fresh) in
  shared_instance reg (AnyShared 0).
Proof.
  intros reg.
  set (heap0 := [mkObj "Service1" []]).
  set (w0 := (createScope (World_new heap0)).2).
  set (w1 := world_of (getService reg 1 Root "I" w0)).
  set (w2 := world_of (getService reg 1 (Scope 0) "I" w1)).
  apply (provider_objects_release_different_instances reg heap0 w2 Root (Scope 0)
           (AnyShared 0)).
  - eapply rtc_l; [apply step_createScope|].
    eapply rtc_l; [|eapply rtc_l; [|apply rtc_refl]].
    + apply (step_resolved reg w0 1 "I" (default [] (reg !! "I")) Root Root 1%N
               (AnyRef 0) w1).
      * vm_compute. reflexivity.
      * left. reflexivity.
      * exact I.
      * vm_compute. reflexivity.
    + apply (step_resolved reg w1 1 "I" (default [] (reg !! "I")) (Scope 0) (Scope 0) 1%N
               (AnyRef 0) w2).
      * vm_compute. reflexivity.
      * right. reflexivity.
      * vm_compute. lia.
      * vm_compute. reflexivity.
  - apply built_shares_below. intros s p Hin. simpl.
    repeat (apply elem_of_cons in Hin as [Hin|Hin];
            [first [discriminate | injection Hin as _ <-; lia]|]).
    by apply elem_of_nil in Hin.
  - discriminate.
  - vm_compute. apply list_elem_of_here.
  - vm_compute. apply list_elem_of_here.
Defined.

End InstanceFacts.

(** ** The typed interface *)

Module TypedFacts.
Import ServiceCollection Registrations RegistrationFacts Current CurrentFacts.

Lemma cast_shared_spec servicesAny : forall res w l w',
  cast_shared servicesAny res w = Done l w' <->
  w' = w /\ exists xs, servicesAny = any_of_shared <$> xs /\ l = res ++ xs.
Proof.
  induction servicesAny as [|a rest IH]; intros res w l w'; simpl.
  - split.
    + intros [= <- <-]. split; [done|]. exists []. by rewrite app_nil_r.
    + intros (-> & xs & Hxs & ->). destruct xs; [|done]. by rewrite app_nil_r.
  - destruct a as [|p|p|]; simpl.
    + split; [done|]. intros (_ & [|[q|] xs] & Hxs & _); done.
    + rewrite IH. split.
      * intros (-> & xs & -> & ->). split; [done|]. exists (Some p :: xs).
        by rewrite <- app_assoc.
      * intros (-> & [|[q|] xs] & Hxs & ->); try done. injection Hxs as <- ->.
        split; [done|]. exists xs. by rewrite <- app_assoc.
    + split; [done|]. intros (_ & [|[q|] xs] & Hxs & _); done.
    + rewrite IH. split.
      * intros (-> & xs & -> & ->). split; [done|]. exists (None :: xs).
        by rewrite <- app_assoc.
      * intros (-> & [|[q|] xs] & Hxs & ->); try done. injection Hxs as ->.
        split; [done|]. exists xs. by rewrite <- app_assoc.
Qed.

(** What the registration interface installs: the conversion and the
    factory go with the lifetime. *)
Lemma built_descriptor rs k factories i desc :
  build (registerAll rs fresh) !! k = Some factories -> factories !! i = Some desc ->
  if decide (type desc = Transient)
  then convert desc = convert_shared /\ exists c, create desc = Build c
  else convert desc = convert_ref.
Proof.
  intros Hf Hd.
  destruct (build_descriptor_from rs k factories i desc Hf Hd) as (r & _ & _ & ->).
  destruct r; simpl; eauto.
Qed.

Lemma transients_in_order rs fuel self ty factories :
  let reg := build (registerAll rs fresh) in
  reg !! ty = Some factories ->
  Forall (fun d => type d = Transient) factories ->
  forall i w la w',
    resolved_in_order reg fuel self ty factories i w la w' ->
    Inv2 reg self w ->
    Inv2 reg self w' /\ length (heap w) <= length (heap w') /\
    exists xs, la = any_of_shared <$> xs /\ NoDup (omap id xs) /\
               Forall (fun x => forall q, x = Some q ->
                                  length (heap w) <= q < length (heap w')) xs /\
               (Forall (fun d => forall c, create d = Build c -> constructs c) factories ->
                Forall is_Some xs).
Proof.
  intros reg Hf Hall. induction 1 as [w|i desc w a w1 rest w' Hd Hres Hrest IH]; intros Hinv.
  - split; [done|]. split; [done|]. exists []. split; [done|].
    split; [constructor|]. split; [constructor|]. intros _. constructor.
  - assert (Hty : type desc = Transient).
    { rewrite Forall_forall in Hall. apply Hall. by eapply list_elem_of_lookup_2. }
    pose proof (built_descriptor rs ty factories i desc Hf Hd) as Hb.
    rewrite decide_True in Hb by done. destruct Hb as (Hconv & c & Hc).
    destruct (resolve_transient_Done reg self fuel ty factories
                (owner_for self (type desc)) (N.of_nat i) desc c w a w1 Hf
                (owner_for_this _ _) Hinv (vec_at_lookup _ _ _ Hd) Hty Hc Hres)
      as (w0 & Hi0 & He0 & Hcases).
    destruct (ext_heap _ _ _ He0) as (objs & Hheap). simpl in Hheap.
    destruct Hcases as [(o & -> & Hca)|(-> & Hca & Hn)];
      rewrite Hconv in Hca; simpl in Hca; injection Hca as <-.
    + assert (Hi1 : Inv2 reg self (alloc o w0)) by by apply Inv2_alloc.
      destruct (IH Hi1) as (Hi' & Hle & xs & -> & Hnd & Hxs & Hsome).
      simpl in Hle, Hxs. rewrite length_app in Hle. simpl in Hle.
      split; [done|]. split; [rewrite Hheap, length_app in *; lia|].
      exists (Some (length (heap w0)) :: xs). split; [done|]. split.
      { simpl. constructor; [|done]. intros Hin.
        apply list_elem_of_omap in Hin as (x & Hx & Hid). simpl in Hid. subst x.
        rewrite Forall_forall in Hxs. specialize (Hxs _ Hx _ eq_refl).
        rewrite length_app in Hxs. simpl in Hxs. lia. }
      split.
      { constructor.
        - intros q [= <-]. rewrite Hheap, length_app in *. lia.
        - eapply Forall_impl; [exact Hxs|]. intros x Hx q Hq. specialize (Hx q Hq).
          revert Hx. rewrite Hheap, !length_app. simpl. lia. }
      intros Hcons. constructor; [by eexists | by apply Hsome].
    + destruct (IH Hi0) as (Hi' & Hle & xs & -> & Hnd & Hxs & Hsome).
      split; [done|]. split; [rewrite Hheap, length_app in *; lia|].
      exists (None :: xs). split; [done|]. split; [done|]. split.
      { constructor; [done|].
        eapply Forall_impl; [exact Hxs|]. intros x Hx q Hq. specialize (Hx q Hq).
        revert Hx. rewrite Hheap, !length_app. lia. }
      intros Hcons. exfalso. apply Hn. rewrite Forall_forall in Hcons.
      apply (Hcons desc); [by eapply list_elem_of_lookup_2 | done].
Qed.

(** X16.  [getTransientServices<T>()] on a type key that holds Transient
    descriptors only returns one pointer per descriptor.  Each is null
    (the factory returned an empty pointer) or points to an object that
    did not exist before the call, no two of them to the same; when every
    factory of the key constructs (constructor injection does), none is
    null. *)
Theorem getTransientServices_makes_new_instances
    (rs : list Registration) (heap0 : list Obj) (fuel : nat) (self : Provider)
    (TService : string) (factories : FactoryFunctionCollection)
    (w : World) (l : list (option ptr)) (w' : World) :
  let reg := build (registerAll rs fresh) in
  reachable reg heap0 w -> shares_below reg (length heap0) -> created self w ->
  reg !! shared_ptr_of TService = Some factories ->
  Forall (fun d => type d = Transient) factories ->
  getTransientServices reg fuel self TService w = Done l w' ->
  length l = length factories /\ NoDup (omap id l) /\
  Forall (fun x => forall q, x = Some q -> length (heap w) <= q < length (heap w')) l /\
  (Forall (fun d => forall c, create d = Build c -> constructs c) factories ->
   Forall is_Some l).
Proof.
  intros reg Hreach Hsh Hc Hf Hall Hres.
  unfold getTransientServices, mbind, M_bind, bind in Hres.
  destruct (getServices reg fuel self (shared_ptr_of TService) w) as [la w1|e w1| | |]
    eqn:Hget; try done.
  apply cast_shared_spec in Hres as (-> & xs & -> & ->). simpl.
  unfold getServices, getServices_with in Hget. fold reg in Hf. rewrite Hf in Hget.
  apply (getServices_loop_spec _ _ _ _ _ (length factories) 0 [] w _ w1) in Hget
    as (rest & Hrest & Hrio); [|done]. simpl in Hrest. subst rest.
  pose proof (resolved_in_order_length _ _ _ _ _ _ _ _ _ Hrio) as Hlen.
  rewrite length_fmap in Hlen.
  destruct (transients_in_order rs fuel self _ factories Hf Hall _ _ _ _ Hrio)
    as (_ & _ & xs' & Heq & Hnd & Hxs & Hsome).
  { split; [split; [by eapply reachable_WF | done] | by eapply reachable_Stored]. }
  assert (xs = xs') as <-.
  { assert (Hinj : Inj eq eq any_of_shared) by (intros [?|] [?|] [=]; by subst).
    by apply (inj (fmap any_of_shared)). }
  split; [lia | done].
Qed.

Lemma getTransientServices_makes_new_instances_witness :
  let reg := build (registerAll [AddTransient "I" "X" []; AddTransientF "I" ReturnNull;
                                 AddTransient "I" "Z" []] fresh) in
  let w := World_new [] in
  let w' := world_of (getTransientServices reg 1 Root "I" w) in
  let l := [Some 0; None; Some 1] in
  getTransientServices reg 1 Root "I" w = Done l w' /\
  (length l = length (default [] (reg !! shared_ptr_of "I")) /\ NoDup (omap id l) /\
   Forall (fun x => forall q, x = Some q -> length (heap w) <= q < length (heap w')) l /\
   (Forall (fun d => forall c, create d = Build c -> constructs c)
      (default [] (reg !! shared_ptr_of "I")) ->
    Forall is_Some l)).
Proof.
  intros reg w w' l. split; [vm_compute; reflexivity|].
  apply (getTransientServices_makes_new_instances
           [AddTransient "I" "X" []; AddTransientF "I" ReturnNull; AddTransient "I" "Z" []]
           [] 1 Root "I" (default [] (reg !! shared_ptr_of "I")) w l w').
  - apply rtc_refl.
  - apply built_shares_below. intros s p Hin.
    repeat (apply elem_of_cons in Hin as [Hin|Hin]; [discriminate|]).
    by apply elem_of_nil in Hin.
  - exact I.
  - vm_compute. reflexivity.
  - vm_compute. repeat constructor.
  - vm_compute. reflexivity.
Defined.

Lemma built_nonempty rs k factories :
  build (registerAll rs fresh) !! k = Some factories ->
  exists front desc, head factories = Some front /\ last factories = Some desc.
Proof.
  rewrite lookup_build. intros Hb.
  assert (Hne : factories <> []).
  { destruct (registered_under k rs); [done|]. by injection Hb as <-. }
  destruct factories as [|front rest]; [done|]. exists front.
  destruct (last (front :: rest)) as [desc|] eqn:Hl; [by exists desc|].
  by apply last_None in Hl.
Qed.

(** X15.  In a provider built by registrations, what [getService]
    returns is an empty [any] when the key is not registered, a
    [reference_wrapper] to an object of the heap when the last descriptor
    is a Singleton or Scoped one, and for a Transient one a [shared_ptr]
    to an object of the heap, or a null [shared_ptr] when the factory
    returned an empty pointer.  The typed getter that goes with the
    lifetime returns the same pointer; from a null [shared_ptr]
    [getTransientService<T>()] returns [nullptr] and
    [getRequiredTransientService<T>()] reports the type as not
    registered. *)
Theorem a_handle_refers_to_a_live_object_or_is_null
    (rs : list Registration) (heap0 : list Obj) (fuel : nat) (self : Provider)
    (ty : type_index) (w : World) (r : any) (w' : World) :
  let reg := build (registerAll rs fresh) in
  reachable reg heap0 w -> shares_below reg (length heap0) -> created self w ->
  (forall factories, reg !! ty = Some factories ->
                     (Z.of_nat (length factories) < 2 ^ 64)%Z) ->
  getService reg fuel self ty w = Done r w' ->
  match reg !! ty ≫= last with
  | None => r = AnyEmpty /\ w' = w
  | Some desc =>
      (exists q, r = handle_of (type desc) q /\ q < length (heap w') /\
         (type desc <> Transient ->
          getRequiredService reg fuel self ty w = Done q w') /\
         (type desc = Transient -> forall TService, ty = shared_ptr_of TService ->
          getRequiredTransientService reg fuel self TService w = Done q w')) \/
      (r = AnyNull /\ type desc = Transient /\
       (exists c, create desc = Build c /\ ~ constructs c) /\
       forall TService, ty = shared_ptr_of TService ->
         getTransientService reg fuel self TService w = Done None w' /\
         getRequiredTransientService reg fuel self TService w =
           Raised (logic_error
                     (TService ++ " has not been registered as a transient service."))
             w')
  end.
Proof.
  intros reg Hreach Hsh Hc Hmax Hres.
  destruct (reg !! ty) as [factories|] eqn:Hf; simpl.
  2:{ unfold getService, getService_with in Hres. rewrite Hf in Hres.
      by injection Hres as <- <-. }
  destruct (built_nonempty rs ty factories Hf) as (front & desc & Hfront & Hlast).
  rewrite Hlast. specialize (Hmax factories eq_refl).
  pose proof Hres as Hres0.
  destruct (getService_is_last reg fuel self ty factories front w Hf Hfront Hmax)
    as (Hat & _ & Heq).
  rewrite Heq in Hres. rewrite Hlast in Hat.
  pose proof (vec_at_Some _ _ _ Hat) as Hd.
  pose proof (built_descriptor rs ty factories _ desc Hf Hd) as Hb.
  pose proof (reachable_WF _ _ _ Hreach) as Hwf.
  pose proof (reachable_Stored _ _ _ Hsh Hreach) as Hst.
  destruct (decide (type desc = Transient)) as [Hty|Hty].
  - destruct Hb as (Hconv & c & Hcreate).
    destruct (resolve_transient_Done reg self fuel ty factories
                (owner_for self (type front)) _ desc c w r w' Hf (owner_for_this _ _)
                (conj (conj Hwf Hc) Hst) Hat Hty Hcreate Hres)
      as (w0 & _ & _ & [(o & -> & Hca)|(-> & Hca & Hn)]);
      rewrite Hconv in Hca; simpl in Hca; injection Hca as <-.
    + left. exists (length (heap w0)). rewrite Hty. simpl. split_and!; try done.
      * rewrite length_app. simpl. lia.
      * intros _ TService ->.
        unfold getRequiredTransientService, getTransientService, mbind, M_bind, bind.
        by rewrite Hres0.
    + right. split_and!; try done; [by exists c|]. intros TService ->.
      unfold getRequiredTransientService, getTransientService, mbind, M_bind, bind.
      by rewrite Hres0.
  - left.
    destruct (resolve_cached_Done reg self fuel ty factories
                (owner_for self (type front)) _ desc w r w' Hf (owner_for_this _ _)
                (conj Hwf Hc) Hat Hty Hres) as (v & Hs & Hconv & _).
    assert (Hreach' : reachable reg heap0 w').
    { pose proof (getService_steps reg fuel self ty w Hc) as Hsteps.
      rewrite Hres0 in Hsteps. unfold reachable. by etrans. }
    pose proof (reachable_Stored _ _ _ Hsh Hreach') as Hst'.
    destruct (stored_slots _ _ Hst' (owner_for self (type front)) ty
                (N.to_nat (N.of_nat (length factories - 1))) v) as (q & -> & Hq);
      [by rewrite Hs|].
    rewrite Hb in Hconv. simpl in Hconv. injection Hconv as <-.
    exists q. split_and!; try done.
    + by destruct (type desc).
    + intros _. unfold getRequiredService, getService_T, mbind, M_bind, bind.
      by rewrite Hres0.
Qed.

Lemma a_handle_refers_to_a_live_object_or_is_null_witness :
  let reg := build (registerAll [AddTransient "T" "T" []; AddTransientF "T" ReturnNull]
                      fresh) in
  let w := World_new [] in
  let w' := world_of (getService reg 1 Root (shared_ptr_of "T") w) in
  let desc := mkDesc (Build ReturnNull) convert_shared Transient in
  getService reg 1 Root (shared_ptr_of "T") w = Done AnyNull w' /\
  ((exists q, AnyNull = handle_of (type desc) q /\ q < length (heap w') /\
      (type desc <> Transient ->
       getRequiredService reg 1 Root (shared_ptr_of "T") w = Done q w') /\
      (type desc = Transient -> forall TService, shared_ptr_of "T" = shared_ptr_of TService ->
       getRequiredTransientService reg 1 Root TService w = Done q w')) \/
   (AnyNull = AnyNull /\ type desc = Transient /\
    (exists c, create desc = Build c /\ ~ constructs c) /\
    forall TService, shared_ptr_of "T" = shared_ptr_of TService ->
      getTransientService reg 1 Root TService w = Done None w' /\
      getRequiredTransientService reg 1 Root TService w =
        Raised (logic_error
                  (TService ++ " has not been registered as a transient service."))
          w')).
Proof.
  intros reg w w' desc. split; [vm_compute; reflexivity|].
  apply (a_handle_refers_to_a_live_object_or_is_null
           [AddTransient "T" "T" []; AddTransientF "T" ReturnNull]
           [] 1 Root (shared_ptr_of "T") w AnyNull w').
  - apply rtc_refl.
  - apply built_shares_below. intros s p Hin.
    repeat (apply elem_of_cons in Hin as [Hin|Hin]; [discriminate|]).
    by apply elem_of_nil in Hin.
  - exact I.
  - intros factories Hf. vm_compute in Hf. injection Hf as <-. vm_compute. reflexivity.
  - vm_compute. reflexivity.
Defined.

Lemma length_append (s1 s2 : string) :
  String.length (s1 ++ s2) = String.length s1 + String.length s2.
Proof. induction s1 as [|c s1 IH]; simpl; [done | by rewrite IH]. Qed.

Lemma shared_ptr_of_ne (T : string) : shared_ptr_of T <> T.
Proof.
  intros Heq. apply (f_equal String.length) in Heq.
  unfold shared_ptr_of in Heq. rewrite !length_append in Heq. simpl in Heq. lia.
Qed.

(** X17.  For a type without transient registration,
    [getTransientService<T>()] returns a null pointer,
    [getTransientServices<T>()] an empty vector, and
    [getRequiredTransientService<T>()] raises a [logic_error] whose
    message starts with the name of the type; none of them changes the
    world. *)
Theorem a_type_without_transient_registration
    (_factories : Registry) (fuel : nat) (self : Provider) (TService : string)
    (w : World) :
  _factories !! shared_ptr_of TService = None ->
  getTransientService _factories fuel self TService w = Done None w /\
  getRequiredTransientService _factories fuel self TService w =
    Raised (logic_error
              (TService ++ " has not been registered as a transient service.")) w /\
  getTransientServices _factories fuel self TService w = Done [] w.
Proof.
  intros Hnone.
  destruct (unregistered_transient _factories fuel self TService w Hnone) as [H1 H2].
  split_and!; try done.
  unfold getTransientServices, getServices, getServices_with, mbind, M_bind, bind.
  by rewrite Hnone.
Qed.

Lemma a_type_without_transient_registration_witness :
  let reg := registry_one_singleton in
  getTransientService reg 1 Root "A" (World_new []) = Done None (World_new []) /\
  getRequiredTransientService reg 1 Root "A" (World_new []) =
    Raised (logic_error "A has not been registered as a transient service.")
      (World_new []) /\
  getTransientServices reg 1 Root "A" (World_new []) = Done [] (World_new []).
Proof.
  intros reg.
  apply (a_type_without_transient_registration reg 1 Root "A" (World_new [])).
  vm_compute. reflexivity.
Defined.

Lemma cast_refs_refs qs : forall res w,
  cast_refs (AnyRef <$> qs) res w = Done (res ++ qs) w.
Proof.
  induction qs as [|q qs IH]; intros res w; simpl.
  - by rewrite app_nil_r.
  - by rewrite IH, <- app_assoc.
Qed.

Lemma cached_in_order rs fuel self ty factories :
  let reg := build (registerAll rs fresh) in
  reg !! ty = Some factories ->
  Forall (fun d => type d <> Transient) factories ->
  forall i w la w',
    resolved_in_order reg fuel self ty factories i w la w' ->
    Inv2 reg self w ->
    length (heap w) <= length (heap w') /\
    exists qs, la = AnyRef <$> qs /\ Forall (fun q => q < length (heap w')) qs.
Proof.
  intros reg Hf Hall. induction 1 as [w|i desc w a w1 rest w' Hd Hres Hrest IH]; intros Hinv.
  - split; [done|]. exists []. split; [done | constructor].
  - assert (Hty : type desc <> Transient).
    { rewrite Forall_forall in Hall. apply Hall. by eapply list_elem_of_lookup_2. }
    pose proof (built_descriptor rs ty factories i desc Hf Hd) as Hb.
    rewrite decide_False in Hb by done.
    pose proof (resolve_Inv2 reg self fuel ty factories (owner_for self (type desc))
                  (N.of_nat i) w Hf (owner_for_this _ _) Hinv) as Hp.
    rewrite Hres in Hp. destruct Hp as [Hinv1 He1].
    destruct (resolve_cached_Done reg self fuel ty factories
                (owner_for self (type desc)) (N.of_nat i) desc w a w1 Hf
                (owner_for_this _ _) (proj1 Hinv) (vec_at_lookup _ _ _ Hd) Hty Hres)
      as (v & Hs & Hconv & _).
    destruct (stored_slots _ _ (proj2 Hinv1) (owner_for self (type desc)) ty
                (N.to_nat (N.of_nat i)) v) as (q & -> & Hq); [by rewrite Hs|].
    rewrite Hb in Hconv. simpl in Hconv. injection Hconv as <-.
    destruct (IH Hinv1) as (Hle & qs & -> & Hqs).
    destruct (ext_heap _ _ _ He1) as (objs & Hheap).
    split; [rewrite Hheap, length_app in Hle; lia|].
    exists (q :: qs). split; [done|]. constructor; [lia | done].
Qed.

(** X22.  In a provider built by registrations, for a type key that holds
    Singleton and Scoped descriptors only: when [getServices] returns,
    [getServices<T>()] returns too, in the same world, one pointer per
    descriptor in the descriptors' order, each to an object of the
    heap.  ([getServices] does not return when a factory given to
    [addSingleton(F&&)] or [addScoped(F&&)] handed back an empty pointer:
    the conversion dereferences it, and the call is [Undefined].) *)
Theorem getServices_T_returns_what_getServices_returns
    (rs : list Registration) (heap0 : list Obj) (fuel : nat) (self : Provider)
    (TService : string) (factories : FactoryFunctionCollection)
    (w : World) (servicesAny : list any) (w' : World) :
  let reg := build (registerAll rs fresh) in
  reachable reg heap0 w -> shares_below reg (length heap0) -> created self w ->
  reg !! (TService : type_index) = Some factories ->
  Forall (fun d => type d <> Transient) factories ->
  getServices reg fuel self TService w = Done servicesAny w' ->
  exists res,
    getServices_T reg fuel self TService w = Done res w' /\
    servicesAny = AnyRef <$> res /\ length res = length factories /\
    Forall (fun q => q < length (heap w')) res.
Proof.
  intros reg Hreach Hsh Hc Hf Hall Hget.
  pose proof Hget as Hget0.
  unfold getServices, getServices_with in Hget. rewrite Hf in Hget.
  apply (getServices_loop_spec _ _ _ _ _ (length factories) 0 [] w _ w') in Hget
    as (rest & Hrest & Hrio); [|done]. simpl in Hrest. subst rest.
  pose proof (resolved_in_order_length _ _ _ _ _ _ _ _ _ Hrio) as Hlen.
  destruct (cached_in_order rs fuel self _ factories Hf Hall _ _ _ _ Hrio)
    as (_ & qs & -> & Hqs).
  { split; [split; [by eapply reachable_WF | done] | by eapply reachable_Stored]. }
  rewrite length_fmap in Hlen. exists qs. split_and!; try done.
  unfold getServices_T, mbind, M_bind, bind. rewrite Hget0.
  apply cast_refs_refs.
Qed.

Lemma getServices_T_returns_what_getServices_returns_witness :
  let reg := registry_XYZ in
  let w := World_new [] in
  let w' := world_of (getServices reg 1 Root "I" w) in
  (getServices reg 1 Root "I" w = Done [AnyRef 0; AnyRef 1; AnyRef 2] w' /\
   getServices registry_singleton_returns_null 1 Root "I" w = Undefined /\
   getServices_T registry_singleton_returns_null 1 Root "I" w = Undefined) /\
  exists res,
    getServices_T reg 1 Root "I" w = Done res w' /\
    [AnyRef 0; AnyRef 1; AnyRef 2] = AnyRef <$> res /\
    length res = length (default [] (reg !! "I")) /\
    Forall (fun q => q < length (heap w')) res.
Proof.
  intros reg w w'. split; [vm_compute; repeat split; reflexivity|].
  apply (getServices_T_returns_what_getServices_returns
           [AddSingleton "I" "X" []; AddSingleton "I" "Y" []; AddSingleton "I" "Z" []]
           [] 1 Root "I" (default [] (reg !! "I")) w [AnyRef 0; AnyRef 1; AnyRef 2] w').
  - apply rtc_refl.
  - apply built_shares_below. intros s p Hin.
    repeat (apply elem_of_cons in Hin as [Hin|Hin]; [discriminate|]).
    by apply elem_of_nil in Hin.
  - exact I.
  - vm_compute. reflexivity.
  - vm_compute. repeat constructor; discriminate.
  - vm_compute. reflexivity.
Defined.

End TypedFacts.

(** ** Constructor injection *)

Module InjectionFacts.
Import ServiceCollection Current CurrentFacts.

Lemma fetched_length gs gss tuple w args w' :
  fetched gs gss tuple w args w' -> length args = length tuple.
Proof. induction 1; simpl; congruence. Qed.

Local Ltac same_call Hgs :=
  match goal with
  | H : _ = Done _ _ |- _ => rewrite Hgs in H; injection H as <- <-
  end.

Lemma createInternal_spec gs gss TService tuple : forall sofar w a w',
  runClosure gs gss (createInternal TService tuple sofar) w = Done a w' <->
  exists args w0,
    fetched gs gss tuple w args w0 /\
    w' = alloc (mkObj TService (sofar ++ args)) w0 /\
    a = AnyShared (length (heap w0)).
Proof.
  induction tuple as [|ty rest IH]; intros sofar w a w'.
  - simpl. split.
    + intros [= <- <-]. exists [], w. rewrite app_nil_r. split_and!; [constructor|done..].
    + intros (args & w0 & Hf & -> & ->). inversion Hf; subst. by rewrite app_nil_r.
  - destruct ty as [t|t|t|t]; simpl.
    + destruct (gs t w) as [b w1|e w1| | |] eqn:Hgs.
      2-5: (split; [done|]; intros (args & w0 & Hf & _); inversion Hf; congruence).
      destruct (is_ref b) eqn:Hb.
      * rewrite IH. split.
        -- intros (args & w0 & Hf & -> & ->). exists (ArgOne b :: args), w0.
           rewrite <- app_assoc. split_and!; try done. by eapply fetched_ref.
        -- intros (args & w0 & Hf & -> & ->). inversion Hf; subst.
           same_call Hgs.
           eexists _, w0. rewrite <- app_assoc. by split_and!.
      * simpl. split; [done|]. intros (args & w0 & Hf & _). inversion Hf; subst.
        congruence.
    + destruct (gs (shared_ptr_of t) w) as [b w1|e w1| | |] eqn:Hgs.
      2-5: (split; [done|]; intros (args & w0 & Hf & _); inversion Hf; congruence).
      destruct (is_shared b) eqn:Hb.
      * rewrite IH. split.
        -- intros (args & w0 & Hf & -> & ->). exists (ArgOne b :: args), w0.
           rewrite <- app_assoc. split_and!; try done. by eapply fetched_shared.
        -- intros (args & w0 & Hf & -> & ->). inversion Hf; subst.
           same_call Hgs.
           eexists _, w0. rewrite <- app_assoc. by split_and!.
      * simpl. split; [done|]. intros (args & w0 & Hf & _). inversion Hf; subst.
        congruence.
    + destruct (gss t w) as [b w1|e w1| | |] eqn:Hgs.
      2-5: (split; [done|]; intros (args & w0 & Hf & _); inversion Hf; congruence).
      destruct (forallb is_ref b) eqn:Hb.
      * rewrite IH. split.
        -- intros (args & w0 & Hf & -> & ->). exists (ArgMany b :: args), w0.
           rewrite <- app_assoc. split_and!; try done. by eapply fetched_refs.
        -- intros (args & w0 & Hf & -> & ->). inversion Hf; subst.
           same_call Hgs.
           eexists _, w0. rewrite <- app_assoc. by split_and!.
      * simpl. split; [done|]. intros (args & w0 & Hf & _). inversion Hf; subst.
        congruence.
    + destruct (gss (shared_ptr_of t) w) as [b w1|e w1| | |] eqn:Hgs.
      2-5: (split; [done|]; intros (args & w0 & Hf & _); inversion Hf; congruence).
      destruct (forallb is_shared b) eqn:Hb.
      * rewrite IH. split.
        -- intros (args & w0 & Hf & -> & ->). exists (ArgMany b :: args), w0.
           rewrite <- app_assoc. split_and!; try done. by eapply fetched_shareds.
        -- intros (args & w0 & Hf & -> & ->). inversion Hf; subst.
           same_call Hgs.
           eexists _, w0. rewrite <- app_assoc. by split_and!.
      * simpl. split; [done|]. intros (args & w0 & Hf & _). inversion Hf; subst.
        congruence.
Qed.


(** X10.  A Transient service whose factory starts by asking for the
    service itself: the recursion has no end, whatever the fuel. *)
Theorem a_transient_that_asks_for_itself_never_returns
    (_factories : Registry) (self : Provider) (ty : type_index)
    (factories : FactoryFunctionCollection) (front desc : ServiceDescription)
    (k : any -> Closure) :
  _factories !! ty = Some factories ->
  head factories = Some front -> last factories = Some desc ->
  (Z.of_nat (length factories) < 2 ^ 64)%Z ->
  type desc = Transient -> create desc = Build (CallGetService ty k) ->
  forall fuel w, getService _factories fuel self ty w = OutOfFuel.
Proof.
  intros Hf Hfront Hlast Hmax Hty Hk. induction fuel as [|fuel IH]; intros w.
  - destruct (getService_is_last _factories 0 self ty factories front w Hf Hfront Hmax)
      as (_ & _ & ->). done.
  - destruct (getService_is_last _factories (S fuel) self ty factories front w
                Hf Hfront Hmax) as (Hat & _ & ->).
    rewrite Hlast in Hat.
    rewrite (resolve_transient_eq _ _ _ _ _ _ _ desc) by done.
    rewrite Hk. simpl. by rewrite IH.
Qed.

Lemma a_transient_that_asks_for_itself_never_returns_witness :
  let c := CallGetService (shared_ptr_of "T") (fun _ => MakeUnique "T" []) in
  let reg := build (registerAll [AddTransientF "T" c] fresh) in
  getService reg 5 Root (shared_ptr_of "T") (World_new []) = OutOfFuel.
Proof.
  intros c reg.
  apply (a_transient_that_asks_for_itself_never_returns reg Root (shared_ptr_of "T")
           [mkDesc (Build c) convert_shared Transient]
           (mkDesc (Build c) convert_shared Transient)
           (mkDesc (Build c) convert_shared Transient)
           (fun _ => MakeUnique "T" [])).
  - vm_compute. reflexivity.
  - reflexivity.
  - reflexivity.
  - vm_compute. reflexivity.
  - reflexivity.
  - reflexivity.
Defined.

End InjectionFacts.

(** ** Requests that return *)

Module AcyclicFacts.
Import ServiceCollection Current CurrentFacts ProviderFacts.

Lemma calm_refl w : calm w w.
Proof. by intros p k i. Qed.

Lemma calm_trans a b c : calm a b -> calm b c -> calm a c.
Proof. intros H1 H2 p k i H. by apply H1, H2. Qed.

Lemma calm_same w w' : (forall p k i, slot p k i w' = slot p k i w) -> calm w w'.
Proof. intros H p k i. by rewrite H. Qed.

Lemma quiet_below_calm rank n w w' : calm w w' -> quiet_below rank n w -> quiet_below rank n w'.
Proof. intros Hc Hq p k i Hk Hb. by apply (Hq p k i Hk), Hc. Qed.

Lemma quiet_below_le rank n m w : m <= n -> quiet_below rank n w -> quiet_below rank m w.
Proof. intros Hle Hq p k i Hk. apply Hq. lia. Qed.

Section Returns.
Variable _factories : Registry.
Variable rank : type_index -> nat.
Hypothesis Hinj : injectable _factories rank.

Local Abbreviation Inv2 := (Current.Inv2 _factories).

Local Abbreviation resolve_returns_at := (Current.resolve_returns_at _factories rank).

Lemma getService_returns f ctx t factories desc w :
  resolve_returns_at f ->
  _factories !! t = Some factories -> last factories = Some desc -> rank t < f ->
  Inv2 ctx w -> quiet_below rank (S (rank t)) w ->
  exists q w',
    getService _factories f ctx t w = Done (handle_of (type desc) q) w' /\
    calm w w' /\ Inv2 ctx w'.
Proof using Hinj.
  intros Hres Hf Hlast Hrank Hinv Hq.
  destruct (Hinj t factories Hf) as (Hne & Hmax & _).
  destruct factories as [|front rest] eqn:Hfs; [done|]. rewrite <- Hfs in *.
  assert (Hfront : head factories = Some front) by by rewrite Hfs.
  destruct (getService_is_last _factories f ctx t factories front w Hf Hfront Hmax)
    as (Hat & _ & Heq).
  rewrite Hlast in Hat.
  destruct (Hres ctx t factories (owner_for ctx (type front)) _ desc w Hf
              (owner_for_this _ _) Hat Hrank Hinv Hq) as (q & w' & Hr & Hcalm).
  exists q, w'. rewrite Heq. split_and!; try done.
  pose proof (resolve_Inv2 _factories ctx f t factories (owner_for ctx (type front))
                (N.of_nat (length factories - 1)) w Hf (owner_for_this _ _) Hinv) as Hp.
  rewrite Hr in Hp. apply Hp.
Qed.

Lemma getServices_loop_returns f ctx t factories :
  resolve_returns_at f -> _factories !! t = Some factories -> rank t < f ->
  forall k i res w,
    i + k = length factories ->
    Inv2 ctx w -> quiet_below rank (S (rank t)) w ->
    exists l w',
      getServices_loop (resolve _factories f) ctx t factories (seq i k) res w
        = Done (res ++ l) w' /\
      calm w w' /\ Inv2 ctx w' /\
      Forall2 (fun d a => exists q, a = handle_of (type d) q) (drop i factories) l.
Proof using Hinj.
  intros Hres Hf Hrank. induction k as [|k IH]; intros i res w Hik Hinv Hq.
  - exists [], w. simpl. rewrite app_nil_r. split_and!; try done; [apply calm_refl|].
    rewrite drop_ge by lia. constructor.
  - destruct (lookup_lt_is_Some_2 factories i) as [desc Hd]; [lia|].
    simpl seq. rewrite (getServices_loop_call _ _ _ _ _ _ desc) by done.
    destruct (Hres ctx t factories (owner_for ctx (type desc)) (N.of_nat i) desc w Hf
                (owner_for_this _ _) (vec_at_lookup _ _ _ Hd) Hrank Hinv Hq)
      as (q & w1 & Hr & Hcalm).
    pose proof (resolve_Inv2 _factories ctx f t factories (owner_for ctx (type desc))
                  (N.of_nat i) w Hf (owner_for_this _ _) Hinv) as Hp.
    rewrite Hr in Hp. destruct Hp as [Hinv1 _]. rewrite Hr.
    destruct (IH (S i) (res ++ [handle_of (type desc) q]) w1) as (l & w' & Hl & Hc & Hi' & Hk);
      [lia | done | by eapply quiet_below_calm |].
    exists (handle_of (type desc) q :: l), w'.
    rewrite Hl, <- app_assoc. split_and!; try done; [by eapply calm_trans|].
    rewrite (drop_S _ desc) by done. constructor; [by exists q | done].
Qed.

Lemma getServices_returns f ctx t w :
  resolve_returns_at f -> rank t < f ->
  Inv2 ctx w -> quiet_below rank (S (rank t)) w ->
  exists l w',
    getServices _factories f ctx t w = Done l w' /\ calm w w' /\ Inv2 ctx w' /\
    forall factories, _factories !! t = Some factories ->
      Forall2 (fun d a => exists q, a = handle_of (type d) q) factories l.
Proof using Hinj.
  intros Hres Hrank Hinv Hq. unfold getServices, getServices_with.
  destruct (_factories !! t) as [factories|] eqn:Hf.
  - destruct (getServices_loop_returns f ctx t factories Hres Hf Hrank
                (length factories) 0 [] w) as (l & w' & Hl & Hc & Hi & Hk); [done..|].
    exists l, w'. split_and!; try done. by intros ? [= <-].
  - exists [], w. split_and!; try done. apply calm_refl.
Qed.

Lemma Forall2_kind_ref (factories : list ServiceDescription) l :
  Forall (fun d => type d <> Transient) factories ->
  Forall2 (fun d a => exists q, a = handle_of (type d) q) factories l ->
  forallb is_ref l = true.
Proof.
  intros Hall H2. induction H2 as [|d a ds l' (q & ->) _ IH]; [done|].
  apply Forall_cons in Hall as [Hd Hall]. simpl. rewrite IH by done.
  by destruct (type d).
Qed.

Lemma Forall2_kind_shared (factories : list ServiceDescription) l :
  Forall (fun d => type d = Transient) factories ->
  Forall2 (fun d a => exists q, a = handle_of (type d) q) factories l ->
  forallb is_shared l = true.
Proof.
  intros Hall H2. induction H2 as [|d a ds l' (q & ->) _ IH]; [done|].
  apply Forall_cons in Hall as [Hd Hall]. simpl. rewrite IH by done.
  by rewrite Hd.
Qed.

Lemma inject_returns f ctx key TImplementation :
  resolve_returns_at f -> rank key <= f ->
  forall ctor sofar w,
    Forall (param_ok _factories rank key) ctor ->
    Inv2 ctx w -> quiet_below rank (rank key) w ->
    exists q w',
      runClosure (getService _factories f ctx) (getServices _factories f ctx)
        (createInternal TImplementation ctor sofar) w = Done (AnyShared q) w' /\
      calm w w'.
Proof using Hinj.
  intros Hres Hrank. induction ctor as [|a rest IH]; intros sofar w Hok Hinv Hq.
  - simpl. eexists _, _. split; [reflexivity|]. apply calm_same. intros. apply slot_alloc.
  - apply Forall_cons in Hok as [Ha Hrest]. destruct a as [t|t|t|t]; simpl in Ha.
    + destruct Ha as (Hlt & factories & desc & Hf & Hlast & Hty).
      destruct (getService_returns f ctx t factories desc w Hres Hf Hlast ltac:(lia) Hinv)
        as (q & w1 & Hg & Hc & Hi1); [eapply quiet_below_le; [|exact Hq]; lia|].
      cbn [createInternal runClosure]. rewrite Hg.
      replace (is_ref (handle_of (type desc) q)) with true by by destruct (type desc).
      destruct (IH (sofar ++ [ArgOne (handle_of (type desc) q)]) w1 Hrest Hi1)
        as (q' & w' & Hr & Hc'); [by eapply quiet_below_calm|].
      exists q', w'. split; [done | by eapply calm_trans].
    + destruct Ha as (Hlt & factories & desc & Hf & Hlast & Hty).
      destruct (getService_returns f ctx (shared_ptr_of t) factories desc w Hres Hf Hlast
                  ltac:(lia) Hinv)
        as (q & w1 & Hg & Hc & Hi1); [eapply quiet_below_le; [|exact Hq]; lia|].
      cbn [createInternal runClosure]. rewrite Hg, Hty. simpl.
      destruct (IH (sofar ++ [ArgOne (AnyShared q)]) w1 Hrest Hi1)
        as (q' & w' & Hr & Hc'); [by eapply quiet_below_calm|].
      exists q', w'. split; [done | by eapply calm_trans].
    + destruct Ha as (Hlt & Hall).
      destruct (getServices_returns f ctx t w Hres ltac:(lia) Hinv)
        as (l & w1 & Hg & Hc & Hi1 & Hk); [eapply quiet_below_le; [|exact Hq]; lia|].
      cbn [createInternal runClosure]. rewrite Hg.
      assert (Hl : forallb is_ref l = true).
      { destruct (_factories !! (t : type_index)) as [factories|] eqn:Hf.
        - eapply Forall2_kind_ref; [by apply Hall | by apply Hk].
        - unfold getServices, getServices_with in Hg. rewrite Hf in Hg.
          by injection Hg as <- _. }
      rewrite Hl.
      destruct (IH (sofar ++ [ArgMany l]) w1 Hrest Hi1)
        as (q' & w' & Hr & Hc'); [by eapply quiet_below_calm|].
      exists q', w'. split; [done | by eapply calm_trans].
    + destruct Ha as (Hlt & Hall).
      destruct (getServices_returns f ctx (shared_ptr_of t) w Hres ltac:(lia) Hinv)
        as (l & w1 & Hg & Hc & Hi1 & Hk); [eapply quiet_below_le; [|exact Hq]; lia|].
      cbn [createInternal runClosure]. rewrite Hg.
      assert (Hl : forallb is_shared l = true).
      { destruct (_factories !! shared_ptr_of t) as [factories|] eqn:Hf.
        - eapply Forall2_kind_shared; [by apply Hall | by apply Hk].
        - unfold getServices, getServices_with in Hg. rewrite Hf in Hg.
          by injection Hg as <- _. }
      rewrite Hl.
      destruct (IH (sofar ++ [ArgMany l]) w1 Hrest Hi1)
        as (q' & w' & Hr & Hc'); [by eapply quiet_below_calm|].
      exists q', w'. split; [done | by eapply calm_trans].
Qed.

(** The factory of a descriptor returns a [shared_ptr]. *)
Lemma factory_returns f ctx key factories i desc w :
  resolve_returns_at f -> rank key <= f ->
  _factories !! key = Some factories -> factories !! i = Some desc ->
  Inv2 ctx w -> quiet_below rank (rank key) w ->
  exists q w',
    runFactory (getService _factories f ctx) (getServices _factories f ctx)
      (create desc) w = Done (AnyShared q) w' /\ calm w w'.
Proof using Hinj.
  intros Hres Hrank Hf Hd Hinv Hq.
  destruct (Hinj key factories Hf) as (_ & _ & Hall).
  rewrite Forall_forall in Hall.
  destruct (Hall desc (list_elem_of_lookup_2 _ _ _ Hd)) as [_ Hcreate].
  destruct (create desc) as [c|p]; simpl.
  - destruct Hcreate as (TImplementation & ctor & -> & Hok).
    by apply (inject_returns f ctx key).
  - exists p, w. split; [done | apply calm_refl].
Qed.

Theorem resolve_returns f : resolve_returns_at f.
Proof using Hinj.
  induction f as [|f IH]; intros ctx key factories this index desc w Hf Hthis Hat Hrank
    Hinv Hq; [lia|].
  pose proof (vec_at_Some _ _ _ Hat) as Hd.
  set (i := N.to_nat index) in *.
  destruct (Hinj key factories Hf) as (_ & _ & Hall).
  rewrite Forall_forall in Hall.
  destruct (Hall desc (list_elem_of_lookup_2 _ _ _ Hd)) as [Hconv _].
  destruct (decide (type desc = Transient)) as [Hty|Hty].
  - rewrite (resolve_transient_eq _ _ _ _ _ _ _ desc) by done.
    destruct (Inv2_transient _factories ctx this key factories desc i w) as [Hi1 _];
      [done..|].
    destruct (factory_returns f ctx key factories i desc _ IH ltac:(lia) Hf Hd Hi1)
      as (q & w' & Hr & Hc).
    { intros p k j Hk. rewrite slot_record_invocation. apply Hq. lia. }
    fold i. rewrite Hr. unfold apply_convert. rewrite Hconv, Hty. simpl.
    exists q, w'. split; [done|].
    eapply calm_trans; [|exact Hc]. apply calm_same. intros. apply slot_record_invocation.
  - rewrite (resolve_cached_eq _ _ _ _ _ _ _ desc) by done. cbv zeta.
    fold i. rewrite slot_emplace_instances.
    assert (Hhandle : forall q, handle_of (type desc) q = AnyRef q)
      by (intros; by destruct (type desc)).
    destruct (initialized (slot this key i w)) eqn:Hinit.
    + destruct (serviceFuture (slot this key i w)) as [v|] eqn:Hv.
      * destruct Hinv as [_ Hst].
        destruct (stored_slots _ _ Hst this key i v Hv) as (q & -> & _).
        unfold convert_deref, apply_convert. rewrite Hconv. simpl.
        exists q, (emplace_instances this key (length factories) w).
        rewrite Hhandle. split; [done|]. apply calm_same. intros.
        apply slot_emplace_instances.
      * exfalso. apply (Hq this key i); [lia|]. unfold busy.
        destruct (slot this key i w); simpl in *; congruence.
    + destruct (Inv2_claim _factories ctx this key factories desc i w) as [Hi2 _];
        [done..|].
      destruct (array_ready _factories ctx this key factories desc i w Hf Hd (proj1 Hinv))
        as (n & Hn & Hlt).
      set (w1 := emplace_instances this key (length factories) w) in *.
      destruct (factory_returns f ctx key factories i desc _ IH ltac:(lia) Hf Hd Hi2)
        as (q & w3 & Hr & Hc).
      { intros p k j Hk. rewrite (slot_claimed _ _ _ _ _ n) by done.
        rewrite decide_False by (intros [= _ -> _]; lia).
        unfold w1. rewrite slot_emplace_instances. apply Hq. lia. }
      rewrite Hr.
      pose proof (runFactory_Inv _factories ctx f (create desc) _ (proj1 Hi2)) as Hp.
      unfold getService, getServices in Hp, Hr. rewrite Hr in Hp. destruct Hp as [_ He3].
      pose proof (fulfilled_reads _factories ctx this key factories desc i w w3
                    (AnyShared q) Hf Hd (proj1 Hinv) He3) as Hslot.
      rewrite Hslot, decide_True by done. simpl.
      unfold convert_deref, apply_convert. rewrite Hconv. simpl.
      eexists q, _. rewrite Hhandle. split; [reflexivity|].
      intros p k j. rewrite slot_push_order, Hslot.
      case_decide as Heq; [done|]. intros Hb. apply Hc in Hb.
      rewrite (slot_claimed _ _ _ _ _ n) in Hb by done.
      rewrite decide_False in Hb by done.
      unfold w1 in Hb. by rewrite slot_emplace_instances in Hb.
Qed.
End Returns.

Lemma quiet_World_new heap0 : quiet (World_new heap0).
Proof. intros p k i. unfold busy, slot. by rewrite members_World_new. Qed.

Lemma quiet_below_quiet rank n w : quiet w -> quiet_below rank n w.
Proof. intros Hq p k i _. apply Hq. Qed.

Lemma quiet_calm w w' : calm w w' -> quiet w -> quiet w'.
Proof. intros Hc Hq p k i Hb. by apply (Hq p k i), Hc. Qed.



End AcyclicFacts.

(** ** The earlier provider *)

Module LegacyFacts.
Import RefinementFacts.

Lemma legacy_emplace_instances_present p key n w :
  is_Some (Legacy._instances (Legacy.members p w) !! key) ->
  Legacy.emplace_instances p key n w = w.
Proof. intros [vec Hvec]. unfold Legacy.emplace_instances. by rewrite Hvec. Qed.

(** A legacy request that finds the first element of the vector set
    converts it and leaves the world alone. *)
Lemma legacy_resolve_hit _factories fuel key factories owner sp desc vec a r w :
  factories !! 0 = Some desc -> type desc <> Transient ->
  Legacy._instances (Legacy.members owner w) !! key = Some vec ->
  vec !! 0 = Some a -> has_value a = true -> convert desc a = Some r ->
  Legacy.resolve _factories (S fuel) key factories owner sp 0 w =
    if decide (a = AnyNull) then Legacy.Undefined else Legacy.Done r w.
Proof.
  intros Hd Hty Hvec Ha Hv Hconv.
  assert (Hat : vec_at factories 0 = Some desc).
  { unfold vec_at. destruct factories; [done|]. done. }
  rewrite (legacy_resolve_cached_eq _ _ _ _ _ _ _ desc) by done. cbv zeta.
  rewrite legacy_emplace_instances_present by by rewrite Hvec.
  unfold Legacy.instances_of. rewrite Hvec. simpl.
  assert (Hat' : vec_at vec 0 = Some a).
  { unfold vec_at. destruct vec; [done|]. done. }
  rewrite Hat', Hv.
  destruct a; simpl; try done; unfold Legacy.apply_convert; by rewrite Hconv.
Qed.

(** X19.  In the earlier provider, once the first implementation of a
    type key is built, [getServices] through a scope returns that one
    instance as many times as the key has descriptors: the scope passes
    index 0 for every descriptor.  (Were the first element an empty
    pointer, the first conversion would dereference it.) *)
Theorem legacy_scope_getServices_repeats_the_first_instance
    (_factories : Registry) (fuel id : nat) (ty : type_index)
    (factories : FactoryFunctionCollection) (desc0 : ServiceDescription)
    (owner : Provider) (vec : list any) (a r : any) (w : Legacy.World) :
  _factories !! ty = Some factories ->
  factories !! 0 = Some desc0 -> type desc0 <> Transient ->
  Forall (fun d => Current.owner_for (Scope id) (type d) = owner) factories ->
  Legacy._instances (Legacy.members owner w) !! ty = Some vec ->
  vec !! 0 = Some a -> has_value a = true -> convert desc0 a = Some r ->
  Legacy.getServices _factories (S fuel) (Scope id) ty w =
    if decide (a = AnyNull) then Legacy.Undefined
    else Legacy.Done (replicate (length factories) r) w.
Proof.
  intros Hf Hd Hty Hown Hvec Ha Hv Hconv.
  unfold Legacy.getServices, Legacy.getServices_with. rewrite Hf.
  assert (Hcall : forall i d, factories !! i = Some d ->
    (if Current.is_Scoped (type d)
     then Legacy.resolve _factories (S fuel) ty factories (Scope id) (Scope id) 0%N
     else Legacy.resolve _factories (S fuel) ty factories Root (Scope id) 0%N) w
    = if decide (a = AnyNull) then Legacy.Undefined else Legacy.Done r w).
  { intros i d Hdi. rewrite Forall_forall in Hown.
    specialize (Hown d (list_elem_of_lookup_2 _ _ _ Hdi)). simpl in Hown.
    destruct (Current.is_Scoped (type d)); subst owner;
      by apply (legacy_resolve_hit _ _ _ _ _ _ desc0 vec a). }
  destruct (decide (a = AnyNull)) as [Hnull|Hnn].
  { destruct factories as [|d0 rest]; [done|]. cbn [length seq Legacy.getServices_loop].
    change ((d0 :: rest) !! 0) with (Some d0). cbv beta iota.
    by rewrite (Hcall 0 d0 eq_refl). }
  assert (Hloop : forall idxs res,
    Forall (fun i => i < length factories) idxs ->
    Legacy.getServices_loop (Legacy.resolve _factories (S fuel)) (Scope id) ty factories
      idxs res w = Legacy.Done (res ++ replicate (length idxs) r) w).
  { induction idxs as [|i rest IH]; intros res Hidxs.
    - simpl. by rewrite app_nil_r.
    - apply Forall_cons in Hidxs as [Hi Hrest].
      destruct (lookup_lt_is_Some_2 factories i Hi) as [d Hdi].
      cbn [Legacy.getServices_loop]. rewrite Hdi.
      rewrite (Hcall i d Hdi), IH by done. simpl. by rewrite <- app_assoc. }
  rewrite Hloop.
  - by rewrite length_seq.
  - apply Forall_forall. intros i Hi. apply elem_of_seq in Hi. lia.
Qed.

Lemma legacy_scope_getServices_repeats_the_first_instance_witness :
  let w := match Legacy.getService Current.registry_XYZ 1 Root "I" (Legacy.World_new []) with
           | Legacy.Done _ w => w
           | _ => Legacy.World_new []
           end in
  Legacy.getServices Current.registry_XYZ 1 (Scope 0) "I" w =
    if decide (AnyShared 0 = AnyNull) then Legacy.Undefined
    else Legacy.Done
           (replicate (length (default [] (Current.registry_XYZ !! "I"))) (AnyRef 0)) w.
Proof.
  intros w.
  apply (legacy_scope_getServices_repeats_the_first_instance Current.registry_XYZ 0 0
           "I" (default [] (Current.registry_XYZ !! "I"))
           (mkDesc (Build (ServiceFactory_create "X" [])) convert_ref Singleton)
           Root [AnyShared 0; AnyEmpty; AnyEmpty; AnyEmpty] (AnyShared 0) (AnyRef 0) w).
  - vm_compute. reflexivity.
  - vm_compute. reflexivity.
  - simpl. discriminate.
  - vm_compute. repeat constructor.
  - vm_compute. reflexivity.
  - reflexivity.
  - reflexivity.
  - reflexivity.
Defined.

Lemma legacy_runClosure_returns_shared gs gss c : forall w v w',
  Legacy.runClosure gs gss c w = Legacy.Done v w' -> has_value v = true.
Proof.
  induction c as [impl args|t k IH|t k IH|e|]; intros w v w'; simpl.
  - by intros [= <- _].
  - destruct (gs t w); try done. apply IH.
  - destruct (gss t w); try done. apply IH.
  - done.
  - by intros [= <- _].
Qed.

Lemma legacy_convert_deref_Done desc v w r w' :
  Legacy.convert_deref desc v w = Legacy.Done r w' ->
  v <> AnyNull /\ convert desc v = Some r /\ w' = w.
Proof.
  destruct v; simpl; try done; unfold Legacy.apply_convert;
    destruct (convert desc _); try done; by intros [= -> ->].
Qed.

Lemma legacy_runFactory_returns_shared gs gss f w v w' :
  Legacy.runFactory gs gss f w = Legacy.Done v w' -> has_value v = true.
Proof.
  destruct f as [c|p]; simpl; [apply legacy_runClosure_returns_shared|].
  by intros [= <- _].
Qed.

(** A request that finds an element with a value converts it and
    leaves the world alone. *)
Lemma legacy_resolve_found _factories fuel key factories owner sp index desc a r w :
  vec_at factories index = Some desc -> type desc <> Transient ->
  vec_at (Legacy.instances_of owner key w) index = Some a -> has_value a = true ->
  a <> AnyNull -> convert desc a = Some r ->
  Legacy.resolve _factories (S fuel) key factories owner sp index w = Legacy.Done r w.
Proof.
  intros Hat Hty Ha Hv Hnn Hconv.
  assert (Hpresent : is_Some (Legacy._instances (Legacy.members owner w) !! key)).
  { unfold Legacy.instances_of in Ha.
    destruct (Legacy._instances (Legacy.members owner w) !! key); [done|].
    unfold vec_at in Ha. simpl in Ha. by destruct index. }
  rewrite (legacy_resolve_cached_eq _ _ _ _ _ _ _ desc) by done. cbv zeta.
  rewrite legacy_emplace_instances_present by done.
  rewrite Ha, Hv.
  destruct a; try done; unfold Legacy.convert_deref, Legacy.apply_convert;
    by rewrite Hconv.
Qed.

Lemma vec_at_vector_emplace index x v a :
  vec_at (Legacy.vector_emplace (N.to_nat index) x v) index = Some a -> a = x.
Proof.
  unfold vec_at, Legacy.vector_emplace.
  destruct (N.ltb_spec index (N.of_nat (length (take (N.to_nat index) v ++ [x] ++
                                                  drop (N.to_nat index) v))));
    [|done].
  rewrite !length_app, length_take, length_drop in H. simpl in H.
  rewrite lookup_app_r by (rewrite length_take; lia).
  rewrite length_take. replace (N.to_nat index - N.to_nat index `min` length v) with 0 by lia.
  simpl. by intros [= <-].
Qed.

(** X23.  In the earlier provider, a request for a Singleton or Scoped
    descriptor that returned is answered by the next request for the same
    slot, from whichever provider object it comes, with the same handle
    and without any change to the world: the element it emplaced has a
    value, so the factory is not called again. *)
Theorem legacy_request_can_be_repeated
    (_factories : Registry) (fuel fuel2 : nat) (key : type_index)
    (factories : FactoryFunctionCollection) (owner sp sp2 : Provider) (index : N)
    (desc : ServiceDescription) (w : Legacy.World) (r : any) (w' : Legacy.World) :
  vec_at factories index = Some desc -> type desc <> Transient ->
  Legacy.resolve _factories fuel key factories owner sp index w = Legacy.Done r w' ->
  Legacy.resolve _factories (S fuel2) key factories owner sp2 index w' = Legacy.Done r w'.
Proof.
  intros Hat Hty Hres. destruct fuel as [|fuel]; [done|].
  rewrite (legacy_resolve_cached_eq _ _ _ _ _ _ _ desc) in Hres by done.
  cbv zeta in Hres.
  set (w1 := Legacy.emplace_instances owner key (length factories) w) in *.
  destruct (vec_at (Legacy.instances_of owner key w1) index) as [a|] eqn:Ha; [|done].
  destruct (has_value a) eqn:Hv.
  - apply legacy_convert_deref_Done in Hres as (Hnn & Hconv & ->).
    by apply (legacy_resolve_found _ _ _ _ _ _ _ desc a).
  - destruct (Legacy.runFactory _ _ _ _) as [v w2|e w2| |] eqn:Hrun; try done.
    cbv zeta in Hres.
    set (w4 := Legacy.push_order owner v
                 (Legacy.emplace_at owner key (N.to_nat index) v w2)) in *.
    destruct (vec_at (Legacy.instances_of owner key w4) index) as [a'|] eqn:Ha'; [|done].
    apply legacy_convert_deref_Done in Hres as (Hnn & Hconv & ->).
    assert (a' = v) as ->.
    { unfold w4, Legacy.instances_of in Ha'.
      rewrite legacy_instances_push_order, legacy_instances_emplace_at in Ha'.
      rewrite decide_True in Ha' by done.
      destruct (Legacy._instances (Legacy.members owner w2) !! key) as [vec|]; simpl in Ha'.
      - by eapply vec_at_vector_emplace.
      - unfold vec_at in Ha'. simpl in Ha'. by destruct index. }
    apply (legacy_resolve_found _ _ _ _ _ _ _ desc v); try done.
    by eapply legacy_runFactory_returns_shared.
Qed.

Lemma legacy_request_can_be_repeated_witness :
  let factories := default [] (Current.registry_XYZ !! "I") in
  let w' := match Legacy.resolve Current.registry_XYZ 1 "I" factories Root Root 2
                    (Legacy.World_new []) with
            | Legacy.Done _ w => w
            | _ => Legacy.World_new []
            end in
  Legacy.resolve Current.registry_XYZ 1 "I" factories Root (Scope 0) 2 w' =
    Legacy.Done (AnyRef 0) w'.
Proof.
  intros factories w'.
  apply (legacy_request_can_be_repeated Current.registry_XYZ 1 0 "I" factories
           Root Root (Scope 0) 2
           (mkDesc (Build (ServiceFactory_create "Z" [])) convert_ref Singleton)
           (Legacy.World_new [])).
  - vm_compute. reflexivity.
  - simpl. discriminate.
  - vm_compute. reflexivity.
Defined.

End LegacyFacts.

(** ** The provider run by several threads *)

Module ThreadsFacts.
Import Current CurrentFacts ProviderFacts Threads.

Lemma forward_refl w : forward w w.
Proof. by constructor. Qed.

Lemma forward_trans a b c : forward a b -> forward b c -> forward a c.
Proof.
  intros [H1 H2 H3 H4] [G1 G2 G3 G4]. constructor; intros *.
  - lia.
  - intros. by apply G2, H2.
  - intros. by apply G3, H3.
  - intros. by apply G4, H4.
Qed.

(** A step that leaves the slots, the arrays and the scopes as they are. *)
Lemma forward_same w w' :
  next_scope w <= next_scope w' ->
  (forall p k, array_size p k w' = array_size p k w) ->
  (forall p k i, slot p k i w' = slot p k i w) ->
  forward w w'.
Proof. intros Hn Ha Hs. constructor; intros *; by rewrite ?Ha, ?Hs. Qed.

Lemma forward_alloc o w : forward w (alloc o w).
Proof.
  apply forward_same; [done | intros; apply array_size_alloc | intros; apply slot_alloc].
Qed.

Lemma forward_record_invocation e w : forward w (record_invocation e w).
Proof.
  apply forward_same;
    [done | intros; apply array_size_record_invocation
          | intros; apply slot_record_invocation].
Qed.

Lemma forward_push_order p v w : forward w (push_order p v w).
Proof.
  apply forward_same;
    [by rewrite next_scope_push_order | intros; apply array_size_push_order
                                 | intros; apply slot_push_order].
Qed.

Lemma forward_emplace_instances p key n w : forward w (emplace_instances p key n w).
Proof.
  constructor; intros *.
  - by rewrite next_scope_emplace_instances.
  - rewrite array_size_emplace_instances. intros Hn. rewrite Hn. by case_decide.
  - by rewrite slot_emplace_instances.
  - by rewrite slot_emplace_instances.
Qed.

Section Safety.
Variable _factories : Registry.

Local Abbreviation WF := (Current.WF _factories).
Local Abbreviation slot_ok := (Threads.slot_ok _factories).
Local Abbreviation control_ok := (Threads.control_ok _factories).
Local Abbreviation frame_ok := (Threads.frame_ok _factories).
Local Abbreviation Safe := (Threads.Safe _factories).

Lemma forward_claimed sp this key i w n :
  WF w -> array_size this key w = Some n -> i < n ->
  initialized (slot this key i w) = false ->
  forward w (claimed sp this key i w).
Proof.
  intros Hwf Hn Hi Hinit. constructor; intros *.
  - unfold claimed. simpl. by rewrite next_scope_set_slot.
  - unfold claimed. by rewrite array_size_record_invocation, array_size_set_slot.
  - rewrite (slot_claimed _ _ _ _ _ n) by done. by case_decide.
  - rewrite (slot_claimed _ _ _ _ _ n) by done. case_decide as Heq; [|done].
    injection Heq as -> -> ->. intros Hv.
    rewrite (wf_future _ _ Hwf _ _ _ _ Hv) in Hinit. done.
Qed.

Lemma forward_fulfilled this key i v w n :
  array_size this key w = Some n -> i < n ->
  slot this key i w = mkCS true None ->
  forward w (fulfilled this key i v w).
Proof.
  intros Hn Hi Hs. constructor; intros *.
  - unfold fulfilled. by rewrite next_scope_set_slot.
  - unfold fulfilled. by rewrite array_size_set_slot.
  - rewrite (slot_fulfilled _ _ _ _ _ n) by done. case_decide as Heq; [|done].
    by rewrite Hs.
  - rewrite (slot_fulfilled _ _ _ _ _ n) by done. case_decide as Heq; [|done].
    injection Heq as -> -> ->. by rewrite Hs.
Qed.

Lemma created_forward p w w' : forward w w' -> created p w -> created p w'.
Proof.
  intros Hf. destruct p; simpl; [done|]. pose proof (fw_next_scope _ _ Hf). lia.
Qed.

Lemma slot_ok_forward w w' this key i desc :
  forward w w' -> slot_ok w this key i desc -> slot_ok w' this key i desc.
Proof.
  intros Hf (Hd & Hty & (n & Hn & Hi) & Hc). split_and!; try done.
  - exists n. split; [by apply (fw_arrays _ _ Hf) | done].
  - by eapply created_forward.
Qed.

Lemma control_ok_forward w w' c :
  forward w w' -> control_ok w c -> control_ok w' c.
Proof.
  intros Hf. destruct c; simpl; try done; eauto using created_forward, slot_ok_forward.
  - intros [? ?]. eauto using created_forward.
  - intros (? & ? & ?). eauto using created_forward.
  - intros (? & ? & ?). eauto using created_forward, slot_ok_forward.
  - intros [? [v Hv]]. split; [by eapply slot_ok_forward|].
    exists v. by apply (fw_future _ _ Hf).
Qed.

Lemma frame_ok_forward w w' f :
  forward w w' -> frame_ok w f -> frame_ok w' f.
Proof.
  intros Hf. destruct f; simpl; try done; eauto using created_forward, slot_ok_forward.
  intros [? ?]. eauto using created_forward.
Qed.

(** *** The invariant of a world, step by step *)

Lemma WF_fulfilled this key i v w n :
  WF w -> created this w -> array_size this key w = Some n -> i < n ->
  slot this key i w = mkCS true None ->
  WF (fulfilled this key i v w).
Proof.
  intros [H1 H2 H3 H4] Hc Hn Hi Hs. constructor; intros *.
  - unfold fulfilled. rewrite array_size_set_slot. apply H1.
  - rewrite (slot_fulfilled _ _ _ _ _ n) by done. case_decide as Heq; [|apply H2].
    by rewrite Hs.
  - intros Hcached. rewrite (slot_fulfilled _ _ _ _ _ n) by done.
    rewrite (calls_eq _ _ _ w) by (unfold fulfilled; apply invocations_set_slot).
    rewrite H3 by done. case_decide as Heq; [|done].
    injection Heq as -> -> ->. by rewrite Hs.
  - unfold fulfilled. by apply scopes_bounded_set_slot.
Qed.

Lemma WF_push_order this v w : WF w -> created this w -> WF (push_order this v w).
Proof.
  intros [H1 H2 H3 H4] Hc. constructor; intros *.
  - rewrite array_size_push_order. apply H1.
  - rewrite slot_push_order. apply H2.
  - intros Hcached. rewrite slot_push_order.
    rewrite (calls_eq _ _ _ w) by apply invocations_push_order. by apply H3.
  - by apply scopes_bounded_push_order.
Qed.

Lemma WF_claimed sp this key i desc w :
  WF w -> slot_ok w this key i desc -> this = Root \/ this = sp -> created sp w ->
  initialized (slot this key i w) = false ->
  WF (claimed sp this key i w).
Proof.
  intros Hwf (Hd & Hty & (n & Hn & Hi) & Hc) Hthis Hsp Hinit.
  unfold descriptor in Hd.
  destruct (_factories !! key) as [factories|] eqn:Hf; [|done].
  destruct (Inv_claim _factories sp this key factories desc i w Hf Hd Hty Hthis
              (conj Hwf Hsp) Hinit) as [[Hwf' _] _].
  rewrite emplace_instances_present in Hwf'; [done|].
  unfold array_size in Hn. by destruct (_instances (members this w) !! key).
Qed.


Lemma thread_ok_forward w w' th :
  forward w w' -> thread_ok _factories w th -> thread_ok _factories w' th.
Proof.
  intros Hf [Hc Hs]. split; [by eapply control_ok_forward|].
  eapply Forall_impl; [exact Hs|]. intros f. by apply frame_ok_forward.
Qed.

(** *** The slots that wait for their instance *)

Lemma pending_insert (ths : list Thread) t th :
  ths !! t = Some th ->
  exists rest, pending ths ≡ₚ setters th.2 ++ rest /\
    forall th', pending (<[t := th']> ths) ≡ₚ setters th'.2 ++ rest.
Proof.
  intros Ht. exists (pending (take t ths) ++ pending (drop (S t) ths)).
  pose proof (lookup_lt_Some _ _ _ Ht) as Hlt.
  split.
  - rewrite <- (take_drop_middle ths t th Ht) at 1. unfold pending.
    rewrite bind_app, bind_cons.
    by rewrite (assoc_L (++)), (comm (++) (_ ≫= _) (setters _)), <- (assoc_L (++)).
  - intros th'. rewrite insert_take_drop by done. unfold pending.
    rewrite bind_app, bind_cons.
    by rewrite (assoc_L (++)), (comm (++) (_ ≫= _) (setters _)), <- (assoc_L (++)).
Qed.

Lemma setters_cons f stk :
  setters (f :: stk) =
  match f with
  | InSetValue this key i _ => (this, key, i) :: setters stk
  | _ => setters stk
  end.
Proof. by destruct f. Qed.

Lemma setters_pop f stk : sublist (setters stk) (setters (f :: stk)).
Proof. rewrite setters_cons. destruct f; try done. by apply sublist_cons. Qed.

Lemma answered_same w w' a :
  (forall p k i, slot p k i w' = slot p k i w) ->
  answered _factories w a -> answered _factories w' a.
Proof.
  intros Hs. destruct a as [[[p k] i] h]. simpl.
  intros (desc & v & ? & ? & ? & ? & ?). exists desc, v. by rewrite Hs.
Qed.

Lemma answered_forward w w' a :
  forward w w' -> answered _factories w a -> answered _factories w' a.
Proof.
  intros Hf. destruct a as [[[p k] i] h]. simpl.
  intros (desc & v & ? & ? & ? & ? & ?). exists desc, v. split_and!; try done.
  by apply (fw_future _ _ Hf).
Qed.

(** The step of one thread, in general: what is to be shown of the new
    world, of the thread that moved and of the slots it waits for. *)
Lemma Safe_update cfg t th th' w' ev :
  Safe cfg -> threads cfg !! t = Some th ->
  WF w' -> forward (world cfg) w' ->
  thread_ok _factories w' th' ->
  (forall rest, pending (threads cfg) ≡ₚ setters th.2 ++ rest ->
     NoDup (setters th'.2 ++ rest) /\
     forall p k i, (p, k, i) ∈ setters th'.2 ++ rest -> slot p k i w' = mkCS true None) ->
  (forall a, ev = Some a -> answered _factories w' a) ->
  Safe (mkConfig w' (<[t := th']> (threads cfg))
          (answers cfg ++ match ev with Some a => [a] | None => [] end)).
Proof.
  intros [Hwf Hths Hnd Hcl Hans] Ht Hwf' Hfw Hth' Hpend Hev.
  destruct (pending_insert _ _ _ Ht) as (rest & Hold & Hnew).
  destruct (Hpend rest Hold) as [Hnd' Hcl'].
  constructor; simpl.
  - done.
  - apply Forall_insert; [|done].
    eapply Forall_impl; [exact Hths|]. intros x. by apply thread_ok_forward.
  - by rewrite (Hnew th').
  - intros p k i. rewrite (Hnew th'). apply Hcl'.
  - apply Forall_app. split.
    + eapply Forall_impl; [exact Hans|]. intros a. by apply answered_forward.
    + destruct ev as [a|]; [|done]. apply Forall_singleton. by apply Hev.
Qed.

(** A step that writes no slot and claims none. *)
Lemma Safe_quiet cfg t th th' w' ev :
  Safe cfg -> threads cfg !! t = Some th ->
  WF w' -> forward (world cfg) w' ->
  (forall p k i, slot p k i w' = slot p k i (world cfg)) ->
  thread_ok _factories w' th' ->
  sublist (setters th'.2) (setters th.2) ->
  (forall a, ev = Some a -> answered _factories w' a) ->
  Safe (mkConfig w' (<[t := th']> (threads cfg))
          (answers cfg ++ match ev with Some a => [a] | None => [] end)).
Proof.
  intros HS Ht Hwf' Hfw Hsame Hth' Hsub Hev.
  apply (Safe_update cfg t th th' w' ev); try done.
  intros rest Hrest.
  assert (Hs : sublist (setters th'.2 ++ rest) (setters th.2 ++ rest)).
  { by apply sublist_app. }
  split.
  - eapply sublist_NoDup; [|exact Hs]. rewrite <- Hrest. apply (safe_pending _ _ HS).
  - intros p k i Hin. rewrite Hsame. apply (safe_claimed _ _ HS).
    rewrite Hrest. eapply elem_of_sublist; [exact Hin | exact Hs].
Qed.


Lemma thread_ok_lookup cfg t th :
  Safe cfg -> threads cfg !! t = Some th -> thread_ok _factories (world cfg) th.
Proof.
  intros HS Ht. eapply (Forall_lookup_1 _ _ _ _ (safe_threads _ _ HS) Ht).
Qed.

Lemma control_ok_start w desc sp :
  created sp w -> control_ok w (start (create desc) sp).
Proof. intros Hc. unfold start. by destruct (create desc). Qed.

(** The [compare_exchange_strong] that succeeds. *)
Lemma Safe_claim cfg t key this sp i desc stk :
  Safe cfg -> threads cfg !! t = Some (AtExchange key this sp i desc, stk) ->
  initialized (slot this key i (world cfg)) = false ->
  Safe (mkConfig (claimed sp this key i (world cfg))
          (<[t := (start (create desc) sp, InSetValue this key i desc :: stk)]>
             (threads cfg))
          (answers cfg ++ [])).
Proof.
  intros HS Ht Hinit.
  destruct (thread_ok_lookup _ _ _ HS Ht) as [(Hok & Hthis & Hsp) Hstk]. simpl in *.
  pose proof Hok as (Hd & Hty & (n & Hn & Hi) & Hc).
  pose proof (safe_wf _ _ HS) as Hwf.
  assert (Hfw : forward (world cfg) (claimed sp this key i (world cfg))).
  { by eapply forward_claimed. }
  apply (Safe_update cfg t _ _ _ None HS Ht); try done.
  - by eapply WF_claimed.
  - split; simpl.
    + apply control_ok_start. by eapply created_forward.
    + constructor; [by eapply slot_ok_forward|].
      eapply Forall_impl; [exact Hstk|]. intros f. by apply frame_ok_forward.
  - simpl. intros rest Hrest. split.
    + apply NoDup_cons. split.
      * intros Hin. rewrite <- Hrest in Hin.
        rewrite (safe_claimed _ _ HS _ _ _ Hin) in Hinit. done.
      * rewrite <- Hrest. apply (safe_pending _ _ HS).
    + intros p k j Hin. rewrite (slot_claimed _ _ _ _ _ n) by done.
      case_decide as Heq; [done|].
      apply elem_of_cons in Hin as [Hin|Hin]; [done|].
      apply (safe_claimed _ _ HS). by rewrite Hrest.
Qed.

(** [servicePromise.set_value]. *)
Lemma Safe_fulfil cfg t a this key i desc stk :
  Safe cfg -> threads cfg !! t = Some (Returning a, InSetValue this key i desc :: stk) ->
  Safe (mkConfig (fulfilled this key i a (world cfg))
          (<[t := (AtLog this key i desc, stk)]> (threads cfg))
          (answers cfg ++ [])).
Proof.
  intros HS Ht.
  destruct (thread_ok_lookup _ _ _ HS Ht) as [_ Hstk]. simpl in *.
  apply Forall_cons in Hstk as [Hok Hstk]. simpl in Hok.
  pose proof Hok as (Hd & Hty & (n & Hn & Hi) & Hc).
  pose proof (safe_wf _ _ HS) as Hwf.
  destruct (pending_insert _ _ _ Ht) as (rest0 & Hold & _). simpl in Hold.
  assert (Hslot : slot this key i (world cfg) = mkCS true None).
  { apply (safe_claimed _ _ HS). rewrite Hold. apply elem_of_cons. by left. }
  assert (Hfw : forward (world cfg) (fulfilled this key i a (world cfg))).
  { by eapply forward_fulfilled. }
  apply (Safe_update cfg t _ _ _ None HS Ht); try done.
  - by eapply WF_fulfilled.
  - split; simpl.
    + split; [by eapply slot_ok_forward|].
      rewrite (slot_fulfilled _ _ _ _ _ n) by done. rewrite decide_True by done.
      by eexists.
    + eapply Forall_impl; [exact Hstk|]. intros f. by apply frame_ok_forward.
  - simpl. intros rest Hrest.
    pose proof (safe_pending _ _ HS) as Hnd. rewrite Hrest in Hnd.
    apply NoDup_cons in Hnd as [Hnin Hnd]. split; [done|].
    intros p k j Hin. rewrite (slot_fulfilled _ _ _ _ _ n) by done.
    rewrite decide_False by (intros Heq; by rewrite Heq in Hin).
    apply (safe_claimed _ _ HS). rewrite Hrest. apply elem_of_cons. by right.
Qed.


(** A step that leaves the world as it is. *)
Lemma Safe_still cfg t th th' ev :
  Safe cfg -> threads cfg !! t = Some th ->
  thread_ok _factories (world cfg) th' ->
  sublist (setters th'.2) (setters th.2) ->
  (forall a, ev = Some a -> answered _factories (world cfg) a) ->
  Safe (mkConfig (world cfg) (<[t := th']> (threads cfg))
          (answers cfg ++ match ev with Some a => [a] | None => [] end)).
Proof.
  intros HS Ht Hth' Hsub Hev.
  apply (Safe_quiet cfg t th th' (world cfg) ev);
    first [done | apply forward_refl | apply (safe_wf _ _ HS)].
Qed.

Lemma frames_forward w w' stk :
  forward w w' -> Forall (frame_ok w) stk -> Forall (frame_ok w') stk.
Proof.
  intros Hf Hstk. eapply Forall_impl; [exact Hstk|]. intros f. by apply frame_ok_forward.
Qed.

(** Every step of a thread keeps the invariant. *)
Lemma step_thread_Safe cfg t th th' w' ev :
  Safe cfg -> threads cfg !! t = Some th ->
  step_thread _factories th (world cfg) = Some (th', w', ev) ->
  Safe (mkConfig w' (<[t := th']> (threads cfg))
          (answers cfg ++ match ev with Some a => [a] | None => [] end)).
Proof.
  intros HS Ht Hstep.
  pose proof (thread_ok_lookup _ _ _ HS Ht) as [Hc Hstk].
  pose proof (safe_wf _ _ HS) as Hwf.
  destruct th as [c stk]. simpl in Hc, Hstk.
  destruct c; simpl in Hstep.
  - (* AtGetService *)
    destruct (_factories !! ty) as [factories|] eqn:Hf; injection Hstep as <- <- <-.
    + apply (Safe_still cfg t _ _ None HS Ht); try done.
      split; [|done]. simpl. split_and!; try done.
      destruct (head factories); [apply owner_for_this | by left].
    + by apply (Safe_still cfg t _ _ None HS Ht).
  - (* AtGetServices *)
    destruct (_factories !! ty) as [factories|] eqn:Hf; injection Hstep as <- <- <-.
    + by apply (Safe_still cfg t _ _ None HS Ht).
    + by apply (Safe_still cfg t _ _ None HS Ht).
  - (* AtLoop *)
    destruct Hc as [Hf Hself].
    destruct idxs as [|i rest]; injection Hstep as <- <- <-.
    + by apply (Safe_still cfg t _ _ None HS Ht).
    + apply (Safe_still cfg t _ _ None HS Ht); try done.
      split; simpl.
      * split_and!; try done.
        destruct (factories !! i); [apply owner_for_this | by left].
      * by constructor.
  - (* AtResolve *)
    destruct Hc as (Hf & Hthis & Hsp).
    destruct (vec_at factories index) as [desc|] eqn:Hat.
    2:{ injection Hstep as <- <- <-. by apply (Safe_still cfg t _ _ None HS Ht). }
    pose proof (vec_at_Some _ _ _ Hat) as Hd.
    assert (Hdesc : descriptor _factories key (N.to_nat index) = Some desc).
    { unfold descriptor. by rewrite Hf. }
    assert (Hcached : type desc <> Transient ->
      Safe (mkConfig (emplace_instances this key (length factories) (world cfg))
              (<[t := (AtExchange key this sp (N.to_nat index) desc, stk)]> (threads cfg))
              (answers cfg ++ []))).
    { intros Hty.
      destruct (Inv_emplace _factories sp this key factories (world cfg) Hf Hthis
                  (conj Hwf Hsp)) as [[Hwf' Hsp'] _].
      apply (Safe_quiet cfg t _ _ _ None HS Ht);
        [done | apply forward_emplace_instances
         | intros; apply slot_emplace_instances | | done | done].
      split; simpl; [|by eapply frames_forward; [apply forward_emplace_instances|]].
      assert (Hcr : created this (emplace_instances this key (length factories)
                                    (world cfg))).
      { eapply created_forward; [apply forward_emplace_instances|].
        by destruct Hthis as [->| ->]. }
      assert (Harr : exists n,
                 array_size this key (emplace_instances this key (length factories)
                                        (world cfg)) = Some n /\ N.to_nat index < n).
      { pose proof (lookup_lt_Some _ _ _ Hd) as Hlt.
        rewrite array_size_emplace_instances, decide_True by done.
        destruct (array_size this key (world cfg)) as [m|] eqn:Hm; [|by eauto].
        destruct (wf_arrays _ _ Hwf _ _ _ Hm) as (fs & Hfs & ->).
        exists (length fs). split; [done|]. congruence. }
      by repeat split. }
    destruct (type desc) eqn:Hty; injection Hstep as <- <- <-.
    1,2: by apply Hcached.
    destruct (Inv_transient _factories sp this key factories desc (N.to_nat index)
                (world cfg) Hf Hd Hty Hthis (conj Hwf Hsp)) as [[Hwf' Hsp'] _].
    apply (Safe_quiet cfg t _ _ _ None HS Ht);
      [done | apply forward_record_invocation
       | intros; apply slot_record_invocation | | done | done].
    split; simpl; [by apply control_ok_start|].
      constructor; [done|]. by eapply frames_forward; [apply forward_record_invocation|].
  - (* AtExchange *)
    destruct (initialized (slot this key i (world cfg))) eqn:Hinit;
      injection Hstep as <- <- <-.
    + destruct Hc as (Hok & _). by apply (Safe_still cfg t _ _ None HS Ht).
    + by apply Safe_claim.
  - (* AtClosure *)
    destruct c as [cimpl cargs| | | |]; injection Hstep as <- <- <-.
    + destruct (Inv_alloc _factories sp (mkObj cimpl cargs) (world cfg) (conj Hwf Hc))
        as [[Hwf' _] _].
      apply (Safe_quiet cfg t _ _ _ None HS Ht);
        [done | apply forward_alloc | intros; apply slot_alloc | | done | done].
      split; [done|]. simpl. by eapply frames_forward; [apply forward_alloc|].
    + apply (Safe_still cfg t _ _ None HS Ht); try done.
      split; [done|]. by constructor.
    + apply (Safe_still cfg t _ _ None HS Ht); try done.
      split; [done|]. by constructor.
    + by apply (Safe_still cfg t _ _ None HS Ht).
    + by apply (Safe_still cfg t _ _ None HS Ht).
  - (* AtLog *)
    destruct Hc as [Hok [v Hv]]. rewrite Hv in Hstep. injection Hstep as <- <- <-.
    pose proof Hok as (_ & _ & _ & Hcr).
    apply (Safe_quiet cfg t _ _ _ None HS Ht);
      [by apply WF_push_order | apply forward_push_order
       | intros; apply slot_push_order | | done | done].
    split; simpl.
    + eapply slot_ok_forward; [apply forward_push_order | done].
    + by eapply frames_forward; [apply forward_push_order|].
  - (* AtGet *)
    pose proof Hc as (Hd & Hty & _).
    destruct (serviceFuture (slot this key i (world cfg))) as [v|] eqn:Hv; [|done].
    destruct (decide (v = AnyNull)) as [->|Hnn].
    { injection Hstep as <- <- <-. by apply (Safe_still cfg t _ _ None HS Ht). }
    assert (Hstep' : match convert desc v with
                     | Some h => Some ((Returning h, stk), world cfg, Some (this, key, i, h))
                     | None => Some ((Throwing bad_any_cast, stk), world cfg, None)
                     end = Some (th', w', ev)).
    { by destruct v. }
    clear Hstep.
    destruct (convert desc v) as [h|] eqn:Hconv; injection Hstep' as <- <- <-.
    2:{ by apply (Safe_still cfg t _ _ None HS Ht). }
    apply (Safe_still cfg t _ _ (Some (this, key, i, h)) HS Ht); try done.
    intros a [= <-]. by exists desc, v.
  - (* Returning *)
    destruct stk as [|f stk]; [done|]. destruct f; try done.
    + injection Hstep as <- <- <-. apply Forall_cons in Hstk as [Hf Hstk].
      by apply (Safe_still cfg t _ _ None HS Ht).
    + injection Hstep as <- <- <-. apply Forall_cons in Hstk as [Hf Hstk].
      by apply (Safe_still cfg t _ _ None HS Ht).
    + injection Hstep as <- <- <-. by apply Safe_fulfil.
    + apply Forall_cons in Hstk as [Hf Hstk].
      destruct (convert desc a); injection Hstep as <- <- <-.
      * by apply (Safe_still cfg t _ _ None HS Ht).
      * by apply (Safe_still cfg t _ _ None HS Ht).
  - (* ReturningMany *)
    destruct stk as [|f stk]; [done|]. destruct f; try done.
    injection Hstep as <- <- <-. apply Forall_cons in Hstk as [Hf Hstk].
    by apply (Safe_still cfg t _ _ None HS Ht).
  - (* Throwing *)
    destruct stk as [|f stk]; [done|]. injection Hstep as <- <- <-.
    apply Forall_cons in Hstk as [Hf Hstk].
    apply (Safe_still cfg t _ _ None HS Ht); try done.
    apply setters_pop.
  - done.
Qed.


Lemma step_thread_forward cfg t th th' w' ev :
  Safe cfg -> threads cfg !! t = Some th ->
  step_thread _factories th (world cfg) = Some (th', w', ev) ->
  forward (world cfg) w'.
Proof.
  intros HS Ht Hstep.
  pose proof (thread_ok_lookup _ _ _ HS Ht) as [Hc Hstk].
  pose proof (safe_wf _ _ HS) as Hwf.
  destruct th as [c stk]. simpl in Hc, Hstk.
  destruct c; simpl in Hstep.
  - destruct (_factories !! ty); injection Hstep as <- <- <-; apply forward_refl.
  - destruct (_factories !! ty); injection Hstep as <- <- <-; apply forward_refl.
  - destruct idxs; injection Hstep as <- <- <-; apply forward_refl.
  - destruct (vec_at factories index) as [desc|];
      [|injection Hstep as <- <- <-; apply forward_refl].
    destruct (type desc); injection Hstep as <- <- <-;
      first [apply forward_emplace_instances | apply forward_record_invocation].
  - destruct Hc as ((Hd & Hty & (n & Hn & Hi) & Hcr) & _).
    destruct (initialized (slot this key i (world cfg))) eqn:Hinit;
      injection Hstep as <- <- <-; [apply forward_refl|].
    by eapply forward_claimed.
  - destruct c; injection Hstep as <- <- <-;
      first [apply forward_alloc | apply forward_refl].
  - destruct (serviceFuture (slot this key i (world cfg))); [|done].
    injection Hstep as <- <- <-. apply forward_push_order.
  - destruct (serviceFuture (slot this key i (world cfg))) as [v|]; [|done].
    destruct v; try (injection Hstep as <- <- <-; apply forward_refl).
    all: destruct (convert desc _); injection Hstep as <- <- <-; apply forward_refl.
  - destruct stk as [|f stk]; [done|]. destruct f; try done.
    + injection Hstep as <- <- <-; apply forward_refl.
    + injection Hstep as <- <- <-; apply forward_refl.
    + injection Hstep as <- <- <-.
      apply Forall_cons in Hstk as [(Hd & Hty & (n & Hn & Hi) & Hcr) Hstk].
      destruct (pending_insert _ _ _ Ht) as (rest0 & Hold & _). simpl in Hold.
      eapply forward_fulfilled; [done..|].
      apply (safe_claimed _ _ HS). rewrite Hold. apply elem_of_cons. by left.
    + destruct (convert desc a); injection Hstep as <- <- <-; apply forward_refl.
  - destruct stk as [|f stk]; [done|]. destruct f; try done.
    injection Hstep as <- <- <-; apply forward_refl.
  - destruct stk as [|f stk]; [done|]. injection Hstep as <- <- <-; apply forward_refl.
  - done.
Qed.

Lemma forward_createScope w : WF w -> forward w (createScope w).2.
Proof.
  intros Hwf. pose proof (wf_scopes _ _ Hwf) as Hb. constructor; intros *.
  - simpl. lia.
  - unfold array_size. by rewrite members_createScope.
  - by rewrite slot_createScope.
  - by rewrite slot_createScope.
Qed.

Lemma exists_in_created p w : exists_in p w = true -> created p w.
Proof. destruct p; simpl; [done|]. by intros ?%bool_decide_eq_true. Qed.

Lemma pending_app ths1 ths2 : pending (ths1 ++ ths2) = pending ths1 ++ pending ths2.
Proof. unfold pending. apply bind_app. Qed.

(** Every action keeps the invariant, in a world that comes later, and
    takes no answer back. *)
Lemma act_Safe a cfg cfg' :
  Safe cfg -> act _factories a cfg = Some cfg' ->
  Safe cfg' /\ forward (world cfg) (world cfg') /\
  answers cfg `prefix_of` answers cfg'.
Proof.
  intros HS Hact. unfold act in Hact.
  destruct (existsb is_undefined (threads cfg)); [done|].
  destruct a as [t|r|].
  - destruct (threads cfg !! t) as [th|] eqn:Ht; [|done].
    destruct (step_thread _factories th (world cfg)) as [[[th' w'] ev]|] eqn:Hstep;
      [|done].
    injection Hact as <-. split_and!.
    + by eapply step_thread_Safe.
    + by eapply step_thread_forward.
    + simpl. by apply prefix_app_r.
  - destruct (exists_in (receiver r) (world cfg)) eqn:Hex; [|done].
    injection Hact as <-. split_and!; [|apply forward_refl|done].
    destruct HS as [Hwf Hths Hnd Hcl Hans]. constructor; simpl; try done.
    + apply Forall_app. split; [done|]. apply Forall_singleton.
      apply exists_in_created in Hex. by destruct r.
    + rewrite pending_app. destruct r; simpl; by rewrite app_nil_r.
    + intros p k i. rewrite pending_app. destruct r; simpl; rewrite app_nil_r; apply Hcl.
  - injection Hact as <-.
    pose proof (forward_createScope _ (safe_wf _ _ HS)) as Hfw.
    split_and!; [|done|done].
    destruct HS as [Hwf Hths Hnd Hcl Hans].
    constructor; cbn [world threads answers]; try done.
    + by apply WF_createScope.
    + eapply Forall_impl; [exact Hths|]. intros th. by apply thread_ok_forward.
    + intros p k i Hin. rewrite <- (Hcl p k i Hin).
      apply (slot_createScope p k i (world cfg)), (wf_scopes _ _ Hwf).
    + eapply Forall_impl; [exact Hans|]. intros a. by apply answered_forward.
Qed.

Lemma Safe_init heap0 : Safe (init heap0).
Proof.
  constructor; simpl.
  - apply WF_World_new.
  - constructor.
  - constructor.
  - by intros p k i ?%elem_of_nil.
  - constructor.
Qed.

Lemma run_app schedule1 schedule2 cfg :
  run _factories (schedule1 ++ schedule2) cfg =
  run _factories schedule2 (run _factories schedule1 cfg).
Proof. unfold run. apply foldl_app. Qed.

Lemma run_Safe schedule cfg :
  Safe cfg ->
  Safe (run _factories schedule cfg) /\
  forward (world cfg) (world (run _factories schedule cfg)) /\
  answers cfg `prefix_of` answers (run _factories schedule cfg).
Proof.
  revert cfg. induction schedule as [|a schedule IH]; intros cfg HS.
  { split_and!; [done | apply forward_refl | done]. }
  simpl. destruct (act _factories a cfg) as [cfg'|] eqn:Hact; simpl; [|by apply IH].
  destruct (act_Safe _ _ _ HS Hact) as (HS' & Hfw & Hpre).
  destruct (IH cfg' HS') as (HS'' & Hfw' & Hpre').
  split_and!; [done | by eapply forward_trans | by etrans].
Qed.

(** The handles of a slot are conversions of its one instance. *)
Lemma handles_answered cfg p k i h :
  Safe cfg -> h ∈ handles p k i cfg ->
  exists desc v, descriptor _factories k i = Some desc /\ type desc <> Transient /\
    slot p k i (world cfg) = mkCS true (Some v) /\ v <> AnyNull /\
    convert desc v = Some h.
Proof.
  intros HS Hin. unfold handles in Hin.
  apply list_elem_of_omap in Hin as ([[[p' k'] i'] h'] & Hin & Heq). simpl in Heq.
  case_decide as Hd; [|done]. injection Heq as ->. injection Hd as -> -> ->.
  pose proof (safe_answers _ _ HS) as Hans.
  rewrite Forall_forall in Hans. destruct (Hans _ Hin) as (desc & v & ? & ? & Hv & ? & ?).
  exists desc, v. split_and!; try done.
  pose proof (wf_future _ _ (safe_wf _ _ HS) _ _ _ _ Hv) as Hi.
  destruct (slot p k i (world cfg)) as [b o]. simpl in *. by subst.
Qed.

End Safety.

(** *** One thread alone *)

Section LoneThread.
Variable _factories : Registry.

Local Abbreviation moves := (Threads.moves _factories).
Local Abbreviation arrives := (Threads.arrives _factories).

Lemma moves_step th w th' w' ev :
  step_thread _factories th w = Some (th', w', ev) -> moves (th, w) (th', w').
Proof. intros H. by exists ev. Qed.

Lemma arrives_step {A} (ret : A -> Control) stk x y o :
  moves x y -> arrives ret stk y o -> arrives ret stk x o.
Proof.
  intros Hm. destruct o as [a w'|e w'| | |]; simpl; try done.
  - intros H. by eapply rtc_l.
  - intros H. by eapply rtc_l.
  - intros (z & H & Hw). exists z. split; [by eapply rtc_l | done].
  - intros (stk' & w' & H). exists stk', w'. by eapply rtc_l.
Qed.

Lemma arrives_bind {A B} (retA : A -> Control) (retB : B -> Control) f stk x
    (o : outcome A) (k : A -> World -> outcome B) :
  arrives retA (f :: stk) x o ->
  (forall a w', o = Done a w' -> arrives retB stk ((retA a, f :: stk), w') (k a w')) ->
  arrives retB stk x
    match o with
    | Done a w' => k a w'
    | Raised e w' => Raised e w'
    | Blocked => Blocked
    | OutOfFuel => OutOfFuel
    | Undefined => Undefined
    end.
Proof.
  destruct o as [a w'|e w'| | |]; simpl; intros Ho Hk; try done.
  - specialize (Hk a w' eq_refl).
    destruct (k a w') as [b w''|e w''| | |]; simpl in *; try done.
    + by etrans.
    + by etrans.
    + destruct Hk as (z & H & Hw). exists z. split; [by etrans | done].
    + destruct Hk as (stk' & w'' & H). exists stk', w''. by etrans.
  - eapply rtc_r; [exact Ho|]. by exists None.
Qed.

Section Lookup.
Variable res : Resolver.
Hypothesis res_arrives : forall key factories this sp index stk w,
  arrives Returning stk ((AtResolve key factories this sp index, stk), w)
    (res key factories this sp index w).

Lemma getService_with_arrives self ty stk w :
  arrives Returning stk ((AtGetService self ty, stk), w)
    (getService_with _factories res self ty w).
Proof using All.
  unfold getService_with.
  destruct (_factories !! ty) as [factories|] eqn:Hf.
  - eapply arrives_step.
    { eapply (moves_step _ _ _ _ None). simpl. rewrite Hf. reflexivity. }
    destruct self as [|id]; simpl.
    + replace (match head factories with Some _ => Root | None => Root end)
        with Root by (by destruct (head factories)).
      apply res_arrives.
    + destruct (head factories) as [front|]; simpl.
      * destruct (is_Scoped (type front)); apply res_arrives.
      * apply res_arrives.
  - apply rtc_once. eapply (moves_step _ _ _ _ None). simpl. by rewrite Hf.
Qed.

Lemma getServices_loop_arrives self ty factories idxs acc stk w :
  arrives ReturningMany stk ((AtLoop self ty factories idxs acc, stk), w)
    (getServices_loop res self ty factories idxs acc w).
Proof using All.
  revert acc w. induction idxs as [|i rest IH]; intros acc w.
  { apply rtc_once. by eapply (moves_step _ _ _ _ None). }
  eapply arrives_step.
  { by eapply (moves_step _ _ _ _ None). }
  cbn [getServices_loop].
  set (this := match factories !! i with
               | Some desc => owner_for self (type desc)
               | None => Root
               end).
  set (call := match self with
               | Root => res ty factories Root Root (N.of_nat i)
               | Scope id => _
               end).
  assert (Hcall : call = res ty factories this self (N.of_nat i)).
  { unfold call, this. destruct self as [|id]; simpl.
    - by destruct (factories !! i).
    - destruct (factories !! i) as [desc|]; [|done]. by destruct (is_Scoped (type desc)). }
  rewrite Hcall.
  apply (arrives_bind Returning ReturningMany (InLoop self ty factories rest acc) stk _
           (res ty factories this self (N.of_nat i) w)
           (fun a w' => getServices_loop res self ty factories rest (acc ++ [a]) w')).
  - apply res_arrives.
  - intros a w' _. eapply arrives_step; [|apply IH].
    by eapply (moves_step _ _ _ _ None).
Qed.

Lemma getServices_with_arrives self ty stk w :
  arrives ReturningMany stk ((AtGetServices self ty, stk), w)
    (getServices_with _factories res self ty w).
Proof using All.
  unfold getServices_with.
  destruct (_factories !! ty) as [factories|] eqn:Hf.
  - eapply arrives_step; [|apply getServices_loop_arrives].
    eapply (moves_step _ _ _ _ None). simpl. by rewrite Hf.
  - apply rtc_once. eapply (moves_step _ _ _ _ None). simpl. by rewrite Hf.
Qed.

Lemma runClosure_arrives c sp stk w :
  arrives Returning stk ((AtClosure c sp, stk), w)
    (runClosure (getService_with _factories res sp) (getServices_with _factories res sp)
       c w).
Proof using All.
  revert stk w. induction c as [impl args|t k IH|t k IH|e|]; intros stk w.
  - apply rtc_once. by eapply (moves_step _ _ _ _ None).
  - eapply arrives_step; [by eapply (moves_step _ _ _ _ None)|].
    cbn [runClosure].
    apply (arrives_bind Returning Returning (InClosure sp k) stk _
             (getService_with _factories res sp t w)
             (fun a w' => runClosure (getService_with _factories res sp)
                            (getServices_with _factories res sp) (k a) w')).
    + apply getService_with_arrives.
    + intros a w' _. eapply arrives_step; [|apply IH].
      by eapply (moves_step _ _ _ _ None).
  - eapply arrives_step; [by eapply (moves_step _ _ _ _ None)|].
    cbn [runClosure].
    apply (arrives_bind ReturningMany Returning (InClosureMany sp k) stk _
             (getServices_with _factories res sp t w)
             (fun l w' => runClosure (getService_with _factories res sp)
                            (getServices_with _factories res sp) (k l) w')).
    + apply getServices_with_arrives.
    + intros l w' _. eapply arrives_step; [|apply IH].
      by eapply (moves_step _ _ _ _ None).
  - apply rtc_once. by eapply (moves_step _ _ _ _ None).
  - apply rtc_once. by eapply (moves_step _ _ _ _ None).
Qed.

Lemma runFactory_arrives f sp stk w :
  arrives Returning stk ((start f sp, stk), w)
    (runFactory (getService_with _factories res sp) (getServices_with _factories res sp)
       f w).
Proof using All.
  destruct f as [c|p]; simpl.
  - apply runClosure_arrives.
  - apply rtc_refl.
Qed.

End Lookup.

Lemma convert_arrives desc v stk w :
  arrives Returning stk ((Returning v, InConvert desc :: stk), w) (apply_convert desc v w).
Proof.
  unfold apply_convert.
  destruct (convert desc v) as [h|] eqn:Hconv; simpl.
  - apply rtc_once. eapply (moves_step _ _ _ _ None). simpl. by rewrite Hconv.
  - apply rtc_once. eapply (moves_step _ _ _ _ None). simpl. by rewrite Hconv.
Qed.

(** The last [serviceFuture.get()] and the conversion. *)
Lemma get_arrives this key i desc v stk w :
  serviceFuture (slot this key i w) = Some v ->
  arrives Returning stk ((AtGet this key i desc, stk), w) (convert_deref desc v w).
Proof.
  intros Hv. destruct (decide (v = AnyNull)) as [->|Hnn].
  { simpl. exists stk, w. apply rtc_once. eapply (moves_step _ _ _ _ None).
    simpl. by rewrite Hv. }
  assert (Hc : convert_deref desc v w = apply_convert desc v w) by by destruct v.
  rewrite Hc. unfold apply_convert.
  destruct (convert desc v) as [h|] eqn:Hconv; simpl.
  - apply rtc_once. eapply (moves_step _ _ _ _ (Some (this, key, i, h))).
    simpl. rewrite Hv, Hconv. by destruct v.
  - apply rtc_once. eapply (moves_step _ _ _ _ None).
    simpl. rewrite Hv, Hconv. by destruct v.
Qed.

(** The static [getService] of [Current] is the run of one thread
    through the code, from the call to the return. *)
Lemma resolve_arrives fuel key factories this sp index stk w :
  arrives Returning stk ((AtResolve key factories this sp index, stk), w)
    (resolve _factories fuel key factories this sp index w).
Proof.
  revert key factories this sp index stk w.
  induction fuel as [|fuel IH]; intros key factories this sp index stk w; [done|].
  cbn [resolve].
  destruct (vec_at factories index) as [desc|] eqn:Hat.
  2:{ apply rtc_once. eapply (moves_step _ _ _ _ None). simpl. by rewrite Hat. }
  set (run := runFactory (getService_with _factories (resolve _factories fuel) sp)
                (getServices_with _factories (resolve _factories fuel) sp)
                (create desc)).
  assert (Hrun : forall stk w,
             arrives Returning stk ((start (create desc) sp, stk), w) (run w)).
  { intros. by apply runFactory_arrives. }
  clearbody run.
  assert (Hcached : type desc <> Transient ->
    arrives Returning stk
      ((AtExchange key this sp (N.to_nat index) desc, stk),
       emplace_instances this key (length factories) w)
      (let w1 := emplace_instances this key (length factories) w in
       if initialized (slot this key (N.to_nat index) w1) then
         match serviceFuture (slot this key (N.to_nat index) w1) with
         | Some v => convert_deref desc v w1
         | None => Blocked
         end
       else
         let w2 := record_invocation (mkInv this key (N.to_nat index) sp)
                     (set_slot this key (N.to_nat index) (mkCS true None) w1) in
         match run w2 with
         | Done v w3 =>
             let w4 := set_slot this key (N.to_nat index)
                         (mkCS (initialized (slot this key (N.to_nat index) w3)) (Some v))
                         w3 in
             match serviceFuture (slot this key (N.to_nat index) w4) with
             | Some v' => convert_deref desc v' (push_order this v' w4)
             | None => Blocked
             end
         | Raised e w3 => Raised e w3
         | Blocked => Blocked
         | OutOfFuel => OutOfFuel
         | Undefined => Undefined
         end)).
  { intros _. cbv zeta.
    set (w1 := emplace_instances this key (length factories) w).
    set (i := N.to_nat index).
    destruct (initialized (slot this key i w1)) eqn:Hinit.
    - eapply arrives_step.
      { eapply (moves_step _ _ _ _ None). simpl. by rewrite Hinit. }
      destruct (serviceFuture (slot this key i w1)) as [v|] eqn:Hv.
      + by apply get_arrives.
      + simpl. eexists. split; [apply rtc_refl|]. done.
    - eapply arrives_step.
      { eapply (moves_step _ _ _ _ None). simpl. by rewrite Hinit. }
      apply (arrives_bind Returning Returning (InSetValue this key i desc) stk _
               (run (claimed sp this key i w1))
               (fun v w3 =>
                  match serviceFuture (slot this key i (fulfilled this key i v w3)) with
                  | Some v' =>
                      convert_deref desc v' (push_order this v' (fulfilled this key i v w3))
                  | None => Blocked
                  end)).
      + apply Hrun.
      + intros v w3 _. eapply arrives_step.
        { by eapply (moves_step _ _ _ _ None). }
        destruct (serviceFuture (slot this key i (fulfilled this key i v w3)))
          as [v'|] eqn:Hv'.
        * eapply arrives_step.
          { eapply (moves_step _ _ _ _ None). simpl. by rewrite Hv'. }
          apply get_arrives. by rewrite slot_push_order.
        * simpl. eexists. split; [apply rtc_refl|]. done. }
  destruct (type desc) eqn:Hty.
  1,2: eapply arrives_step;
    [eapply (moves_step _ _ _ _ None); simpl; by rewrite Hat, Hty | by apply Hcached].
  eapply arrives_step.
  { eapply (moves_step _ _ _ _ None). simpl. by rewrite Hat, Hty. }
  apply (arrives_bind Returning Returning (InConvert desc) stk _
           (run (record_invocation (mkInv this key (N.to_nat index) sp) w))
           (fun v w' => apply_convert desc v w')).
  - apply Hrun.
  - intros v w' _. apply convert_arrives.
Qed.

Lemma getService_arrives fuel self ty stk w :
  arrives Returning stk ((AtGetService self ty, stk), w)
    (getService _factories fuel self ty w).
Proof. apply getService_with_arrives. intros. apply resolve_arrives. Qed.

Lemma getServices_arrives fuel self ty stk w :
  arrives ReturningMany stk ((AtGetServices self ty, stk), w)
    (getServices _factories fuel self ty w).
Proof. apply getServices_with_arrives. intros. apply resolve_arrives. Qed.

End LoneThread.

Section LoneRun.
Variable _factories : Registry.

Local Abbreviation moves := (Threads.moves _factories).
Local Abbreviation run := (Threads.run _factories).

Lemma existsb_insert {A} (f : A -> bool) (l : list A) t x :
  existsb f l = false -> f x = false -> existsb f (<[t := x]> l) = false.
Proof.
  revert t. induction l as [|a l IH]; intros t Hl Hx; [done|].
  simpl in Hl. apply orb_false_iff in Hl as [Ha Hl].
  destruct t as [|t]; simpl; apply orb_false_iff; auto.
Qed.

Lemma moves_not_undefined x y : moves x y -> is_undefined x.1 = false.
Proof.
  intros [ev H]. destruct x as [[c stk] w]. simpl in *. unfold is_undefined. simpl.
  by destruct c.
Qed.

Lemma alone_S t n : alone t (S n) = Step t :: alone t n.
Proof. done. Qed.

(** The moves of a thread are the steps of a program in which this
    thread alone is scheduled. *)
Lemma moves_run t x y :
  rtc moves x y ->
  forall cfg, threads cfg !! t = Some x.1 -> world cfg = x.2 ->
    existsb is_undefined (threads cfg) = false ->
    exists n, world (run (alone t n) cfg) = y.2 /\
              threads (run (alone t n) cfg) = <[t := y.1]> (threads cfg).
Proof.
  intros Hrtc. induction Hrtc as [x|x x' y Hm Hrtc IH]; intros cfg Ht Hw Hu.
  { exists 0. split; [done|]. simpl. by rewrite list_insert_id. }
  pose proof Hm as [ev Hstep].
  assert (Hact : act _factories (Step t) cfg =
                 Some (mkConfig x'.2 (<[t := x'.1]> (threads cfg))
                         (answers cfg ++ match ev with Some a => [a] | None => [] end))).
  { unfold act. rewrite Hu, Ht, Hw, Hstep. by destruct x'. }
  inversion Hrtc as [|? x'' ? Hm' Hrtc']; subst.
  - exists 1. simpl. by rewrite Hact.
  - destruct (IH (mkConfig x'.2 (<[t := x'.1]> (threads cfg))
                    (answers cfg ++ match ev with Some a => [a] | None => [] end)))
      as (n & Hwn & Htn); simpl.
    + apply list_lookup_insert_eq. by eapply lookup_lt_Some.
    + done.
    + apply existsb_insert; [done|]. by eapply moves_not_undefined.
    + exists (S n). rewrite alone_S. simpl. rewrite Hact. simpl.
      split; [done|]. rewrite Htn. simpl. by rewrite list_insert_insert_eq.
Qed.

Lemma arrives_ends_as {A} (ret : A -> Control) (r : Request) (w : World) (o : outcome A) :
  exists_in (receiver r) w = true ->
  (forall a, is_undefined (ret a, []) = false) ->
  arrives _factories ret [] (enter r, w) o ->
  exists n, ends_as ret (served _factories r w n) o.
Proof.
  intros Hex Hret Harr.
  assert (Hcall : forall n, served _factories r w n =
                            run (alone 0 n) (mkConfig w [enter r] [])).
  { intros n. unfold served. simpl. unfold act. simpl. by rewrite Hex. }
  assert (Hrun : forall y, rtc moves (enter r, w) y ->
            exists n, world (served _factories r w n) = y.2 /\
                      threads (served _factories r w n) = [y.1]).
  { intros y Hy.
    destruct (moves_run 0 _ _ Hy (mkConfig w [enter r] [])) as (n & Hwn & Htn);
      simpl; try done.
    - by destruct r.
    - exists n. by rewrite Hcall. }
  destruct o as [a w'|e w'| | |]; simpl in *.
  - destruct (Hrun _ Harr) as (n & ? & ?). by exists n.
  - destruct (Hrun _ Harr) as (n & ? & ?). by exists n.
  - destruct Harr as (y & Hy & Hwait). destruct (Hrun _ Hy) as (n & Hwn & Htn).
    exists n, y.1. split; [done|]. rewrite Hwn. by destruct y.
  - by exists 0.
  - destruct Harr as (stk' & w' & Hy). destruct (Hrun _ Hy) as (n & Hwn & Htn).
    exists n. by rewrite Htn.
Qed.

End LoneRun.

(** X25.  The calls of [Current] are the programs of one thread: whatever
    [getService] or [getServices] returns or raises, with any fuel, and
    whatever world it leaves, the thread that makes this request and
    runs alone arrives, after some number of steps, at the return of
    this value or in front of this exception, in this world; a call that
    is [Blocked] is a thread waiting in [serviceFuture.get()] for a value
    that is not there, and one that is [Undefined] a thread that
    dereferenced an empty pointer. *)
Theorem a_call_is_the_run_of_one_thread
    (_factories : Registry) (fuel : nat) (self : Provider) (ty : type_index)
    (w : World) :
  exists_in self w = true ->
  (exists n, ends_as Returning (served _factories (GetService self ty) w n)
               (getService _factories fuel self ty w)) /\
  (exists n, ends_as ReturningMany (served _factories (GetServices self ty) w n)
               (getServices _factories fuel self ty w)).
Proof.
  intros Hex. split.
  - apply arrives_ends_as; [done..|]. apply getService_arrives.
  - apply arrives_ends_as; [done..|]. apply getServices_arrives.
Qed.

Lemma a_call_is_the_run_of_one_thread_witness :
  (getService registry_chain 4 Root "D" (World_new []) =
     Done (AnyRef 3) (world (served registry_chain (GetService Root "D") (World_new []) 34)) /\
   threads (served registry_chain (GetService Root "D") (World_new []) 34) =
     [(Returning (AnyRef 3), [])]) /\
  (exists n, ends_as Returning (served registry_chain (GetService Root "D") (World_new []) n)
               (getService registry_chain 4 Root "D" (World_new []))) /\
  (exists n, ends_as ReturningMany
               (served registry_chain (GetServices Root "D") (World_new []) n)
               (getServices registry_chain 4 Root "D" (World_new []))).
Proof.
  split; [vm_compute; split; reflexivity|].
  apply (a_call_is_the_run_of_one_thread registry_chain 4 Root "D" (World_new [])).
  reflexivity.
Defined.


(** *** The claims about programs of several threads *)

Lemma handles_prefix p k i cfg cfg' :
  answers cfg `prefix_of` answers cfg' -> handles p k i cfg `prefix_of` handles p k i cfg'.
Proof.
  intros [l Hl]. unfold handles. rewrite Hl, omap_app. by apply prefix_app_r.
Qed.

Lemma all_equal_replicate {A} (l : list A) (d : A) :
  (forall x y, x ∈ l -> y ∈ l -> x = y) ->
  l = replicate (length l) (default d (head l)).
Proof.
  intros Heq. destruct l as [|a l]; [done|]. simpl. f_equal.
  assert (Hall : forall x, x ∈ l -> x = a).
  { intros x Hx. apply Heq; [by right | by left]. }
  clear Heq. induction l as [|b l IH]; [done|]. simpl.
  rewrite (Hall b) by by left. f_equal. apply IH. intros x Hx. apply Hall. by right.
Qed.

(** What holds of a slot in every program. *)
Lemma one_instance_in_every_program _factories heap0 schedule p k i :
  cached_at _factories k i ->
  let cfg := run _factories schedule (init heap0) in
  calls p k i (world cfg) <= 1 /\
  (handles p k i cfg = [] \/ calls p k i (world cfg) = 1) /\
  handles p k i cfg =
    replicate (length (handles p k i cfg)) (default AnyEmpty (head (handles p k i cfg))) /\
  match head (handles p k i cfg) with
  | Some h => exists desc v, descriptor _factories k i = Some desc /\
                slot p k i (world cfg) = mkCS true (Some v) /\ convert desc v = Some h
  | None => True
  end.
Proof.
  intros Hcached cfg.
  destruct (run_Safe _factories schedule (init heap0) (Safe_init _ heap0))
    as (HS & _ & _). fold cfg in HS.
  pose proof (wf_calls _ _ (safe_wf _ _ HS) p k i Hcached) as Hcalls.
  split_and!.
  - rewrite Hcalls. destruct (initialized _); lia.
  - destruct (handles p k i cfg) as [|h l] eqn:Hh; [by left|]. right.
    destruct (handles_answered _factories cfg p k i h HS) as (desc & v & _ & _ & Hs & _).
    { rewrite Hh. by left. }
    by rewrite Hcalls, Hs.
  - apply all_equal_replicate. intros x y Hx Hy.
    destruct (handles_answered _factories cfg p k i x HS Hx)
      as (desc & v & Hd & _ & Hs & _ & Hconv).
    destruct (handles_answered _factories cfg p k i y HS Hy)
      as (desc' & v' & Hd' & _ & Hs' & _ & Hconv').
    congruence.
  - destruct (head (handles p k i cfg)) as [h|] eqn:Hh; [|done].
    destruct (handles_answered _factories cfg p k i h HS) as (desc & v & ? & _ & ? & _ & ?).
    { destruct (handles p k i cfg); [done|]. injection Hh as ->. by left. }
    by exists desc, v.
Qed.

(** C1.  For every owner [p], type key [k] and index [i] of a Singleton
    or Scoped descriptor.

    In every program over a built provider, that is after any list of
    actions, each a call of [getService] or [getServices] by a new
    thread, a new scope, or the next step of one of the threads, in any
    interleaving: the factory ran at most once for [(p, k, i)], and
    exactly once if a request for this slot has returned; the handles
    these requests returned are all the same one, the conversion of the
    one instance in the slot; and they are still a prefix of the handles
    returned after any further actions.

    When one thread runs the requests one after another: a request that
    resolved [(p, k, i)] and returned [r1] makes every later request for
    this slot, from the root or a scope and however many other requests
    and new scopes lie between, return [r1] again, without a call of the
    factory and without a change of the world. *)
Theorem C1_one_instance_per_owner_key_index
    (_factories : Registry) (heap0 : list Obj)
    (p : Provider) (k : type_index) (i : nat)
    (schedule later_schedule : list Action)
    (w : World) (factories : FactoryFunctionCollection)
    (ctx1 : Provider) (fuel1 : nat) (r1 : any) (w1 w2 : World)
    (ctx2 : Provider) (fuel2 : nat) :
  cached_at _factories k i ->
  reachable _factories heap0 w -> _factories !! k = Some factories ->
  p = Root \/ p = ctx1 -> created ctx1 w ->
  resolve _factories fuel1 k factories p ctx1 (N.of_nat i) w = Done r1 w1 ->
  rtc (step _factories) w1 w2 ->
  p = Root \/ p = ctx2 -> created ctx2 w2 ->
  (let cfg := run _factories schedule (init heap0) in
   let cfg' := run _factories later_schedule cfg in
   calls p k i (world cfg) <= 1 /\
   (handles p k i cfg = [] \/ calls p k i (world cfg) = 1) /\
   handles p k i cfg =
     replicate (length (handles p k i cfg))
       (default AnyEmpty (head (handles p k i cfg))) /\
   match head (handles p k i cfg) with
   | Some h => exists desc v, descriptor _factories k i = Some desc /\
                 slot p k i (world cfg) = mkCS true (Some v) /\ convert desc v = Some h
   | None => True
   end /\
   handles p k i cfg `prefix_of` handles p k i cfg' /\
   calls p k i (world cfg') <= 1 /\
   handles p k i cfg' =
     replicate (length (handles p k i cfg'))
       (default AnyEmpty (head (handles p k i cfg')))) /\
  (calls p k i w <= 1 /\
   resolve _factories (S fuel2) k factories p ctx2 (N.of_nat i) w2 = Done r1 w2 /\
   calls p k i w1 = 1 /\ calls p k i w2 = 1 /\
   slot p k i w2 = slot p k i w1).
Proof.
  intros Hcached Hreach Hf Hp1 Hc1 Hres1 Hsteps Hp2 Hc2. split.
  - intros cfg cfg'.
    destruct (one_instance_in_every_program _factories heap0 schedule p k i Hcached)
      as (H1 & H2 & H3 & H4). fold cfg in H1, H2, H3, H4.
    destruct (one_instance_in_every_program _factories heap0 (schedule ++ later_schedule)
                p k i Hcached) as (G1 & _ & G3 & _).
    rewrite run_app in G1, G3. fold cfg in G1, G3. fold cfg' in G1, G3.
    split_and!; try done.
    apply handles_prefix.
    destruct (run_Safe _factories schedule (init heap0) (Safe_init _ heap0))
      as (HS & _ & _). fold cfg in HS.
    by destruct (run_Safe _factories later_schedule cfg HS) as (_ & _ & Hpre).
  - pose proof (reachable_WF _ _ _ Hreach) as Hwf.
    pose proof Hcached as (desc & Hdesc & Hty). unfold descriptor in Hdesc.
    rewrite Hf in Hdesc. pose proof (vec_at_lookup _ _ _ Hdesc) as Hat.
    destruct (resolve_cached_Done_not_null _factories ctx1 fuel1 k factories p (N.of_nat i)
                desc w r1 w1 Hf Hp1 (conj Hwf Hc1) Hat Hty Hres1)
      as (v1 & Hnn & Hs1 & Hconv1 & _).
    destruct (step_sound _factories w w1 Hwf
                (step_resolved _ _ fuel1 k factories p ctx1 _ r1 w1 Hf Hp1 Hc1 Hres1))
      as [Hwf1 _].
    destruct (steps_sound _factories w1 w2 Hwf1 Hsteps) as [Hwf2 Hl2].
    rewrite Nat2N.id in Hs1.
    assert (Hs2 : slot p k i w2 = mkCS true (Some v1)).
    { rewrite (later_frozen _ _ Hl2); by rewrite Hs1. }
    split_and!.
    + rewrite (wf_calls _ _ Hwf p k i Hcached). destruct (initialized _); lia.
    + apply (resolve_hit _factories fuel2 k factories p ctx2 (N.of_nat i) desc v1 r1 w2);
        try done. by rewrite Nat2N.id.
    + rewrite (wf_calls _ _ Hwf1 p k i Hcached). by rewrite Hs1.
    + rewrite (wf_calls _ _ Hwf2 p k i Hcached). by rewrite Hs2.
    + by rewrite Hs1, Hs2.
Qed.

Lemma C1_witness :
  let cfg := run registry_chain two_threads_ask_for_C (init []) in
  let cfg' := run registry_chain a_scope_asks_for_C cfg in
  let factories := default [] (registry_chain !! "C") in
  let w := world_of (getService registry_chain 4 Root "A" (World_new [])) in
  let w1 := world_of (resolve registry_chain 3 "C" factories Root Root 0 w) in
  let w2 := (createScope w1).2 in
  (result cfg 0 = Some (AnyRef 2) /\ result cfg 1 = Some (AnyRef 2) /\
   result cfg' 2 = Some (AnyRef 2) /\
   handles Root "C" 0 cfg = [AnyRef 2; AnyRef 2] /\
   handles Root "C" 0 cfg' = [AnyRef 2; AnyRef 2; AnyRef 2] /\
   calls Root "C" 0 (world cfg) = 1 /\ calls Root "C" 0 (world cfg') = 1 /\
   resolve registry_chain 3 "C" factories Root Root 0 w = Done (AnyRef 2) w1) /\
  (calls Root "C" 0 (world cfg) <= 1 /\
   (handles Root "C" 0 cfg = [] \/ calls Root "C" 0 (world cfg) = 1) /\
   handles Root "C" 0 cfg =
     replicate (length (handles Root "C" 0 cfg))
       (default AnyEmpty (head (handles Root "C" 0 cfg))) /\
   match head (handles Root "C" 0 cfg) with
   | Some h => exists desc v, descriptor registry_chain "C" 0 = Some desc /\
                 slot Root "C" 0 (world cfg) = mkCS true (Some v) /\
                 convert desc v = Some h
   | None => True
   end /\
   handles Root "C" 0 cfg `prefix_of` handles Root "C" 0 cfg' /\
   calls Root "C" 0 (world cfg') <= 1 /\
   handles Root "C" 0 cfg' =
     replicate (length (handles Root "C" 0 cfg'))
       (default AnyEmpty (head (handles Root "C" 0 cfg')))) /\
  (calls Root "C" 0 w <= 1 /\
   resolve registry_chain 1 "C" factories Root (Scope 0) (N.of_nat 0) w2
     = Done (AnyRef 2) w2 /\
   calls Root "C" 0 w1 = 1 /\ calls Root "C" 0 w2 = 1 /\
   slot Root "C" 0 w2 = slot Root "C" 0 w1).
Proof.
  intros cfg cfg' factories w w1 w2. split.
  { vm_compute. repeat split; reflexivity. }
  apply (C1_one_instance_per_owner_key_index registry_chain [] Root "C" 0
           two_threads_ask_for_C a_scope_asks_for_C w factories Root 3 (AnyRef 2) w1 w2
           (Scope 0) 0).
  - eexists. split; [vm_compute; reflexivity | done].
  - eapply rtc_l; [|apply rtc_refl].
    apply (step_resolved registry_chain (World_new []) 4 "A"
             (default [] (registry_chain !! "A")) Root Root 0%N (AnyRef 0) w).
    + vm_compute. reflexivity.
    + left. reflexivity.
    + exact I.
    + vm_compute. reflexivity.
  - vm_compute. reflexivity.
  - left. reflexivity.
  - exact I.
  - vm_compute. reflexivity.
  - eapply rtc_l; [|apply rtc_refl]. apply step_createScope.
  - left. reflexivity.
  - vm_compute. lia.
Defined.

(** C4 under two threads.  One thread asks the root for [D], one for
    [C], and the thread of [C] is overtaken between [set_value] and the
    entry in the completion-order log.  Both requests return; [D], made
    from the finished [C], holds a reference to it; the log reads A, B,
    D, C; and the destructor of the provider releases [C] first and [D],
    which refers to it, after it. *)
Theorem C4_a_dependency_can_be_released_before_its_dependent :
  let cfg := run registry_chain D_is_logged_before_C (init []) in
  result cfg 0 = Some (AnyRef 3) /\ result cfg 1 = Some (AnyRef 2) /\
  heap (world cfg) !! 3 = Some (mkObj "D" [ArgOne (AnyRef 2)]) /\
  heap (world cfg) !! 2 = Some (mkObj "C" [ArgOne (AnyRef 1)]) /\
  impl_of (world cfg) <$> _initializationOrder (root (world cfg)) =
    [Some "A"; Some "B"; Some "D"; Some "C"] /\
  impl_of (world cfg) <$> (destroy Root (world cfg)).1 =
    [Some "C"; Some "D"; Some "B"; Some "A"] /\
  chain_teardown_ok chain_registrations = true.
Proof. vm_compute. repeat split; reflexivity. Qed.

End ThreadsFacts.
